(* ===== verification/_CoqProject ===== *)
-Q . S2P
Prelude.v
GoTime.v
Schedule.v
RunLoop.v
Number.v
RandomFloat.v
ForLoop.v
Claims.v
GoStrings.v
Header.v
RequestEntry.v
Version.v
StrBytes.v
Nats.v
Interleave.v
Jobs.v
Ticker.v
LoopTree.v
