(* ===== verification/Prelude.v ===== *)
(** * go-sail: a verification development

    This library models the Go sources of the go-sail repository that are
    under [src/] and proves the properties that make them correct.  The
    program is a set of independent leaf packages; the one with real
    temporal behaviour is the recurring-task scheduler ([src/schedule]).

    ** The program's parts and the files that model them

    - [Prelude] (this file).  What every component shares: Go's [int64]
      as [Z] with the wrap-around written out ([wrap64], [add64], [sub64],
      [mul64], [neg64], [quot64]), the congruence [eqm64] modulo 2^64 with
      its [Equivalence] and [Proper] instances, truncated division, the
      [result] type that stands for "a value or a panic", the state monad
      [State] used for methods with a pointer receiver and the monad
      [Proc] of the functions that change a state and may panic, the
      development's tactics ([int64_lia], [case_goal_decide],
      [run_state], [proc_run]) and the hint
      databases [go] (resolution and rewriting) and [int64] (rewriting).

    - [GoTime].  The part of Go's [time] package the scheduler uses:
      [Duration] is an [int64] count of nanoseconds, the unit constants
      [Millisecond], [Second], [Minute], [Hour], and [Milliseconds], which
      is truncated division by 10^6.

    - [Schedule].  [src/schedule/interval.go]: the method [Every] and the
      eighteen named cadence methods ([EverySecond] ... [Yearly]) of
      [*taskJob], each written as the source writes it: assign
      [j.interval], call [j.run()], return [j.cancelFunc].  The receiver,
      [run] and the cancel capability are declared in a file of the
      repository that is not under [src/]; they are modelled from the
      specification.  The state of one job is the record [taskJob]: the
      fields [interval] and [cancelFunc] of the Go struct, every loop the
      job has started ([loops]; a [CancelFunc] names the loop it stops by
      its index), the monotonic [clock], and the history ([calls], [log]).
      [run] raises the stop signal of every earlier loop, starts a ticker
      at the current clock reading and stores its capability;
      [call_cancel] is the invocation of a capability.  The file also
      holds the catalogue of cadences of the specification ([Cadence],
      [cadence_duration]), the single primitive [arm] the specification
      describes, the type [Method] of the nineteen entry points with its
      dispatcher [method_run], and the job invariant [sched_wf].

    - [RunLoop].  The behaviour of the ticking loop, as the specification
      describes it.  [tick] is one firing of a loop: it needs the stop
      signal down and a due tick, invokes the work callable synchronously
      (the clock advances by the time the invocation took), records the
      invocation in [calls], reports a failure to [log] and re-arms the
      ticker on its grid ([next_due]: ticks missed while the work ran are
      dropped).  [wait] lets time pass.  [step] is the labelled transition
      relation whose labels are what the caller does ([LCall], [LCancel])
      and what the environment does ([LTick], [LWait]); [step_fun] and
      [run_labels] are its executable form.  [advance] is the prompt
      deterministic scheduler: it fires every due tick of the current loop
      up to a deadline.  The work callable is opaque: each invocation
      carries how long it ran and whether it failed ([Work]).  [run_wf]
      is the invariant of the whole state.

    - [Interleave].  The same loop with invocations that take time: an
      invocation is two events, [EBegin] (the loop takes its tick and calls
      the work: [begin]) and [EEnd] (the work returns: [finish], which
      records the invocation and reports a failure), and the calls of the
      public methods ([ECall]), of capabilities ([ECancel]) and the passing
      of time ([EWait]) come between them in any order.  The state
      [System] is the job and the invocations in flight; [event_step] and
      [run_events] execute a trace; [sys_wf] is the invariant.  [expand]
      maps a label of [RunLoop] to its events.

    - [Ticker].  Go's [time.Ticker] as the [time] package documents it,
      under one loop: the timer of the runtime ([send], which does not
      block and drops the tick when the channel is full, and schedules
      the next send past the current time), the channel with room for one
      tick ([receive]), [NewTicker] with its panic on a period that is not
      positive, [Stop].  [loop_of] maps a ticker to the [Loop] that
      [Schedule], [RunLoop] and [Interleave] keep.

    - [LoopTree].  The loop of a job as a program, from the algorithm of
      the specification: [run_tree] is an interaction tree whose events
      ([LoopE]) are what the loop asks of its environment, the [select]
      on the channel of the ticker and on the stop signal ([Select],
      answered by a [Signal]), the invocation of the work callable
      ([Invoke], answered by its [Outcome]: a panic is recovered at the
      boundary of the loop and is a failure), the report of a failure
      ([Report]) and the stop of the ticker ([StopTicker]); [round] is
      one round of it.  [monitor] is the protocol of the loop, an
      automaton on the answered events of a trace ([history]).  [handle]
      interprets the events in the state [taskJob] as [RunLoop] describes
      the environment: the ticker of the loop ([on_select], which
      delivers a tick when it is due or as soon as the loop waits again),
      a work callable that takes time ([on_invoke], over [Work]), the
      logging collaborator ([on_report]) and a caller who invokes the
      capability at a given time or never.

    - [Jobs].  A program with several jobs: the methods of
      [interval.go] have a pointer receiver, so the state [Program] is
      the heap of the jobs a program has constructed, each a [System] of
      [Interleave], with the one monotonic clock they read.  An event is
      the construction of a job at a fresh pointer ([PNew]), an event of
      [Interleave] at the job a pointer names ([POn], through [on_ptr]; a
      pointer that names no job is refused), or the passing of time for
      all jobs ([PWait]).  [project] is what one job sees of a run.

    - [Number].  [src/utils/number.go]: [Pow] with its loop [Pow_loop]
      and [RandomInt64], every branch, over the class [RandSource], whose
      laws are the contract of [rand.Int63n] (a panic on a non-positive
      bound, a value below the bound otherwise).  [ListSource] is the
      instance that replays a list of draws, for evaluation.

    - [RandomFloat].  [RandomFloat64] of [src/utils/number.go]: the two
      guards, the two scaling loops ([scale_loop], on an [int] scale that
      wraps), the call of [RandomInt64] and the decimal division.  The
      class [FloatLib] is the interface to [float64] and to the decimal
      library; [IEEE] is its instance on the kernel's binary64 numbers,
      in which the precision is truncated to [int32] ([wrap32]) as the
      source converts it.

    - [ForLoop].  The two functions of [number.go] that loop without a
      bound, [Pow] and [RandomFloat64], as interaction trees: [for_tree]
      is Go's [for { ... }] (the iteration combinator of the ITree
      library over a body that goes on or breaks), [Pow_tree] and
      [RandomFloat64_tree] are the functions over it, with the bodies
      [Pow_body] and [scale_body] of their loops.  [for_fuel] is the same
      loop with fuel, and the loops of [Number] and [RandomFloat] are
      instances of it.  A tree [returns] a value or [diverges].

    - [Claims].  [src/lib/jwt/claims.go]: [Valid] with the nil check of
      its receiver, and [standard_claims], the seven blocks that copy the
      registered claims of a map of untyped values ([Value], in a [gmap]
      with string keys) into [StandardClaims]: [string_claim] is the block
      of a text claim, [number_claim] the block of a time claim.  The
      classes [NumText] ([fmt.Sprintf], [strconv.ParseFloat], the
      conversion to [int64]) and [Validator] (the library's
      [StandardClaims.Valid]) are the interfaces to the libraries;
      [JwtLib] is the library's check of the three times at a clock
      reading.

    - [GoStrings].  What the sources use of Go's [strings]: [Split] and
      [Join] for a one-byte separator, and [TrimSpace] on the white space
      of Unicode in UTF-8 ([white] lists the encodings; bytes that are no
      valid encoding of a white character stop the trimming, as the
      decoder of the library reports them as U+FFFD).

    - [Header].  The request header of [net/http] as its documentation
      has it: [CanonicalMIMEHeaderKey] (names made of token bytes are
      canonicalised, the others left alone), [Get], [Values], [Add],
      [Set_] and [Del] on canonical keys, and [request_header], the header
      of a request as the fields the server added in their order.

    - [RequestEntry].  [src/http/middleware/requestentry.go]: the handler
      [RequestEntry] as a procedure ([Proc]) over [World] (the gin
      context with the request's header and the keys of [c.Set], the
      UUID generator, the clock); [c.Next()] is the continuation it is
      given.  [Header_Get] is [c.Request.Header.Get], on the header of
      [Header]; [UuidSource] is the interface to [uuid.New], which hands
      out an identifier or panics; the handler recovers from no panic,
      neither of the generator nor of the rest of the chain.

    - [Version].  [src/utils/version.go]: [PrintVersion] with the template
      constant byte for byte; [Parse] and [Execute] are [text/template]
      for literal text and actions of the form [{{.name}}].  The line the
      function prints is the value it returns.

    - [StrBytes].  [src/utils/string_go1.19.go]: [StrToBytes] and
      [BytesToStr] on string and slice headers over a byte-addressed
      memory, with [slice_store] for an assignment to an element (a
      panic out of range, a fault on read-only memory).
      [StrToBytes_run] and [BytesToStr_run] are the same functions
      statement by statement, with the collection that may run between
      the statement that builds the header and the one that converts it;
      [collect] frees the bytes that the roots ([Root]: the strings and
      slices still in use) do not reach.

    - [Nats].  [src/lib/nats/nats.go]: [initNats], [Init], [GetInstance]
      and [New]; the package-level connection is the state of the
      procedures ([Proc]), the client library is the class [NatsLib].

    ** What the theorems show

    - [GoTime]: the unit constants are the documented multiples and fit
      [int64]; [Milliseconds d < 1] is exactly [d < Millisecond].
    - [Schedule]: [Every] stores [Z.max d Millisecond]
      ([Every_interval]); each named method is [arm] at the catalogued
      multiple ([named_cadence_refines_arm]), with no overflow
      ([named_cadence_in_bounds]) and in agreement with [Every]
      ([Every_agrees_with_named]); every method returns the capability of
      the loop it started ([method_returns_new_capability]), leaves
      exactly that loop active ([method_leaves_one_active_loop]) and
      preserves [sched_wf] ([method_preserves_wf]); the capability is
      idempotent ([cancel_idempotent]) and terminal
      ([cancel_is_terminal]), and a superseded capability does nothing
      ([stale_capability_is_noop]).
    - [RunLoop]: [run_wf] holds of every job reachable from [NewTaskJob]
      ([reachable_jobs_are_wf]), hence invocations never overlap
      ([invocations_do_not_overlap]), a loop never runs more often than
      once per period ([invocation_rate_bound]) and the log is the record
      of the failures ([log_records_failures]); a cancelled loop never
      ticks again ([cancelled_loop_never_ticks],
      [no_invocation_after_cancel]); a failing invocation leaves the loop
      running ([failing_tick_keeps_loop_running]); [advance] terminates
      with the fuel [advance_fuel] computes ([scheduler_terminates]),
      refines [step] ([scheduler_refines_transitions]) and, when the work
      is shorter than the interval, invokes it exactly on the grid
      ([on_time_loop_is_periodic]); the scenarios of the specification
      evaluate as it says ([scenario_every_second],
      [scenario_slow_work]).
    - [Interleave]: [sys_wf] holds of every state reachable from a new job
      ([interleaving_keeps_invariant]); the invocations of one loop never
      overlap, whatever is called while the work runs
      ([loop_invocations_are_sequential]); at most one invocation in
      flight belongs to a loop that is not stopped
      ([at_most_one_live_invocation]); a capability invoked during the
      work, also by the work, returns at once, lets the invocation return
      and stops the loop for good ([cancel_during_invocation]); a method
      called during the work starts a loop whose first invocation begins
      beside the one in flight ([rearm_during_invocation_overlaps],
      [rearm_overlap]), so the work of one job can run twice at a time;
      and the runs of [RunLoop] are the interleavings in which nothing
      happens while the work runs ([atomic_runs_are_interleavings]).
    - [LoopTree]: whatever the environment answers, a trace of the loop
      is a word of the protocol: an invocation follows a tick, one per
      tick; a failure is reported before anything else happens; after the
      stop signal the loop stops the ticker and does nothing else; it
      returns only then ([loop_follows_protocol]); and every word of the
      protocol is a trace ([protocol_is_complete]).  In the environment
      of [RunLoop] the loop is Go's [for] over a function on jobs
      ([loop_handled]); on the job a method has armed, with a caller who
      cancels at a time [c], it returns the job [advance] computes for
      the deadline [c], cancelled ([loop_runs_the_scheduler]); with a
      caller who never cancels it never returns
      ([loop_leaves_only_on_cancel]); the scenarios evaluate
      ([scenario_fails_once], [scenario_cancel_at_a_tick]).
    - [Ticker]: the loop a public method arms is a ticker seen from the
      loop, [NewTicker] does not panic on the interval a method stores,
      and taking ticks from the ticker is firing the loop, step for step
      ([armed_loop_refined_by_ticker], [ticker_refines_loop]); one late
      send is the sends on time it stands for
      ([late_send_is_on_time_sends]).
    - [Jobs]: a job is the run of its own events and of time
      ([job_sees_its_own_events]), so two runs that give a job the same
      events leave it the same ([jobs_do_not_interfere]) and events at
      different pointers commute ([distinct_jobs_commute]); every job of
      a reachable program satisfies [sys_wf], has one active loop at most
      and reads the program's clock ([program_keeps_invariant]); a loop
      stays active until a method is called on its job or its capability
      is invoked, whatever happens elsewhere
      ([only_its_capability_stops_a_loop]); the invocations of two jobs
      do overlap ([two_jobs_overlap]).
    - [Number]: [Pow] panics exactly on a negative exponent
      ([Pow_panics_iff]), terminates ([Pow_terminates]), stays in [int64]
      ([Pow_result_in_int64]) and returns [x ^ (2 ^ (y - 1))] wrapped to
      64 bits ([Pow_closed_form]), which is [x ^ y] only for [y <= 2]
      ([Pow_is_power_only_up_to_2]).  [RandomInt64] stays in
      [[start, end)] when the range spans zero or starts at it
      ([RandomInt64_mixed_in_range], [RandomInt64_from_zero]), returns
      [start] without drawing when the range is positive and [end - v] on
      a negative range, which leaves [[start, end)]
      ([RandomInt64_same_sign_ranges], [RandomInt64_negative_escapes]),
      and panics inside [rand.Int63n] on the ranges whose width wraps
      ([RandomInt64_wide_range_panics]).  Both functions return [int64]
      values ([results_are_int64]).
    - [RandomFloat]: the scaling loop terminates within 65 iterations on
      every number whose product with zero is whole, because the scale
      wraps to zero ([scale_loop_terminates]); a range that holds zero is
      sampled between its scaled bounds ([RandomFloat64_mixed_in_range]);
      a range of positive numbers is never sampled
      ([RandomFloat64_positive_is_constant]); a scale wrapped to zero
      makes the decimal division panic
      ([RandomFloat64_zero_scale_panics]); on binary64 the function
      returns on finite bounds ([RandomFloat64_terminates]) and runs out
      of every fuel on a NaN or on an infinite bound of a range in order
      ([RandomFloat64_never_returns]), and the examples of the source's
      comment evaluate to other values than the comment gives.
    - [ForLoop]: the models with fuel are adequate: a function returns a
      value exactly when some fuel gives it ([fuel_is_adequate], from
      [for_fuel_returns] and [for_leaf_fuel]), and a loop that runs out of
      every fuel diverges ([for_fuel_diverges]).  [Pow] returns on every
      input, with the value [Pow_value] ([Pow_returns]); on binary64
      [RandomFloat64] diverges exactly on the bounds [bad_bounds] (a NaN,
      or an infinity in a range that is in order and not empty) and
      returns on all others ([RandomFloat64_returns_iff]).
    - [Claims]: the structure handed to the library, field by field
      ([standard_claims_spec]); the subject ends up in the field [Id]
      ([subject_stored_as_id]); claims [Valid] does not know are ignored
      ([Valid_frame]) and only the three times count
      ([Valid_reads_time_claims_only]); with the library's check, a map is
      accepted exactly when each time is zero or on the right side of the
      clock ([Valid_accepts_iff]), so that an expiry that does not parse
      is no expiry ([unparsable_exp_never_expires]), while a number
      survives the detour through text and the verdict follows its
      conversion to [int64], which for a number beyond [int64] is the
      processor's ([number_claim_round_trip], [huge_exp_has_expired]).
    - [GoStrings]: joining the pieces of a split gives the text back
      ([Join_Split]), a split has at least one piece and its first piece
      holds no separator; [TrimSpace] meets its specification [trims]
      (the text is the result between white characters, and the result
      starts and ends with none), which names one text
      ([TrimSpace_spec], from [trim_split] and [trim_unique]), and it is
      idempotent ([TrimSpace_idem]).  The lemmas on [strip] are proved
      once for the encodings read from the front and from the back,
      against the class [Code].
    - [Header]: the canonical form is a normal form of names up to the
      case of their letters ([CanonicalMIMEHeaderKey_normal_form]); the
      operations see a name through its canonical form only (the [Proper]
      instances for [same_field]); what is stored is what is found
      ([header_lookup_round_trip]).
    - [RequestEntry]: the handler is the world [entered] followed by
      the rest of the chain, or the panic of the generator
      ([RequestEntry_run]); which request id and span id the context
      gets, and that a panic of the generator leaves the context as it
      was ([RequestEntry_ids]); which language, the empty one included
      ([RequestEntry_language]); the same on the fields a client sent,
      under any capitalisation of their names ([Header_Get_round_trip],
      [RequestEntry_on_wire]); and that the handler changes the five keys
      only and then runs the rest of the chain once, whose panic is its
      own ([RequestEntry_then_Next]).
    - [Version]: [PrintVersion] never panics and prints the banner
      without the white characters at its ends, the no-break space and
      the other white space of Unicode included ([PrintVersion_output],
      [PrintVersion_unicode_space]).
    - [StrBytes]: the conversions are inverse up to the capacity and keep
      the bytes ([conversions_round_trip]); they share memory, so a write
      through the slice changes the string or faults
      ([conversions_alias]); and the value they return denotes the
      argument's bytes only while something else keeps these alive
      ([conversions_need_a_live_reference]).
    - [Nats]: [Init] stores the connection [Connect] returns, or panics
      with its error and leaves the connection of an earlier [Init] in
      place ([Init_GetInstance]); half a credential is dropped
      ([partial_credentials_are_dropped]).

    ** Bounds and fuel

    Integers are kept at 64 bits wherever the source computes with them
    at run time: the operators wrap, and the theorems state either the
    wrapped value or the range in which no wrap happens.  The durations
    of [interval.go] are constant expressions, which the Go compiler
    evaluates exactly and rejects on overflow; they are exact integers,
    proved to fit.  The loop of [Pow] takes fuel, one unit per iteration:
    [Z.to_nat y] units are enough for every exponent, and fewer are not
    for an exponent of at least 2.  The scaling loops of [RandomFloat64]
    take fuel, one unit per iteration: 65 units are enough for every
    finite number, and no amount is for a NaN.  [ForLoop] gives the same
    loops without fuel and proves that fuel loses nothing: a result
    exists with some fuel exactly when the loop returns it.  [advance]
    takes fuel, one unit per tick: one per period between the clock and
    the deadline, plus one, is enough, because every tick moves the next
    due time at least one period ahead.  [strip], the loop of
    [TrimSpace], takes fuel, one unit per white character: the length of
    the text is enough, because each round drops a byte at least
    ([strip_is_solid], [strip_blank]).  The loop of [LoopTree] has no
    fuel: it is a tree that returns or diverges, and the fuel of
    [advance] is proved to be one round short of what its rounds need
    ([for_fuel_advance]).

    ** What is not modelled

    The goroutine scheduler below the level of the events of
    [Interleave]: a call of a method or of a capability is one event, and
    so are the beginning and the return of an invocation; what the work
    callable does between the two is visible only as the calls it makes
    on the job.  In [Jobs] a job lives from its construction on: the
    garbage collection of a job nothing points to is not modelled (its
    loop keeps running, which is what the theorem on lost capabilities
    says).  The collector of [StrBytes] is the one package [unsafe]
    lets a program assume: it may run between any two statements and
    free every byte no string or slice in use reaches; stacks, objects
    and spans are not modelled.  The logger, gin,
    the JWT library, the NATS client, [uuid] and [math/rand] are libraries
    the sources only call; where a component depends on one, the
    dependency is an interface (a class) with the laws the component
    relies on, and an instance of the class serves for evaluation.
    [net/http]'s header, [time.Ticker], [strings] and [text/template] are
    written out from their documentation, for the inputs the sources give
    them (one-byte separators, templates of literal text and field
    actions); the parsing of a request into fields and
    the value a tick carries are not modelled.  The traces of
    [LoopTree] cover every choice a [select] makes; the environment
    [handle] fixes one, the tick, when a tick and a cancellation are
    ready together, as [advance] does, and takes the invocation of the
    work callable as one step (its interleavings are those of
    [Interleave]).  Of
    [float64] the general theorems assume only the laws of [FloatLib];
    the conversion of a [float64] that does not fit [int64] is the one of
    amd64 in the instance [IEEE].  The test
    file [src/utils/time_test.go] is left out: its subject is not under
    [src/]. *)

From Stdlib Require Import ZArith Lia.
From stdpp Require Import prelude strings.

#[local] Open Scope Z_scope.

(** ** Hint databases *)

Create HintDb go discriminated.
Create Rewrite HintDb go.
Create Rewrite HintDb int64.

(** ** A value or a panic *)

(** Go code that can panic returns a [result]: [Ok v] when it returns [v],
    [Panic msg] when it panics with the message [msg]. *)
Inductive result (A : Type) : Type :=
  | Ok (a : A)
  | Panic (msg : string).
Arguments Ok {A} a.
Arguments Panic {A} msg.

#[export] Instance result_eq_dec `{EqDecision A} : EqDecision (result A).
Proof. solve_decision. Defined.

#[export] Instance result_ret : MRet result := @Ok.
#[export] Instance result_bind : MBind result :=
  λ A B f m, match m with Ok a => f a | Panic e => Panic e end.
#[export] Instance result_fmap : FMap result :=
  λ A B f m, match m with Ok a => Ok (f a) | Panic e => Panic e end.

Definition is_Ok {A} (r : result A) : bool :=
  match r with Ok _ => true | Panic _ => false end.

Definition is_Panic {A} (r : result A) : bool := negb (is_Ok r).

(** ** The state monad of a pointer receiver *)

(** A method [func (j *T) m(args) R] is a function from the receiver's
    state to the result and the new state. *)
Definition State (S A : Type) : Type := S → A * S.

#[export] Instance State_ret {S} : MRet (State S) := λ A a s, (a, s).
#[export] Instance State_bind {S} : MBind (State S) :=
  λ A B f m s, let '(a, s') := m s in f a s'.

Definition gets {S A} (f : S → A) : State S A := λ s, (f s, s).
Definition modify {S} (f : S → S) : State S unit := λ s, (tt, f s).
Definition exec {S A} (m : State S A) (s : S) : S := (m s).2.
Definition eval {S A} (m : State S A) (s : S) : A := (m s).1.

(** ** 64-bit signed integers *)

Definition int64_min : Z := - 2 ^ 63.
Definition int64_max : Z := 2 ^ 63 - 1.

(** [in_int64 z]: [z] is the value of some [int64]. *)
Definition in_int64 (z : Z) : Prop := int64_min ≤ z ≤ int64_max.

#[export] Instance in_int64_dec z : Decision (in_int64 z).
Proof. unfold in_int64. apply _. Defined.

(** The value an [int64] computation yields when the exact result is [z]. *)
Definition wrap64 (z : Z) : Z := (z + 2 ^ 63) mod 2 ^ 64 - 2 ^ 63.

Definition add64 (x y : Z) : Z := wrap64 (x + y).
Definition sub64 (x y : Z) : Z := wrap64 (x - y).
Definition mul64 (x y : Z) : Z := wrap64 (x * y).
Definition neg64 (x : Z) : Z := wrap64 (- x).
(** Go's [/] on integers truncates toward zero. *)
Definition quot64 (x y : Z) : Z := wrap64 (x `quot` y).

(** Two integers are the same [int64] when they agree modulo 2^64. *)
Definition eqm64 (a b : Z) : Prop := a mod 2 ^ 64 = b mod 2 ^ 64.

#[global] Typeclasses Opaque eqm64.

Infix "≡64" := eqm64 (at level 70, no associativity).

(** ** Tactics *)

(** Unfold the range predicates and constants so that [lia] sees numbers. *)
Ltac unfold_int64 :=
  unfold in_int64, int64_min, int64_max in *.

Ltac int64_lia := unfold_int64; lia.

(** Case analysis on every [decide] and boolean comparison of the goal. *)
Ltac case_guards :=
  repeat first
    [ case_decide
    | case_bool_decide
    | match goal with
      | |- context [Z.ltb ?a ?b] => destruct (Z.ltb_spec a b)
      | |- context [Z.leb ?a ?b] => destruct (Z.leb_spec a b)
      | |- context [Z.eqb ?a ?b] => destruct (Z.eqb_spec a b)
      end ].

(** Case analysis on a [decide] of the goal, leaving the hypotheses alone. *)
Tactic Notation "case_goal_decide" "as" simple_intropattern(p) :=
  match goal with
  | |- context [@decide ?P ?dec] => destruct (@decide P dec) as p
  end.

Ltac case_goal_decide :=
  match goal with
  | |- context [@decide ?P ?dec] => destruct (@decide P dec)
  end.

(** Run a monadic definition: unfold the monad's operations. *)
Ltac run_state :=
  unfold exec, eval, gets, modify, mbind, mret, State_bind, State_ret in *;
  cbn beta iota zeta in *.

(** ** Lemmas on [result] *)

Section result_lemmas.
Context {A B : Type}.
Implicit Types (r : result A) (f : A → result B).

Lemma result_bind_Ok a f : Ok a ≫= f = f a.
Proof. reflexivity. Qed.

Lemma result_bind_Panic msg f : Panic msg ≫= f = Panic msg.
Proof. reflexivity. Qed.

Lemma result_bind_ret r : r ≫= mret = r.
Proof. by destruct r. Qed.

Lemma is_Ok_spec r : is_Ok r = true ↔ ∃ a, r = Ok a.
Proof.
  destruct r as [a|msg]; cbn; split; eauto; [intros [=]|intros [? [=]]].
Qed.

Lemma is_Panic_spec r : is_Panic r = true ↔ ∃ msg, r = Panic msg.
Proof.
  destruct r as [a|msg]; cbn; split; eauto; [intros [=]|intros [? [=]]].
Qed.

Lemma bind_Ok_inv r f b :
  r ≫= f = Ok b → ∃ a, r = Ok a ∧ f a = Ok b.
Proof. destruct r as [a|msg]; cbn; [eauto|intros [=]]. Qed.
End result_lemmas.

(** ** Lemmas on [State] *)

Section state_lemmas.
Context {S A B C : Type}.
Implicit Types (m : State S A) (f : A → State S B) (g : B → State S C).

Lemma state_bind_ret_l a f s : (mret a ≫= f) s = f a s.
Proof. reflexivity. Qed.

Lemma state_bind_ret_r m s : (m ≫= mret) s = m s.
Proof. run_state. by destruct (m s). Qed.

Lemma state_bind_assoc m f g s :
  ((m ≫= f) ≫= g) s = (m ≫= (λ a, f a ≫= g)) s.
Proof. run_state. by destruct (m s). Qed.

Lemma exec_bind m f s : exec (m ≫= f) s = exec (f (eval m s)) (exec m s).
Proof. run_state. by destruct (m s). Qed.

Lemma eval_bind m f s : eval (m ≫= f) s = eval (f (eval m s)) (exec m s).
Proof. run_state. by destruct (m s). Qed.

Lemma exec_modify (h : S → S) s : exec (modify h) s = h s.
Proof. reflexivity. Qed.

Lemma exec_gets (h : S → A) s : exec (gets h) s = s.
Proof. reflexivity. Qed.

Lemma eval_gets (h : S → A) s : eval (gets h) s = h s.
Proof. reflexivity. Qed.

Lemma bind_gets (h : S → A) (k : A → State S B) s :
  (gets h ≫= k) s = k (h s) s.
Proof. reflexivity. Qed.

Lemma bind_modify (h : S → S) (k : unit → State S B) s :
  (modify h ≫= k) s = k () (h s).
Proof. reflexivity. Qed.
End state_lemmas.

(** Run a computation of the state monad from its head: one rewriting step
    per [gets], [modify], [mret] or nested bind. *)
Ltac state_step :=
  first [ rewrite bind_gets | rewrite bind_modify | rewrite state_bind_ret_l
        | rewrite state_bind_assoc ]; cbn beta.

Ltac state_run := repeat state_step.

#[export] Hint Rewrite @exec_bind @eval_bind @exec_modify @exec_gets @eval_gets
  : go.

(** ** Procedures that may panic *)

(** A function that changes a state and may panic.  What it did to the
    state before the panic stays done; what comes after the panic does
    not run. *)
Definition Proc (S A : Type) : Type := S → result A * S.

#[export] Instance Proc_ret {S} : MRet (Proc S) := λ A a s, (Ok a, s).
#[export] Instance Proc_bind {S} : MBind (Proc S) :=
  λ A B f m s,
    match m s with
    | (Ok a, s') => f a s'
    | (Panic msg, s') => (Panic msg, s')
    end.

(** A computation that cannot panic, as a procedure. *)
Definition lift {S A} (m : State S A) : Proc S A :=
  λ s, let '(a, s') := m s in (Ok a, s').

(** A call that returns a result or panics and leaves the state alone. *)
Definition call {S A} (f : S → result A) : Proc S A := λ s, (f s, s).

Section proc_lemmas.
Context {S A B C : Type}.
Implicit Types (m : Proc S A) (f : A → Proc S B) (g : B → Proc S C).

Lemma proc_bind_ret_l a f s : (mret a ≫= f) s = f a s.
Proof. reflexivity. Qed.

Lemma proc_bind_ret_r m s : (m ≫= mret) s = m s.
Proof. unfold mbind, Proc_bind. by destruct (m s) as [[a|msg] s']. Qed.

Lemma proc_bind_assoc m f g s :
  ((m ≫= f) ≫= g) s = (m ≫= (λ a, f a ≫= g)) s.
Proof. unfold mbind, Proc_bind. by destruct (m s) as [[a|msg] s']. Qed.

Lemma bind_lift (n : State S A) f s :
  (lift n ≫= f) s = f (eval n s) (exec n s).
Proof. unfold mbind, Proc_bind, lift, eval, exec. by destruct (n s). Qed.

(** A panic ends the procedure. *)
Lemma bind_call (h : S → result A) f s :
  (call h ≫= f) s =
    match h s with Ok a => f a s | Panic msg => (Panic msg, s) end.
Proof. unfold mbind, Proc_bind, call. by destruct (h s). Qed.
End proc_lemmas.

(** Run a procedure from its head. *)
Ltac proc_step :=
  first [ rewrite bind_lift | rewrite proc_bind_ret_l | rewrite proc_bind_assoc ];
  cbn beta.

Ltac proc_run := repeat proc_step.

(** ** Lemmas on [int64] *)

Lemma pow2_63 : 2 ^ 63 = 9223372036854775808.
Proof. reflexivity. Qed.

Lemma pow2_64 : 2 ^ 64 = 18446744073709551616.
Proof. reflexivity. Qed.

Lemma wrap64_range z : in_int64 (wrap64 z).
Proof.
  unfold wrap64. pose proof (Z.mod_pos_bound (z + 2 ^ 63) (2 ^ 64)).
  rewrite pow2_63, pow2_64 in *. int64_lia.
Qed.

Lemma wrap64_id z : in_int64 z → wrap64 z = z.
Proof.
  intros Hz. unfold wrap64. rewrite Z.mod_small; [lia|].
  rewrite pow2_63, pow2_64 in *. int64_lia.
Qed.

Lemma wrap64_eqm z : wrap64 z ≡64 z.
Proof.
  unfold eqm64, wrap64.
  replace ((z + 2 ^ 63) mod 2 ^ 64 - 2 ^ 63)
    with ((z + 2 ^ 63) mod 2 ^ 64 + - (2 ^ 63)) by lia.
  rewrite Zplus_mod_idemp_l. f_equal. lia.
Qed.

Lemma wrap64_proper a b : a ≡64 b → wrap64 a = wrap64 b.
Proof.
  unfold eqm64, wrap64. intros Hab.
  by rewrite <-(Zplus_mod_idemp_l a), Hab, Zplus_mod_idemp_l.
Qed.

Lemma wrap64_inj_eqm a b : wrap64 a = wrap64 b → a ≡64 b.
Proof.
  intros Hab. unfold eqm64.
  by rewrite <-(wrap64_eqm a), <-(wrap64_eqm b), Hab.
Qed.

Lemma wrap64_idem z : wrap64 (wrap64 z) = wrap64 z.
Proof. apply wrap64_id, wrap64_range. Qed.

#[export] Instance eqm64_equiv : Equivalence eqm64.
Proof.
  unfold eqm64. split; [intros ?|intros ??|intros ???]; congruence.
Qed.

#[export] Instance add_eqm64 : Proper (eqm64 ==> eqm64 ==> eqm64) Z.add.
Proof.
  unfold eqm64. intros a a' Ha b b' Hb.
  by rewrite Zplus_mod, Ha, Hb, <-Zplus_mod.
Qed.

#[export] Instance mul_eqm64 : Proper (eqm64 ==> eqm64 ==> eqm64) Z.mul.
Proof.
  unfold eqm64. intros a a' Ha b b' Hb.
  by rewrite Zmult_mod, Ha, Hb, <-Zmult_mod.
Qed.

#[export] Instance opp_eqm64 : Proper (eqm64 ==> eqm64) Z.opp.
Proof.
  intros a a' Ha. rewrite !Z.opp_eq_mul_m1. by apply mul_eqm64.
Qed.

#[export] Instance sub_eqm64 : Proper (eqm64 ==> eqm64 ==> eqm64) Z.sub.
Proof.
  intros a a' Ha b b' Hb. rewrite <-!Z.add_opp_r.
  by apply add_eqm64, opp_eqm64.
Qed.

#[export] Instance wrap64_eqm64 : Proper (eqm64 ==> eq) wrap64.
Proof. intros a b. apply wrap64_proper. Qed.

Lemma eqm64_pow a b (n : nat) : a ≡64 b → a ^ Z.of_nat n ≡64 b ^ Z.of_nat n.
Proof.
  intros Hab. induction n as [|n IH]; [done|].
  rewrite Nat2Z.inj_succ, !Z.pow_succ_r by lia. by apply mul_eqm64.
Qed.

Lemma eqm64_pow_Z a b n : a ≡64 b → a ^ n ≡64 b ^ n.
Proof.
  intros Hab. destruct (decide (0 ≤ n)) as [Hn|Hn].
  - rewrite <-(Z2Nat.id n) by done. by apply eqm64_pow.
  - by rewrite !Z.pow_neg_r by lia.
Qed.

#[export] Instance pow_eqm64 : Proper (eqm64 ==> eq ==> eqm64) Z.pow.
Proof. intros a b Hab n ? <-. by apply eqm64_pow_Z. Qed.

Lemma mul64_eqm a b : mul64 a b ≡64 a * b.
Proof. apply wrap64_eqm. Qed.

Lemma add64_eqm a b : add64 a b ≡64 a + b.
Proof. apply wrap64_eqm. Qed.

Lemma sub64_eqm a b : sub64 a b ≡64 a - b.
Proof. apply wrap64_eqm. Qed.

(** An [int64] is determined by its residue modulo 2^64. *)
Lemma eqm64_in_int64 a b : in_int64 a → in_int64 b → a ≡64 b → a = b.
Proof.
  intros Ha Hb Hab%wrap64_proper. by rewrite !wrap64_id in Hab.
Qed.

(** Exactly one wrap: a value that exceeds the range by less than 2^64. *)
Lemma wrap64_above z :
  int64_max < z ≤ int64_max + 2 ^ 64 → wrap64 z = z - 2 ^ 64.
Proof.
  intros Hz. rewrite <-(wrap64_id (z - 2 ^ 64)) by (rewrite pow2_64 in *; int64_lia).
  apply wrap64_proper. unfold eqm64.
  replace z with (z - 2 ^ 64 + 1 * 2 ^ 64) at 1 by lia. by rewrite Z.mod_add.
Qed.

Lemma wrap64_below z :
  int64_min - 2 ^ 64 ≤ z < int64_min → wrap64 z = z + 2 ^ 64.
Proof.
  intros Hz. rewrite <-(wrap64_id (z + 2 ^ 64)) by (rewrite pow2_64 in *; int64_lia).
  apply wrap64_proper. unfold eqm64. by rewrite <-(Z.mod_add z 1) by done.
Qed.

Lemma mul64_wrap_l a b : mul64 (wrap64 a) b = mul64 a b.
Proof. apply wrap64_proper, mul_eqm64; [apply wrap64_eqm|done]. Qed.

Lemma mul64_wrap_r a b : mul64 a (wrap64 b) = mul64 a b.
Proof. apply wrap64_proper, mul_eqm64; [done|apply wrap64_eqm]. Qed.

Lemma add64_wrap_l a b : add64 (wrap64 a) b = add64 a b.
Proof. apply wrap64_proper, add_eqm64; [apply wrap64_eqm|done]. Qed.

Lemma add64_wrap_r a b : add64 a (wrap64 b) = add64 a b.
Proof. apply wrap64_proper, add_eqm64; [done|apply wrap64_eqm]. Qed.

Lemma sub64_wrap_l a b : sub64 (wrap64 a) b = sub64 a b.
Proof. apply wrap64_proper, sub_eqm64; [apply wrap64_eqm|done]. Qed.

Lemma sub64_wrap_r a b : sub64 a (wrap64 b) = sub64 a b.
Proof. apply wrap64_proper, sub_eqm64; [done|apply wrap64_eqm]. Qed.

Lemma add64_exact a b : in_int64 (a + b) → add64 a b = a + b.
Proof. apply wrap64_id. Qed.

Lemma sub64_exact a b : in_int64 (a - b) → sub64 a b = a - b.
Proof. apply wrap64_id. Qed.

Lemma mul64_exact a b : in_int64 (a * b) → mul64 a b = a * b.
Proof. apply wrap64_id. Qed.

Lemma neg64_exact a : in_int64 (- a) → neg64 a = - a.
Proof. apply wrap64_id. Qed.

(** The one [int64] whose negation overflows. *)
Lemma neg64_min : neg64 int64_min = int64_min.
Proof. reflexivity. Qed.

Lemma add64_range a b : in_int64 (add64 a b).
Proof. apply wrap64_range. Qed.

Lemma sub64_range a b : in_int64 (sub64 a b).
Proof. apply wrap64_range. Qed.

Lemma mul64_range a b : in_int64 (mul64 a b).
Proof. apply wrap64_range. Qed.

#[export] Hint Resolve wrap64_range add64_range sub64_range mul64_range : go.
#[export] Hint Rewrite wrap64_idem mul64_wrap_l mul64_wrap_r
  add64_wrap_l add64_wrap_r sub64_wrap_l sub64_wrap_r : int64.
#[export] Hint Rewrite add64_exact sub64_exact mul64_exact neg64_exact
  using int64_lia : int64.

(** ** Truncated division *)

(** The test [d / k < 1] of the source, for a positive [k], is [d < k]:
    truncation toward zero sends every negative [d] to at most 0. *)
Lemma quot_lt_1_iff d k : 0 < k → d `quot` k < 1 ↔ d < k.
Proof.
  intros Hk. destruct (decide (0 ≤ d)) as [Hd|Hd].
  - rewrite Z.quot_div_nonneg by lia. split; intros H.
    + apply Z.nle_gt. intros Hle.
      pose proof (Z.div_le_mono k d k Hk Hle) as Hdiv.
      rewrite Z.div_same in Hdiv by lia. lia.
    + rewrite Z.div_small by lia. lia.
  - replace d with (- - d) by lia. rewrite Z.quot_opp_l by lia.
    pose proof (Z.quot_pos (- d) k). lia.
Qed.

Lemma quot_nonneg_exact d k : 0 < k → 0 ≤ d → d `quot` k = d / k.
Proof. intros. by apply Z.quot_div_nonneg. Qed.
