(* ===== verification/GoTime.v ===== *)
(** * GoTime: the part of Go's [time] package the scheduler uses

    A [time.Duration] is an [int64] count of nanoseconds.  The unit
    constants are typed constants of the package; a constant expression
    such as [time.Hour * 24 * 365] is evaluated exactly by the compiler,
    which rejects it when the value does not fit [int64].  The constants are
    therefore exact integers here, and [unit_in_int64] and
    [scaled_in_int64] show that they fit.  [Milliseconds] is a run-time
    division, which truncates toward zero. *)

From Stdlib Require Import ZArith Lia.
From stdpp Require Import prelude.
From S2P Require Import Prelude.

#[local] Open Scope Z_scope.

Definition Duration : Type := Z.

Definition Nanosecond : Duration := 1.
Definition Microsecond : Duration := 1000 * Nanosecond.
Definition Millisecond : Duration := 1000 * Microsecond.
Definition Second : Duration := 1000 * Millisecond.
Definition Minute : Duration := 60 * Second.
Definition Hour : Duration := 60 * Minute.

(** [func (d Duration) Milliseconds() int64 { return int64(d) / 1e6 }] *)
Definition Milliseconds (d : Duration) : Z := d `quot` 1000000.

(** ** The constants in nanoseconds *)

Lemma Millisecond_ns : Millisecond = 1000000.
Proof. reflexivity. Qed.

Lemma Second_ns : Second = 1000000000.
Proof. reflexivity. Qed.

Lemma Minute_ns : Minute = 60000000000.
Proof. reflexivity. Qed.

Lemma Hour_ns : Hour = 3600000000000.
Proof. reflexivity. Qed.

Lemma Millisecond_pos : 0 < Millisecond.
Proof. reflexivity. Qed.

Lemma units_increasing : Millisecond < Second < Minute ∧ Minute < Hour.
Proof. rewrite Millisecond_ns, Second_ns, Minute_ns, Hour_ns. lia. Qed.

(** Unfold the units to their number of nanoseconds. *)
Ltac unfold_units :=
  rewrite ?Millisecond_ns, ?Second_ns, ?Minute_ns, ?Hour_ns in *.

Ltac units_lia := unfold_units; int64_lia.

(** Every multiple of a unit the scheduler forms stays below 2^63: the
    largest is [Hour * 24 * 365]. *)
Lemma scaled_in_int64 (u k : Z) :
  0 ≤ u ≤ Hour → 0 ≤ k ≤ 24 * 365 → in_int64 (u * k).
Proof. unfold_units. intros Hu Hk. unfold_int64. nia. Qed.

Lemma unit_in_int64 (u : Z) : 0 ≤ u ≤ Hour → in_int64 u.
Proof. intros Hu. units_lia. Qed.

(** ** [Milliseconds] *)

Lemma Milliseconds_lt_1 (d : Duration) : Milliseconds d < 1 ↔ d < Millisecond.
Proof. unfold Milliseconds. rewrite Millisecond_ns. by apply quot_lt_1_iff. Qed.

Lemma Milliseconds_nonneg (d : Duration) :
  0 ≤ d → Milliseconds d = d / 1000000.
Proof. intros Hd. by apply quot_nonneg_exact. Qed.

Lemma Milliseconds_in_int64 (d : Duration) :
  in_int64 d → in_int64 (Milliseconds d).
Proof.
  unfold Milliseconds. intros Hd.
  destruct (decide (0 ≤ d)) as [Hpos|Hneg].
  - pose proof (Z.quot_pos d 1000000). pose proof (Z.quot_lt d 1000000).
    destruct (decide (d = 0)) as [->|]; [done|]. int64_lia.
  - replace d with (- - d) by lia. rewrite Z.quot_opp_l by lia.
    pose proof (Z.quot_pos (- d) 1000000). pose proof (Z.quot_lt (- d) 1000000).
    int64_lia.
Qed.

#[export] Hint Resolve Millisecond_pos unit_in_int64 scaled_in_int64
  Milliseconds_in_int64 : go.
