(* ===== verification/Schedule.v ===== *)
(** * Schedule: the cadence methods of [src/schedule/interval.go]

    Every method of the file has the same shape:
    [j.interval = d; j.run(); cancel = j.cancelFunc; return].  The methods
    are written here in the state monad of the receiver, one definition per
    method, in the order of the source.

    The receiver [*taskJob], [run] and the cancel capability are not in
    [src/]; they follow the specification: a job keeps its interval and the
    capability of the loop it started last; [run] stops the loops started
    before and arms a new one at the job's interval; invoking a capability
    raises the stop signal of its loop.  The record [taskJob] also carries
    what the loops need from their environment (the monotonic clock) and
    what they leave behind (the invocations of the work callable and the
    log), which [RunLoop] uses. *)

From Stdlib Require Import ZArith Lia.
From stdpp Require Import prelude strings finite.
From S2P Require Import Prelude GoTime.

#[local] Open Scope Z_scope.

(** ** Data *)

(** A loop is named by its position in the list of loops of its job. *)
Abbreviation LoopId := nat.

(** [type CancelFunc func()]: the capability that stops one loop. *)
Record CancelFunc : Type := mkCancel { cancel_loop : LoopId }.

(** What invoking the work callable produced. *)
Inductive Outcome : Type :=
  | Done
  | Failed (err : string).

(** One ticking loop: its ticker's period, the time it was armed at, the
    time of the next tick it will deliver, and its stop signal. *)
Record Loop : Type := mkLoop {
  loop_period : Duration;
  loop_origin : Z;
  loop_due : Z;
  loop_stop : bool;
}.

(** One invocation of the work callable. *)
Record Call : Type := mkCall {
  call_loop : LoopId;
  call_start : Z;
  call_dur : Duration;
  call_outcome : Outcome;
}.

(** One entry of the logging collaborator. *)
Record LogEntry : Type := mkLog {
  log_loop : LoopId;
  log_err : string;
}.

Record taskJob : Type := mkTaskJob {
  interval : Duration;
  cancelFunc : option CancelFunc;
  loops : list Loop;
  clock : Z;
  calls : list Call;
  log : list LogEntry;
}.

#[export] Instance CancelFunc_eq_dec : EqDecision CancelFunc.
Proof. solve_decision. Defined.
#[export] Instance Outcome_eq_dec : EqDecision Outcome.
Proof. solve_decision. Defined.
#[export] Instance Loop_eq_dec : EqDecision Loop.
Proof. solve_decision. Defined.
#[export] Instance Call_eq_dec : EqDecision Call.
Proof. solve_decision. Defined.
#[export] Instance LogEntry_eq_dec : EqDecision LogEntry.
Proof. solve_decision. Defined.
#[export] Instance taskJob_eq_dec : EqDecision taskJob.
Proof. solve_decision. Defined.

(** Field updates. *)
Definition with_interval (d : Duration) (j : taskJob) : taskJob :=
  mkTaskJob d (cancelFunc j) (loops j) (clock j) (calls j) (log j).
Definition with_cancelFunc (c : option CancelFunc) (j : taskJob) : taskJob :=
  mkTaskJob (interval j) c (loops j) (clock j) (calls j) (log j).
Definition with_loops (ls : list Loop) (j : taskJob) : taskJob :=
  mkTaskJob (interval j) (cancelFunc j) ls (clock j) (calls j) (log j).
Definition with_clock (t : Z) (j : taskJob) : taskJob :=
  mkTaskJob (interval j) (cancelFunc j) (loops j) t (calls j) (log j).
Definition with_calls (cs : list Call) (j : taskJob) : taskJob :=
  mkTaskJob (interval j) (cancelFunc j) (loops j) (clock j) cs (log j).
Definition with_log (es : list LogEntry) (j : taskJob) : taskJob :=
  mkTaskJob (interval j) (cancelFunc j) (loops j) (clock j) (calls j) es.

(** ** The receiver's operations (from the specification) *)

(** A job as its constructor leaves it: no interval, no loop. *)
Definition NewTaskJob (now : Z) : taskJob := mkTaskJob 0 None [] now [] [].

Definition stop_loop (l : Loop) : Loop :=
  mkLoop (loop_period l) (loop_origin l) (loop_due l) true.

(** A ticker armed at [now] with period [d] delivers its first tick at
    [now + d]. *)
Definition new_loop (now : Z) (d : Duration) : Loop := mkLoop d now (now + d) false.

(** [j.interval = d] *)
Definition set_interval (d : Duration) : State taskJob unit :=
  modify (with_interval d).

(** [j.run()]: supersede the loops started before, arm a new loop at
    [j.interval], and make [j.cancelFunc] the capability of the new loop. *)
Definition run : State taskJob unit :=
  modify (λ j,
    with_cancelFunc (Some (mkCancel (length (loops j))))
      (with_loops ((stop_loop <$> loops j) ++ [new_loop (clock j) (interval j)]) j)).

(** Invoking a capability: raise the stop signal of its loop. *)
Definition call_cancel (cf : CancelFunc) : State taskJob unit :=
  modify (λ j, with_loops (alter stop_loop (cancel_loop cf) (loops j)) j).

(** ** The methods of [interval.go] *)

Definition Every (interval : Duration) : State taskJob (option CancelFunc) :=
  let interval :=
    if decide (Milliseconds interval < 1) then Millisecond else interval in
  set_interval interval;;
  run;;
  cancel ← gets cancelFunc;
  mret cancel.

Definition EverySecond : State taskJob (option CancelFunc) :=
  set_interval Second;;
  run;;
  cancel ← gets cancelFunc;
  mret cancel.

Definition EveryFiveSeconds : State taskJob (option CancelFunc) :=
  set_interval (Second * 5);;
  run;;
  cancel ← gets cancelFunc;
  mret cancel.

Definition EveryTenSeconds : State taskJob (option CancelFunc) :=
  set_interval (Second * 10);;
  run;;
  cancel ← gets cancelFunc;
  mret cancel.

Definition EveryTwentySeconds : State taskJob (option CancelFunc) :=
  set_interval (Second * 20);;
  run;;
  cancel ← gets cancelFunc;
  mret cancel.

Definition EveryThirtySeconds : State taskJob (option CancelFunc) :=
  set_interval (Second * 30);;
  run;;
  cancel ← gets cancelFunc;
  mret cancel.

Definition EveryMinute : State taskJob (option CancelFunc) :=
  set_interval Minute;;
  run;;
  cancel ← gets cancelFunc;
  mret cancel.

Definition EveryFiveMinutes : State taskJob (option CancelFunc) :=
  set_interval (Minute * 5);;
  run;;
  cancel ← gets cancelFunc;
  mret cancel.

Definition EveryTenMinutes : State taskJob (option CancelFunc) :=
  set_interval (Minute * 10);;
  run;;
  cancel ← gets cancelFunc;
  mret cancel.

Definition EveryTwentyMinutes : State taskJob (option CancelFunc) :=
  set_interval (Minute * 20);;
  run;;
  cancel ← gets cancelFunc;
  mret cancel.

Definition EveryThirtyMinutes : State taskJob (option CancelFunc) :=
  set_interval (Minute * 30);;
  run;;
  cancel ← gets cancelFunc;
  mret cancel.

Definition Hourly : State taskJob (option CancelFunc) :=
  set_interval Hour;;
  run;;
  cancel ← gets cancelFunc;
  mret cancel.

Definition EveryFiveHours : State taskJob (option CancelFunc) :=
  set_interval (Hour * 5);;
  run;;
  cancel ← gets cancelFunc;
  mret cancel.

Definition EveryTenHours : State taskJob (option CancelFunc) :=
  set_interval (Hour * 10);;
  run;;
  cancel ← gets cancelFunc;
  mret cancel.

Definition EveryTwentyHours : State taskJob (option CancelFunc) :=
  set_interval (Hour * 20);;
  run;;
  cancel ← gets cancelFunc;
  mret cancel.

Definition Daily : State taskJob (option CancelFunc) :=
  set_interval (Hour * 24);;
  run;;
  cancel ← gets cancelFunc;
  mret cancel.

Definition Weekly : State taskJob (option CancelFunc) :=
  set_interval (Hour * 24 * 7);;
  run;;
  cancel ← gets cancelFunc;
  mret cancel.

Definition Monthly : State taskJob (option CancelFunc) :=
  set_interval (Hour * 24 * 30);;
  run;;
  cancel ← gets cancelFunc;
  mret cancel.

Definition Yearly : State taskJob (option CancelFunc) :=
  set_interval (Hour * 24 * 365);;
  run;;
  cancel ← gets cancelFunc;
  mret cancel.

(** ** The abstract specification *)

(** The catalogue of named cadences. *)
Inductive Cadence : Type :=
  | CEverySecond | CEveryFiveSeconds | CEveryTenSeconds
  | CEveryTwentySeconds | CEveryThirtySeconds
  | CEveryMinute | CEveryFiveMinutes | CEveryTenMinutes
  | CEveryTwentyMinutes | CEveryThirtyMinutes
  | CHourly | CEveryFiveHours | CEveryTenHours | CEveryTwentyHours
  | CDaily | CWeekly | CMonthly | CYearly.

#[export] Instance Cadence_eq_dec : EqDecision Cadence.
Proof. solve_decision. Defined.

Definition all_cadences : list Cadence :=
  [ CEverySecond; CEveryFiveSeconds; CEveryTenSeconds;
    CEveryTwentySeconds; CEveryThirtySeconds;
    CEveryMinute; CEveryFiveMinutes; CEveryTenMinutes;
    CEveryTwentyMinutes; CEveryThirtyMinutes;
    CHourly; CEveryFiveHours; CEveryTenHours; CEveryTwentyHours;
    CDaily; CWeekly; CMonthly; CYearly ].

#[export, refine] Instance Cadence_finite : Finite Cadence :=
  {| enum := all_cadences |}.
Proof.
- by apply (bool_decide_unpack _).
- intros []; set_solver.
Defined.

(** The documented period of each cadence, as a multiple of its base unit:
    a week is 168 hours, a month 720 hours, a year 8760 hours. *)
Definition cadence_duration (c : Cadence) : Duration :=
  match c with
  | CEverySecond => 1 * Second
  | CEveryFiveSeconds => 5 * Second
  | CEveryTenSeconds => 10 * Second
  | CEveryTwentySeconds => 20 * Second
  | CEveryThirtySeconds => 30 * Second
  | CEveryMinute => 1 * Minute
  | CEveryFiveMinutes => 5 * Minute
  | CEveryTenMinutes => 10 * Minute
  | CEveryTwentyMinutes => 20 * Minute
  | CEveryThirtyMinutes => 30 * Minute
  | CHourly => 1 * Hour
  | CEveryFiveHours => 5 * Hour
  | CEveryTenHours => 10 * Hour
  | CEveryTwentyHours => 20 * Hour
  | CDaily => 24 * Hour
  | CWeekly => 168 * Hour
  | CMonthly => 720 * Hour
  | CYearly => 8760 * Hour
  end.

(** The method of the source that serves each cadence. *)
Definition cadence_method (c : Cadence) : State taskJob (option CancelFunc) :=
  match c with
  | CEverySecond => EverySecond
  | CEveryFiveSeconds => EveryFiveSeconds
  | CEveryTenSeconds => EveryTenSeconds
  | CEveryTwentySeconds => EveryTwentySeconds
  | CEveryThirtySeconds => EveryThirtySeconds
  | CEveryMinute => EveryMinute
  | CEveryFiveMinutes => EveryFiveMinutes
  | CEveryTenMinutes => EveryTenMinutes
  | CEveryTwentyMinutes => EveryTwentyMinutes
  | CEveryThirtyMinutes => EveryThirtyMinutes
  | CHourly => Hourly
  | CEveryFiveHours => EveryFiveHours
  | CEveryTenHours => EveryTenHours
  | CEveryTwentyHours => EveryTwentyHours
  | CDaily => Daily
  | CWeekly => Weekly
  | CMonthly => Monthly
  | CYearly => Yearly
  end.

(** The one primitive of the specification: store the interval, start the
    loop, hand out the capability of the loop just started. *)
Definition arm (d : Duration) (j : taskJob) : option CancelFunc * taskJob :=
  (Some (mkCancel (length (loops j))),
   mkTaskJob d (Some (mkCancel (length (loops j))))
     ((stop_loop <$> loops j) ++ [new_loop (clock j) d])
     (clock j) (calls j) (log j)).

(** A call of the public interface: [Every] with its argument, or a named
    cadence. *)
Inductive Method : Type :=
  | MEvery (d : Duration)
  | MNamed (c : Cadence).

Definition method_run (m : Method) : State taskJob (option CancelFunc) :=
  match m with
  | MEvery d => Every d
  | MNamed c => cadence_method c
  end.

(** The argument of a call is a value of its Go type. *)
Definition method_ok (m : Method) : Prop :=
  match m with
  | MEvery d => in_int64 d
  | MNamed _ => True
  end.

#[export] Instance method_ok_dec m : Decision (method_ok m).
Proof. destruct m; apply _. Defined.

(** The interval a call asks for, after the clamp. *)
Definition method_interval (m : Method) : Duration :=
  match m with
  | MEvery d => Z.max d Millisecond
  | MNamed c => cadence_duration c
  end.

(** ** Lifecycle *)

Inductive Phase : Type := Idle | Running | Cancelled.

#[export] Instance Phase_eq_dec : EqDecision Phase.
Proof. solve_decision. Defined.

Definition is_active (l : Loop) : bool := negb (loop_stop l).

(** The loops of the job whose stop signal is not raised. *)
Definition active_loops (j : taskJob) : list Loop :=
  filter (λ l, is_active l = true) (loops j).

Definition phase (j : taskJob) : Phase :=
  match loops j with
  | [] => Idle
  | _ => if decide (active_loops j = []) then Cancelled else Running
  end.

(** ** The invariant *)

(** A loop's period is at least the tick resolution and fits [int64]; its
    next tick is after its origin and on the grid of its period. *)
Definition loop_wf (l : Loop) : Prop :=
  Millisecond ≤ loop_period l ≤ int64_max ∧
  loop_origin l < loop_due l ∧
  (loop_due l - loop_origin l) mod loop_period l = 0.

#[export] Instance loop_wf_dec l : Decision (loop_wf l).
Proof. unfold loop_wf. apply _. Defined.

(** Every loop but the newest is stopped, the capability of the job is the
    newest loop's, and the newest loop ticks at the job's interval. *)
Record sched_wf (j : taskJob) : Prop := mk_sched_wf {
  wf_loops : Forall loop_wf (loops j);
  wf_superseded :
    Forall (λ l, loop_stop l = true) (take (pred (length (loops j))) (loops j));
  wf_cancelFunc :
    cancelFunc j =
      if decide (loops j = []) then None
      else Some (mkCancel (pred (length (loops j))));
  wf_interval :
    default (interval j) (loop_period <$> last (loops j)) = interval j;
}.

#[export] Instance sched_wf_dec j : Decision (sched_wf j).
Proof.
refine (cast_if (decide (
  Forall loop_wf (loops j) ∧
  Forall (λ l, loop_stop l = true) (take (pred (length (loops j))) (loops j)) ∧
  cancelFunc j =
    (if decide (loops j = []) then None
     else Some (mkCancel (pred (length (loops j))))) ∧
  default (interval j) (loop_period <$> last (loops j)) = interval j)));
  [by destruct_and!; constructor | intros []; tauto].
Defined.

(** ** Tactics and hints *)

Ltac unfold_methods :=
  unfold method_run, cadence_method, Every, EverySecond, EveryFiveSeconds,
    EveryTenSeconds, EveryTwentySeconds, EveryThirtySeconds, EveryMinute,
    EveryFiveMinutes, EveryTenMinutes, EveryTwentyMinutes, EveryThirtyMinutes,
    Hourly, EveryFiveHours, EveryTenHours, EveryTwentyHours, Daily, Weekly,
    Monthly, Yearly, set_interval, run, call_cancel in *.

(** Evaluate a method call on a symbolic job. *)
Ltac run_method := unfold_methods; run_state; cbn [fst snd].

(** ** The methods are [arm] at the catalogue's duration *)

Section arm.
Implicit Types (j : taskJob) (d : Duration) (c : Cadence) (m : Method).

Lemma clamp_max d :
  (if decide (Milliseconds d < 1) then Millisecond else d) = Z.max d Millisecond.
Proof. case_decide as H; rewrite Milliseconds_lt_1 in H; lia. Qed.

Lemma Every_arm d j : Every d j = arm (Z.max d Millisecond) j.
Proof. unfold Every. rewrite clamp_max. reflexivity. Qed.

Lemma cadence_method_arm c j : cadence_method c j = arm (cadence_duration c) j.
Proof. destruct c; reflexivity. Qed.

Lemma method_run_arm m j : method_run m j = arm (method_interval m) j.
Proof. destruct m; [apply Every_arm | apply cadence_method_arm]. Qed.

Lemma exec_method m j : exec (method_run m) j = (arm (method_interval m) j).2.
Proof. unfold exec. by rewrite method_run_arm. Qed.

Lemma eval_method m j :
  eval (method_run m) j = Some (mkCancel (length (loops j))).
Proof. unfold eval. by rewrite method_run_arm. Qed.

Lemma cadence_duration_range c : Second ≤ cadence_duration c ≤ 8760 * Hour.
Proof. destruct c; cbn; units_lia. Qed.

Lemma method_interval_lower m : Millisecond ≤ method_interval m.
Proof.
  destruct m as [d|c]; cbn; [lia|].
  pose proof (cadence_duration_range c). units_lia.
Qed.

Lemma method_interval_upper m : method_ok m → method_interval m ≤ int64_max.
Proof.
  destruct m as [d|c]; cbn; intros Hd.
  - units_lia.
  - pose proof (cadence_duration_range c). units_lia.
Qed.

Lemma method_interval_range m :
  method_ok m → Millisecond ≤ method_interval m ≤ int64_max.
Proof. split; [apply method_interval_lower|by apply method_interval_upper]. Qed.

(** *** Projections of [arm] *)

Lemma arm_interval d j : interval (arm d j).2 = d.
Proof. reflexivity. Qed.

Lemma arm_result d j : (arm d j).1 = Some (mkCancel (length (loops j))).
Proof. reflexivity. Qed.

Lemma arm_cancelFunc d j : cancelFunc (arm d j).2 = (arm d j).1.
Proof. reflexivity. Qed.

Lemma arm_loops d j :
  loops (arm d j).2 = (stop_loop <$> loops j) ++ [new_loop (clock j) d].
Proof. reflexivity. Qed.

Lemma arm_clock d j : clock (arm d j).2 = clock j.
Proof. reflexivity. Qed.

Lemma arm_calls d j : calls (arm d j).2 = calls j.
Proof. reflexivity. Qed.

Lemma arm_log d j : log (arm d j).2 = log j.
Proof. reflexivity. Qed.

Lemma arm_lookup_new d j :
  loops (arm d j).2 !! length (loops j) = Some (new_loop (clock j) d).
Proof.
  rewrite arm_loops, lookup_app_r by (by rewrite length_fmap).
  by rewrite length_fmap, Nat.sub_diag.
Qed.

Lemma arm_lookup_old d j i l :
  loops j !! i = Some l → loops (arm d j).2 !! i = Some (stop_loop l).
Proof.
  intros Hi. rewrite arm_loops, lookup_app_l.
  - by rewrite list_lookup_fmap, Hi.
  - rewrite length_fmap. by eapply lookup_lt_Some.
Qed.
End arm.

#[export] Hint Rewrite arm_interval arm_result arm_cancelFunc arm_loops
  arm_clock arm_calls arm_log : go.

(** ** Loops, stop signals and the lifecycle *)

Section loops.
Implicit Types (j : taskJob) (d : Duration) (l : Loop) (ls : list Loop)
  (cf : CancelFunc).

Lemma stop_loop_stopped l : loop_stop (stop_loop l) = true.
Proof. reflexivity. Qed.

Lemma stop_loop_idem l : stop_loop (stop_loop l) = stop_loop l.
Proof. reflexivity. Qed.

Lemma stop_loop_wf l : loop_wf l → loop_wf (stop_loop l).
Proof. by intros. Qed.

Lemma stop_loop_id l : loop_stop l = true → stop_loop l = l.
Proof. destruct l; cbn; by intros ->. Qed.

Lemma filter_active_stopped ls :
  Forall (λ l, loop_stop l = true) ls →
  filter (λ l, is_active l = true) ls = [].
Proof.
  induction 1 as [|l ls Hl _ IH]; [done|].
  rewrite filter_cons_False; [done|]. unfold is_active. by rewrite Hl.
Qed.

Lemma stopped_of_no_active ls :
  filter (λ l, is_active l = true) ls = [] →
  Forall (λ l, loop_stop l = true) ls.
Proof.
  induction ls as [|l ls IH]; [done|]. rewrite filter_cons.
  case_goal_decide as [Hact|Hact]; [done|]. intros Hnone.
  constructor; [|by apply IH]. unfold is_active in Hact. by destruct (loop_stop l).
Qed.

Lemma all_stopped_fmap ls : Forall (λ l, loop_stop l = true) (stop_loop <$> ls).
Proof. apply Forall_fmap, Forall_true. by intros. Qed.

(** A list of loops in which every loop but the last is stopped has at
    most one active loop, the last. *)
Lemma active_snoc ls l :
  Forall (λ l, loop_stop l = true) ls →
  filter (λ l, is_active l = true) (ls ++ [l]) =
    if loop_stop l then [] else [l].
Proof.
  intros Hls. rewrite filter_app, filter_active_stopped by done. cbn.
  destruct l as [p o u []]; by cbv.
Qed.

Lemma active_loops_arm d j : active_loops (arm d j).2 = [new_loop (clock j) d].
Proof.
  unfold active_loops. rewrite arm_loops.
  by rewrite active_snoc by apply all_stopped_fmap.
Qed.

Lemma phase_arm d j : phase (arm d j).2 = Running.
Proof.
  unfold phase. rewrite active_loops_arm, arm_loops.
  by destruct (stop_loop <$> loops j).
Qed.

Lemma phase_Cancelled j :
  loops j ≠ [] → active_loops j = [] → phase j = Cancelled.
Proof. unfold phase. intros Hne ->. by destruct (loops j). Qed.

Lemma phase_New now : phase (NewTaskJob now) = Idle.
Proof. reflexivity. Qed.

(** *** [call_cancel] *)

Lemma call_cancel_loops cf j :
  loops (exec (call_cancel cf) j) = alter stop_loop (cancel_loop cf) (loops j).
Proof. reflexivity. Qed.

Lemma call_cancel_frame cf j :
  let j' := exec (call_cancel cf) j in
  interval j' = interval j ∧ cancelFunc j' = cancelFunc j ∧
  clock j' = clock j ∧ calls j' = calls j ∧ log j' = log j.
Proof. by repeat split. Qed.

Lemma call_cancel_idem cf j :
  exec (call_cancel cf) (exec (call_cancel cf) j) = exec (call_cancel cf) j.
Proof.
  unfold exec, call_cancel, modify, with_loops; cbn. f_equal.
  rewrite list_alter_alter_eq. by apply list_alter_ext.
Qed.

Lemma call_cancel_lookup cf j (i : nat) :
  loops (exec (call_cancel cf) j) !! i =
    if decide (cancel_loop cf = i) then stop_loop <$> loops j !! i
    else loops j !! i.
Proof.
  rewrite call_cancel_loops, list_lookup_alter. repeat case_goal_decide; by subst.
Qed.

(** A capability whose loop is already stopped (a stale capability, or a
    second invocation) changes nothing. *)
Lemma call_cancel_stale cf j :
  (∀ l, loops j !! cancel_loop cf = Some l → loop_stop l = true) →
  exec (call_cancel cf) j = j.
Proof.
  intros Hstale. destruct j as [iv c ls t cs lg].
  unfold exec, call_cancel, modify, with_loops; cbn in *. f_equal.
  transitivity (alter id (cancel_loop cf) ls); [|by apply list_alter_id].
  apply list_alter_ext; [|done]. intros l Hl. by apply stop_loop_id, Hstale.
Qed.

(** No capability restarts a loop. *)
Lemma call_cancel_no_active cf j :
  active_loops j = [] → active_loops (exec (call_cancel cf) j) = [].
Proof.
  unfold active_loops. rewrite call_cancel_loops. intros Hnone.
  by apply filter_active_stopped, Forall_alter; [apply stopped_of_no_active|].
Qed.

Lemma call_cancel_arm d j :
  active_loops (exec (call_cancel (mkCancel (length (loops j)))) (arm d j).2) = [].
Proof.
  unfold active_loops. rewrite call_cancel_loops, arm_loops.
  rewrite alter_app_r_alt by (by rewrite length_fmap).
  rewrite length_fmap, Nat.sub_diag. cbn.
  by rewrite active_snoc by apply all_stopped_fmap.
Qed.
End loops.

(** ** The invariant is established and preserved *)

Section invariant.
Implicit Types (j : taskJob) (d : Duration) (l : Loop) (cf : CancelFunc).

Lemma new_loop_wf now d : Millisecond ≤ d ≤ int64_max → loop_wf (new_loop now d).
Proof.
  intros Hd. pose proof Millisecond_pos. unfold loop_wf; cbn.
  replace (now + d - now) with d by lia. rewrite Z.mod_same by lia. lia.
Qed.

(** The invariant reads the interval, the capability and the loops only. *)
Lemma sched_wf_ext j j' :
  interval j' = interval j → cancelFunc j' = cancelFunc j →
  loops j' = loops j → sched_wf j → sched_wf j'.
Proof. intros Hi Hc Hl [????]. constructor; by rewrite ?Hi, ?Hc, ?Hl. Qed.

Lemma sched_wf_New now : sched_wf (NewTaskJob now).
Proof. by constructor; cbn. Qed.

Lemma sched_wf_arm d j :
  Millisecond ≤ d ≤ int64_max → sched_wf j → sched_wf (arm d j).2.
Proof.
  intros Hd [Hls _ _ _]. constructor; rewrite ?arm_loops.
  - apply Forall_app; split; [|by repeat constructor; apply new_loop_wf].
    apply Forall_fmap. eapply Forall_impl; [done|]. by intros.
  - rewrite length_app, Nat.add_1_r; cbn [pred].
    rewrite take_app_length. apply all_stopped_fmap.
  - rewrite arm_cancelFunc, arm_result, length_app, length_fmap, Nat.add_1_r.
    by destruct (stop_loop <$> loops j).
  - by rewrite last_snoc.
Qed.

Lemma sched_wf_call_cancel cf j :
  sched_wf j → sched_wf (exec (call_cancel cf) j).
Proof.
  intros [Hls Hsup Hcf Hiv].
  constructor; rewrite ?call_cancel_loops, ?length_alter.
  - by apply Forall_alter.
  - destruct (decide (cancel_loop cf < pred (length (loops j)))%nat).
    + rewrite take_alter_lt by done. by apply Forall_alter.
    + rewrite take_alter_ge by lia. done.
  - destruct (call_cancel_frame cf j) as (_ & -> & _). rewrite Hcf.
    destruct (loops j) as [|l ls]; [done|]. by destruct (cancel_loop cf).
  - destruct (call_cancel_frame cf j) as (-> & _).
    rewrite last_lookup, length_alter, list_lookup_alter, <-last_lookup.
    case_goal_decide as [E|]; [rewrite E|done].
    rewrite <-last_lookup. by destruct (last (loops j)).
Qed.

(** All loops but the newest are stopped: at most one loop is active. *)
Lemma wf_active_le_1 j : sched_wf j → (length (active_loops j) ≤ 1)%nat.
Proof.
  intros [_ Hsup _ _]. unfold active_loops.
  destruct (loops j) as [|l0 ls0] using rev_ind; [cbn; lia|].
  rewrite length_app, Nat.add_1_r in Hsup; cbn [pred] in Hsup.
  rewrite take_app_length in Hsup. rewrite active_snoc by done.
  destruct (loop_stop l0); cbn; lia.
Qed.

(** The only loop that can be active is the one the job's capability names. *)
Lemma wf_active_is_newest j (i : nat) l :
  sched_wf j → loops j !! i = Some l → loop_stop l = false →
  cancelFunc j = Some (mkCancel i).
Proof.
  intros [_ Hsup Hcf _] Hi Hl. rewrite Hcf.
  destruct (decide (loops j = [])) as [E|_]; [by rewrite E in Hi|].
  do 2 f_equal. pose proof (lookup_lt_Some _ _ _ Hi) as Hlt.
  destruct (decide (i = pred (length (loops j)))) as [->|Hne]; [done|].
  rewrite Forall_lookup in Hsup. specialize (Hsup i l).
  rewrite lookup_take_lt in Hsup by lia. rewrite Hsup in Hl; done.
Qed.
End invariant.

#[export] Hint Resolve sched_wf_New sched_wf_arm sched_wf_call_cancel
  new_loop_wf stop_loop_wf : go.

(** ** Properties of the cadence methods *)

Section properties.
Implicit Types (j : taskJob) (d : Duration) (c : Cadence) (m : Method)
  (cf : CancelFunc).

(** C1. [Every] clamps: whatever duration the caller passes, the interval
    the job ends up with is the larger of that duration and one
    millisecond.  Below one millisecond (zero and negative durations
    included) it is exactly [Millisecond]; from one millisecond on it is the
    duration itself. *)
Theorem Every_interval d j :
  interval (exec (Every d) j) = Z.max d Millisecond.
Proof. unfold exec. by rewrite Every_arm. Qed.

(** C2. Each named cadence method of the source is the specification's
    single primitive [arm] at the catalogued duration: a week is 168 hours,
    a month 720 hours and a year 8760 hours, whatever the calendar says. *)
Theorem named_cadence_refines_arm c j :
  cadence_method c j = arm (cadence_duration c) j ∧
  interval (exec (cadence_method c) j) = cadence_duration c.
Proof. unfold exec. by rewrite cadence_method_arm. Qed.

(** No named cadence overflows: the interval a named method stores is
    between one second and 8760 hours, which fits [int64], and is never
    touched by the clamp of [Every]. *)
Theorem named_cadence_in_bounds c j :
  let d := interval (exec (cadence_method c) j) in
  Second ≤ d ≤ Hour * 24 * 365 ∧ in_int64 d ∧ Z.max d Millisecond = d.
Proof.
  unfold exec. rewrite cadence_method_arm, arm_interval. cbn zeta.
  pose proof (cadence_duration_range c). units_lia.
Qed.

(** A named cadence method behaves as [Every] called with the
    catalogued duration: same capability returned, same job left behind. *)
Theorem Every_agrees_with_named c j :
  Every (cadence_duration c) j = cadence_method c j.
Proof.
  rewrite Every_arm, cadence_method_arm. f_equal.
  pose proof (cadence_duration_range c). units_lia.
Qed.

(** C5. Every public method returns the capability it has just stored in
    [j.cancelFunc], and that capability names the loop the call started: a
    ticker armed at the current clock reading with the clamped interval as
    its period, the first tick one period later. *)
Theorem method_returns_new_capability m j :
  let j' := exec (method_run m) j in
  let cancel := eval (method_run m) j in
  cancel = cancelFunc j' ∧
  cancel = Some (mkCancel (length (loops j))) ∧
  loops j' !! length (loops j) = Some (new_loop (clock j) (method_interval m)).
Proof.
  cbn zeta. rewrite !exec_method, eval_method. by rewrite arm_lookup_new.
Qed.

(** C4. Exactly one active loop: after any public method, whatever loops
    the job had running before, the only loop whose stop signal is not
    raised is the one the call started, and the job is [Running]. *)
Theorem method_leaves_one_active_loop m j :
  let j' := exec (method_run m) j in
  active_loops j' = [new_loop (clock j) (method_interval m)] ∧
  phase j' = Running.
Proof. cbn zeta. by rewrite exec_method, active_loops_arm, phase_arm. Qed.

(** C3. The invariant [sched_wf] is preserved by every public method,
    provided the argument of [Every] is an [int64]. *)
Theorem method_preserves_wf m j :
  method_ok m → sched_wf j → sched_wf (exec (method_run m) j).
Proof.
  intros Hm Hwf. rewrite exec_method.
  by apply sched_wf_arm; [apply method_interval_range|].
Qed.

(** Cancellation is idempotent: on the job a method leaves behind,
    invoking the returned capability a second time changes nothing, and
    the first invocation touches only the stop signal of the loop. *)
Theorem cancel_idempotent m j :
  let j' := exec (method_run m) j in
  let cf := mkCancel (length (loops j)) in
  eval (method_run m) j = Some cf ∧
  exec (call_cancel cf) (exec (call_cancel cf) j') = exec (call_cancel cf) j' ∧
  interval (exec (call_cancel cf) j') = method_interval m ∧
  cancelFunc (exec (call_cancel cf) j') = Some cf.
Proof.
  cbn zeta. rewrite eval_method, exec_method. split_and!; [done| |done..].
  apply call_cancel_idem.
Qed.

(** C6. Cancellation is terminal: once the capability a method returned is
    invoked, the job has no active loop and is [Cancelled], and invoking
    any capability afterwards does not bring a loop back. *)
Theorem cancel_is_terminal m j cf' :
  let j' := exec (method_run m) j in
  let cf := mkCancel (length (loops j)) in
  let stopped := exec (call_cancel cf) j' in
  eval (method_run m) j = Some cf ∧
  active_loops stopped = [] ∧ phase stopped = Cancelled ∧
  active_loops (exec (call_cancel cf') stopped) = [].
Proof.
  cbn zeta. rewrite !exec_method, eval_method.
  pose proof (call_cancel_arm (method_interval m) j) as Hnone.
  split_and!; [done|done| |by apply call_cancel_no_active].
  apply phase_Cancelled; [|done]. rewrite call_cancel_loops, arm_loops.
  intros E%(f_equal length). rewrite length_alter, length_app in E. cbn in E. lia.
Qed.

(** Re-arming supersedes: when a second method is called on a job,
    the capability the first call returned is stale.  Invoking it changes
    nothing: the loop of the second call keeps running. *)
Theorem stale_capability_is_noop m1 m2 j :
  let j1 := exec (method_run m1) j in
  let j2 := exec (method_run m2) j1 in
  let cf1 := mkCancel (length (loops j)) in
  eval (method_run m1) j = Some cf1 ∧
  exec (call_cancel cf1) j2 = j2 ∧
  active_loops j2 = [new_loop (clock j) (method_interval m2)].
Proof.
  cbn zeta. rewrite !exec_method, eval_method. split_and!; [done| |].
  - apply call_cancel_stale. intros l.
    rewrite (arm_lookup_old _ _ _ _ (arm_lookup_new (method_interval m1) j)).
    by intros [= <-].
  - by rewrite active_loops_arm.
Qed.
End properties.

(** ** Witnesses *)

(** The scenario of the specification: [Every(500 * time.Microsecond)]
    stores one millisecond. *)
Example Every_500us :
  interval (exec (Every (500 * Microsecond)) (NewTaskJob 0)) = Millisecond.
Proof. reflexivity. Qed.

Lemma method_preserves_wf_witness :
  sched_wf (exec (method_run (MEvery 1500000)) (NewTaskJob 0)).
Proof.
  apply (method_preserves_wf (MEvery 1500000) (NewTaskJob 0)).
  - by apply (bool_decide_unpack _).
  - apply sched_wf_New.
Defined.
