(* ===== verification/RunLoop.v ===== *)
(** * RunLoop: the ticking loop of a job

    What happens between the calls of the public methods, as the
    specification describes it.  A loop waits for its ticker; when the tick
    is delivered it invokes the work callable synchronously, reports a
    failure to the log, and goes back to waiting; once its stop signal is
    raised it never invokes the work callable again.

    The ticker is Go's: ticks are scheduled at [origin + k * period], and a
    tick that comes while the loop is busy is not queued behind another one.
    [next_due l s] is the first scheduled tick after a delivery at time [s].

    The work callable is opaque.  One invocation is the label
    [LTick i dur o]: loop [i] invoked it, it ran for [dur] nanoseconds and
    produced the outcome [o].  The invocation is atomic: the calls of the
    public interface and the invocations of capabilities happen before or
    after it.  The history [calls] and the [log] are kept newest first. *)

From Stdlib Require Import ZArith Lia.
From stdpp Require Import prelude strings.
From S2P Require Import Prelude GoTime Schedule.

#[local] Open Scope Z_scope.

(** ** One tick *)

(** The first tick scheduled strictly after time [s]. *)
Definition next_due (l : Loop) (s : Z) : Z :=
  loop_origin l + ((s - loop_origin l) / loop_period l + 1) * loop_period l.

(** The loop after its ticker delivered at time [s]. *)
Definition fire (l : Loop) (s : Z) : Loop :=
  mkLoop (loop_period l) (loop_origin l) (next_due l s) (loop_stop l).

(** The logging collaborator: one entry per failed invocation. *)
Definition report (i : LoopId) (o : Outcome) (lg : list LogEntry) : list LogEntry :=
  match o with
  | Done => lg
  | Failed err => mkLog i err :: lg
  end.

(** A tick of loop [i] can fire when the loop is not stopped and its tick
    is due. *)
Definition tick_enabled (i : LoopId) (j : taskJob) : Prop :=
  ∃ l, loops j !! i = Some l ∧ loop_stop l = false ∧ loop_due l ≤ clock j.

#[export] Instance tick_enabled_dec i j : Decision (tick_enabled i j).
Proof.
refine (
  match loops j !! i as o return loops j !! i = o → _ with
  | Some l => λ E,
      cast_if (decide (loop_stop l = false ∧ loop_due l ≤ clock j))
  | None => λ E, right _
  end eq_refl); unfold tick_enabled.
- by exists l.
- intros (l' & ? & ?); by simplify_eq.
- intros (l' & ? & ?); by simplify_eq.
Defined.

(** One firing of loop [i]: the work callable is invoked at the current
    clock reading, runs for [dur] and produces [o].  [None] when the tick
    cannot fire. *)
Definition tick (i : LoopId) (dur : Duration) (o : Outcome) (j : taskJob)
    : option taskJob :=
  l ← loops j !! i;
  if decide (loop_stop l = false ∧ loop_due l ≤ clock j ∧ 0 ≤ dur) then
    Some (mkTaskJob (interval j) (cancelFunc j)
            (<[i := fire l (clock j)]> (loops j))
            (clock j + dur)
            (mkCall i (clock j) dur o :: calls j)
            (report i o (log j)))
  else None.

(** Time passes. *)
Definition wait (dt : Z) (j : taskJob) : option taskJob :=
  if decide (0 ≤ dt) then Some (with_clock (clock j + dt) j) else None.

(** ** The transition system *)

Inductive Label : Type :=
  | LCall (m : Method)
  | LCancel (cf : CancelFunc)
  | LTick (i : LoopId) (dur : Duration) (o : Outcome)
  | LWait (dt : Z).

#[export] Instance Method_eq_dec : EqDecision Method.
Proof. solve_decision. Defined.
#[export] Instance Label_eq_dec : EqDecision Label.
Proof. solve_decision. Defined.

Definition is_call (lab : Label) : bool :=
  match lab with LCall _ => true | _ => false end.

Definition is_tick (lab : Label) : bool :=
  match lab with LTick _ _ _ => true | _ => false end.

Inductive step : taskJob → Label → taskJob → Prop :=
  | step_call m j :
      method_ok m → step j (LCall m) (exec (method_run m) j)
  | step_cancel cf j :
      step j (LCancel cf) (exec (call_cancel cf) j)
  | step_tick i dur o j j' :
      tick i dur o j = Some j' → step j (LTick i dur o) j'
  | step_wait dt j j' :
      wait dt j = Some j' → step j (LWait dt) j'.

Inductive steps : taskJob → list Label → taskJob → Prop :=
  | steps_nil j : steps j [] j
  | steps_cons j lab j' labs j'' :
      step j lab j' → steps j' labs j'' → steps j (lab :: labs) j''.

(** The transition system as a function, for evaluation. *)
Definition step_fun (lab : Label) (j : taskJob) : option taskJob :=
  match lab with
  | LCall m => if decide (method_ok m) then Some (exec (method_run m) j) else None
  | LCancel cf => Some (exec (call_cancel cf) j)
  | LTick i dur o => tick i dur o j
  | LWait dt => wait dt j
  end.

Fixpoint run_labels (labs : list Label) (j : taskJob) : option taskJob :=
  match labs with
  | [] => Some j
  | lab :: labs' => j' ← step_fun lab j; run_labels labs' j'
  end.

(** ** The prompt scheduler *)

(** The loop the capability of the job names, with its index. *)
Definition current_loop (j : taskJob) : option (LoopId * Loop) :=
  cf ← cancelFunc j;
  l ← loops j !! cancel_loop cf;
  Some (cancel_loop cf, l).

(** The work callable as the scheduler sees it: how long the [n]-th
    invocation runs and what it produces. *)
Definition Work : Type := nat → Duration * Outcome.

(** Let the job run until [deadline]: while the loop the capability of the
    job names is active and its tick is due by the deadline, wait for the
    tick and fire it; then let the clock reach the deadline.  An invocation
    that starts by the deadline runs to its end. *)
Fixpoint advance (fuel : nat) (work : Work) (deadline : Z) (j : taskJob)
    : option taskJob :=
  match fuel with
  | O => None
  | S fuel' =>
    match current_loop j with
    | Some (i, l) =>
      let start := Z.max (clock j) (loop_due l) in
      if decide (loop_stop l = false ∧ start ≤ deadline) then
        let '(dur, o) := work (length (calls j)) in
        j' ← tick i dur o (with_clock start j);
        advance fuel' work deadline j'
      else Some (with_clock (Z.max (clock j) deadline) j)
    | None => Some (with_clock (Z.max (clock j) deadline) j)
    end
  end.

(** Fuel that is enough for [advance]: one unit per period between the
    next tick and the deadline, and one to finish. *)
Definition advance_fuel (deadline : Z) (j : taskJob) : nat :=
  match current_loop j with
  | Some (_, l) => Z.to_nat ((deadline - loop_due l) / loop_period l + 1) + 1
  | None => 1
  end.

(** ** The history *)

Definition calls_of (i : LoopId) (cs : list Call) : list Call :=
  filter (λ c, call_loop c = i) cs.

(** The log a history produces. *)
Definition log_of (cs : list Call) : list LogEntry :=
  omap (λ c, match call_outcome c with
             | Done => None
             | Failed err => Some (mkLog (call_loop c) err)
             end) cs.

(** Invocations do not overlap: each one (newest first) has ended by
    [now], and the ones before it have ended by the time it started. *)
Fixpoint calls_ok (now : Z) (cs : list Call) : Prop :=
  match cs with
  | [] => True
  | c :: cs' =>
      0 ≤ call_dur c ∧ call_start c + call_dur c ≤ now ∧
      calls_ok (call_start c) cs'
  end.

#[export] Instance calls_ok_dec now cs : Decision (calls_ok now cs).
Proof. revert now. induction cs as [|c cs IH]; intros now; cbn; apply _. Defined.

(** A loop and the invocations it made: it has used up one slot of its
    grid per invocation, none of them before its first tick, and its next
    tick is at most one period after the clock. *)
Definition loop_ok (now : Z) (cs : list Call) (i : LoopId) (l : Loop) : Prop :=
  loop_origin l + (Z.of_nat (length (calls_of i cs)) + 1) * loop_period l
    ≤ loop_due l ∧
  loop_due l ≤ now + loop_period l ∧
  Forall (λ c, loop_origin l + loop_period l ≤ call_start c) (calls_of i cs).

(** The invariant of a running job. *)
Record run_wf (j : taskJob) : Prop := mk_run_wf {
  rw_sched : sched_wf j;
  rw_calls : calls_ok (clock j) (calls j);
  rw_log : log j = log_of (calls j);
  rw_loops : ∀ i l, loops j !! i = Some l → loop_ok (clock j) (calls j) i l;
  rw_known : Forall (λ c, (call_loop c < length (loops j))%nat) (calls j);
}.

(** ** The ticker's grid *)

Section grid.
Implicit Types (l : Loop) (s : Z).

Lemma next_due_gt l s : 0 < loop_period l → s < next_due l s.
Proof.
  intros Hp. unfold next_due.
  pose proof (Z.mul_succ_div_gt (s - loop_origin l) (loop_period l) Hp). lia.
Qed.

Lemma next_due_le l s : 0 < loop_period l → next_due l s ≤ s + loop_period l.
Proof.
  intros Hp. unfold next_due.
  pose proof (Z.mul_div_le (s - loop_origin l) (loop_period l) Hp). lia.
Qed.

Lemma next_due_grid l s : (next_due l s - loop_origin l) mod loop_period l = 0.
Proof.
  unfold next_due.
  replace (_ + _ * loop_period l - _)
    with (((s - loop_origin l) / loop_period l + 1) * loop_period l) by lia.
  apply Z_mod_mult.
Qed.

(** A delivery at or after a scheduled tick moves the next tick at least
    one period further: no slot of the grid is used twice. *)
Lemma next_due_advance l s :
  0 < loop_period l →
  (loop_due l - loop_origin l) mod loop_period l = 0 →
  loop_due l ≤ s →
  loop_due l + loop_period l ≤ next_due l s.
Proof.
  intros Hp Hgrid Hs. unfold next_due.
  apply Z.mod_divide in Hgrid as [k Hk]; [|lia].
  assert (k ≤ (s - loop_origin l) / loop_period l)
    by (apply Z.div_le_lower_bound; lia).
  nia.
Qed.

(** A loop that is never late uses every slot: delivered exactly at the
    due time, the next tick is exactly one period later. *)
Lemma next_due_on_time l :
  0 < loop_period l →
  (loop_due l - loop_origin l) mod loop_period l = 0 →
  next_due l (loop_due l) = loop_due l + loop_period l.
Proof.
  intros Hp Hgrid. unfold next_due.
  apply Z.mod_divide in Hgrid as [k Hk]; [|lia].
  rewrite Hk, Z.div_mul by lia. lia.
Qed.

Lemma fire_wf l s : loop_wf l → loop_due l ≤ s → loop_wf (fire l s).
Proof.
  intros (Hp & Ho & Hg) Hs. pose proof Millisecond_pos.
  split; [done|]. split; cbn; [|apply next_due_grid].
  pose proof (next_due_gt l s). lia.
Qed.

Lemma fire_stop l s : loop_stop (fire l s) = loop_stop l.
Proof. reflexivity. Qed.

Lemma fire_period l s : loop_period (fire l s) = loop_period l.
Proof. reflexivity. Qed.
End grid.

(** ** Inversion of [tick], [wait] and [step] *)

Section inversion.
Implicit Types (j : taskJob) (i : LoopId) (dur : Duration) (o : Outcome).

Lemma tick_Some i dur o j j' :
  tick i dur o j = Some j' ↔
  ∃ l, loops j !! i = Some l ∧ loop_stop l = false ∧
       loop_due l ≤ clock j ∧ 0 ≤ dur ∧
       j' = mkTaskJob (interval j) (cancelFunc j)
              (<[i := fire l (clock j)]> (loops j)) (clock j + dur)
              (mkCall i (clock j) dur o :: calls j) (report i o (log j)).
Proof.
  unfold tick. destruct (loops j !! i) as [l|]; cbn.
  - case_goal_decide as [(?&?&?)|Hno]; split.
    + intros [= <-]. by exists l.
    + by intros (l' & [= <-] & _ & _ & _ & ->).
    + done.
    + intros (l' & [= <-] & ? & ? & ? & _). by destruct Hno.
  - split; [done|]. by intros (l' & ? & _).
Qed.

Lemma tick_is_Some i dur o j :
  0 ≤ dur → is_Some (tick i dur o j) ↔ tick_enabled i j.
Proof.
  intros Hdur. unfold is_Some, tick_enabled. setoid_rewrite tick_Some. split.
  - intros (j' & l & ? & ? & ? & _). by exists l.
  - intros (l & ? & ? & ?). eexists _, l. by split_and!.
Qed.

Lemma wait_Some dt j j' :
  wait dt j = Some j' ↔ 0 ≤ dt ∧ j' = with_clock (clock j + dt) j.
Proof.
  unfold wait. case_goal_decide; split; try done.
  - by intros [= <-].
  - by intros [_ ->].
  - by intros [? _].
Qed.

Lemma step_fun_step lab j j' : step_fun lab j = Some j' ↔ step j lab j'.
Proof.
  split.
  - destruct lab; cbn; [case_goal_decide|..]; intros; simplify_eq;
      by constructor.
  - destruct 1; cbn; [by rewrite decide_True|done..].
Qed.

Lemma run_labels_steps labs j j' : run_labels labs j = Some j' ↔ steps j labs j'.
Proof.
  revert j. induction labs as [|lab labs IH]; intros j; cbn.
  - split; [intros [= ->]; constructor|by inversion 1].
  - split.
    + destruct (step_fun lab j) as [j1|] eqn:E; cbn; [|done].
      intros H. econstructor; [by apply step_fun_step|by apply IH].
    + inversion 1 as [|? ? j1 ? ? Hstep Hrest]; subst.
      apply step_fun_step in Hstep as ->. cbn. by apply IH.
Qed.

Lemma steps_app labs1 labs2 j j' j'' :
  steps j labs1 j' → steps j' labs2 j'' → steps j (labs1 ++ labs2) j''.
Proof. induction 1; cbn; [done|]. intros. econstructor; eauto. Qed.

Lemma steps_one lab j j' : step j lab j' → steps j [lab] j'.
Proof. intros. econstructor; [done|constructor]. Qed.

(** The transition system is deterministic in its labels. *)
Lemma step_det lab j j1 j2 : step j lab j1 → step j lab j2 → j1 = j2.
Proof. rewrite <-!step_fun_step. congruence. Qed.
End inversion.

#[export] Hint Constructors step steps : go.
#[export] Hint Resolve steps_one steps_app : go.

(** ** The history *)

Section history.
Implicit Types (c : Call) (cs : list Call) (i : LoopId) (l : Loop) (now : Z).

Lemma calls_ok_mono now now' cs : now ≤ now' → calls_ok now cs → calls_ok now' cs.
Proof. destruct cs; cbn; [done|]. intros ? (?&?&?). split_and!; [done|lia|done]. Qed.

Lemma calls_ok_cons now c cs :
  calls_ok now (c :: cs) ↔
  0 ≤ call_dur c ∧ call_start c + call_dur c ≤ now ∧ calls_ok (call_start c) cs.
Proof. reflexivity. Qed.

(** Every invocation of the history has ended by [now]. *)
Lemma calls_ok_ended now cs :
  calls_ok now cs →
  Forall (λ c, 0 ≤ call_dur c ∧ call_start c + call_dur c ≤ now) cs.
Proof.
  revert now. induction cs as [|c cs IH]; intros now; [done|].
  intros (Hd & He & Hok). constructor; [done|].
  eapply Forall_impl; [by apply IH|]. cbn. intros c' [??]. lia.
Qed.

(** Every invocation of the history ended by the time any later one
    started (the history is newest first). *)
Lemma calls_ok_lookup now cs a b c1 c2 :
  calls_ok now cs → (a < b)%nat → cs !! a = Some c2 → cs !! b = Some c1 →
  call_start c1 + call_dur c1 ≤ call_start c2.
Proof.
  revert now a b. induction cs as [|c cs IH]; intros now a b Hok Hab Ha Hb; [done|].
  destruct Hok as (Hdur & Hend & Hok). destruct b as [|b]; [lia|]. cbn in Hb.
  destruct a as [|a]; cbn in Ha.
  - simplify_eq. apply calls_ok_ended in Hok.
    rewrite Forall_lookup in Hok. by destruct (Hok b c1 Hb).
  - apply (IH (call_start c) a b); [done|lia|done..].
Qed.

Lemma calls_of_cons i c cs :
  calls_of i (c :: cs) =
    if decide (call_loop c = i) then c :: calls_of i cs else calls_of i cs.
Proof. unfold calls_of. by rewrite filter_cons. Qed.

Lemma calls_of_cons_eq i s dur o cs :
  calls_of i (mkCall i s dur o :: cs) = mkCall i s dur o :: calls_of i cs.
Proof. by rewrite calls_of_cons, decide_True. Qed.

Lemma calls_of_cons_ne i i' s dur o cs :
  i' ≠ i → calls_of i (mkCall i' s dur o :: cs) = calls_of i cs.
Proof. intros. by rewrite calls_of_cons, decide_False. Qed.

(** No invocation is attributed to a loop that has not been started. *)
Lemma calls_of_fresh (n : nat) cs :
  Forall (λ c, (call_loop c < n)%nat) cs → calls_of n cs = [].
Proof.
  induction 1 as [|c cs Hc _ IH]; [done|].
  rewrite calls_of_cons, decide_False by lia. done.
Qed.

Lemma log_of_cons i s dur o cs :
  log_of (mkCall i s dur o :: cs) = report i o (log_of cs).
Proof. by destruct o. Qed.

Lemma loop_ok_mono now now' cs i l :
  now ≤ now' → loop_ok now cs i l → loop_ok now' cs i l.
Proof. intros ? (?&?&?). split_and!; [done|lia|done]. Qed.

Lemma loop_ok_stop now cs i l : loop_ok now cs i l → loop_ok now cs i (stop_loop l).
Proof. done. Qed.

Lemma loop_ok_new now d cs (n : nat) :
  0 ≤ d → Forall (λ c, (call_loop c < n)%nat) cs →
  loop_ok now cs n (new_loop now d).
Proof.
  intros Hd Hcs. unfold loop_ok. rewrite calls_of_fresh by done. cbn.
  split_and!; [lia|lia|done].
Qed.

(** An invocation of another loop does not count against this one. *)
Lemma loop_ok_other now cs i i' l dur o :
  i' ≠ i → 0 ≤ dur → loop_ok now cs i l →
  loop_ok (now + dur) (mkCall i' now dur o :: cs) i l.
Proof.
  intros Hne Hdur (?&?&?). unfold loop_ok.
  rewrite calls_of_cons_ne by done. split_and!; [done|lia|done].
Qed.

(** The loop that fires uses one more slot of its grid. *)
Lemma loop_ok_fire now cs i l dur o :
  loop_wf l → loop_due l ≤ now → 0 ≤ dur → loop_ok now cs i l →
  loop_ok (now + dur) (mkCall i now dur o :: cs) i (fire l now).
Proof.
  intros (Hp & Ho & Hg) Hdue Hdur (Hslots & Hnext & Hfirst).
  pose proof Millisecond_pos.
  pose proof (next_due_advance l now ltac:(lia) Hg Hdue) as Hadv.
  pose proof (next_due_le l now ltac:(lia)) as Hle.
  unfold loop_ok. rewrite calls_of_cons_eq.
  cbn [fire loop_origin loop_period loop_due length].
  rewrite Nat2Z.inj_succ. clear Hg. split_and!; [lia|lia|].
  constructor; [cbn; nia|done].
Qed.
End history.

(** ** The invariant of the transition system *)

Section run_invariant.
Implicit Types (j : taskJob) (i : LoopId) (l : Loop) (d dur : Duration)
  (o : Outcome) (cf : CancelFunc) (m : Method).

Lemma sched_wf_with_clock t j : sched_wf j → sched_wf (with_clock t j).
Proof. by apply sched_wf_ext. Qed.

(** Only the newest loop of a well-formed job can fire. *)
Lemma active_is_newest j i l :
  sched_wf j → loops j !! i = Some l → loop_stop l = false →
  i = pred (length (loops j)).
Proof.
  intros Hwf Hi Hl. pose proof (wf_active_is_newest j i l Hwf Hi Hl) as Hcf.
  rewrite (wf_cancelFunc j Hwf) in Hcf. revert Hcf.
  case_goal_decide; [done|]. by intros [= <-].
Qed.

Lemma sched_wf_fire j i l s :
  sched_wf j → loops j !! i = Some l → loop_stop l = false → loop_due l ≤ s →
  sched_wf (with_loops (<[i := fire l s]> (loops j)) j).
Proof.
  intros Hwf Hi Hl Hs. pose proof (active_is_newest j i l Hwf Hi Hl) as Hnew.
  destruct Hwf as [Hls Hsup Hcf Hiv]. constructor; cbn; rewrite ?length_insert.
  - apply Forall_insert; [done|]. apply fire_wf; [|done].
    by eapply Forall_lookup_1.
  - rewrite take_insert_ge by lia. done.
  - rewrite Hcf. destruct (loops j); [done|]. by destruct i.
  - rewrite last_lookup, length_insert, <-Hnew.
    rewrite list_lookup_insert_eq by (by eapply lookup_lt_Some). cbn.
    rewrite last_lookup, <-Hnew, Hi in Hiv. exact Hiv.
Qed.

Lemma run_wf_New now : run_wf (NewTaskJob now).
Proof. constructor; cbn; [auto with go|done..]. Qed.

Lemma run_wf_arm d j :
  Millisecond ≤ d ≤ int64_max → run_wf j → run_wf (arm d j).2.
Proof.
  intros Hd [Hs Hc Hl Hls Hk]. pose proof Millisecond_pos.
  constructor; rewrite ?arm_clock, ?arm_calls, ?arm_log; [auto with go|done..| |].
  - intros i l. rewrite arm_loops, lookup_snoc_Some, length_fmap.
    intros [[_ Hi]|[-> <-]].
    + apply list_lookup_fmap_Some in Hi as (l0 & -> & Hi).
      by apply loop_ok_stop, Hls.
    + apply loop_ok_new; [lia|done].
  - rewrite arm_loops, length_app, length_fmap.
    eapply Forall_impl; [done|]. cbn. lia.
Qed.

Lemma run_wf_call_cancel cf j : run_wf j → run_wf (exec (call_cancel cf) j).
Proof.
  intros [Hs Hc Hl Hls Hk].
  constructor; [auto with go|done..| |].
  - intros i l. rewrite call_cancel_lookup. case_goal_decide; [|by apply Hls].
    intros (l0 & Hi & ->)%fmap_Some. by apply loop_ok_stop, Hls.
  - by rewrite call_cancel_loops, length_alter.
Qed.

Lemma run_wf_wait dt j j' : run_wf j → wait dt j = Some j' → run_wf j'.
Proof.
  intros [Hs Hc Hl Hls Hk] [Hdt ->]%wait_Some.
  constructor; cbn; [by apply sched_wf_with_clock| |done| |done].
  - apply (calls_ok_mono (clock j)); [lia|done].
  - intros i l Hi. apply (loop_ok_mono (clock j)); [lia|by apply Hls].
Qed.

Lemma run_wf_tick i dur o j j' : run_wf j → tick i dur o j = Some j' → run_wf j'.
Proof.
  intros [Hs Hc Hl Hls Hk] (l & Hi & Hstop & Hdue & Hdur & ->)%tick_Some.
  pose proof (lookup_lt_Some _ _ _ Hi) as Hlt.
  constructor; cbn [interval cancelFunc loops clock calls log].
  - by eapply sched_wf_ext, (sched_wf_fire j i l (clock j)).
  - rewrite calls_ok_cons. cbn. split_and!; [done|lia|done].
  - by rewrite log_of_cons, Hl.
  - intros i' l'. destruct (decide (i = i')) as [<-|Hne].
    + rewrite list_lookup_insert_eq by done. intros [= <-].
      apply loop_ok_fire; [|done|done|by apply Hls].
      by eapply Forall_lookup_1; [apply Hs|].
    + rewrite list_lookup_insert_ne by done. intros Hi'.
      by apply loop_ok_other; [|done|apply Hls].
  - rewrite length_insert. by constructor.
Qed.

Lemma run_wf_step j lab j' : run_wf j → step j lab j' → run_wf j'.
Proof.
  intros Hwf. destruct 1 as [m j Hm|cf j|i dur o j j' Ht|dt j j' Hw].
  - rewrite exec_method. by apply run_wf_arm; [apply method_interval_range|].
  - by apply run_wf_call_cancel.
  - by eapply run_wf_tick.
  - by eapply run_wf_wait.
Qed.

Lemma run_wf_steps j labs j' : run_wf j → steps j labs j' → run_wf j'.
Proof. intros Hwf Hsteps. induction Hsteps; eauto using run_wf_step. Qed.
End run_invariant.

#[export] Hint Resolve run_wf_New run_wf_step run_wf_steps : go.

(** ** Stop signals are permanent *)

Section stopped.
Implicit Types (j : taskJob) (i : LoopId) (l : Loop) (lab : Label)
  (labs : list Label).

Lemma no_active_lookup j i l :
  active_loops j = [] → loops j !! i = Some l → loop_stop l = true.
Proof.
  intros Hnone%stopped_of_no_active Hi. by eapply (Forall_lookup_1 _ _ _ _ Hnone).
Qed.

Lemma tick_stopped i dur o j l :
  loops j !! i = Some l → loop_stop l = true → tick i dur o j = None.
Proof.
  intros Hi Hl. destruct (tick i dur o j) as [j'|] eqn:E; [|done].
  apply tick_Some in E as (l' & ? & ? & _). simplify_eq. congruence.
Qed.

(** No transition lowers a stop signal. *)
Lemma step_stopped j lab j' i l :
  step j lab j' → loops j !! i = Some l → loop_stop l = true →
  ∃ l', loops j' !! i = Some l' ∧ loop_stop l' = true.
Proof.
  destruct 1 as [m j Hm|cf j|i' dur o j j' Ht|dt j j' Hw]; intros Hi Hl.
  - rewrite exec_method. exists (stop_loop l). by rewrite (arm_lookup_old _ _ _ l).
  - rewrite call_cancel_lookup, Hi.
    case_goal_decide; [by exists (stop_loop l)|by exists l].
  - apply tick_Some in Ht as (l' & Hi' & Hl' & _ & _ & ->). cbn.
    destruct (decide (i' = i)) as [->|]; [simplify_eq; congruence|].
    rewrite list_lookup_insert_ne by done. eauto.
  - apply wait_Some in Hw as [_ ->]. eauto.
Qed.

(** A stopped loop makes no further invocation. *)
Lemma step_stopped_calls j lab j' i l :
  step j lab j' → loops j !! i = Some l → loop_stop l = true →
  calls_of i (calls j') = calls_of i (calls j).
Proof.
  destruct 1 as [m j Hm|cf j|i' dur o j j' Ht|dt j j' Hw]; intros Hi Hl.
  - by rewrite exec_method.
  - done.
  - destruct (decide (i' = i)) as [->|Hne].
    + by rewrite (tick_stopped i dur o j l) in Ht.
    + apply tick_Some in Ht as (l' & _ & _ & _ & _ & ->). cbn [calls].
      by rewrite calls_of_cons_ne.
  - by apply wait_Some in Hw as [_ ->].
Qed.

Lemma steps_stopped_calls j labs j' i l :
  steps j labs j' → loops j !! i = Some l → loop_stop l = true →
  calls_of i (calls j') = calls_of i (calls j).
Proof.
  intros Hsteps. revert l. induction Hsteps as [|j lab j1 labs j2 Hstep _ IH];
    intros l Hi Hl; [done|].
  destruct (step_stopped _ _ _ _ _ Hstep Hi Hl) as (l1 & Hi1 & Hl1).
  rewrite (IH l1) by done. by eapply step_stopped_calls.
Qed.

(** Without a call of the public interface, a job with no active loop
    stays as it is, the clock apart. *)
Lemma step_quiet j lab j' :
  active_loops j = [] → is_call lab = false → step j lab j' →
  loops j' = loops j ∧ calls j' = calls j ∧ log j' = log j ∧
  interval j' = interval j ∧ cancelFunc j' = cancelFunc j.
Proof.
  intros Hnone Hlab. destruct 1 as [m j Hm|cf j|i dur o j j' Ht|dt j j' Hw].
  - done.
  - rewrite call_cancel_stale; [done|]. intros l. by apply no_active_lookup.
  - apply tick_Some in Ht as (l & Hi & Hl & _).
    by rewrite (no_active_lookup j i l) in Hl.
  - by apply wait_Some in Hw as [_ ->].
Qed.

Lemma steps_quiet j labs j' :
  active_loops j = [] → Forall (λ lab, is_call lab = false) labs →
  steps j labs j' →
  loops j' = loops j ∧ calls j' = calls j ∧ log j' = log j ∧
  interval j' = interval j ∧ cancelFunc j' = cancelFunc j.
Proof.
  intros Hnone Hlabs Hsteps.
  induction Hsteps as [|j lab j1 labs j2 Hstep _ IH]; [done|].
  apply Forall_cons in Hlabs as [Hlab Hlabs].
  destruct (step_quiet _ _ _ Hnone Hlab Hstep) as (E1 & E2 & E3 & E4 & E5).
  destruct IH as (-> & -> & -> & -> & ->); [|done..].
  unfold active_loops in *. by rewrite E1.
Qed.
End stopped.

(** ** The prompt scheduler terminates and refines the transition system *)

Section scheduler.
Implicit Types (j : taskJob) (i : LoopId) (l : Loop) (work : Work)
  (deadline : Z) (fuel : nat).

Definition work_ok (work : Work) : Prop := ∀ n, 0 ≤ (work n).1.

Lemma current_loop_Some j i l :
  current_loop j = Some (i, l) ↔
  cancelFunc j = Some (mkCancel i) ∧ loops j !! i = Some l.
Proof.
  unfold current_loop. destruct (cancelFunc j) as [[i']|]; cbn; [|by split; [|intros []]].
  destruct (loops j !! i') as [l'|] eqn:E; cbn; split.
  - by intros [= <- <-].
  - intros [[= <-] ?]. by simplify_eq.
  - done.
  - intros [[= <-] ?]. by simplify_eq.
Qed.

(** Moving the clock forward is a [wait]. *)
Lemma with_clock_wait t j : clock j ≤ t → wait (t - clock j) j = Some (with_clock t j).
Proof.
  intros Ht. unfold wait. rewrite decide_True by lia. do 2 f_equal. lia.
Qed.

Lemma with_clock_step t j : clock j ≤ t → step j (LWait (t - clock j)) (with_clock t j).
Proof. intros. by apply step_wait, with_clock_wait. Qed.

(** One round of the scheduler: wait for the tick, fire it. *)
Lemma advance_S fuel work deadline j :
  advance (S fuel) work deadline j =
    match current_loop j with
    | Some (i, l) =>
      let start := Z.max (clock j) (loop_due l) in
      if decide (loop_stop l = false ∧ start ≤ deadline) then
        let '(dur, o) := work (length (calls j)) in
        j' ← tick i dur o (with_clock start j);
        advance fuel work deadline j'
      else Some (with_clock (Z.max (clock j) deadline) j)
    | None => Some (with_clock (Z.max (clock j) deadline) j)
    end.
Proof. reflexivity. Qed.

(** Every run of the scheduler is a run of the transition system made of
    waits and ticks. *)
Lemma advance_steps fuel work deadline j j' :
  advance fuel work deadline j = Some j' →
  ∃ labs, steps j labs j' ∧ Forall (λ lab, is_call lab = false) labs.
Proof.
  revert j. induction fuel as [|fuel IH]; intros j; [done|].
  rewrite advance_S.
  assert (∀ j0, Some (with_clock (Z.max (clock j) deadline) j) = Some j0 →
    ∃ labs, steps j labs j0 ∧ Forall (λ lab, is_call lab = false) labs) as Hend.
  { intros j0 [= <-]. exists [LWait (Z.max (clock j) deadline - clock j)].
    split; [|by repeat constructor]. apply steps_one, with_clock_step. lia. }
  destruct (current_loop j) as [[i l]|]; [|by apply Hend]. cbn zeta.
  case_goal_decide as [[Hstop Hstart]|_]; [|by apply Hend].
  destruct (work (length (calls j))) as [dur o].
  destruct (tick i dur o _) as [j1|] eqn:Htick; cbn; [|done].
  intros (labs & Hsteps & Hlabs)%IH.
  exists (LWait (Z.max (clock j) (loop_due l) - clock j) :: LTick i dur o :: labs).
  split; [|by repeat constructor].
  econstructor; [apply with_clock_step; lia|]. econstructor; [|done].
  by constructor.
Qed.

(** The tick the scheduler waits for can fire. *)
Lemma advance_tick_fires i l dur o j :
  loops j !! i = Some l → loop_stop l = false → 0 ≤ dur →
  is_Some (tick i dur o (with_clock (Z.max (clock j) (loop_due l)) j)).
Proof.
  intros Hi Hstop Hdur. apply tick_is_Some; [done|].
  exists l. split_and!; [done..|cbn; lia].
Qed.

(** Firing the current loop leaves less to do before the deadline. *)
Lemma advance_fuel_tick i l dur o deadline j j' :
  sched_wf j → current_loop j = Some (i, l) →
  Z.max (clock j) (loop_due l) ≤ deadline →
  tick i dur o (with_clock (Z.max (clock j) (loop_due l)) j) = Some j' →
  (advance_fuel deadline j' < advance_fuel deadline j)%nat.
Proof.
  intros Hwf [Hcf Hi]%current_loop_Some Hstart
    (l' & Hi' & Hstop & Hdue & Hdur & ->)%tick_Some.
  cbn in Hi', Hdue. simplify_eq.
  pose proof (lookup_lt_Some _ _ _ Hi) as Hlt.
  destruct (Forall_lookup_1 _ _ _ _ (wf_loops j Hwf) Hi) as (Hp & Ho & Hg).
  pose proof Millisecond_pos.
  pose proof (next_due_advance l _ ltac:(lia) Hg Hdue) as Hadv.
  unfold advance_fuel.
  rewrite (proj2 (current_loop_Some j i l)) by done.
  erewrite (proj2 (current_loop_Some _ i _)); [|split; [done|cbn]].
  2: { by rewrite list_lookup_insert_eq. }
  cbn [fire loop_due loop_period with_clock clock].
  set (s := Z.max (clock j) (loop_due l)) in *.
  assert ((deadline - next_due l s) / loop_period l + 1
          ≤ (deadline - loop_due l) / loop_period l) as Hle.
  { rewrite <-Z.div_add by lia. apply Z.div_le_mono; lia. }
  assert (0 ≤ (deadline - loop_due l) / loop_period l)
    by (apply Z.div_pos; lia).
  lia.
Qed.

(** [advance_fuel] is enough fuel. *)
Lemma advance_fuel_enough fuel work deadline j :
  work_ok work → run_wf j → (advance_fuel deadline j ≤ fuel)%nat →
  is_Some (advance fuel work deadline j).
Proof.
  intros Hwork. revert j. induction fuel as [|fuel IH]; intros j Hwf Hfuel.
  { unfold advance_fuel in Hfuel. destruct (current_loop j) as [[??]|]; lia. }
  rewrite advance_S. destruct (current_loop j) as [[i l]|] eqn:Hcur; [|done].
  cbn zeta. case_goal_decide as [[Hstop Hstart]|_]; [|done].
  pose proof (Hwork (length (calls j))) as Hdur.
  destruct (work (length (calls j))) as [dur o]. cbn in Hdur.
  pose proof Hcur as [_ Hi]%current_loop_Some.
  destruct (advance_tick_fires i l dur o j Hi Hstop Hdur) as [j1 Htick].
  rewrite Htick. cbn. apply IH.
  - eapply run_wf_tick; [|done].
    eapply run_wf_wait; [done|]. apply with_clock_wait. lia.
  - pose proof (advance_fuel_tick i l dur o deadline j j1
      (rw_sched j Hwf) Hcur Hstart Htick). lia.
Qed.

(** More fuel does not change the result. *)
Lemma advance_fuel_mono fuel fuel' work deadline j j' :
  (fuel ≤ fuel')%nat → advance fuel work deadline j = Some j' →
  advance fuel' work deadline j = Some j'.
Proof.
  revert fuel' j. induction fuel as [|fuel IH]; intros [|fuel'] j Hle; try done; [lia|].
  rewrite !advance_S. destruct (current_loop j) as [[i l]|]; [|done]. cbn zeta.
  case_goal_decide; [|done]. destruct (work _) as [dur o].
  destruct (tick i dur o _) as [j1|]; cbn; [|done]. apply IH. lia.
Qed.

(** When the scheduler returns, the clock has reached the deadline. *)
Lemma advance_clock fuel work deadline j j' :
  advance fuel work deadline j = Some j' → Z.max (clock j) deadline ≤ clock j'.
Proof.
  revert j. induction fuel as [|fuel IH]; intros j; [done|].
  rewrite advance_S.
  destruct (current_loop j) as [[i l]|]; [|by intros [= <-]]. cbn zeta.
  case_goal_decide as [[Hstop Hstart]|_]; [|by intros [= <-]].
  destruct (work _) as [dur o].
  destruct (tick i dur o _) as [j1|] eqn:Htick; cbn; [|done].
  intros Hadv%IH. apply tick_Some in Htick as (l' & _ & _ & _ & ? & ->).
  cbn in *. lia.
Qed.
End scheduler.

(** ** A wait followed by a tick *)

Section wait_tick.
Implicit Types (j : taskJob) (i : LoopId) (l : Loop) (dur dt : Z) (o : Outcome).

(** The job after waiting [dt] and one firing of loop [i]. *)
Definition after_tick (dt : Z) (i : LoopId) (l : Loop) (dur : Z) (o : Outcome)
    (j : taskJob) : taskJob :=
  mkTaskJob (interval j) (cancelFunc j)
    (<[i := fire l (clock j + dt)]> (loops j)) (clock j + dt + dur)
    (mkCall i (clock j + dt) dur o :: calls j) (report i o (log j)).

Lemma run_wait_tick dt i l dur o j :
  0 ≤ dt → 0 ≤ dur → loops j !! i = Some l → loop_stop l = false →
  loop_due l ≤ clock j + dt →
  run_labels [LWait dt; LTick i dur o] j = Some (after_tick dt i l dur o j).
Proof.
  intros Hdt Hdur Hi Hstop Hdue. cbn. unfold wait. rewrite decide_True by done.
  cbn. unfold tick. cbn. rewrite Hi. cbn. by rewrite decide_True.
Qed.

Lemma after_tick_lookup dt i l dur o j :
  loops j !! i = Some l →
  loops (after_tick dt i l dur o j) !! i = Some (fire l (clock j + dt)).
Proof.
  intros Hi. cbn. rewrite list_lookup_insert_eq; [done|by eapply lookup_lt_Some].
Qed.

Lemma after_tick_active dt i l dur o j :
  loops j !! i = Some l → loop_stop l = false →
  active_loops (after_tick dt i l dur o j) ≠ [].
Proof.
  intros Hi Hstop Hnone.
  pose proof (no_active_lookup _ i _ Hnone (after_tick_lookup dt i l dur o j Hi)).
  cbn in *. congruence.
Qed.
End wait_tick.

(** ** Properties of the run loop *)

Section run_properties.
Implicit Types (j : taskJob) (i : LoopId) (l : Loop) (m : Method)
  (labs : list Label) (work : Work).

(** C11. The invariant of the scheduler: whatever the caller and the
    environment do, in any order, a job constructed by [NewTaskJob] stays
    well formed.  Its loops have periods of at least one millisecond, all
    but the newest are stopped (so at most one is active), the capability
    of the job names the newest loop, the invocations of the history do
    not overlap, the log holds exactly the failed invocations, and every
    loop has used at most one slot of its grid per invocation. *)
Theorem reachable_jobs_are_wf now labs j :
  steps (NewTaskJob now) labs j →
  run_wf j ∧ (length (active_loops j) ≤ 1)%nat.
Proof.
  intros Hsteps. assert (run_wf j) as Hwf by eauto with go.
  split; [done|]. by apply wf_active_le_1, rw_sched.
Qed.

(** Ticks do not overlap: of any two invocations of the work
    callable in the history of a job, the earlier one had ended when the
    later one started, so the gap between two starts is at least the
    running time of the first. *)
Theorem invocations_do_not_overlap now labs j (a b : nat) c1 c2 :
  steps (NewTaskJob now) labs j →
  (a < b)%nat → calls j !! a = Some c2 → calls j !! b = Some c1 →
  call_start c1 + call_dur c1 ≤ call_start c2.
Proof.
  intros Hsteps. apply (calls_ok_lookup (clock j)).
  eapply rw_calls, run_wf_steps; [apply run_wf_New|done].
Qed.

(** Fixed rate: a loop never invokes the work callable more often
    than once per period.  After [n] invocations of a loop at least
    [n] periods have passed since it was armed, and its first invocation
    is not before one full period. *)
Theorem invocation_rate_bound now labs j i l :
  steps (NewTaskJob now) labs j → loops j !! i = Some l →
  Z.of_nat (length (calls_of i (calls j))) * loop_period l
    ≤ clock j - loop_origin l ∧
  Forall (λ c, loop_origin l + loop_period l ≤ call_start c)
    (calls_of i (calls j)).
Proof.
  intros Hsteps Hi.
  assert (run_wf j) as Hwf by eauto with go.
  destruct (rw_loops j Hwf i l Hi) as (Hslots & Hnext & Hfirst).
  split; [lia|done].
Qed.

(** The log is the record of the failed invocations: one entry per
    invocation that failed, in the order of the invocations, and none for
    an invocation that succeeded. *)
Theorem log_records_failures now labs j :
  steps (NewTaskJob now) labs j → log j = log_of (calls j).
Proof. intros Hsteps. eapply rw_log, run_wf_steps; [apply run_wf_New|done]. Qed.

(** No tick after cancellation: once the capability a method
    returned has been invoked, the loop that method started never invokes
    the work callable again, whatever happens afterwards, calls of other
    cadence methods included. *)
Theorem cancelled_loop_never_ticks m j labs j' :
  let cf := mkCancel (length (loops j)) in
  steps (exec (call_cancel cf) (exec (method_run m) j)) labs j' →
  calls_of (length (loops j)) (calls j') = calls_of (length (loops j)) (calls j).
Proof.
  cbn zeta. rewrite exec_method. intros Hsteps.
  rewrite (steps_stopped_calls _ _ _ (length (loops j))
    (stop_loop (new_loop (clock j) (method_interval m))) Hsteps); [done| |done].
  rewrite call_cancel_lookup, decide_True by done. by rewrite arm_lookup_new.
Qed.

(** Cancellation is terminal for the job: after the capability is
    invoked, and until a cadence method is called again, the work callable
    is not invoked at all, nothing is logged and the job stays
    [Cancelled]. *)
Theorem no_invocation_after_cancel m j labs j' :
  let cf := mkCancel (length (loops j)) in
  Forall (λ lab, is_call lab = false) labs →
  steps (exec (call_cancel cf) (exec (method_run m) j)) labs j' →
  calls j' = calls j ∧ log j' = log j ∧ phase j' = Cancelled.
Proof.
  cbn zeta. rewrite exec_method. intros Hlabs Hsteps.
  pose proof (call_cancel_arm (method_interval m) j) as Hnone.
  destruct (steps_quiet _ _ _ Hnone Hlabs Hsteps) as (Hl & -> & -> & _).
  split_and!; [done..|]. apply phase_Cancelled.
  - rewrite Hl, call_cancel_loops, arm_loops.
    intros E%(f_equal length). rewrite length_alter, length_app in E. cbn in E. lia.
  - unfold active_loops in *. by rewrite Hl.
Qed.

(** C36. A failing invocation does not stop the loop: when the first tick
    of the loop a method started fails, the failure is reported to the log
    (one entry) and the loop stays active; one period later its next tick
    fires and invokes the work callable again. *)
Theorem failing_tick_keeps_loop_running m j dur err dur' o' :
  method_ok m → 0 ≤ dur → 0 ≤ dur' →
  let i := length (loops j) in
  let p := method_interval m in
  ∃ j2 j3,
    run_labels [LWait p; LTick i dur (Failed err)] (exec (method_run m) j)
      = Some j2 ∧
    log j2 = mkLog i err :: log j ∧ phase j2 = Running ∧
    run_labels [LWait p; LTick i dur' o'] j2 = Some j3 ∧
    length (calls j3) = S (S (length (calls j))).
Proof.
  intros Hm Hdur Hdur'. cbn zeta. rewrite exec_method.
  pose proof (method_interval_lower m) as Hp. pose proof Millisecond_pos.
  set (p := method_interval m) in *. set (j1 := (arm p j).2).
  pose proof (arm_lookup_new p j) as Hi. fold j1 in Hi.
  set (l := new_loop (clock j) p) in *.
  set (n := length (loops j)) in *.
  set (j2 := after_tick p n l dur (Failed err) j1).
  pose proof (after_tick_lookup p n l dur (Failed err) j1 Hi) as Hi2. fold j2 in Hi2.
  set (l2 := fire l (clock j1 + p)) in *.
  exists j2, (after_tick p n l2 dur' o' j2).
  assert (loops j2 ≠ []) as Hne by (intros E; by rewrite E in Hi2).
  split_and!.
  - apply run_wait_tick; [lia|done|done|done|cbn; lia].
  - done.
  - unfold phase. rewrite decide_False by (by apply after_tick_active).
    by destruct (loops j2).
  - apply run_wait_tick; [lia|done|done|done|].
    pose proof (next_due_le l (clock j + p)). cbn in *. lia.
  - done.
Qed.
End run_properties.

Section scheduler_properties.
Implicit Types (j : taskJob) (m : Method) (work : Work) (deadline : Z).

(** The prompt scheduler terminates: on a job a method has just
    armed, with a work callable whose invocations take a non-negative
    time, one unit of fuel per period between the clock and the deadline,
    plus one, is enough for [advance] to return; when it returns the clock
    has reached the deadline and the job is well formed. *)
Theorem scheduler_terminates m j work deadline :
  method_ok m → run_wf j → work_ok work →
  let j1 := exec (method_run m) j in
  let fuel := advance_fuel deadline j1 in
  fuel = (Z.to_nat ((deadline - clock j) / method_interval m) + 1)%nat ∧
  ∃ j', advance fuel work deadline j1 = Some j' ∧
        Z.max (clock j) deadline ≤ clock j' ∧ run_wf j'.
Proof.
  intros Hm Hwf Hwork. cbn zeta. rewrite exec_method.
  pose proof (method_interval_range m Hm) as Hp. pose proof Millisecond_pos.
  set (p := method_interval m) in *.
  assert (run_wf (arm p j).2) as Hwf1 by (by apply run_wf_arm).
  split.
  - unfold advance_fuel.
    rewrite (proj2 (current_loop_Some _ (length (loops j)) (new_loop (clock j) p)))
      by (split; [done|apply arm_lookup_new]).
    cbn. replace (deadline - (clock j + p)) with (deadline - clock j + -1 * p) by lia.
    rewrite Z.div_add by lia. f_equal. f_equal. lia.
  - destruct (advance_fuel_enough _ work deadline _ Hwork Hwf1 (le_n _)) as [j' Hj'].
    exists j'. split_and!; [done|by apply advance_clock in Hj'|].
    apply advance_steps in Hj' as (labs & Hsteps & _). by eapply run_wf_steps.
Qed.

(** The prompt scheduler refines the transition system: whatever
    [advance] computes on the job a method left behind is reached by a
    sequence of waits and ticks of the transition system, without any call
    of the public interface, and more fuel gives the same result. *)
Theorem scheduler_refines_transitions m j work deadline (fuel fuel' : nat) j' :
  advance fuel work deadline (exec (method_run m) j) = Some j' →
  (fuel ≤ fuel')%nat →
  advance fuel' work deadline (exec (method_run m) j) = Some j' ∧
  ∃ labs, steps (exec (method_run m) j) labs j' ∧
          Forall (λ lab, is_call lab = false) labs.
Proof.
  intros Hadv Hle. split; [by eapply advance_fuel_mono|by eapply advance_steps].
Qed.
End scheduler_properties.

(** ** A loop that is never late is exactly periodic *)

(** The start times of [k] invocations on the grid of a ticker armed at
    [c0] with period [p], newest first. *)
Fixpoint grid_starts (c0 p : Z) (k : nat) : list Z :=
  match k with
  | O => []
  | S k' => (c0 + Z.of_nat k * p) :: grid_starts c0 p k'
  end.

(** Loop [i], armed at [c0] with period [p], has made [k] invocations,
    each at its scheduled tick, and is waiting for the next one. *)
Definition on_time (i : LoopId) (c0 p : Z) (k : nat) (j : taskJob) : Prop :=
  cancelFunc j = Some (mkCancel i) ∧
  loops j !! i = Some (mkLoop p c0 (c0 + (Z.of_nat k + 1) * p) false) ∧
  clock j ≤ c0 + (Z.of_nat k + 1) * p ∧
  call_start <$> calls_of i (calls j) = grid_starts c0 p k.

Section periodic.
Context (work : Work) (deadline : Z) (i : LoopId) (c0 p : Z).
Context (Hp : 0 < p) (Hfast : ∀ n, 0 ≤ (work n).1 < p).
Implicit Types (j : taskJob) (k : nat).

Lemma on_time_current j k :
  on_time i c0 p k j →
  current_loop j = Some (i, mkLoop p c0 (c0 + (Z.of_nat k + 1) * p) false).
Proof. intros (Hcf & Hi & _). by apply current_loop_Some. Qed.

(** One round of the scheduler on a loop that is on time. *)
Lemma on_time_tick j k :
  on_time i c0 p k j →
  let due := c0 + (Z.of_nat k + 1) * p in
  let '(dur, o) := work (length (calls j)) in
  ∃ j1, tick i dur o (with_clock (Z.max (clock j) due) j) = Some j1 ∧
        on_time i c0 p (S k) j1.
Proof.
  intros (Hcf & Hi & Hclock & Hcalls). cbn zeta.
  pose proof (Hfast (length (calls j))) as Hdur.
  destruct (work (length (calls j))) as [dur o]. cbn in Hdur.
  set (due := c0 + (Z.of_nat k + 1) * p) in *.
  set (l := mkLoop p c0 due false) in *.
  rewrite Z.max_r by done.
  eexists. split.
  - apply tick_Some. exists l. by split_and!; [..|lia|].
  - assert (next_due l due = due + p) as Hnext.
    { apply (next_due_on_time l); cbn; [done|]. unfold due.
      replace (_ - c0) with ((Z.of_nat k + 1) * p) by lia. apply Z_mod_mult. }
    split_and!; cbn [cancelFunc loops clock calls with_clock]; [done| | |].
    + rewrite list_lookup_insert_eq by (by eapply lookup_lt_Some).
      unfold fire. rewrite Hnext. cbn. do 2 f_equal. unfold due. lia.
    + lia.
    + rewrite calls_of_cons_eq, fmap_cons, Hcalls. cbn [call_start grid_starts].
      f_equal. unfold due. lia.
Qed.

Lemma advance_on_time fuel j k j' :
  on_time i c0 p k j → advance fuel work deadline j = Some j' →
  ∃ k', on_time i c0 p k' j' ∧
        Z.of_nat k' = Z.max (Z.of_nat k) ((deadline - c0) / p).
Proof.
  revert j k. induction fuel as [|fuel IH]; intros j k Hon; [done|].
  rewrite advance_S, (on_time_current j k Hon). cbn zeta.
  cbn [loop_due loop_stop]. set (due := c0 + (Z.of_nat k + 1) * p).
  pose proof Hon as (Hcf & Hi & Hclock & Hcalls). fold due in Hclock.
  case_goal_decide as [[_ Hstart]|Hlate].
  - pose proof (on_time_tick j k Hon) as Htick. cbn zeta in Htick. fold due in Htick.
    destruct (work (length (calls j))) as [dur o].
    destruct Htick as (j1 & -> & Hon1). cbn.
    intros (k' & Hon' & Hk')%(IH _ _ Hon1). exists k'. split; [done|].
    assert (Z.of_nat k + 1 ≤ (deadline - c0) / p)
      by (apply Z.div_le_lower_bound; unfold due in *; lia).
    lia.
  - intros [= <-]. exists k. split.
    + destruct Hon as (? & ? & ? & ?). split_and!; [done..|cbn; fold due; lia|done].
    + assert ((deadline - c0) / p < Z.of_nat k + 1)
        by (apply Z.div_lt_upper_bound; unfold due in *; lia).
      lia.
Qed.
End periodic.

Section periodic_property.
Implicit Types (j : taskJob) (m : Method) (work : Work) (deadline : Z).

(** C19. Fixed rate without drift: when every invocation of the work
    callable is shorter than the interval, the prompt scheduler invokes it
    exactly at the scheduled ticks.  By the deadline the loop a method
    started has made one invocation per whole interval elapsed since the
    call, the [k]-th at [k] intervals after the call, however long the
    invocations took. *)
Theorem on_time_loop_is_periodic m j work deadline (fuel : nat) j' :
  method_ok m → run_wf j →
  (∀ n, 0 ≤ (work n).1 < method_interval m) →
  advance fuel work deadline (exec (method_run m) j) = Some j' →
  call_start <$> calls_of (length (loops j)) (calls j') =
    grid_starts (clock j) (method_interval m)
      (Z.to_nat ((deadline - clock j) / method_interval m)).
Proof.
  intros Hm Hwf Hfast. rewrite exec_method.
  pose proof (method_interval_lower m). pose proof Millisecond_pos.
  set (p := method_interval m) in *.
  assert (on_time (length (loops j)) (clock j) p 0 (arm p j).2) as Hon.
  { split_and!; [done| |cbn; lia|].
    { rewrite arm_lookup_new. unfold new_loop. simpl Z.of_nat.
      by rewrite Z.add_0_l, Z.mul_1_l. }
    rewrite arm_calls, calls_of_fresh; [done|by apply rw_known]. }
  intros (k' & (_ & _ & _ & ->) & Hk')%(advance_on_time work deadline _ _ p
    ltac:(lia) Hfast _ _ _ _ Hon).
  f_equal. lia.
Qed.
End periodic_property.

(** ** Scenarios *)

(** A work callable that takes one millisecond and succeeds. *)
Definition quick_work : Work := λ _, (Millisecond, Done).

(** A work callable that takes two and a half seconds and succeeds. *)
Definition slow_work : Work := λ _, (2500 * Millisecond, Done).

(** The scenario of the specification: a job armed by [EverySecond]
    has invoked its work callable three times after 3.5 seconds, at 1, 2
    and 3 seconds; after the capability is invoked, 2 more seconds add no
    invocation. *)
Example scenario_every_second :
  ∃ cf j1 j2 j4,
    EverySecond (NewTaskJob 0) = (Some cf, j1) ∧
    advance 5 quick_work (3500 * Millisecond) j1 = Some j2 ∧
    call_start <$> calls j2 = [3 * Second; 2 * Second; 1 * Second] ∧
    advance 1 quick_work (5500 * Millisecond) (exec (call_cancel cf) j2)
      = Some j4 ∧
    calls j4 = calls j2 ∧ clock j4 = 5500 * Millisecond.
Proof.
  eexists _, _, _, _. split; [by vm_compute|]. split; [by vm_compute|].
  split; [by vm_compute|]. split; [by vm_compute|]. by vm_compute.
Qed.

(** Ticks are delayed, not stacked: with a work callable that runs
    for 2.5 seconds on a job armed by [EverySecond], the invocations start
    at 1, 3.5, 6 and 8.5 seconds: each starts when the previous one ends,
    the ticks that came in between are dropped, and no two invocations
    run at once. *)
Example scenario_slow_work :
  ∃ j2,
    advance 11 slow_work (10 * Second) (exec EverySecond (NewTaskJob 0))
      = Some j2 ∧
    call_start <$> calls j2
      = [8500 * Millisecond; 6 * Second; 3500 * Millisecond; 1 * Second] ∧
    clock j2 = 11 * Second.
Proof. eexists. split; [by vm_compute|]. by vm_compute. Qed.

(** ** Witnesses *)

Definition demo_labels : list Label :=
  [ LCall (MNamed CEverySecond); LWait Second;
    LTick 0 (2500 * Millisecond) (Failed "boom");
    LTick 0 Millisecond Done; LCancel (mkCancel 0); LWait 5;
    LCall (MEvery 7); LWait Second ].

Definition demo_job : taskJob :=
  default (NewTaskJob 0) (run_labels demo_labels (NewTaskJob 0)).

Lemma demo_steps : steps (NewTaskJob 0) demo_labels demo_job.
Proof. apply run_labels_steps. by vm_compute. Qed.

Lemma reachable_jobs_are_wf_witness :
  run_wf demo_job ∧ (length (active_loops demo_job) ≤ 1)%nat.
Proof. apply (reachable_jobs_are_wf 0 demo_labels demo_job), demo_steps. Defined.

Lemma invocations_do_not_overlap_witness :
  Second + 2500 * Millisecond ≤ 3500 * Millisecond.
Proof.
  apply (invocations_do_not_overlap 0 demo_labels demo_job 0 1
    (mkCall 0 Second (2500 * Millisecond) (Failed "boom"))
    (mkCall 0 (3500 * Millisecond) Millisecond Done));
    [apply demo_steps|lia|reflexivity..].
Defined.

Lemma invocation_rate_bound_witness :
  2 * Second ≤ clock demo_job - 0 ∧
  Forall (λ c, 0 + Second ≤ call_start c) (calls_of 0 (calls demo_job)).
Proof.
  apply (invocation_rate_bound 0 demo_labels demo_job 0
    (mkLoop Second 0 (4 * Second) true)); [apply demo_steps|reflexivity].
Defined.

Lemma log_records_failures_witness : log demo_job = [mkLog 0 "boom"].
Proof. apply (log_records_failures 0 demo_labels demo_job), demo_steps. Defined.

Definition armed_job : taskJob := exec (method_run (MNamed CEverySecond)) (NewTaskJob 0).

Lemma cancelled_loop_never_ticks_witness :
  calls_of 0 (calls (exec (method_run (MEvery 7))
    (with_clock 9 (exec (call_cancel (mkCancel 0)) armed_job)))) = [].
Proof.
  apply (cancelled_loop_never_ticks (MNamed CEverySecond) (NewTaskJob 0)
    [LWait 9; LCall (MEvery 7)]).
  apply run_labels_steps. by vm_compute.
Defined.

Lemma no_invocation_after_cancel_witness :
  let j' := with_clock (5 * Second) (exec (call_cancel (mkCancel 0)) armed_job) in
  calls j' = [] ∧ log j' = [] ∧ phase j' = Cancelled.
Proof.
  apply (no_invocation_after_cancel (MNamed CEverySecond) (NewTaskJob 0)
    [LWait (5 * Second); LCancel (mkCancel 0)]).
  - by repeat constructor.
  - apply run_labels_steps. by vm_compute.
Defined.

Lemma failing_tick_keeps_loop_running_witness :
  ∃ j2 j3,
    run_labels [LWait Second; LTick 0 5 (Failed "boom")] armed_job = Some j2 ∧
    log j2 = [mkLog 0 "boom"] ∧ phase j2 = Running ∧
    run_labels [LWait Second; LTick 0 7 Done] j2 = Some j3 ∧
    length (calls j3) = 2%nat.
Proof.
  apply (failing_tick_keeps_loop_running (MNamed CEverySecond) (NewTaskJob 0)
    5 "boom" 7 Done); [done|lia|lia].
Defined.

Lemma scheduler_terminates_witness :
  advance_fuel (3500 * Millisecond) armed_job = 4%nat ∧
  ∃ j', advance (advance_fuel (3500 * Millisecond) armed_job) quick_work
          (3500 * Millisecond) armed_job = Some j' ∧
        Z.max 0 (3500 * Millisecond) ≤ clock j' ∧ run_wf j'.
Proof.
  apply (scheduler_terminates (MNamed CEverySecond) (NewTaskJob 0) quick_work
    (3500 * Millisecond)); [done|apply run_wf_New|].
  intros n. by vm_compute.
Defined.

Lemma scheduler_refines_transitions_witness :
  ∃ j', advance 5 quick_work (3500 * Millisecond) armed_job = Some j' ∧
        advance 9 quick_work (3500 * Millisecond) armed_job = Some j'.
Proof.
  eexists. split; [by vm_compute|].
  eapply (scheduler_refines_transitions (MNamed CEverySecond) (NewTaskJob 0)
    quick_work (3500 * Millisecond) 5 9); [by vm_compute|lia].
Defined.

Lemma on_time_loop_is_periodic_witness :
  ∃ j', advance 5 quick_work (3500 * Millisecond) armed_job = Some j' ∧
        call_start <$> calls_of 0 (calls j') = grid_starts 0 Second 3.
Proof.
  eexists. split; [by vm_compute|].
  apply (on_time_loop_is_periodic (MNamed CEverySecond) (NewTaskJob 0)
    quick_work (3500 * Millisecond) 5); [done|apply run_wf_New| |by vm_compute].
  intros n. by vm_compute.
Defined.
