(* ===== verification/Number.v ===== *)
(** * Number: [src/utils/number.go]

    [Pow] and [RandomInt64] on [int64] values with the wrap-around of Go's
    arithmetic written out.  [Pow]'s loop counts [times] up to [y] and
    squares [x] on the way; it takes fuel here, and [Pow_terminates]
    shows how much is enough.  [RandomInt64] draws from [rand.Int63n],
    which is a library: the class [RandSource] states its contract (a panic
    on a non-positive bound, a value below the bound otherwise) and the
    theorems hold for every source that meets it.  [ListSource] is a source
    that replays a list of draws, for evaluation. *)

From Stdlib Require Import ZArith Lia.
From stdpp Require Import prelude strings.
From S2P Require Import Prelude.

#[local] Open Scope Z_scope.

(** ** The random source *)

(** [rand.Int63n(n)]: panics when [n <= 0], returns a value of [[0, n)]
    otherwise, and advances the source. *)
Class RandSource (R : Type) : Type := {
  Int63n : Z → R → result (Z * R);
  Int63n_panics : ∀ n r, n ≤ 0 →
    Int63n n r = Panic "invalid argument to Int63n";
  Int63n_range : ∀ n r, 0 < n →
    ∃ v r', Int63n n r = Ok (v, r') ∧ 0 ≤ v < n;
}.

(** A source that replays the draws of a list (zero once the list is
    used up), reduced below the bound. *)
Definition list_Int63n (n : Z) (r : list Z) : result (Z * list Z) :=
  if decide (n ≤ 0) then Panic "invalid argument to Int63n"
  else match r with
       | [] => Ok (0, [])
       | x :: r' => Ok (x mod n, r')
       end.

#[export, refine] Instance ListSource : RandSource (list Z) :=
  {| Int63n := list_Int63n |}.
Proof.
- intros n r Hn. unfold list_Int63n. by rewrite decide_True.
- intros n r Hn. unfold list_Int63n. rewrite decide_False by lia.
  destruct r as [|x r']; eexists _, _; (split; [done|]); [lia|].
  by apply Z.mod_pos_bound.
Defined.

(** ** [RandomInt64] *)

Definition RandomInt64 `{RandSource R} (start end_ : Z) (r : R)
    : result (Z * R) :=
  if decide (start > end_) then Panic "range invalid: start great than end"
  else if decide (start = end_) then Ok (start, r)
  else if decide (start < 0 ∧ end_ < 0) then
    let fixedStart := sub64 0 start in
    let fixedEnd := sub64 0 end_ in
    '(v, r') ← Int63n fixedStart r;
    Ok (sub64 0 (add64 fixedEnd v), r')
  else if decide (start < 0 ∧ 0 ≤ end_) then
    let fixed := sub64 0 start in
    '(v, r') ← Int63n (add64 fixed end_) r;
    Ok (sub64 v fixed, r')
  else if decide (start = 0) then
    '(v, r') ← Int63n end_ r;
    Ok (v, r')
  else Ok (start, r).

(** ** [Pow] *)

(** The loop [for { times++; if times == y { break }; x *= x }]. *)
Fixpoint Pow_loop (fuel : nat) (times x y : Z) : option Z :=
  match fuel with
  | O => None
  | S fuel' =>
    let times := add64 times 1 in
    if decide (times = y) then Some x
    else Pow_loop fuel' times (mul64 x x) y
  end.

Definition Pow (fuel : nat) (x y : Z) : option (result Z) :=
  if decide (y < 0) then Some (Panic "y less than zero")
  else if decide (y = 0) then Some (Ok 1)
  else if decide (y = 1) then Some (Ok x)
  else Ok <$> Pow_loop fuel 0 x y.

(** What the loop computes: [x] squared [k] times. *)
Fixpoint squarings (k : nat) (x : Z) : Z :=
  match k with
  | O => x
  | S k' => squarings k' (mul64 x x)
  end.

(** ** The loop of [Pow] *)

Section pow_loop.
Implicit Types (x y times : Z) (fuel k : nat).

Lemma squarings_S k x : squarings (S k) x = squarings k (mul64 x x).
Proof. reflexivity. Qed.

(** Squaring [k] times raises to the power [2 ^ k], modulo 2^64. *)
Lemma squarings_eqm k x : squarings k x ≡64 x ^ 2 ^ Z.of_nat k.
Proof.
  revert x. induction k as [|k IH]; intros x.
  - cbn. by rewrite Z.pow_1_r.
  - rewrite squarings_S, IH, Nat2Z.inj_succ, Z.pow_succ_r by lia.
    rewrite Z.pow_mul_r by lia. apply eqm64_pow_Z.
    rewrite Z.pow_2_r. apply mul64_eqm.
Qed.

Lemma squarings_in_int64 k x : in_int64 x → in_int64 (squarings k x).
Proof.
  revert x. induction k as [|k IH]; intros x Hx; [done|].
  apply IH, mul64_range.
Qed.

Lemma squarings_closed k x :
  in_int64 x → squarings k x = wrap64 (x ^ 2 ^ Z.of_nat k).
Proof.
  intros Hx. apply eqm64_in_int64; [by apply squarings_in_int64|auto with go|].
  etransitivity; [apply squarings_eqm|]. symmetry. apply wrap64_eqm.
Qed.

(** The counter reaches [y] after [y - times] increments, none of which
    wraps, and [x] has been squared once less than that. *)
Lemma Pow_loop_spec fuel times x y :
  0 ≤ times < y → y ≤ int64_max → (Z.to_nat (y - times) ≤ fuel)%nat →
  Pow_loop fuel times x y = Some (squarings (Z.to_nat (y - times - 1)) x).
Proof.
  revert times x. induction fuel as [|fuel IH]; intros times x Ht Hy Hfuel; [lia|].
  cbn [Pow_loop]. rewrite add64_exact by int64_lia.
  case_goal_decide as [<-|Hne].
  - by replace (times + 1 - times - 1) with 0 by lia.
  - rewrite IH by lia.
    replace (y - times - 1) with (Z.succ (y - (times + 1) - 1)) by lia.
    by rewrite Z2Nat.inj_succ by lia.
Qed.

(** With less fuel than increments needed the loop runs out. *)
Lemma Pow_loop_out_of_fuel fuel times x y :
  0 ≤ times < y → y ≤ int64_max → (fuel < Z.to_nat (y - times))%nat →
  Pow_loop fuel times x y = None.
Proof.
  revert times x. induction fuel as [|fuel IH]; intros times x Ht Hy Hfuel; [done|].
  cbn [Pow_loop]. rewrite add64_exact by int64_lia.
  case_goal_decide as [<-|Hne]; [lia|]. apply IH; lia.
Qed.

Lemma Pow_unfold fuel x y :
  2 ≤ y → Pow fuel x y = Ok <$> Pow_loop fuel 0 x y.
Proof. intros Hy. unfold Pow. by rewrite !decide_False by lia. Qed.

Lemma Pow_spec fuel x y :
  2 ≤ y ≤ int64_max → (Z.to_nat y ≤ fuel)%nat →
  Pow fuel x y = Some (Ok (squarings (Z.to_nat (y - 1)) x)).
Proof.
  intros Hy Hfuel. rewrite Pow_unfold, Pow_loop_spec by (rewrite ?Z.sub_0_r; lia).
  by rewrite Z.sub_0_r.
Qed.

(** The closed form of the result: [y - 1] squarings. *)
Lemma Pow_closed fuel x y :
  in_int64 x → 1 ≤ y ≤ int64_max → (Z.to_nat y ≤ fuel)%nat →
  Pow fuel x y = Some (Ok (wrap64 (x ^ 2 ^ (y - 1)))).
Proof.
  intros Hx Hy Hfuel. destruct (decide (y = 1)) as [->|Hne].
  - cbn. by rewrite Z.pow_1_r, wrap64_id.
  - rewrite Pow_spec, squarings_closed by (done || lia).
    by rewrite Z2Nat.id by lia.
Qed.

(** For an exponent of at least 3 and a base of at least 2, [2 ^ (y - 1)]
    squarings overshoot [x ^ y]. *)
Lemma pow_overshoot x y : 2 ≤ x → 3 ≤ y → x ^ y < x ^ 2 ^ (y - 1).
Proof.
  intros Hx Hy. apply Z.pow_lt_mono_r; [lia..|].
  replace y with (Z.succ (Z.succ (Z.succ (y - 3)))) at 2 by lia.
  replace (Z.succ (Z.succ (Z.succ (y - 3))) - 1) with (y - 3 + 2) by lia.
  rewrite Z.pow_add_r by lia. pose proof (Z.pow_gt_lin_r 2 (y - 3)). lia.
Qed.
End pow_loop.

(** ** Properties of [Pow] *)

Section pow_properties.
Implicit Types (x y : Z) (fuel : nat).

(** C7. What [Pow] computes: for an exponent of at least 1 and enough
    fuel it returns [x] raised to the power [2 ^ (y - 1)], wrapped to 64
    bits: the loop squares its accumulator [y - 1] times instead of
    multiplying it by [x]. *)
Theorem Pow_closed_form fuel x y :
  in_int64 x → 1 ≤ y ≤ int64_max → (Z.to_nat y ≤ fuel)%nat →
  Pow fuel x y = Some (Ok (wrap64 (x ^ 2 ^ (y - 1)))).
Proof. apply Pow_closed. Qed.

(** [Pow] terminates: for every [int64] exponent, [y] iterations are
    enough for the loop to reach its [break], more fuel gives the same
    result, and with fewer than [y] iterations the loop of an exponent of
    at least 2 has not finished. *)
Theorem Pow_terminates fuel x y :
  in_int64 y →
  is_Some (Pow (Z.to_nat y) x y) ∧
  ((Z.to_nat y ≤ fuel)%nat → Pow fuel x y = Pow (Z.to_nat y) x y) ∧
  (2 ≤ y → (fuel < Z.to_nat y)%nat → Pow fuel x y = None).
Proof.
  intros Hy. destruct (decide (2 ≤ y)) as [H2|H2].
  - split_and!.
    + rewrite Pow_spec by int64_lia. done.
    + intros Hfuel. rewrite !Pow_spec by int64_lia. done.
    + intros _ Hfuel. rewrite Pow_unfold by done.
      rewrite Pow_loop_out_of_fuel; [done|lia|int64_lia|by rewrite Z.sub_0_r].
  - unfold Pow. split_and!; [| |lia]; repeat case_goal_decide; done || lia.
Qed.

(** [Pow] panics exactly when the exponent is negative, whatever the
    fuel; it returns 1 for the exponent 0 and [x] for the exponent 1. *)
Theorem Pow_panics_iff fuel x y :
  (Pow fuel x y = Some (Panic "y less than zero") ↔ y < 0) ∧
  Pow fuel x 0 = Some (Ok 1) ∧ Pow fuel x 1 = Some (Ok x).
Proof.
  split_and!; [|done..]. unfold Pow. split.
  - repeat case_goal_decide; try done. by destruct (Pow_loop fuel 0 x y).
  - intros Hy. by rewrite decide_True.
Qed.

(** C21. [Pow] is the power function only up to the exponent 2.  For
    [0 <= y <= 2] the result is [x ^ y] (wrapped); for any base of at
    least 2 and exponent of at least 3 whose result does not overflow, the
    result is strictly larger than [x ^ y]. *)
Theorem Pow_is_power_only_up_to_2 fuel x y :
  in_int64 x → (Z.to_nat y ≤ fuel)%nat →
  (0 ≤ y ≤ 2 → Pow fuel x y = Some (Ok (wrap64 (x ^ y)))) ∧
  (2 ≤ x → 3 ≤ y ≤ int64_max → x ^ 2 ^ (y - 1) ≤ int64_max →
   ∃ v, Pow fuel x y = Some (Ok v) ∧ x ^ y < v).
Proof.
  intros Hx Hfuel. split.
  - intros Hy. assert (y = 0 ∨ y = 1 ∨ y = 2) as [-> | [-> | ->]] by lia.
    + done.
    + cbn. by rewrite Z.pow_1_r, wrap64_id.
    + rewrite Pow_closed; [done|done|int64_lia|done].
  - intros Hx2 Hy Hfit. exists (x ^ 2 ^ (y - 1)). split; [|apply pow_overshoot; lia].
    rewrite Pow_closed by (done || lia). rewrite wrap64_id; [done|].
    pose proof (Z.pow_pos_nonneg x (2 ^ (y - 1))). int64_lia.
Qed.

(** The result of [Pow] is an [int64]: every multiplication of the
    loop wraps, so the value returned is between the bounds of the type
    whatever the inputs. *)
Theorem Pow_result_in_int64 fuel x y v :
  in_int64 x → Pow fuel x y = Some (Ok v) → in_int64 v.
Proof.
  intros Hx. unfold Pow. repeat case_goal_decide; try done.
  - intros [= <-]. int64_lia.
  - by intros [= <-].
  - destruct (Pow_loop fuel 0 x y) as [r|] eqn:E; [|done]. intros [= <-].
    assert (∀ fuel times x, in_int64 x → Pow_loop fuel times x y = Some r →
      in_int64 r) as Hloop; [|by eapply Hloop].
    clear. induction fuel as [|fuel IH]; intros times x Hx; [done|]. cbn.
    case_goal_decide; [by intros [= <-]|]. apply IH, mul64_range.
Qed.
End pow_properties.

(** ** Instances at concrete inputs *)

Lemma Pow_closed_form_witness :
  Pow 5 3 5 = Some (Ok (wrap64 (3 ^ 2 ^ (5 - 1)))).
Proof. apply (Pow_closed_form 5 3 5); [int64_lia..|lia]. Defined.

Lemma Pow_terminates_witness :
  is_Some (Pow (Z.to_nat 7) 2 7) ∧
  ((Z.to_nat 7 ≤ 9)%nat → Pow 9 2 7 = Pow (Z.to_nat 7) 2 7) ∧
  (2 ≤ 7 → (9 < Z.to_nat 7)%nat → Pow 9 2 7 = None).
Proof. apply (Pow_terminates 9 2 7). int64_lia. Defined.

Lemma Pow_is_power_only_up_to_2_witness :
  (0 ≤ 3 ≤ 2 → Pow 3 2 3 = Some (Ok (wrap64 (2 ^ 3)))) ∧
  (2 ≤ 2 → 3 ≤ 3 ≤ int64_max → 2 ^ 2 ^ (3 - 1) ≤ int64_max →
   ∃ v, Pow 3 2 3 = Some (Ok v) ∧ 2 ^ 3 < v).
Proof. apply (Pow_is_power_only_up_to_2 3 2 3); [int64_lia|lia]. Defined.

Lemma Pow_result_in_int64_witness : in_int64 (-8814407033341083648).
Proof. apply (Pow_result_in_int64 6 10 6); [int64_lia|reflexivity]. Defined.

(** [Pow(2, 3)] is 16. *)
Example Pow_2_3 : Pow 3 2 3 = Some (Ok 16).
Proof. reflexivity. Qed.

(** Squaring wraps: [Pow(10, 6)] is [10 ^ 32] modulo 2^64. *)
Example Pow_10_6 : Pow 6 10 6 = Some (Ok (-8814407033341083648)).
Proof. reflexivity. Qed.

(** ** Properties of [RandomInt64] *)

Section random.
Context `{RandSource R}.
Implicit Types (start : Z) (r : R).

(** The branches of [RandomInt64], one lemma per guard. *)

Lemma RandomInt64_inverted start (end_ : Z) r :
  end_ < start →
  RandomInt64 start end_ r = Panic "range invalid: start great than end".
Proof. intros. unfold RandomInt64. by rewrite decide_True by lia. Qed.

Lemma RandomInt64_empty start r : RandomInt64 start start r = Ok (start, r).
Proof.
  unfold RandomInt64. rewrite decide_False by lia. by rewrite decide_True.
Qed.

Lemma RandomInt64_negative start (end_ : Z) r :
  start < end_ → end_ < 0 →
  RandomInt64 start end_ r =
    '(v, r') ← Int63n (sub64 0 start) r;
    Ok (sub64 0 (add64 (sub64 0 end_) v), r').
Proof.
  intros. unfold RandomInt64.
  rewrite !decide_False by lia. by rewrite decide_True by lia.
Qed.

Lemma RandomInt64_mixed start (end_ : Z) r :
  start < 0 → 0 ≤ end_ →
  RandomInt64 start end_ r =
    '(v, r') ← Int63n (add64 (sub64 0 start) end_) r;
    Ok (sub64 v (sub64 0 start), r').
Proof.
  intros. unfold RandomInt64.
  rewrite !decide_False by lia. by rewrite decide_True by lia.
Qed.

Lemma RandomInt64_zero (end_ : Z) r :
  0 < end_ → RandomInt64 0 end_ r = '(v, r') ← Int63n end_ r; Ok (v, r').
Proof.
  intros. unfold RandomInt64.
  rewrite !decide_False by lia. by rewrite decide_True by lia.
Qed.

Lemma RandomInt64_positive start (end_ : Z) r :
  0 < start < end_ → RandomInt64 start end_ r = Ok (start, r).
Proof. intros. unfold RandomInt64. by rewrite !decide_False by lia. Qed.

(** On a range that holds zero or starts at it, no wider than the largest
    [int64], the result is in the range. *)
Lemma RandomInt64_spans_zero start (end_ : Z) r :
  in_int64 start → in_int64 end_ → start ≤ 0 ≤ end_ → start < end_ →
  end_ - start ≤ int64_max →
  ∃ v r', RandomInt64 start end_ r = Ok (v, r') ∧ start ≤ v < end_.
Proof.
  intros Hs He Hsign Hlt Hwide. destruct (decide (start = 0)) as [->|Hne].
  - rewrite RandomInt64_zero by lia.
    destruct (Int63n_range end_ r) as (v & r' & -> & Hv); [lia|]. by exists v, r'.
  - rewrite RandomInt64_mixed by lia. autorewrite with int64.
    destruct (Int63n_range (- start + end_) r) as (v & r' & -> & Hv); [lia|].
    exists (sub64 v (- start)), r'. split; [done|]. autorewrite with int64. lia.
Qed.

(** An inverted range panics, an empty range returns its bound
    without drawing, and on a range that starts at zero the result is a
    draw below [end]: at least 0 and less than [end]. *)
Theorem RandomInt64_from_zero start (end_ : Z) r :
  (end_ < start →
   RandomInt64 start end_ r = Panic "range invalid: start great than end") ∧
  RandomInt64 start start r = Ok (start, r) ∧
  (0 < end_ → ∃ v r', RandomInt64 0 end_ r = Ok (v, r') ∧ 0 ≤ v < end_).
Proof.
  split_and!; [apply RandomInt64_inverted|apply RandomInt64_empty|].
  intros Hend. rewrite RandomInt64_zero by done.
  destruct (Int63n_range end_ r Hend) as (v & r' & -> & Hv). by exists v, r'.
Qed.

(** C8. On a range that starts below zero and ends at or above it, and
    is no wider than the largest [int64], the result lies in
    [[start, end)]. *)
Theorem RandomInt64_mixed_in_range start (end_ : Z) r :
  in_int64 start → in_int64 end_ → start < 0 ≤ end_ →
  end_ - start ≤ int64_max →
  ∃ v r', RandomInt64 start end_ r = Ok (v, r') ∧ start ≤ v < end_.
Proof.
  intros Hs He Hsign Hwide. rewrite RandomInt64_mixed by lia.
  autorewrite with int64.
  destruct (Int63n_range (- start + end_) r) as (v & r' & -> & Hv); [lia|].
  exists (sub64 v (- start)), r'. split; [done|].
  autorewrite with int64. lia.
Qed.

(** C22. A range that does not hold zero is not sampled as documented.  A
    range that starts above zero is not sampled at all: the result is
    always [start] and the random source is not used.  On a range that
    lies below zero the result is [end - v] for a draw [v] of
    [[0, -start)]: it is at most [end], the excluded bound, which it
    reaches for [v = 0], and it falls below [start] whenever
    [v > end - start]. *)
Theorem RandomInt64_same_sign_ranges start (end_ : Z) r :
  (0 < start < end_ → RandomInt64 start end_ r = Ok (start, r)) ∧
  (int64_min < start → start < end_ → end_ < 0 →
   ∃ v r', Int63n (- start) r = Ok (v, r') ∧ 0 ≤ v < - start ∧
           RandomInt64 start end_ r = Ok (wrap64 (end_ - v), r') ∧
           (in_int64 (end_ - v) →
            wrap64 (end_ - v) = end_ - v ∧
            start + end_ < end_ - v ≤ end_)).
Proof.
  split; [apply RandomInt64_positive|].
  intros Hmin Hlt Hneg. rewrite RandomInt64_negative by done.
  rewrite (sub64_exact 0 start), (sub64_exact 0 end_) by int64_lia.
  replace (0 - start) with (- start) by lia.
  destruct (Int63n_range (- start) r) as (v & r' & Hdraw & Hv); [lia|].
  exists v, r'. rewrite Hdraw. cbn. split_and!; [done|lia..| |].
  - do 2 f_equal. unfold sub64, add64. apply wrap64_proper.
    rewrite wrap64_eqm. unfold eqm64. f_equal. lia.
  - intros Hfit. rewrite wrap64_id by done. lia.
Qed.

(** C23. Ranges [RandomInt64] cannot serve: when [start] is the smallest
    [int64] and the range lies below zero, or when the range spans zero
    and is wider than the largest [int64], the bound passed to
    [rand.Int63n] has wrapped to a non-positive value and the call
    panics. *)
Theorem RandomInt64_wide_range_panics start (end_ : Z) r :
  in_int64 start → in_int64 end_ → start < end_ →
  (start = int64_min ∧ end_ < 0) ∨ (start < 0 ≤ end_ ∧ int64_max < end_ - start) →
  RandomInt64 start end_ r = Panic "invalid argument to Int63n".
Proof.
  intros Hs He Hlt [[-> Hneg]|[Hsign Hwide]].
  - rewrite RandomInt64_negative by done.
    change (sub64 0 int64_min) with int64_min. by rewrite Int63n_panics.
  - rewrite RandomInt64_mixed by lia. rewrite Int63n_panics; [done|].
    unfold add64, sub64. rewrite <-(Z.add_comm end_).
    fold (add64 end_ (wrap64 (0 - start))). rewrite add64_wrap_r. unfold add64.
    rewrite wrap64_above by (rewrite pow2_64; int64_lia).
    rewrite pow2_64. int64_lia.
Qed.

End random.

(** ** Evaluation on the list source *)

Lemma RandomInt64_mixed_in_range_witness :
  ∃ v r', RandomInt64 (-10) 20 [13] = Ok (v, r') ∧ -10 ≤ v < 20.
Proof.
  apply (RandomInt64_mixed_in_range (-10) 20 [13]); (int64_lia || lia).
Defined.

Lemma RandomInt64_same_sign_ranges_witness :
  RandomInt64 10 20 [13] = Ok (10, [13]) ∧
  ∃ v r', Int63n (- -20) [15] = Ok (v, r') ∧ 0 ≤ v < - -20 ∧
          RandomInt64 (-20) (-10) [15] = Ok (wrap64 (-10 - v), r') ∧
          (in_int64 (-10 - v) →
           wrap64 (-10 - v) = -10 - v ∧ -20 + -10 < -10 - v ≤ -10).
Proof.
  split.
  - apply (RandomInt64_same_sign_ranges 10 20 [13]). lia.
  - apply (RandomInt64_same_sign_ranges (-20) (-10) [15]); (int64_lia || lia).
Defined.


Lemma RandomInt64_wide_range_panics_witness :
  RandomInt64 (-2 ^ 62) (2 ^ 62) [5] = Panic "invalid argument to Int63n".
Proof.
  apply (RandomInt64_wide_range_panics (-2 ^ 62) (2 ^ 62) [5]);
    [int64_lia..|lia|right; int64_lia].
Defined.

(** The example of the source's comment: [RandomInt64(-10, 20)] with the
    draw 13 is 3. *)
Example RandomInt64_doc_mixed : RandomInt64 (-10) 20 [13] = Ok (3, []).
Proof. reflexivity. Qed.

(** [RandomInt64(-20, -10)] leaves its range: with the draw 0 it
    returns -10, the excluded upper bound, and with the draw 15 it returns
    -25, which is below [start]. *)
Example RandomInt64_negative_escapes :
  RandomInt64 (-20) (-10) [0] = Ok (-10, []) ∧
  RandomInt64 (-20) (-10) [15] = Ok (-25, []).
Proof. by split. Qed.
