(* ===== verification/RandomFloat.v ===== *)
(** * RandomFloat: [RandomFloat64] of [src/utils/number.go]

    [RandomFloat64] scales its two bounds by a power of ten until both are
    whole numbers, draws an integer between them with [RandomInt64] and
    divides it by the scale with the decimal library.

    The arithmetic of [float64], the conversions between [float64] and
    [int64] and the decimal library are the class [FloatLib].  The scale is
    an [int], which wraps: after 64 multiplications by ten it is zero.  The
    two loops take fuel.  [IEEE] is the instance on the binary64 numbers of
    the kernel, with the conversion of an out-of-range value to [int64]
    that amd64 has (the smallest [int64]); the theorems stated for it are
    about that arithmetic, the others hold for every instance. *)

From Stdlib Require Import ZArith Lia Floats.
From stdpp Require Import prelude strings.
From S2P Require Import Prelude.
From S2P Require Import Number.

#[local] Open Scope Z_scope.

(** ** The libraries *)

(** [x * y], [x > y] and [x == y] on [float64]; [float64(n)] of an [int64]
    and [int64(x)]; and
    [decimal.NewFromInt(n).Div(decimal.NewFromInt(scale)).Truncate(int32(precision)).InexactFloat64()],
    which panics when [scale] is zero and on no other input. *)
Class FloatLib (F : Type) : Type := {
  fmul : F → F → F;
  fgt : F → F → bool;
  feq : F → F → bool;
  of_int : Z → F;
  to_int64 : F → Z;
  decimal_quotient : Z → Z → Z → result F;
  to_int64_range : ∀ x, in_int64 (to_int64 x);
  decimal_quotient_zero : ∀ n precision,
    decimal_quotient n 0 precision = Panic "decimal division by 0";
  decimal_quotient_ok : ∀ n scale precision,
    scale ≠ 0 → is_Ok (decimal_quotient n scale precision);
}.

(** ** [RandomFloat64] *)

Section random_float.
Context {F R : Type} `{!FloatLib F} `{!RandSource R}.
Implicit Types (x start : F) (scale precision : Z) (fuel : nat) (r : R).

(** [x * float64(scale)] is a whole number: it survives the conversion to
    [int64] and back. *)
Definition whole x scale : bool :=
  let scaled := fmul x (of_int scale) in
  feq scaled (of_int (to_int64 scaled)).

(** [for { scaled := x * float64(scale); if scaled ==
    float64(int64(scaled)) { break }; scale *= 10 }] *)
Fixpoint scale_loop fuel x scale : option Z :=
  match fuel with
  | O => None
  | S fuel' =>
    if whole x scale then Some scale
    else scale_loop fuel' x (mul64 scale 10)
  end.

Definition RandomFloat64 fuel start (end_ : F) precision r
    : option (result (F * R)) :=
  if fgt start end_ then Some (Panic "range invalid: start great than end")
  else if feq start end_ then Some (Ok (start, r))
  else
    scale ← scale_loop fuel start 1;
    scale ← scale_loop fuel end_ scale;
    let start := fmul start (of_int scale) in
    let end_ := fmul end_ (of_int scale) in
    Some ('(randInt64, r') ← RandomInt64 (to_int64 start) (to_int64 end_) r;
          result ← decimal_quotient randInt64 scale precision;
          Ok (result, r')).

(** The scale after [k] multiplications by ten. *)
Fixpoint tens (k : nat) (scale : Z) : Z :=
  match k with
  | O => scale
  | S k' => tens k' (mul64 scale 10)
  end.
End random_float.

(** ** The binary64 instance *)

Definition float_of_int64 (z : Z) : float :=
  if decide (z = int64_min) then
    PrimFloat.opp (PrimFloat.mul (PrimFloat.of_uint63 (Uint63.of_Z (2 ^ 62))) 2)
  else if decide (z < 0) then
    PrimFloat.opp (PrimFloat.of_uint63 (Uint63.of_Z (- z)))
  else PrimFloat.of_uint63 (Uint63.of_Z z).

(** Truncation toward zero; the smallest [int64] for a value out of range,
    an infinity or a NaN. *)
Definition int64_of_float (x : float) : Z :=
  match Prim2SF x with
  | S754_zero _ => 0
  | S754_finite s m e =>
    let v := if decide (0 ≤ e) then Z.pos m * 2 ^ e else Z.pos m / 2 ^ (- e) in
    let v := if s then - v else v in
    if decide (in_int64 v) then v else int64_min
  | _ => int64_min
  end.

(** The quotient of the decimal library: [n / scale] rounded half away
    from zero at 16 decimal places, as a number of units of [10^-16]. *)
Definition DivRound (n scale : Z) : Z :=
  let q := (n * 10 ^ 16) `quot` scale in
  let r := (n * 10 ^ 16) `rem` scale in
  if decide (2 * Z.abs r < Z.abs scale) then q
  else if decide (Z.sgn n * Z.sgn scale < 0) then q - 1
  else q + 1.

(** [Truncate(precision)]: the decimal places beyond [precision] are cut;
    a negative precision cuts nothing. *)
Definition Truncate (coef precision : Z) : Z * Z :=
  if decide (0 ≤ precision < 16)
  then (coef `quot` 10 ^ (16 - precision), precision)
  else (coef, 16).

(** [int32(precision)]: the conversion of an [int] wraps. *)
Definition wrap32 (z : Z) : Z := (z + 2 ^ 31) mod 2 ^ 32 - 2 ^ 31.

Definition ieee_decimal_quotient (n scale precision : Z) : result float :=
  if decide (scale = 0) then Panic "decimal division by 0"
  else
    let '(coef, digits) := Truncate (DivRound n scale) (wrap32 precision) in
    Ok (PrimFloat.div (float_of_int64 coef) (float_of_int64 (10 ^ digits))).

Lemma int64_of_float_range x : in_int64 (int64_of_float x).
Proof.
  unfold int64_of_float. destruct (Prim2SF x) as [| | |s m e]; try int64_lia.
  cbn zeta. case_goal_decide; [done|int64_lia].
Qed.

#[export, refine] Instance IEEE : FloatLib float := {|
  fmul := PrimFloat.mul;
  fgt x y := PrimFloat.ltb y x;
  feq := PrimFloat.eqb;
  of_int := float_of_int64;
  to_int64 := int64_of_float;
  decimal_quotient := ieee_decimal_quotient;
|}.
Proof.
- apply int64_of_float_range.
- done.
- intros n scale precision Hs. unfold ieee_decimal_quotient.
  rewrite decide_False by done. by destruct (Truncate _ _).
Defined.

(** ** The scale *)

Section scale.
Context {F : Type} `{!FloatLib F}.
Implicit Types (x : F) (scale : Z) (fuel k n : nat).

Lemma tens_S k scale : tens (S k) scale = mul64 (tens k scale) 10.
Proof. revert scale. induction k as [|k IH]; intros scale; [done|]. apply IH. Qed.

Lemma tens_eqm k scale : tens k scale ≡64 scale * 10 ^ Z.of_nat k.
Proof.
  induction k as [|k IH]; [by rewrite Z.mul_1_r|].
  rewrite tens_S, Nat2Z.inj_succ, Z.pow_succ_r, (Z.mul_comm 10), Z.mul_assoc
    by lia.
  unfold mul64. etransitivity; [apply wrap64_eqm|]. by apply mul_eqm64.
Qed.

(** Ten to the 64 is a multiple of two to the 64: the scale has wrapped to
    zero after 64 multiplications, whatever it was. *)
Lemma tens_64 scale : tens 64 scale = 0.
Proof.
  rewrite tens_S. unfold mul64. change 0 with (wrap64 0).
  apply wrap64_proper. etransitivity; [apply mul_eqm64; [apply tens_eqm|done]|].
  unfold eqm64. rewrite <-Z.mul_assoc.
  change (10 ^ Z.of_nat 63 * 10) with (2 ^ 64 * 5 ^ 64).
  by rewrite Z.mul_assoc, (Z.mul_comm scale), <-Z.mul_assoc, Z.mul_comm,
    Z.mod_mul.
Qed.

(** The loop stops at the first whole product. *)
Lemma scale_loop_bounded fuel x scale n :
  whole x (tens n scale) = true → (n < fuel)%nat →
  ∃ k, (k ≤ n)%nat ∧ scale_loop fuel x scale = Some (tens k scale).
Proof.
  revert fuel scale. induction n as [|n IH]; intros [|fuel] scale Hw Hn;
    try lia; cbn [scale_loop].
  - exists 0%nat. cbn in Hw. by rewrite Hw.
  - destruct (whole x scale) eqn:E; [by exists 0%nat; split; [lia|]|].
    destruct (IH fuel (mul64 scale 10)) as (k & Hk & ->); [done|lia|].
    exists (S k). split; [lia|done].
Qed.

Lemma scale_loop_whole fuel x scale s :
  scale_loop fuel x scale = Some s → whole x s = true.
Proof.
  revert scale. induction fuel as [|fuel IH]; intros scale; [done|]. cbn.
  destruct (whole x scale) eqn:E; [by intros [= <-]|apply IH].
Qed.

Lemma scale_loop_never fuel x scale :
  (∀ s, whole x s = false) → scale_loop fuel x scale = None.
Proof.
  intros Hx. revert scale. induction fuel as [|fuel IH]; intros scale; [done|].
  cbn. by rewrite Hx.
Qed.
End scale.

(** ** The binary64 numbers *)

Section ieee.
Implicit Types (x y : float).

(** A NaN is equal to nothing, stays a NaN when multiplied, and is not
    below anything. *)
Lemma nan_mul y : Prim2SF (PrimFloat.mul nan y) = S754_nan.
Proof. by rewrite FloatAxioms.mul_spec. Qed.

Lemma eqb_nan x y : Prim2SF x = S754_nan → PrimFloat.eqb x y = false.
Proof. intros Hx. by rewrite FloatAxioms.eqb_spec, Hx. Qed.

Lemma ltb_nan_r x y : Prim2SF y = S754_nan → PrimFloat.ltb x y = false.
Proof.
  intros Hy. rewrite FloatAxioms.ltb_spec, Hy. by destruct (Prim2SF x).
Qed.

Lemma whole_nan scale : whole nan scale = false.
Proof. apply eqb_nan, nan_mul. Qed.

Lemma whole_not_number x scale : Prim2SF x = S754_nan → whole x scale = false.
Proof.
  intros Hx. apply eqb_nan. cbn [fmul IEEE]. by rewrite FloatAxioms.mul_spec, Hx.
Qed.

(** An infinity stays an infinity or becomes a NaN when multiplied, and no
    [int64] converts to it. *)
Definition infinite x : Prop :=
  match Prim2SF x with
  | S754_infinity _ => True
  | _ => False
  end.

Lemma infinite_mul x y :
  infinite x → infinite (PrimFloat.mul x y) ∨ Prim2SF (PrimFloat.mul x y) = S754_nan.
Proof.
  unfold infinite. rewrite FloatAxioms.mul_spec.
  destruct (Prim2SF x) as [| sx | |]; try done. intros _.
  destruct (Prim2SF y); cbn; auto.
Qed.

Lemma whole_infinite x scale : infinite x → whole x scale = false.
Proof.
  intros Hx. unfold whole. cbn [fmul feq of_int to_int64 IEEE].
  destruct (infinite_mul x (float_of_int64 scale) Hx) as [Hinf|Hnan];
    [|by apply eqb_nan].
  unfold infinite in Hinf. rewrite FloatAxioms.eqb_spec. unfold int64_of_float.
  destruct (Prim2SF (PrimFloat.mul x (float_of_int64 scale))) as [|s| |];
    try done. by destruct s.
Qed.

(** A finite number times zero is zero, which is whole. *)
Definition finite x : Prop :=
  match Prim2SF x with
  | S754_zero _ | S754_finite _ _ _ => True
  | _ => False
  end.

Lemma whole_zero x : finite x → whole x 0 = true.
Proof.
  unfold finite, whole. cbn [fmul feq of_int to_int64 IEEE]. intros Hx.
  assert (∃ s, Prim2SF (PrimFloat.mul x (float_of_int64 0)) = S754_zero s)
    as [s Hs].
  { rewrite FloatAxioms.mul_spec.
    destruct (Prim2SF x) as [sx| | |sx m e]; try done; by eexists. }
  rewrite FloatAxioms.eqb_spec. unfold int64_of_float. by rewrite Hs.
Qed.
End ieee.

(** ** Properties of [RandomFloat64] *)

Section properties.
Context {F R : Type} `{!FloatLib F} `{!RandSource R}.
Implicit Types (x start : F) (scale precision : Z) (fuel : nat) (r : R).

Lemma scale_loop_mono fuel fuel' x scale s :
  scale_loop fuel x scale = Some s → (fuel ≤ fuel')%nat →
  scale_loop fuel' x scale = Some s.
Proof.
  revert fuel' scale. induction fuel as [|fuel IH]; intros [|fuel'] scale;
    try done; try lia. cbn.
  destruct (whole x scale); [done|]. intros Hs Hle. apply IH; [done|lia].
Qed.

Lemma RandomFloat64_scaled fuel start (end_ : F) precision r s1 s :
  fgt start end_ = false → feq start end_ = false →
  scale_loop fuel start 1 = Some s1 → scale_loop fuel end_ s1 = Some s →
  RandomFloat64 fuel start end_ precision r =
    Some ('(randInt64, r') ← RandomInt64 (to_int64 (fmul start (of_int s)))
                               (to_int64 (fmul end_ (of_int s))) r;
          result ← decimal_quotient randInt64 s precision;
          Ok (result, r')).
Proof. intros Hgt Heq Hs1 Hs. unfold RandomFloat64. by rewrite Hgt, Heq, Hs1; cbn; rewrite Hs. Qed.

(** The scale loop terminates on every number whose product with zero
    is whole: the scale wraps to zero after 64 multiplications by ten, so
    65 iterations are enough, more fuel gives the same scale, and the scale
    found is the first power of ten (wrapped) that makes the product
    whole. *)
Theorem scale_loop_terminates x scale :
  whole x 0 = true →
  ∃ k, (k ≤ 64)%nat ∧ whole x (tens k scale) = true ∧
       ∀ fuel, (64 < fuel)%nat → scale_loop fuel x scale = Some (tens k scale).
Proof.
  intros Hz. destruct (scale_loop_bounded 65 x scale 64) as (k & Hk & Hloop);
    [by rewrite tens_64|lia|].
  exists k. split_and!; [done|by eapply scale_loop_whole|].
  intros fuel Hfuel. eapply scale_loop_mono; [done|lia].
Qed.

(** C25. A range of positive numbers is not sampled: when the scaled
    bounds are [0 < a < b], [RandomFloat64] returns [a] divided by the
    scale, whatever the random source holds, and does not draw from it. *)
Theorem RandomFloat64_positive_is_constant fuel start (end_ : F) precision r
    s1 s :
  fgt start end_ = false → feq start end_ = false →
  scale_loop fuel start 1 = Some s1 → scale_loop fuel end_ s1 = Some s →
  0 < to_int64 (fmul start (of_int s)) < to_int64 (fmul end_ (of_int s)) →
  s ≠ 0 →
  ∃ v, decimal_quotient (to_int64 (fmul start (of_int s))) s precision = Ok v ∧
       RandomFloat64 fuel start end_ precision r = Some (Ok (v, r)).
Proof.
  intros Hgt Heq Hs1 Hs Hpos Hne.
  pose proof (decimal_quotient_ok (to_int64 (fmul start (of_int s))) s
                precision Hne) as Hok.
  apply Is_true_true, is_Ok_spec in Hok as [v Hv].
  exists v. split; [done|].
  rewrite (RandomFloat64_scaled _ _ _ _ _ s1 s) by done.
  rewrite RandomInt64_positive by done. cbn. by rewrite Hv.
Qed.

(** C27. When the scale has wrapped to zero and both bounds scale to the same
    integer, the division by the scale panics. *)
Theorem RandomFloat64_zero_scale_panics fuel start (end_ : F) precision r s1 :
  fgt start end_ = false → feq start end_ = false →
  scale_loop fuel start 1 = Some s1 → scale_loop fuel end_ s1 = Some 0 →
  to_int64 (fmul start (of_int 0)) = to_int64 (fmul end_ (of_int 0)) →
  RandomFloat64 fuel start end_ precision r
    = Some (Panic "decimal division by 0").
Proof.
  intros Hgt Heq Hs1 Hs Hsame.
  rewrite (RandomFloat64_scaled _ _ _ _ _ s1 0) by done.
  rewrite Hsame, RandomInt64_empty. cbn. by rewrite decimal_quotient_zero.
Qed.

(** C24. A range that holds zero is sampled between its scaled bounds: when
    the bounds scaled by [s] are the integers [a <= 0 <= b], [a < b], no
    further apart than the largest [int64], [RandomFloat64] draws an
    integer [n] of [[a, b)] and returns the decimal quotient of [n] by the
    scale. *)
Theorem RandomFloat64_mixed_in_range fuel start (end_ : F) precision r s1 s :
  fgt start end_ = false → feq start end_ = false →
  scale_loop fuel start 1 = Some s1 → scale_loop fuel end_ s1 = Some s →
  to_int64 (fmul start (of_int s)) ≤ 0 ≤ to_int64 (fmul end_ (of_int s)) →
  to_int64 (fmul start (of_int s)) < to_int64 (fmul end_ (of_int s)) →
  to_int64 (fmul end_ (of_int s)) - to_int64 (fmul start (of_int s))
    ≤ int64_max →
  s ≠ 0 →
  ∃ n v r',
    to_int64 (fmul start (of_int s)) ≤ n < to_int64 (fmul end_ (of_int s)) ∧
    decimal_quotient n s precision = Ok v ∧
    RandomFloat64 fuel start end_ precision r = Some (Ok (v, r')).
Proof.
  intros Hgt Heq Hs1 Hs Hsign Hlt Hwide Hne.
  rewrite (RandomFloat64_scaled _ _ _ _ _ s1 s) by done.
  destruct (RandomInt64_spans_zero _ _ r (to_int64_range _) (to_int64_range _)
              Hsign Hlt Hwide) as (n & r' & -> & Hn).
  pose proof (decimal_quotient_ok n s precision Hne) as Hok.
  apply Is_true_true, is_Ok_spec in Hok as [v Hv].
  exists n, v, r'. cbn. by rewrite Hv.
Qed.
End properties.

(** ** On binary64 *)

(** The bounds on which a scaling loop cannot stop: a NaN, or an infinity
    in a range that is in order and not empty. *)
Definition bad_bounds (start end_ : float) : Prop :=
  Prim2SF start = S754_nan ∨ Prim2SF end_ = S754_nan ∨
  ((infinite start ∨ infinite end_) ∧
   PrimFloat.ltb end_ start = false ∧ PrimFloat.eqb start end_ = false).

#[export] Instance spec_float_eq_dec : EqDecision spec_float.
Proof. solve_decision. Defined.

#[export] Instance infinite_dec (x : float) : Decision (infinite x).
Proof. unfold infinite. destruct (Prim2SF x); apply _. Defined.

#[export] Instance bad_bounds_dec (start end_ : float) :
  Decision (bad_bounds start end_).
Proof. unfold bad_bounds. apply _. Defined.

(** On such bounds neither guard fires and the product of one of the
    bounds is never whole. *)
Lemma bad_bounds_never_whole (start end_ : float) :
  bad_bounds start end_ →
  fgt start end_ = false ∧ feq start end_ = false ∧
  ((∀ s, whole start s = false) ∨ (∀ s, whole end_ s = false)).
Proof.
  cbn [fgt feq IEEE]. rewrite FloatAxioms.ltb_spec, FloatAxioms.eqb_spec.
  intros [Hs|[He|([Hs|He] & Hlt & Heq)]].
  - rewrite Hs. split_and!; [by destruct (Prim2SF end_)|done|].
    left. intros s. by apply whole_not_number.
  - rewrite He. split_and!; [done|by destruct (Prim2SF start)|].
    right. intros s. by apply whole_not_number.
  - rewrite <-FloatAxioms.ltb_spec, <-FloatAxioms.eqb_spec.
    split_and!; [done..|]. left. intros s. by apply whole_infinite.
  - rewrite <-FloatAxioms.ltb_spec, <-FloatAxioms.eqb_spec.
    split_and!; [done..|]. right. intros s. by apply whole_infinite.
Qed.

Lemma RandomFloat64_stuck fuel (start end_ : float) precision (r : list Z) :
  bad_bounds start end_ → RandomFloat64 fuel start end_ precision r = None.
Proof.
  intros (Hgt & Heq & Hloop)%bad_bounds_never_whole. unfold RandomFloat64.
  rewrite Hgt, Heq. destruct Hloop as [Hs|He].
  - by rewrite scale_loop_never.
  - destruct (scale_loop fuel start 1) as [s1|]; [|done]. cbn.
    by rewrite scale_loop_never.
Qed.

(** [RandomFloat64] never returns on a bound that is not a number:
    when either bound is a NaN, or is an infinity and the bounds are in
    order and differ, neither guard fires and the scale loop of that bound
    runs for ever, whatever the fuel. *)
Theorem RandomFloat64_never_returns fuel (start end_ : float) precision
    (r : list Z) :
  Prim2SF start = S754_nan ∨ Prim2SF end_ = S754_nan ∨
  ((infinite start ∨ infinite end_) ∧
   PrimFloat.ltb end_ start = false ∧ PrimFloat.eqb start end_ = false) →
  RandomFloat64 fuel start end_ precision r = None.
Proof. apply RandomFloat64_stuck. Qed.

(** On a finite number the scale loop terminates. *)
Lemma scale_loop_finite (x : float) scale :
  finite x → is_Some (scale_loop 65 x scale).
Proof.
  intros Hx. destruct (scale_loop_terminates x scale) as (k & _ & _ & Hloop).
  - by apply whole_zero.
  - rewrite Hloop by lia. done.
Qed.

Lemma RandomFloat64_enough_fuel (start end_ : float) precision (r : list Z) :
  finite start → finite end_ →
  ∃ res, ∀ fuel, (64 < fuel)%nat →
    RandomFloat64 fuel start end_ precision r = Some res.
Proof.
  intros Hs%whole_zero He%whole_zero. unfold RandomFloat64.
  destruct (fgt start end_); [by eexists|].
  destruct (feq start end_); [by eexists|].
  destruct (scale_loop_terminates start 1 Hs) as (k1 & _ & _ & H1).
  destruct (scale_loop_terminates end_ (tens k1 1) He) as (k2 & _ & _ & H2).
  eexists. intros fuel Hfuel. rewrite H1 by done. cbn. by rewrite H2 by done.
Qed.

(** Every number is a NaN, an infinity or finite. *)
Lemma float_cases (x : float) : Prim2SF x = S754_nan ∨ infinite x ∨ finite x.
Proof. unfold infinite, finite. destruct (Prim2SF x); auto. Qed.

(** Bounds that are not [bad_bounds] give a result with some fuel: one of
    the guards fires, or both bounds are finite. *)
Lemma not_bad_bounds (start end_ : float) precision (r : list Z) :
  ¬ bad_bounds start end_ →
  ∃ res fuel, RandomFloat64 fuel start end_ precision r = Some res.
Proof.
  unfold bad_bounds. intros Hgood.
  destruct (fgt start end_) eqn:Hgt;
    [by eexists _, 0%nat; unfold RandomFloat64; rewrite Hgt|].
  destruct (feq start end_) eqn:Heq;
    [by eexists _, 0%nat; unfold RandomFloat64; rewrite Hgt, Heq|].
  destruct (float_cases start) as [?|[?|Hs]]; [tauto|naive_solver|].
  destruct (float_cases end_) as [?|[?|He]]; [tauto|naive_solver|].
  destruct (RandomFloat64_enough_fuel start end_ precision r Hs He)
    as [res Hres].
  exists res, 65%nat. apply Hres. lia.
Qed.

(** [RandomFloat64] returns on finite bounds: 65 iterations are enough for
    each of the two loops, so with that much fuel or more the function
    gives a result, a number or a panic, and the result does not depend on
    the fuel. *)
Theorem RandomFloat64_terminates (start end_ : float) precision (r : list Z) :
  finite start → finite end_ →
  ∃ res, ∀ fuel, (64 < fuel)%nat →
    RandomFloat64 fuel start end_ precision r = Some res.
Proof. apply RandomFloat64_enough_fuel. Qed.

(** ** Evaluation *)

Definition tenths (n : Z) : float :=
  PrimFloat.div (float_of_int64 n) (float_of_int64 10).

(** The first example of the source's comment, [RandomFloat64(10.10, 20.20,
    2)]: the scale is 10, the bounds are 101 and 202, and the result is
    10.1 whatever is drawn. *)
Example RandomFloat64_doc_positive :
  scale_loop 65 (tenths 101) 1 = Some 10 ∧
  RandomFloat64 65 (tenths 101) (tenths 202) 2 [13]
    = Some (Ok (tenths 101, [13])).
Proof. by vm_compute. Qed.

(** [RandomFloat64(-10.10, 20.20, 3)] with the draw 30. *)
Example RandomFloat64_doc_mixed :
  RandomFloat64 65 (tenths (-101)) (tenths 202) 3 [30]
    = Some (Ok (tenths (-71), [])).
Proof. by vm_compute. Qed.

(** The precision is cut to 32 bits before it is used: a precision of
    [2^32 + 1] is a precision of 1. *)
Example RandomFloat64_precision_wraps :
  RandomFloat64 65 (tenths (-101)) (tenths 202) (2 ^ 32 + 1) [38]
    = RandomFloat64 65 (tenths (-101)) (tenths 202) 1 [38] ∧
  RandomFloat64 65 (tenths (-101)) (tenths 202) 1 [38]
    = Some (Ok (tenths (-63), [])).
Proof. by vm_compute. Qed.

(** A bound too small to become whole, two to the power -1000: the scale
    wraps to zero and the division panics. *)
Definition tiny : float :=
  PrimFloat.ldshiftexp 1 (Uint63.of_Z (FloatOps.shift - 1000)).

Example RandomFloat64_tiny_panics :
  scale_loop 65 tiny 1 = Some 0 ∧
  RandomFloat64 65 tiny (float_of_int64 1) 2 [13]
    = Some (Panic "decimal division by 0").
Proof. by vm_compute. Qed.

Lemma scale_loop_terminates_witness :
  ∃ k, (k ≤ 64)%nat ∧ whole (tenths 101) (tens k 1) = true ∧
       ∀ fuel, (64 < fuel)%nat →
         scale_loop fuel (tenths 101) 1 = Some (tens k 1).
Proof. apply (scale_loop_terminates (tenths 101) 1). by vm_compute. Defined.

Lemma RandomFloat64_positive_is_constant_witness :
  ∃ v, decimal_quotient (to_int64 (fmul (tenths 101) (of_int 10))) 10 2 = Ok v ∧
       RandomFloat64 65 (tenths 101) (tenths 202) 2 [13] = Some (Ok (v, [13])).
Proof.
  apply (RandomFloat64_positive_is_constant 65 (tenths 101) (tenths 202) 2 [13]
           10 10); by vm_compute.
Defined.

Lemma RandomFloat64_terminates_witness :
  ∃ res, ∀ fuel, (64 < fuel)%nat →
    RandomFloat64 fuel (tenths (-101)) (tenths 202) 3 [30] = Some res.
Proof.
  apply (RandomFloat64_terminates (tenths (-101)) (tenths 202) 3 [30]);
    by vm_compute.
Defined.

Lemma RandomFloat64_mixed_in_range_witness :
  ∃ n v r',
    to_int64 (fmul (tenths (-101)) (of_int 10)) ≤ n
      < to_int64 (fmul (tenths 202) (of_int 10)) ∧
    decimal_quotient n 10 3 = Ok v ∧
    RandomFloat64 65 (tenths (-101)) (tenths 202) 3 [30] = Some (Ok (v, r')).
Proof.
  apply (RandomFloat64_mixed_in_range 65 (tenths (-101)) (tenths 202) 3 [30]
           10 10); by vm_compute.
Defined.

Lemma RandomFloat64_never_returns_witness :
  RandomFloat64 65 nan (tenths 202) 2 [13] = None.
Proof.
  apply (RandomFloat64_never_returns 65 nan (tenths 202) 2 [13]).
  by left.
Defined.

(** [RandomFloat64(0, +Inf, 2)] hangs as well. *)
Example RandomFloat64_infinity_hangs fuel :
  RandomFloat64 fuel (float_of_int64 0) infinity 2 [13] = None.
Proof. apply RandomFloat64_stuck. right; right. by vm_compute; auto. Qed.

Lemma RandomFloat64_zero_scale_panics_witness :
  RandomFloat64 65 tiny (float_of_int64 1) 2 [13]
    = Some (Panic "decimal division by 0").
Proof.
  apply (RandomFloat64_zero_scale_panics 65 tiny (float_of_int64 1) 2 [13] 0);
    by vm_compute.
Defined.
