(* ===== verification/ForLoop.v ===== *)
(** * ForLoop: the unbounded loops of [src/utils/number.go] without fuel

    [Pow] and [RandomFloat64] run [for { ... }] loops that leave through a
    [break] only.  [Number] and [RandomFloat] give them fuel; here they
    are interaction trees, built with the iteration combinator of the
    library, so that "the function returns" and "the function never
    returns" are statements about the loop itself and not about a bound
    on its iterations.

    - [for_tree] is Go's [for { ... }] over a body that either goes on
      with a new state or breaks with a result, [for_fuel] the same loop
      with fuel; the two agree ([for_fuel_returns], [for_leaf_fuel],
      [for_never_breaks]).
    - [Pow_tree] and [RandomFloat64_tree] are the two functions of the
      source over that loop; [Pow_loop_for] and [scale_loop_for] say that
      the loops of [Number] and [RandomFloat] are [for_fuel] of the same
      bodies.
    - A tree [returns] a value when it is equivalent, up to silent steps,
      to the tree that returns it, and [diverges] when every branch of it
      is infinite. *)

From Stdlib Require Import ZArith Lia Floats.
From stdpp Require Import prelude strings.
From ITree Require Import ITree ITreeFacts Props.HasPost Props.Leaf
  Props.Infinite Props.EuttNoRet.
From S2P Require Import Prelude Number RandomFloat.

#[local] Open Scope Z_scope.

(** ** The loop *)

Section for_loop.
Context {I R : Type} (body : I → I + R).

(** [for { ... }]: an iteration ends with the state of the next one
    ([inl]) or with a [break] ([inr]). *)
Definition for_tree (i : I) : itree void1 R :=
  ITree.iter (λ i, Ret (body i)) i.

(** The same loop with fuel: [None] when the fuel runs out. *)
Fixpoint for_fuel (fuel : nat) (i : I) : option R :=
  match fuel with
  | O => None
  | S fuel' =>
    match body i with
    | inl i' => for_fuel fuel' i'
    | inr r => Some r
    end
  end.
End for_loop.

(** What a function without events does. *)
Definition returns {R : Type} (t : itree void1 R) (r : R) : Prop := t ≈ Ret r.

Definition diverges {R : Type} (t : itree void1 R) : Prop := all_infinite t.

(** ** [Pow] *)

(** One iteration of [for { times++; if times == y { break }; x *= x }] on
    the state [(times, x)]. *)
Definition Pow_body (y : Z) (s : Z * Z) : Z * Z + Z :=
  let '(times, x) := s in
  let times := add64 times 1 in
  if decide (times = y) then inr x else inl (times, mul64 x x).

Definition Pow_tree (x y : Z) : itree void1 (result Z) :=
  if decide (y < 0) then Ret (Panic "y less than zero")
  else if decide (y = 0) then Ret (Ok 1)
  else if decide (y = 1) then Ret (Ok x)
  else ITree.map Ok (for_tree (Pow_body y) (0, x)).

(** ** [RandomFloat64] *)

Section random_float_tree.
Context {F R : Type} `{!FloatLib F} `{!RandSource R}.

(** One iteration of a scaling loop on the state [scale]. *)
Definition scale_body (x : F) (scale : Z) : Z + Z :=
  if whole x scale then inr scale else inl (mul64 scale 10).

(** What follows the two loops. *)
Definition draw_scaled (start end_ : F) (precision : Z) (r : R) (scale : Z)
    : result (F * R) :=
  let start := fmul start (of_int scale) in
  let end_ := fmul end_ (of_int scale) in
  '(randInt64, r') ← RandomInt64 (to_int64 start) (to_int64 end_) r;
  result ← decimal_quotient randInt64 scale precision;
  Ok (result, r').

Definition RandomFloat64_tree (start end_ : F) (precision : Z) (r : R)
    : itree void1 (result (F * R)) :=
  if fgt start end_ then Ret (Panic "range invalid: start great than end")
  else if feq start end_ then Ret (Ok (start, r))
  else
    ITree.bind (for_tree (scale_body start) 1) (λ scale,
    ITree.bind (for_tree (scale_body end_) scale) (λ scale,
    Ret (draw_scaled start end_ precision r scale))).
End random_float_tree.

(** ** The loop and its fuel *)

Section for_lemmas.
Context {I R : Type} (body : I → I + R).
Implicit Types (i : I) (r : R) (fuel : nat).

Lemma for_tree_unfold i :
  for_tree body i ≈
    match body i with inl i' => for_tree body i' | inr r => Ret r end.
Proof.
  unfold for_tree. rewrite unfold_iter, bind_ret_l.
  destruct (body i); [by rewrite tau_eutt|done].
Qed.

(** A result found with fuel is the result of the loop. *)
Lemma for_fuel_returns fuel i r :
  for_fuel body fuel i = Some r → returns (for_tree body i) r.
Proof.
  unfold returns. revert i. induction fuel as [|fuel IH]; intros i; cbn; [done|].
  rewrite for_tree_unfold.
  destruct (body i) as [i'|r']; [apply IH|by intros [= ->]].
Qed.

Lemma for_fuel_mono fuel fuel' i r :
  (fuel ≤ fuel')%nat → for_fuel body fuel i = Some r →
  for_fuel body fuel' i = Some r.
Proof.
  revert fuel' i. induction fuel as [|fuel IH]; intros [|fuel'] i Hle; cbn;
    try done; [lia|].
  destruct (body i); [apply IH; lia|done].
Qed.

(** A loop whose body never breaks, on the states an invariant holds of,
    never returns. *)
Lemma for_never_breaks (Inv : I → Prop) i :
  (∀ i, Inv i → ∃ i', body i = inl i' ∧ Inv i') → Inv i →
  diverges (for_tree body i).
Proof.
  intros Hstep Hi. apply (euttNoRet_all_infinite (t2 := for_tree body i)).
  apply has_post_iter_strong with (Inv := Inv); [|done].
  intros j Hj. destruct (Hstep j Hj) as (j' & -> & Hj').
  apply eqit_Ret. by cbn.
Qed.

(** A loop that runs out of every fuel never returns. *)
Lemma for_fuel_diverges i :
  (∀ fuel, for_fuel body fuel i = None) → diverges (for_tree body i).
Proof.
  apply (for_never_breaks (λ i, ∀ fuel, for_fuel body fuel i = None)).
  clear i. intros i Hi. destruct (body i) as [i'|r] eqn:E.
  - exists i'. split; [done|]. intros fuel. specialize (Hi (S fuel)).
    cbn in Hi. by rewrite E in Hi.
  - specialize (Hi 1%nat). cbn in Hi. by rewrite E in Hi.
Qed.
End for_lemmas.

Section for_converse.
Context {I R : Type} (body : I → I + R).
Implicit Types (i : I) (r : R) (fuel : nat).

(** The first step of the loop. *)
Lemma observe_for_tree i :
  observe (for_tree body i) =
    match body i with inl i' => TauF (for_tree body i') | inr r => RetF r end.
Proof. unfold for_tree. simpl. by destruct (body i). Qed.

(** A value the loop can return is found with some fuel. *)
Lemma for_leaf_fuel i r :
  Leaf r (for_tree body i) → ∃ fuel, for_fuel body fuel i = Some r.
Proof.
  remember (for_tree body i) as t eqn:Et. intros Hleaf. revert i Et.
  induction Hleaf as [t Ht|t u Ht Hleaf IH|X e t k x Ht _ _]; intros i ->;
    rewrite observe_for_tree in Ht; destruct (body i) as [i'|r'] eqn:E;
    try done.
  - exists 1%nat. cbn. rewrite E. by simplify_eq.
  - injection Ht as <-. destruct (IH i' eq_refl) as [fuel Hfuel].
    exists (S fuel). cbn. by rewrite E.
Qed.

Lemma for_returns_fuel i r :
  returns (for_tree body i) r → ∃ fuel, for_fuel body fuel i = Some r.
Proof.
  intros Hr. apply for_leaf_fuel. unfold returns in Hr. rewrite Hr.
  apply Leaf_Ret.
Qed.
End for_converse.

(** A function that returns does not diverge, and returns one value. *)
Lemma returns_not_diverges {R : Type} (t : itree void1 R) r :
  returns t r → ¬ diverges t.
Proof.
  intros Hr Hd. eapply all_infinite_not_converge; [|exact Hd].
  by apply conv_ret.
Qed.

Lemma returns_inj {R : Type} (t : itree void1 R) r r' :
  returns t r → returns t r' → r = r'.
Proof. unfold returns. intros -> H. by apply eqit_inv_Ret in H. Qed.

(** ** The loops of the source are this loop *)

Lemma Pow_loop_for fuel times x y :
  Pow_loop fuel times x y = for_fuel (Pow_body y) fuel (times, x).
Proof.
  revert times x. induction fuel as [|fuel IH]; intros times x; [done|].
  cbn. case_goal_decide; [done|apply IH].
Qed.

(** A result of [Pow] with fuel is the result of [Pow]. *)
Lemma Pow_fuel_tree fuel x y res :
  Pow fuel x y = Some res → returns (Pow_tree x y) res.
Proof.
  unfold Pow, Pow_tree, returns. repeat case_goal_decide; try by intros [= <-].
  rewrite Pow_loop_for. intros (v & Hv & ->)%fmap_Some.
  apply for_fuel_returns in Hv. unfold returns in Hv.
  by rewrite Hv, map_ret.
Qed.

Lemma Pow_tree_fuel x y res :
  returns (Pow_tree x y) res → ∃ fuel, Pow fuel x y = Some res.
Proof.
  unfold Pow, Pow_tree, returns. repeat case_goal_decide;
    try by intros ->%eqit_inv_Ret; exists 0%nat.
  intros Hr. assert (Leaf res (ITree.map Ok (for_tree (Pow_body y) (0, x))))
    as Hleaf by (rewrite Hr; apply Leaf_Ret).
  apply Leaf_bind_inv in Hleaf as (v & Hv & ->%Leaf_Ret_inv).
  apply for_leaf_fuel in Hv as [fuel Hv]. exists fuel.
  by rewrite Pow_loop_for, Hv.
Qed.

Section random_float_fuel.
Context {F R : Type} `{!FloatLib F} `{!RandSource R}.
Implicit Types (x start : F) (scale precision : Z) (fuel : nat) (r : R).

Lemma scale_loop_for fuel x scale :
  scale_loop fuel x scale = for_fuel (scale_body x) fuel scale.
Proof.
  revert scale. induction fuel as [|fuel IH]; intros scale; [done|].
  cbn. unfold scale_body at 1. destruct (whole x scale); [done|apply IH].
Qed.

Lemma RandomFloat64_fuel_tree fuel start (end_ : F) precision r res :
  RandomFloat64 fuel start end_ precision r = Some res →
  returns (RandomFloat64_tree start end_ precision r) res.
Proof.
  unfold RandomFloat64, RandomFloat64_tree, returns.
  destruct (fgt start end_); [by intros [= <-]|].
  destruct (feq start end_); [by intros [= <-]|].
  rewrite !scale_loop_for.
  intros (s1 & H1%for_fuel_returns & H2)%bind_Some.
  apply bind_Some in H2 as (s & H2 & [= <-]). rewrite scale_loop_for in H2.
  apply for_fuel_returns in H2. unfold returns in *.
  by rewrite H1, bind_ret_l, H2, bind_ret_l.
Qed.

Lemma RandomFloat64_tree_fuel start (end_ : F) precision r res :
  returns (RandomFloat64_tree start end_ precision r) res →
  ∃ fuel, RandomFloat64 fuel start end_ precision r = Some res.
Proof.
  unfold RandomFloat64, RandomFloat64_tree, returns.
  destruct (fgt start end_); [by intros ->%eqit_inv_Ret; exists 0%nat|].
  destruct (feq start end_); [by intros ->%eqit_inv_Ret; exists 0%nat|].
  intros Hr. match type of Hr with ?t ≈ _ =>
    assert (Leaf res t) as Hleaf by (rewrite Hr; apply Leaf_Ret) end.
  apply Leaf_bind_inv in Hleaf as (s1 & [f1 H1]%for_leaf_fuel & Hleaf).
  apply Leaf_bind_inv in Hleaf as (s & [f2 H2]%for_leaf_fuel & ->%Leaf_Ret_inv).
  exists (f1 `max` f2)%nat. rewrite !scale_loop_for.
  rewrite (for_fuel_mono _ f1 _ _ s1) by (done || lia). cbn.
  rewrite scale_loop_for.
  by rewrite (for_fuel_mono _ f2 _ _ s) by (done || lia).
Qed.
End random_float_fuel.

(** ** Divergence *)

Lemma diverges_no_post {R : Type} (t : itree void1 R) :
  diverges t ↔ has_post t (λ _, False).
Proof.
  split.
  - intros Hd. eapply all_infinite_euttNoRet with (R := eq); [done|reflexivity].
  - apply euttNoRet_all_infinite.
Qed.

Lemma diverges_bind_l {A B : Type} (t : itree void1 A) (k : A → itree void1 B) :
  diverges t → diverges (ITree.bind t k).
Proof. apply all_infinite_bind. Qed.

Lemma diverges_bind_r {A B : Type} (t : itree void1 A) (k : A → itree void1 B) :
  (∀ a, diverges (k a)) → diverges (ITree.bind t k).
Proof.
  intros Hk. apply diverges_no_post.
  apply has_post_bind with (S := λ _, True); [apply has_post_True|].
  intros a _. by apply diverges_no_post.
Qed.

Section random_float_diverges.
Context {F R : Type} `{!FloatLib F} `{!RandSource R}.
Implicit Types (x start : F) (scale precision : Z) (r : R).

(** A scaling loop on a number no multiple of which is whole. *)
Lemma scale_tree_diverges x scale :
  (∀ s, whole x s = false) → diverges (for_tree (scale_body x) scale).
Proof.
  intros Hx. apply (for_never_breaks _ (λ _, True)); [|done].
  intros s _. exists (mul64 s 10). unfold scale_body. by rewrite Hx.
Qed.

Lemma RandomFloat64_tree_stuck start (end_ : F) precision r :
  fgt start end_ = false → feq start end_ = false →
  (∀ s, whole start s = false) ∨ (∀ s, whole end_ s = false) →
  diverges (RandomFloat64_tree start end_ precision r).
Proof.
  intros Hgt Heq Hloop. unfold RandomFloat64_tree. rewrite Hgt, Heq.
  destruct Hloop as [Hs|He].
  - by apply diverges_bind_l, scale_tree_diverges.
  - apply diverges_bind_r. intros s1.
    by apply diverges_bind_l, scale_tree_diverges.
Qed.
End random_float_diverges.

(** ** What the functions do *)

(** The value of [Pow]: a panic on a negative exponent, one for the
    exponent zero, and [x] squared [y - 1] times otherwise. *)
Definition Pow_value (x y : Z) : result Z :=
  if decide (y < 0) then Panic "y less than zero"
  else if decide (y = 0) then Ok 1
  else Ok (wrap64 (x ^ 2 ^ (y - 1))).

Lemma Pow_fuel_value x y :
  in_int64 x → in_int64 y → Pow (Z.to_nat y) x y = Some (Pow_value x y).
Proof.
  intros Hx Hy. unfold Pow_value. repeat case_goal_decide.
  - unfold Pow. by rewrite decide_True.
  - by subst.
  - apply Pow_closed; [done|int64_lia|done].
Qed.

(** C20. [Pow] returns, on every base and exponent of the type: the loop
    reaches its [break], and the value is [Pow_value]. *)
Theorem Pow_returns x y :
  in_int64 x → in_int64 y → returns (Pow_tree x y) (Pow_value x y).
Proof. intros Hx Hy. eapply Pow_fuel_tree. by apply Pow_fuel_value. Qed.

(** The models with fuel say what the loops do: a function returns a
    value exactly when some fuel gives that value, for [Pow] and for
    [RandomFloat64] on any numbers and any random source. *)
Theorem fuel_is_adequate {F R : Type} `{!FloatLib F} `{!RandSource R}
    x y res start (end_ : F) precision (r : R) res' :
  (returns (Pow_tree x y) res ↔ ∃ fuel, Pow fuel x y = Some res) ∧
  (returns (RandomFloat64_tree start end_ precision r) res' ↔
   ∃ fuel, RandomFloat64 fuel start end_ precision r = Some res').
Proof.
  split; (split; [|intros [fuel Hfuel]]).
  - apply Pow_tree_fuel.
  - by eapply Pow_fuel_tree.
  - apply RandomFloat64_tree_fuel.
  - by eapply RandomFloat64_fuel_tree.
Qed.

Lemma RandomFloat64_bad (start end_ : float) precision (r : list Z) :
  bad_bounds start end_ → diverges (RandomFloat64_tree start end_ precision r).
Proof.
  intros (Hgt & Heq & Hloop)%bad_bounds_never_whole.
  by apply RandomFloat64_tree_stuck.
Qed.

Lemma RandomFloat64_good (start end_ : float) precision (r : list Z) :
  ¬ bad_bounds start end_ →
  ∃ res, returns (RandomFloat64_tree start end_ precision r) res.
Proof.
  intros (res & fuel & Hres)%(not_bad_bounds start end_ precision r).
  exists res. by eapply RandomFloat64_fuel_tree.
Qed.

(** C26. On binary64 [RandomFloat64] returns exactly on the bounds that are
    not [bad_bounds]: it diverges when a bound is a NaN, or an infinity in
    a range that is in order and not empty, and only then; on every other
    pair of bounds it returns a number or a panic. *)
Theorem RandomFloat64_returns_iff (start end_ : float) precision (r : list Z) :
  (diverges (RandomFloat64_tree start end_ precision r) ↔
   bad_bounds start end_) ∧
  ((∃ res, returns (RandomFloat64_tree start end_ precision r) res) ↔
   ¬ bad_bounds start end_).
Proof.
  split; (split; [|by auto using RandomFloat64_bad, RandomFloat64_good]).
  - intros Hd. destruct (decide (bad_bounds start end_)) as [|Hgood]; [done|].
    destruct (RandomFloat64_good start end_ precision r Hgood) as [res Hres].
    by destruct (returns_not_diverges _ _ Hres).
  - intros [res Hres] Hbad. eapply returns_not_diverges; [done|].
    by apply RandomFloat64_bad.
Qed.

(** [RandomFloat64(NaN, 20.2, 2)] and [RandomFloat64(0, +Inf, 2)] hang. *)
Example RandomFloat64_tree_hangs :
  diverges (RandomFloat64_tree nan (tenths 202) 2 [13]) ∧
  diverges (RandomFloat64_tree (float_of_int64 0) infinity 2 [13]).
Proof.
  split; apply RandomFloat64_bad; [by left|].
  right; right. by vm_compute; auto.
Qed.

(** ** Evaluation *)

Lemma Pow_returns_witness : returns (Pow_tree 3 5) (Ok (wrap64 (3 ^ 2 ^ 4))).
Proof. apply (Pow_returns 3 5); by vm_compute. Defined.

(** The trees run: [burn] takes the given number of silent steps. *)
Example Pow_tree_runs :
  burn 10 (Pow_tree 3 5) = Ret (Ok (wrap64 (3 ^ 16))) ∧
  burn 10 (Pow_tree 3 (-1)) = Ret (Panic "y less than zero").
Proof. by vm_compute. Qed.

Example RandomFloat64_tree_runs :
  burn 10 (RandomFloat64_tree (tenths (-101)) (tenths 202) 3 [30])
    = Ret (Ok (tenths (-71), [])).
Proof. by vm_compute. Qed.
