(* ===== verification/Claims.v ===== *)
(** * Claims: [src/lib/jwt/claims.go]

    [MapClaims.Valid] copies the registered claims of a token out of a map
    of untyped values into a [StandardClaims] structure and returns what
    the JWT library says of that structure.  A text claim is taken only
    when its value is a string; a time claim is printed with [%v], parsed
    back with [strconv.ParseFloat] and converted to [int64].

    [fmt], [strconv] and the conversion of a [float64] are libraries: the
    class [NumText] states what the file needs of them (a string prints
    as itself, a [float64] prints as a text that parses back to it, the
    conversion lands in [int64]).  The validation of
    the structure is the JWT library's: the class [Validator] states that
    it reads the three time claims only, and [jwt_valid] is the library's
    check at a given clock reading.  [DecimalText] is an instance on
    decimal integers, for evaluation. *)

From Stdlib Require Import ZArith Lia DecimalString DecimalZ.
From stdpp Require Import prelude strings gmap.
From S2P Require Import Prelude.

#[local] Open Scope Z_scope.

(** ** Data *)

(** A value of type [interface{}] as a token's claims hold them. *)
Inductive Value (float64 : Type) : Type :=
  | VNil
  | VBool (b : bool)
  | VString (s : string)
  | VFloat (f : float64)
  | VInt (z : Z)
  | VOther (tag : string).

Arguments VNil {float64}.
Arguments VBool {float64} b.
Arguments VString {float64} s.
Arguments VFloat {float64} f.
Arguments VInt {float64} z.
Arguments VOther {float64} tag.

(** [type MapClaims map[string]interface{}] *)
Definition MapClaims (float64 : Type) : Type := gmap string (Value float64).

(** [jwtLib.StandardClaims], in the order of its fields. *)
Record StandardClaims : Type := mkStandardClaims {
  Audience : string;
  ExpiresAt : Z;
  Id : string;
  IssuedAt : Z;
  Issuer : string;
  NotBefore : Z;
  Subject : string;
}.

#[export] Instance StandardClaims_eq_dec : EqDecision StandardClaims.
Proof. solve_decision. Defined.

(** [type AppClaims struct]: the application's claims embed the standard
    ones. *)
Record AppClaims : Type := mkAppClaims {
  Scopes : list string;
  ScopeIDs : list Z;
  Name : string;
  Email : string;
  Standard : StandardClaims;
}.

Definition with_Audience (s : string) (sc : StandardClaims) : StandardClaims :=
  mkStandardClaims s (ExpiresAt sc) (Id sc) (IssuedAt sc) (Issuer sc)
    (NotBefore sc) (Subject sc).
Definition with_ExpiresAt (z : Z) (sc : StandardClaims) : StandardClaims :=
  mkStandardClaims (Audience sc) z (Id sc) (IssuedAt sc) (Issuer sc)
    (NotBefore sc) (Subject sc).
Definition with_Id (s : string) (sc : StandardClaims) : StandardClaims :=
  mkStandardClaims (Audience sc) (ExpiresAt sc) s (IssuedAt sc) (Issuer sc)
    (NotBefore sc) (Subject sc).
Definition with_IssuedAt (z : Z) (sc : StandardClaims) : StandardClaims :=
  mkStandardClaims (Audience sc) (ExpiresAt sc) (Id sc) z (Issuer sc)
    (NotBefore sc) (Subject sc).
Definition with_Issuer (s : string) (sc : StandardClaims) : StandardClaims :=
  mkStandardClaims (Audience sc) (ExpiresAt sc) (Id sc) (IssuedAt sc) s
    (NotBefore sc) (Subject sc).
Definition with_NotBefore (z : Z) (sc : StandardClaims) : StandardClaims :=
  mkStandardClaims (Audience sc) (ExpiresAt sc) (Id sc) (IssuedAt sc)
    (Issuer sc) z (Subject sc).

(** An [error]: one made by [fmt.Errorf], or the library's validation
    error with the checks that failed. *)
Inductive Flaw : Type := Expired | UsedBeforeIssued | NotValidYet.

Inductive error : Type :=
  | Errorf (msg : string)
  | ValidationError (flaws : list Flaw).

#[export] Instance Flaw_eq_dec : EqDecision Flaw.
Proof. solve_decision. Defined.

#[export] Instance error_eq_dec : EqDecision error.
Proof. solve_decision. Defined.

(** ** The libraries *)

(** [fmt.Sprintf("%v", v)], [strconv.ParseFloat(s, 64)] ([None] stands for
    [err != nil]) and the conversion [int64(f)].  A string prints as
    itself, and a [float64] prints with the fewest digits that parse back
    to it. *)
Class NumText (float64 : Type) : Type := {
  Sprint : Value float64 → string;
  ParseFloat : string → option float64;
  to_int64 : float64 → Z;
  Sprint_string : ∀ s, Sprint (VString s) = s;
  ParseFloat_Sprint : ∀ f, ParseFloat (Sprint (VFloat f)) = Some f;
  to_int64_range : ∀ f, in_int64 (to_int64 f);
}.

(** [StandardClaims.Valid]: [None] stands for a nil error.  The library
    checks the time claims and nothing else. *)
Class Validator : Type := {
  std_valid : StandardClaims → option error;
  std_valid_times : ∀ sc sc',
    ExpiresAt sc = ExpiresAt sc' → IssuedAt sc = IssuedAt sc' →
    NotBefore sc = NotBefore sc' → std_valid sc = std_valid sc';
}.

(** The checks of the library at the clock reading [now]: a time claim of
    zero is absent and passes. *)
Definition jwt_flaws (now : Z) (sc : StandardClaims) : list Flaw :=
  (if decide (ExpiresAt sc ≠ 0 ∧ ExpiresAt sc < now) then [Expired] else []) ++
  (if decide (IssuedAt sc ≠ 0 ∧ now < IssuedAt sc) then [UsedBeforeIssued] else []) ++
  (if decide (NotBefore sc ≠ 0 ∧ now < NotBefore sc) then [NotValidYet] else []).

Definition jwt_valid (now : Z) (sc : StandardClaims) : option error :=
  match jwt_flaws now sc with
  | [] => None
  | flaws => Some (ValidationError flaws)
  end.

#[export, refine] Instance JwtLib (now : Z) : Validator :=
  {| std_valid := jwt_valid now |}.
Proof.
intros sc sc' Hexp Hiat Hnbf. unfold jwt_valid, jwt_flaws.
by rewrite Hexp, Hiat, Hnbf.
Defined.

(** Decimal integers as numbers, for evaluation. *)
Definition decimal (z : Z) : string := NilZero.string_of_int (Z.to_int z).

Definition parse_decimal (s : string) : option Z :=
  Z.of_int <$> NilZero.int_of_string s.

Definition decimal_Sprint (v : Value Z) : string :=
  match v with
  | VNil => "<nil>"
  | VBool b => if b then "true" else "false"
  | VString s => s
  | VFloat f => decimal f
  | VInt z => decimal z
  | VOther tag => tag
  end.

(** A decimal parses back to its number. *)
Lemma parse_decimal_decimal z : parse_decimal (decimal z) = Some z.
Proof.
  unfold parse_decimal, decimal.
  destruct (decide (z = 0)) as [->|Hz]; [done|].
  rewrite NilZero.isi.
  - cbn. by rewrite DecimalZ.of_to.
  - intros E%(f_equal Z.of_int). by rewrite DecimalZ.of_to in E.
  - intros E%(f_equal Z.of_int). by rewrite DecimalZ.of_to in E.
Qed.

#[export, refine] Instance DecimalText : NumText Z :=
  {| Sprint := decimal_Sprint; ParseFloat := parse_decimal; to_int64 := wrap64 |}.
Proof.
- done.
- apply parse_decimal_decimal.
- apply wrap64_range.
Defined.

(** ** [MapClaims.Valid] *)

Section valid.
Context {float64 : Type} `{!NumText float64}.
Implicit Types (c : gmap string (Value float64)) (sc : StandardClaims).
Implicit Types (key : string).

(** [if value, ok := c[key]; ok { if s, ok := value.(string); ok {
    standardClaim.F = s } }] *)
Definition string_claim c key (set : string → StandardClaims → StandardClaims)
    sc : StandardClaims :=
  match c !! key with
  | Some (VString s) => set s sc
  | _ => sc
  end.

(** [if value, ok := c[key]; ok { valueStr := fmt.Sprintf("%v", value);
    if n, err := strconv.ParseFloat(valueStr, 64); err == nil {
    standardClaim.F = int64(n) } }] *)
Definition number_claim c key (set : Z → StandardClaims → StandardClaims)
    sc : StandardClaims :=
  match c !! key with
  | Some value =>
    let valueStr := Sprint value in
    match ParseFloat valueStr with
    | Some n => set (to_int64 n) sc
    | None => sc
    end
  | None => sc
  end.

(** The structure [Valid] fills, block after block as the source has
    them; the last block stores the subject in the field [Id]. *)
Definition standard_claims c : StandardClaims :=
  let standardClaim := mkStandardClaims "" 0 "" 0 "" 0 "" in
  let standardClaim := string_claim c "aud" with_Audience standardClaim in
  let standardClaim := number_claim c "exp" with_ExpiresAt standardClaim in
  let standardClaim := string_claim c "jti" with_Id standardClaim in
  let standardClaim := number_claim c "iat" with_IssuedAt standardClaim in
  let standardClaim := string_claim c "iss" with_Issuer standardClaim in
  let standardClaim := number_claim c "nbf" with_NotBefore standardClaim in
  let standardClaim := string_claim c "sub" with_Id standardClaim in
  standardClaim.

(** The receiver is a pointer: [None] is the nil pointer. *)
Definition Valid {V : Validator} (c : option (MapClaims float64))
    : option error :=
  match c with
  | None => Some (Errorf "MapClaims is nil")
  | Some c => std_valid (standard_claims c)
  end.

(** *** What a claim of the map holds *)

(** The text of a claim: its value when that is a string. *)
Definition text_of c key : option string :=
  match c !! key with
  | Some (VString s) => Some s
  | _ => None
  end.

(** The time of a claim: its value printed, parsed and converted. *)
Definition time_of c key : option Z :=
  value ← c !! key; n ← ParseFloat (Sprint value); Some (to_int64 n).

(** The keys [Valid] reads. *)
Definition claim_keys : list string :=
  ["aud"; "exp"; "jti"; "iat"; "iss"; "nbf"; "sub"].

Definition time_keys : list string := ["exp"; "iat"; "nbf"].
End valid.

(** ** The library's check *)

Lemma jwt_valid_None now sc :
  jwt_valid now sc = None ↔
  (ExpiresAt sc = 0 ∨ now ≤ ExpiresAt sc) ∧
  (IssuedAt sc = 0 ∨ IssuedAt sc ≤ now) ∧
  (NotBefore sc = 0 ∨ NotBefore sc ≤ now).
Proof.
  unfold jwt_valid, jwt_flaws.
  repeat case_goal_decide; cbn; (split; intros ?); done || lia || (exfalso; lia).
Qed.

Lemma jwt_valid_Some now sc e :
  jwt_valid now sc = Some e → e = ValidationError (jwt_flaws now sc).
Proof. unfold jwt_valid. destruct (jwt_flaws now sc); naive_solver. Qed.

(** ** The structure [Valid] fills *)

Section valid_lemmas.
Context {float64 : Type} `{!NumText float64}.
Implicit Types (c : gmap string (Value float64)) (sc : StandardClaims).
Implicit Types (key : string).

Lemma string_claim_text c key set sc :
  string_claim c key set sc = from_option (λ s, set s sc) sc (text_of c key).
Proof. unfold string_claim, text_of. by repeat case_match. Qed.

Lemma number_claim_time c key set sc :
  number_claim c key set sc = from_option (λ z, set z sc) sc (time_of c key).
Proof.
  unfold number_claim, time_of. destruct (c !! key) as [v|]; cbn; [|done].
  by destruct (ParseFloat (Sprint v)).
Qed.

(** Field by field: what each block of the source leaves. *)
Lemma standard_claims_eq c :
  standard_claims c =
    {| Audience := default "" (text_of c "aud");
       ExpiresAt := default 0 (time_of c "exp");
       Id := default (default "" (text_of c "jti")) (text_of c "sub");
       IssuedAt := default 0 (time_of c "iat");
       Issuer := default "" (text_of c "iss");
       NotBefore := default 0 (time_of c "nbf");
       Subject := "" |}.
Proof.
  unfold standard_claims. rewrite !string_claim_text, !number_claim_time.
  destruct (text_of c "aud"), (time_of c "exp"), (text_of c "jti"),
    (time_of c "iat"), (text_of c "iss"), (time_of c "nbf"), (text_of c "sub");
    reflexivity.
Qed.

Lemma text_of_string c key s :
  c !! key = Some (VString s) → text_of c key = Some s.
Proof. unfold text_of. by intros ->. Qed.

Lemma time_of_in_int64 c key z : time_of c key = Some z → in_int64 z.
Proof.
  unfold time_of. intros (v & _ & (n & _ & [= <-])%bind_Some)%bind_Some.
  apply to_int64_range.
Qed.

Lemma time_of_unparsable c key v :
  c !! key = Some v → ParseFloat (Sprint v) = None → time_of c key = None.
Proof. unfold time_of. intros -> Hp. cbn. by rewrite Hp. Qed.

Lemma time_of_string c key s :
  c !! key = Some (VString s) → time_of c key = to_int64 <$> ParseFloat s.
Proof.
  unfold time_of. intros ->. cbn. rewrite Sprint_string.
  by destruct (ParseFloat s).
Qed.


(** A claim outside the keys read does not count. *)
Lemma text_of_insert_ne c key k v :
  k ≠ key → text_of (<[k:=v]> c) key = text_of c key.
Proof. intros Hk. unfold text_of. by rewrite lookup_insert_ne. Qed.

Lemma time_of_insert_ne c key k v :
  k ≠ key → time_of (<[k:=v]> c) key = time_of c key.
Proof. intros Hk. unfold time_of. by rewrite lookup_insert_ne. Qed.

Lemma text_of_delete_ne c key k :
  k ≠ key → text_of (delete k c) key = text_of c key.
Proof. intros Hk. unfold text_of. by rewrite lookup_delete_ne. Qed.

Lemma time_of_delete_ne c key k :
  k ≠ key → time_of (delete k c) key = time_of c key.
Proof. intros Hk. unfold time_of. by rewrite lookup_delete_ne. Qed.

Lemma time_of_ext c c' key : c !! key = c' !! key → time_of c key = time_of c' key.
Proof. unfold time_of. by intros ->. Qed.

Lemma standard_claims_times c c' :
  (∀ k, k ∈ time_keys → c !! k = c' !! k) →
  ExpiresAt (standard_claims c) = ExpiresAt (standard_claims c') ∧
  IssuedAt (standard_claims c) = IssuedAt (standard_claims c') ∧
  NotBefore (standard_claims c) = NotBefore (standard_claims c').
Proof.
  intros Hk. rewrite !standard_claims_eq. cbn.
  rewrite (time_of_ext c c' "exp"), (time_of_ext c c' "iat"),
    (time_of_ext c c' "nbf"); [done|apply Hk; unfold time_keys; set_solver..].
Qed.
End valid_lemmas.

#[export] Hint Rewrite @text_of_insert_ne @time_of_insert_ne
  @text_of_delete_ne @time_of_delete_ne using done : go.

(** ** Properties of [Valid] *)

Section valid_properties.
Context {float64 : Type} `{!NumText float64}.
Implicit Types (c : gmap string (Value float64)) (sc : StandardClaims).
Implicit Types (key : string).

(** C9. What [Valid] hands to the library.  The audience and the issuer
    are the texts of [aud] and [iss]; the three times are the values of
    [exp], [iat] and [nbf] printed, parsed and converted, each an
    [int64]; a claim that is absent, of another type or unparsable leaves
    the zero value.  The field [Id] holds the text of [sub] when there is
    one and that of [jti] otherwise, and the field [Subject] is always
    empty. *)
Theorem standard_claims_spec c :
  let sc := standard_claims c in
  Audience sc = default "" (text_of c "aud") ∧
  Issuer sc = default "" (text_of c "iss") ∧
  ExpiresAt sc = default 0 (time_of c "exp") ∧
  IssuedAt sc = default 0 (time_of c "iat") ∧
  NotBefore sc = default 0 (time_of c "nbf") ∧
  Id sc = default (default "" (text_of c "jti")) (text_of c "sub") ∧
  Subject sc = "" ∧
  in_int64 (ExpiresAt sc) ∧ in_int64 (IssuedAt sc) ∧ in_int64 (NotBefore sc).
Proof.
  cbn zeta. rewrite standard_claims_eq. cbn. split_and!; try done.
  all: match goal with |- in_int64 (default 0 ?t) =>
         destruct t eqn:E; [by eapply time_of_in_int64|done] end.
Qed.

(** [Valid] reads the time claims only: two maps with the same
    values at [exp], [iat] and [nbf] get the same verdict, whatever their
    audience, issuer, id and subject, and whatever else they hold. *)
Theorem Valid_reads_time_claims_only {V : Validator} c c' :
  (∀ k, k ∈ time_keys → c !! k = c' !! k) →
  Valid (Some c) = Valid (Some c').
Proof.
  intros Hk. cbn. destruct (standard_claims_times c c' Hk) as (? & ? & ?).
  by apply std_valid_times.
Qed.

(** A claim [Valid] does not know changes nothing, and a nil receiver is
    an error. *)
Theorem Valid_frame {V : Validator} c k v :
  k ∉ claim_keys →
  standard_claims (<[k:=v]> c) = standard_claims c ∧
  standard_claims (delete k c) = standard_claims c ∧
  Valid (Some (<[k:=v]> c)) = Valid (Some c) ∧
  Valid (None : option (MapClaims float64)) = Some (Errorf "MapClaims is nil").
Proof.
  unfold claim_keys. intros Hk.
  assert (standard_claims (<[k:=v]> c) = standard_claims c) as Hins.
  { rewrite !standard_claims_eq.
    by rewrite !text_of_insert_ne, !time_of_insert_ne by set_solver. }
  split_and!; [done| |by cbn; rewrite Hins|done].
  rewrite !standard_claims_eq.
  by rewrite !text_of_delete_ne, !time_of_delete_ne by set_solver.
Qed.

(** C28. What the verdict is, with the library's check at the clock
    reading [now]: the map is accepted exactly when each time claim is
    zero (absent, unparsable, or given as zero) or on the right side of
    the clock: the expiry not before [now], the issue time and the
    not-before time not after it. *)
Theorem Valid_accepts_iff now c :
  let exp := default 0 (time_of c "exp") in
  let iat := default 0 (time_of c "iat") in
  let nbf := default 0 (time_of c "nbf") in
  Valid (V := JwtLib now) (Some c) = None ↔
  (exp = 0 ∨ now ≤ exp) ∧ (iat = 0 ∨ iat ≤ now) ∧ (nbf = 0 ∨ nbf ≤ now).
Proof. cbn. by rewrite jwt_valid_None, standard_claims_eq. Qed.

(** C30. An expiry that cannot be parsed is no expiry: when the value of
    [exp] does not parse as a number and the map has no issue and
    not-before times, [Valid] accepts the map at every clock reading. *)
Theorem unparsable_exp_never_expires c v :
  c !! "exp" = Some v → ParseFloat (Sprint v) = None →
  time_of c "iat" = None → time_of c "nbf" = None →
  ∀ now, Valid (V := JwtLib now) (Some c) = None.
Proof.
  intros Hexp Hparse Hiat Hnbf now. cbn.
  rewrite jwt_valid_None, standard_claims_eq. cbn.
  rewrite (time_of_unparsable c "exp" v), Hiat, Hnbf by done. cbn. lia.
Qed.


(** The subject is stored as the id: when [sub] is a string, the
    field [Id] handed to the library is the subject, the id of [jti] is
    lost, and the field [Subject] stays empty. *)
Theorem subject_stored_as_id c s :
  c !! "sub" = Some (VString s) →
  Id (standard_claims c) = s ∧ Subject (standard_claims c) = "".
Proof.
  intros Hsub. by rewrite standard_claims_eq, (text_of_string c "sub" s).
Qed.

(** A time claim given as a string is read as a number. *)
Theorem string_time_is_parsed c s n :
  c !! "exp" = Some (VString s) → ParseFloat s = Some n →
  ExpiresAt (standard_claims c) = to_int64 n.
Proof.
  intros Hexp Hn. rewrite standard_claims_eq. cbn.
  by rewrite (time_of_string c "exp" s), Hn.
Qed.
End valid_properties.

(** ** Evaluation on the decimal instance *)

Definition token : gmap string (Value Z) :=
  {[ "exp" := VInt 1700000000; "iat" := VString "1600000000";
     "jti" := VString "id-1"; "sub" := VString "alice"; "aud" := VInt 7 ]}.

(** A token whose expiry is not a number. *)
Definition token_bad_exp : gmap string (Value Z) :=
  {[ "exp" := VString "tomorrow"; "iss" := VString "sail" ]}.

Example standard_claims_token :
  standard_claims token =
    mkStandardClaims "" 1700000000 "alice" 1600000000 "" 0 "".
Proof. by vm_compute. Qed.

Example Valid_token :
  Valid (V := JwtLib 1650000000) (Some token) = None ∧
  Valid (V := JwtLib 1700000001) (Some token)
    = Some (ValidationError [Expired]) ∧
  Valid (V := JwtLib 1500000000) (Some token)
    = Some (ValidationError [UsedBeforeIssued]).
Proof. by vm_compute. Qed.

Lemma Valid_reads_time_claims_only_witness :
  Valid (V := JwtLib 1650000000) (Some (<["sub" := VString "bob"]> token))
    = Valid (V := JwtLib 1650000000) (Some token).
Proof.
  apply (Valid_reads_time_claims_only (V := JwtLib 1650000000)).
  intros k Hk. apply lookup_insert_ne. intros <-.
  unfold time_keys in Hk. rewrite !elem_of_cons, elem_of_nil in Hk.
  by destruct Hk as [?|[?|[?|[]]]].
Defined.

Lemma unparsable_exp_never_expires_witness :
  Valid (V := JwtLib 4102444800) (Some token_bad_exp) = None.
Proof.
  by apply (unparsable_exp_never_expires token_bad_exp (VString "tomorrow")).
Defined.



Lemma subject_stored_as_id_witness :
  Id (standard_claims token) = "alice" ∧ Subject (standard_claims token) = "".
Proof. by apply (subject_stored_as_id token "alice"). Defined.

(** An expiry of 2^63 seconds, one more than fits: the conversion of the
    instance wraps to the least [int64], as amd64 does, and the token has
    expired. *)
Definition token_huge_exp : gmap string (Value Z) :=
  {[ "exp" := VFloat (2 ^ 63) ]}.

Example huge_exp_has_expired :
  ExpiresAt (standard_claims token_huge_exp) = int64_min ∧
  Valid (V := JwtLib 1700000000) (Some token_huge_exp)
    = Some (ValidationError [Expired]).
Proof. by vm_compute. Qed.
