(* ===== verification/GoStrings.v ===== *)
(** * GoStrings: the part of Go's [strings] package the sources use

    [Split] and [Join] for a separator of one byte, and [TrimSpace].
    Strings are sequences of bytes, as in Go; [TrimSpace] reads them as
    UTF-8 and trims the white space of Unicode, as the library does: the
    encodings of the white characters are listed in [white], and a byte
    that starts no such encoding stops the trimming. *)

From Stdlib Require Import Ascii String NArith.
From stdpp Require Import prelude strings.
From S2P Require Import Prelude.

(** ** Definitions *)

(** [strings.Split] for a separator of one byte: the pieces between the
    separators, at least one piece. *)
Fixpoint Split (s : string) (sep : ascii) : list string :=
  match s with
  | EmptyString => [EmptyString]
  | String a s' =>
    if decide (a = sep) then EmptyString :: Split s' sep
    else match Split s' sep with
         | piece :: pieces => String a piece :: pieces
         | [] => [String a EmptyString]
         end
  end.

(** [strings.Join] *)
Fixpoint Join (pieces : list string) (sep : ascii) : string :=
  match pieces with
  | [] => EmptyString
  | [piece] => piece
  | piece :: pieces' => piece +:+ String sep (Join pieces' sep)
  end.

(** The text before the first occurrence of [sep]. *)
Fixpoint before (sep : ascii) (s : string) : string :=
  match s with
  | EmptyString => EmptyString
  | String a s' => if decide (a = sep) then EmptyString else String a (before sep s')
  end.

(** The white space of [unicode.IsSpace], in UTF-8 as a Go string holds
    it: tab, line feed, vertical tab, form feed, carriage return and space
    on one byte; U+0085 and U+00A0 on two; U+1680, U+2000 to U+200A,
    U+2028, U+2029, U+202F, U+205F and U+3000 on three. *)
Definition white (q : list ascii) : bool :=
  match N_of_ascii <$> q with
  | [a] => bool_decide (a ∈ [9; 10; 11; 12; 13; 32]%N)
  | [a; b] => bool_decide (a = 194 ∧ b ∈ [133; 160])%N
  | [a; b; c] =>
    bool_decide ((a = 225 ∧ b = 154 ∧ c = 128) ∨
                 (a = 226 ∧ b = 128 ∧ (128 ≤ c ≤ 138 ∨ c ∈ [168; 169; 175])) ∨
                 (a = 226 ∧ b = 129 ∧ c = 159) ∨
                 (a = 227 ∧ b = 128 ∧ c = 128))%N
  | _ => false
  end.

Arguments white : simpl never.

(** A byte that is white space by itself. *)
Definition is_space (a : ascii) : bool := white [a].

Arguments is_space : simpl never.

(** The number of bytes of the white character a text starts with, zero
    when it starts with none.  [P] tells the encodings of white space: a
    byte that belongs to no such encoding, an invalid one included, is
    not white. *)
Definition width (P : list ascii → bool) (l : list ascii) : nat :=
  if P (take 1 l) then 1
  else if P (take 2 l) then 2
  else if P (take 3 l) then 3
  else 0.

(** [strings.TrimLeftFunc]: white characters are dropped from the front
    while there is one.  Each round drops a byte at least, so the length
    of the text is fuel enough. *)
Fixpoint strip (P : list ascii → bool) (fuel : nat) (l : list ascii) : list ascii :=
  match fuel with
  | O => l
  | S fuel' =>
    match width P l with
    | O => l
    | w => strip P fuel' (drop w l)
    end
  end.

Definition trim_left (l : list ascii) : list ascii := strip white (length l) l.

(** [strings.TrimRightFunc] decodes from the end: the same on the text
    read backwards. *)
Definition trim_right (l : list ascii) : list ascii :=
  reverse (strip (white ∘ reverse) (length l) (reverse l)).

Definition trim (l : list ascii) : list ascii := trim_right (trim_left l).

(** [strings.TrimSpace]: [TrimRightFunc] of [TrimLeftFunc]. *)
Definition TrimSpace (s : string) : string :=
  string_of_list_ascii (trim (list_ascii_of_string s)).

(** A text starts with no white character (the empty text included). *)
Definition solid (P : list ascii → bool) (l : list ascii) : Prop :=
  width P l = 0%nat.

Definition starts_solid (s : string) : Prop :=
  solid white (list_ascii_of_string s).

Definition ends_solid (s : string) : Prop :=
  solid (white ∘ reverse) (reverse (list_ascii_of_string s)).

(** A byte of ASCII. *)
Definition low (a : ascii) : Prop := (N_of_ascii a < 128)%N.

(** A continuation byte of UTF-8. *)
Definition cont (a : ascii) : Prop := (128 ≤ N_of_ascii a < 192)%N.

(** What the lemmas on [strip] need of the encodings it is given: an
    encoding is one byte of ASCII, or two or three bytes none of which
    is of ASCII, and no encoding is the start of another. *)
Class Code (P : list ascii → bool) : Prop := {
  code_shape : ∀ q, P q = true →
    (∃ a, q = [a] ∧ low a) ∨
    ((2 ≤ length q ≤ 3)%nat ∧ Forall (λ c, ¬ low c) q);
  code_prefix_free : ∀ q n,
    P q = true → (n < length q)%nat → P (take n q) = false;
}.

(** A text of white characters only. *)
Inductive blank (P : list ascii → bool) : list ascii → Prop :=
  | blank_nil : blank P []
  | blank_app q l : P q = true → blank P l → blank P (q ++ l).

(** What [strings.TrimSpace] promises: the text is the result between
    white characters, and the result starts and ends with none. *)
Definition trims (s t : string) : Prop :=
  ∃ pre post,
    s = pre +:+ t +:+ post ∧
    blank white (list_ascii_of_string pre) ∧
    blank white (list_ascii_of_string post) ∧
    starts_solid t ∧ ends_solid t.

(** ** Appending *)

Lemma string_app_nil_l (s : string) : EmptyString +:+ s = s.
Proof. reflexivity. Qed.

Lemma string_app_cons (a : ascii) (s t : string) :
  String a s +:+ t = String a (s +:+ t).
Proof. reflexivity. Qed.

Lemma string_app_nil_r (s : string) : s +:+ EmptyString = s.
Proof. induction s as [|a s IH]; [done|]. by rewrite string_app_cons, IH. Qed.

Lemma string_app_assoc (s t u : string) : (s +:+ t) +:+ u = s +:+ (t +:+ u).
Proof.
  induction s as [|a s IH]; [done|]. by rewrite !string_app_cons, IH.
Qed.

#[export] Hint Rewrite string_app_nil_l string_app_cons string_app_nil_r
  string_app_assoc : go.

(** ** [Split], [Join] and [before] *)

Section split.
Implicit Types (s : string) (sep : ascii).

Lemma Split_nonempty s sep : (0 < length (Split s sep))%nat.
Proof.
  induction s as [|a s IH]; cbn; [lia|].
  case_goal_decide; [cbn; lia|]. destruct (Split s sep); cbn; lia.
Qed.

Lemma Split_head s sep : Split s sep !! 0%nat = Some (before sep s).
Proof.
  induction s as [|a s IH]; cbn; [done|].
  case_goal_decide; [done|]. by destruct (Split s sep); simplify_eq/=.
Qed.

(** Joining the pieces gives the text back. *)
Lemma Join_Split s sep : Join (Split s sep) sep = s.
Proof.
  induction s as [|a s IH]; cbn; [done|].
  pose proof (Split_nonempty s sep) as Hlen. case_goal_decide as [->|Hne].
  - destruct (Split s sep) as [|p ps] eqn:E; [cbn in Hlen; lia|].
    by rewrite <-IH.
  - destruct (Split s sep) as [|p ps] eqn:E; [cbn in Hlen; lia|].
    destruct ps as [|p' ps]; by rewrite <-IH.
Qed.

(** No piece holds the separator. *)
Lemma before_no_sep s sep : ∀ i a, String.get i (before sep s) = Some a → a ≠ sep.
Proof.
  induction s as [|b s IH]; intros i a; cbn; [by destruct i|].
  case_goal_decide as [|Hne]; [by destruct i|]. destruct i as [|i]; cbn.
  - by intros [= <-].
  - apply IH.
Qed.

(** [before] is a prefix, followed by nothing or by the separator. *)
Lemma before_prefix s sep :
  s = before sep s ∨ ∃ rest, s = before sep s +:+ String sep rest.
Proof.
  induction s as [|a s IH]; cbn; [by left|].
  case_goal_decide as [->|Hne]; [right; by exists s|].
  destruct IH as [IH|[rest IH]]; [left; by f_equal|right; exists rest].
  change (String a s = String a (before sep s +:+ String sep rest)).
  by f_equal.
Qed.

Lemma before_empty s sep :
  before sep s = EmptyString ↔ s = EmptyString ∨ ∃ rest, s = String sep rest.
Proof.
  destruct s as [|a s]; cbn; [naive_solver|]. case_goal_decide as [->|Hne].
  - split; [right; by eexists|done].
  - split; [done|]. intros [?|[rest [= ]]]; done.
Qed.

Lemma length_0_empty s : String.length s = 0%nat ↔ s = EmptyString.
Proof. destruct s; cbn; split; (done || lia). Qed.
End split.

(** ** Stripping white characters *)

Section strip.
Context (P : list ascii → bool) `{!Code P}.
Implicit Types (l q s t : list ascii) (a b : ascii) (n w fuel : nat).

Lemma code_length q : P q = true → (1 ≤ length q ≤ 3)%nat.
Proof. intros [(a & -> & _)|[? _]]%code_shape; cbn; lia. Qed.

Lemma code_nil : P [] = false.
Proof. destruct (P []) eqn:E; [|done]. apply code_length in E. cbn in E. lia. Qed.

Lemma solid_nil : solid P [].
Proof. unfold solid, width. cbn. by rewrite code_nil. Qed.

Lemma solid_intro l : (∀ w, (1 ≤ w ≤ 3)%nat → P (take w l) = false) → solid P l.
Proof. intros H. unfold solid, width. by rewrite !H by lia. Qed.

Lemma solid_take l w : solid P l → P (take w l) = false.
Proof.
  unfold solid, width. intros H. destruct (P (take w l)) eqn:E; [|done].
  apply code_length in E as Hlen. rewrite length_take in Hlen.
  assert (take w l = take 1 l ∨ take w l = take 2 l ∨ take w l = take 3 l)
    as [Hw|[Hw|Hw]]; [|rewrite Hw in E; rewrite E in H; repeat case_match; done..].
  destruct (decide (w ≤ 3)%nat).
  - assert (w = 1 ∨ w = 2 ∨ w = 3)%nat as [->|[->| ->]] by lia; auto.
  - right; right. by rewrite !take_ge by lia.
Qed.

Lemma width_pos l :
  width P l ≠ 0%nat →
  P (take (width P l) l) = true ∧ (1 ≤ width P l ≤ 3)%nat.
Proof. unfold width. repeat case_match; intros Hne; try done; (split; [done|lia]). Qed.

Lemma strip_solid fuel l : solid P l → strip P fuel l = l.
Proof. intros H. destruct fuel; [done|]. cbn. by rewrite H. Qed.

Lemma strip_suffix fuel l : ∃ k, strip P fuel l = drop k l.
Proof.
  revert l. induction fuel as [|fuel IH]; intros l; [by exists 0%nat|]. cbn.
  destruct (width P l) as [|w]; [by exists 0%nat|].
  destruct (IH (drop (S w) l)) as [k ->]. exists (S w + k)%nat. by rewrite drop_drop.
Qed.

Lemma strip_is_solid fuel l : (length l ≤ fuel)%nat → solid P (strip P fuel l).
Proof.
  revert l. induction fuel as [|fuel IH]; intros l Hl.
  - destruct l; [|cbn in Hl; lia]. apply solid_nil.
  - cbn. destruct (width P l) as [|w] eqn:E; [done|].
    apply IH. rewrite length_drop. lia.
Qed.

(** A text that starts with a byte of ASCII that is not white is solid. *)
Lemma solid_cons a l : low a → P [a] = false → solid P (a :: l).
Proof.
  intros Hlow Ha. apply solid_intro. intros w Hw.
  destruct (P (take w (a :: l))) eqn:E; [|done].
  destruct w as [|w]; [lia|]. cbn in E.
  destruct (code_shape _ E)
    as [(a' & [= <- Hnil] & _)|[_ [Hhigh _]%Forall_cons]]; [|done].
  rewrite Hnil in E. congruence.
Qed.

(** Solid texts stay solid when a text that starts in ASCII follows. *)
Lemma solid_app s a t : s ≠ [] → low a → solid P s → solid P (s ++ a :: t).
Proof.
  intros Hs Hlow Hsolid. apply solid_intro. intros w Hw.
  destruct (P (take w (s ++ a :: t))) eqn:E; [|done]. exfalso.
  rewrite take_app in E. destruct (decide (w ≤ length s)%nat) as [Hle|Hgt].
  - replace (w - length s)%nat with 0%nat in E by lia.
    rewrite take_0, app_nil_r in E. by rewrite solid_take in E.
  - rewrite take_ge in E by lia.
    destruct (w - length s)%nat as [|k] eqn:Ek; [lia|]. cbn in E.
    apply code_shape in E as [(a' & E & _)|[_ Hhigh]].
    + destruct s as [|? [|]]; done.
    + apply Forall_app in Hhigh as [_ [Ha _]%Forall_cons]. done.
Qed.

(** The width of a text that starts with a white character. *)
Lemma width_code q l : P q = true → width P (q ++ l) = length q.
Proof.
  intros Hq. pose proof (code_length q Hq) as Hlen. unfold width.
  assert (∀ n, (n < length q)%nat → P (take n (q ++ l)) = false) as Hlt.
  { intros n Hn. rewrite take_app_le by lia. by apply code_prefix_free. }
  assert (P (take (length q) (q ++ l)) = true) as Heq
    by (by rewrite take_app_length).
  destruct (length q) as [|[|[|[|n]]]]; try lia.
  - by rewrite Heq.
  - by rewrite (Hlt 1%nat), Heq by lia.
  - by rewrite (Hlt 1%nat), (Hlt 2%nat), Heq by lia.
Qed.

Lemma solid_prefix l n : solid P l → solid P (take n l).
Proof.
  intros H. apply solid_intro. intros w _. rewrite take_take.
  by apply solid_take.
Qed.
End strip.

(** ** The encodings of white space *)

Ltac bytes := rewrite ?elem_of_cons, ?elem_of_nil in *; lia.

Lemma white_shape q :
  white q = true →
  (∃ a, q = [a] ∧ low a) ∨ ((2 ≤ length q ≤ 3)%nat ∧ Forall (λ c, ¬ low c) q).
Proof.
  unfold white, low. destruct q as [|a [|b [|c [|d q]]]]; cbn; try done;
    intros H%bool_decide_eq_true; [left; exists a|right..];
    (split; [done || lia|]); repeat constructor; bytes.
Qed.

Lemma white_length q : white q = true → (1 ≤ length q ≤ 3)%nat.
Proof. intros [(a & -> & _)|[? _]]%white_shape; cbn; lia. Qed.

Lemma white_prefix_free q n :
  white q = true → (n < length q)%nat → white (take n q) = false.
Proof.
  unfold white. destruct q as [|a [|b [|c [|d q]]]]; cbn; try done;
    intros H%bool_decide_eq_true Hn;
    destruct n as [|[|[|n]]]; cbn; try done; try lia;
    apply bool_decide_eq_false_2; bytes.
Qed.

Lemma white_reverse_prefix_free q n :
  white (reverse q) = true → (n < length q)%nat →
  white (reverse (take n q)) = false.
Proof.
  intros H Hn. pose proof (white_length _ H) as Hlen.
  rewrite length_reverse in Hlen. unfold white in *.
  destruct q as [|a [|b [|c [|d q]]]]; cbn in *; try lia;
    apply bool_decide_eq_true in H;
    destruct n as [|[|[|n]]]; cbn; try done; try lia;
    apply bool_decide_eq_false_2; bytes.
Qed.

(** The first byte of a white character is no continuation byte, the
    others are. *)
Lemma white_sync q :
  white q = true → ∃ a q', q = a :: q' ∧ ¬ cont a ∧ Forall cont q'.
Proof.
  unfold white, cont. destruct q as [|a [|b [|c [|d q]]]]; cbn; try done;
    intros H%bool_decide_eq_true; eexists _, _; (split; [done|]);
    (split; [bytes|]); repeat constructor; bytes.
Qed.

(** The encodings read from the front, and from the back. *)
#[export] Instance white_Code : Code white.
Proof. split; [apply white_shape|apply white_prefix_free]. Qed.

#[export] Instance white_reverse_Code : Code (white ∘ reverse).
Proof.
  split; [|apply white_reverse_prefix_free].
  intros q [(a & Hq & Ha)|[Hlen Hhigh]]%white_shape.
  - left. exists a. split; [|done]. by rewrite <-(reverse_involutive q), Hq.
  - right. rewrite length_reverse in Hlen. by rewrite Forall_reverse in Hhigh.
Qed.

Lemma is_space_low a : is_space a = true → low a.
Proof. intros [(a' & [= <-] & ?)|[? _]]%white_shape; [done|cbn in *; lia]. Qed.

(** ** Texts of white characters *)

Section blank.
Context (P : list ascii → bool).
Implicit Types (l q pre t : list ascii) (fuel : nat).

Lemma blank_one q : P q = true → blank P q.
Proof. intros Hq. rewrite <-(app_nil_r q). by constructor; [|constructor]. Qed.

Lemma blank_app_blank l1 l2 : blank P l1 → blank P l2 → blank P (l1 ++ l2).
Proof.
  induction 1 as [|q l Hq Hl IH]; [done|]. intros Hl2.
  rewrite <-(assoc_L (++)). constructor; auto.
Qed.
End blank.

Section strip_blank.
Context (P : list ascii → bool).
Implicit Types (l q pre t : list ascii) (fuel : nat).

(** White characters read backwards. *)
Lemma blank_reverse l : blank P l → blank (P ∘ reverse) (reverse l).
Proof.
  induction 1 as [|q l Hq Hl IH]; [constructor|].
  rewrite reverse_app. apply blank_app_blank; [done|].
  apply blank_one. cbn. by rewrite reverse_involutive.
Qed.

Lemma blank_reverse_inv l : blank (P ∘ reverse) l → blank P (reverse l).
Proof.
  induction 1 as [|q l Hq Hl IH]; [constructor|].
  rewrite reverse_app. apply blank_app_blank; [done|]. by apply blank_one.
Qed.

(** What [strip] drops is white. *)
Lemma strip_split `{!Code P} fuel l :
  ∃ pre, blank P pre ∧ l = pre ++ strip P fuel l.
Proof.
  revert l. induction fuel as [|fuel IH]; intros l;
    [exists []; by split; [constructor|]|].
  cbn. destruct (width P l) as [|w] eqn:E; [exists []; by split; [constructor|]|].
  destruct (IH (drop (S w) l)) as (pre & Hpre & Hl).
  exists (take (S w) l ++ pre). split.
  - constructor; [|done]. rewrite <-E. apply width_pos. by rewrite E.
  - by rewrite <-(assoc_L (++)), <-Hl, take_drop.
Qed.

(** [strip] drops all the white characters before a solid text: the
    length of what is dropped is fuel enough. *)
Lemma strip_blank `{!Code P} fuel pre t :
  blank P pre → solid P t → (length pre ≤ fuel)%nat →
  strip P fuel (pre ++ t) = t.
Proof.
  intros Hpre Ht. revert fuel.
  induction Hpre as [|q l Hq Hl IH]; intros fuel Hfuel; [by apply strip_solid|].
  pose proof (code_length P q Hq) as Hlen. rewrite length_app in Hfuel.
  destruct fuel as [|fuel]; [lia|]. cbn.
  rewrite <-(assoc_L (++)), width_code by done.
  destruct (length q) as [|n] eqn:En; [lia|].
  rewrite <-En, drop_app_length. apply IH. lia.
Qed.
End strip_blank.

(** ** [TrimSpace] *)

Section trim.
Implicit Types (l pre post : list ascii) (s t : string) (a b : ascii).

Lemma list_ascii_of_string_app s t :
  list_ascii_of_string (s +:+ t) = list_ascii_of_string s ++ list_ascii_of_string t.
Proof. induction s as [|a s IH]; cbn; [done|]. by rewrite <-IH. Qed.

Lemma list_ascii_of_string_nil s : list_ascii_of_string s = [] ↔ s = EmptyString.
Proof. by destruct s. Qed.

Lemma trim_left_solid l : solid white l → trim_left l = l.
Proof. apply strip_solid. Qed.

Lemma trim_left_is_solid l : solid white (trim_left l).
Proof. by apply strip_is_solid; [apply _|]. Qed.

Lemma trim_right_solid l : solid (white ∘ reverse) (reverse l) → trim_right l = l.
Proof.
  intros H. unfold trim_right. by rewrite strip_solid, reverse_involutive.
Qed.

Lemma trim_right_is_solid l : solid (white ∘ reverse) (reverse (trim_right l)).
Proof.
  unfold trim_right. rewrite reverse_involutive.
  apply strip_is_solid; [apply _|]. by rewrite length_reverse.
Qed.

(** Trimming on the right leaves a prefix, which starts as the text
    does. *)
Lemma trim_right_prefix l : ∃ n, trim_right l = take n l.
Proof.
  unfold trim_right.
  destruct (strip_suffix (white ∘ reverse) (length l) (reverse l)) as [k ->].
  exists (length l - k)%nat. by rewrite drop_reverse, reverse_involutive.
Qed.

Lemma trim_right_keeps_solid l : solid white l → solid white (trim_right l).
Proof.
  intros H. destruct (trim_right_prefix l) as [n ->].
  by apply solid_prefix; [apply _|].
Qed.

Lemma trim_idem l : trim (trim l) = trim l.
Proof.
  unfold trim.
  rewrite (trim_left_solid (trim_right _))
    by apply trim_right_keeps_solid, trim_left_is_solid.
  apply trim_right_solid, trim_right_is_solid.
Qed.

(** Trimming is idempotent. *)
Lemma TrimSpace_idem s : TrimSpace (TrimSpace s) = TrimSpace s.
Proof.
  unfold TrimSpace. by rewrite list_ascii_of_string_of_list_ascii, trim_idem.
Qed.

(** A solid text followed by a byte of ASCII that is not white starts
    solid, whatever comes after. *)
Lemma starts_solid_app s a t :
  low a → is_space a = false → starts_solid s → starts_solid (s +:+ String a t).
Proof.
  unfold starts_solid. intros Hlow Ha Hs. rewrite list_ascii_of_string_app. cbn.
  destruct (list_ascii_of_string s) as [|c l] eqn:E.
  - by apply solid_cons; [apply _|..].
  - rewrite <-E in *. apply solid_app; [apply _|by rewrite E|done..].
Qed.

(** A byte of ASCII before a text that is not empty and ends solid. *)
Lemma ends_solid_app s a t :
  low a → t ≠ EmptyString → ends_solid t → ends_solid (s +:+ String a t).
Proof.
  unfold ends_solid. intros Hlow Hne Ht. rewrite list_ascii_of_string_app. cbn.
  rewrite reverse_app, reverse_cons, <-(assoc_L (++)). cbn.
  apply solid_app; [apply _| |done..].
  intros Hnil%(f_equal reverse). rewrite reverse_involutive in Hnil.
  by apply list_ascii_of_string_nil in Hnil.
Qed.

(** White characters after a solid text start no white character with
    its last bytes. *)
Lemma solid_app_blank (t : list ascii) post :
  t ≠ [] → solid white t → blank white post → solid white (t ++ post).
Proof.
  intros Ht Hsolid Hpost. destruct Hpost as [|q post Hq _]; [by rewrite app_nil_r|].
  apply white_sync in Hq as (a & q' & -> & Ha & _).
  apply solid_intro. intros w _.
  destruct (white (take w (t ++ (a :: q') ++ post))) eqn:E; [|done]. exfalso.
  rewrite take_app in E. destruct (w - length t)%nat as [|k] eqn:Ek.
  - rewrite take_0, app_nil_r in E. by rewrite (solid_take white) in E.
  - rewrite take_ge in E by lia. destruct t as [|b t]; [done|]. cbn in E.
    apply white_sync in E as (? & ? & [= <- <-] & _ & Hcont).
    by apply Forall_app in Hcont as [_ [? _]%Forall_cons].
Qed.

(** What trimming drops is white, and what it leaves is solid. *)
Lemma trim_split l :
  ∃ pre post,
    l = pre ++ trim l ++ post ∧ blank white pre ∧ blank white post ∧
    solid white (trim l) ∧ solid (white ∘ reverse) (reverse (trim l)).
Proof.
  destruct (strip_split white (length l) l) as (pre & Hpre & Hl).
  fold (trim_left l) in Hl.
  destruct (strip_split (white ∘ reverse) (length (trim_left l))
              (reverse (trim_left l))) as (post & Hpost & Hm).
  apply (f_equal reverse) in Hm. rewrite reverse_involutive, reverse_app in Hm.
  fold (trim_right (trim_left l)) in Hm. fold (trim l) in Hm.
  exists pre, (reverse post). split_and!.
  - by rewrite <-Hm.
  - done.
  - by apply blank_reverse_inv.
  - apply trim_right_keeps_solid, trim_left_is_solid.
  - apply trim_right_is_solid.
Qed.

(** The solid text between white characters is what trimming leaves. *)
Lemma trim_unique pre (t : list ascii) post :
  blank white pre → blank white post →
  solid white t → solid (white ∘ reverse) (reverse t) →
  trim (pre ++ t ++ post) = t.
Proof.
  intros Hpre Hpost Hs He. unfold trim, trim_left.
  destruct (decide (t = [])) as [->|Hne].
  - rewrite <-(app_nil_r (pre ++ [] ++ post)) at 2.
    by rewrite strip_blank;
      [|apply _|apply blank_app_blank|apply solid_nil, _|].
  - rewrite strip_blank;
      [|apply _|done|by apply solid_app_blank|rewrite length_app; lia].
    unfold trim_right. rewrite reverse_app, strip_blank;
      [apply reverse_involutive|apply _|by apply blank_reverse|done|].
    rewrite length_app, length_reverse. lia.
Qed.

(** [TrimSpace] meets its specification, and the specification names
    one text. *)
Lemma TrimSpace_spec s t : TrimSpace s = t ↔ trims s t.
Proof.
  unfold TrimSpace, trims, starts_solid, ends_solid. split.
  - intros <-. rewrite list_ascii_of_string_of_list_ascii.
    destruct (trim_split (list_ascii_of_string s))
      as (pre & post & Hl & Hpre & Hpost & Hs & He).
    exists (string_of_list_ascii pre), (string_of_list_ascii post).
    rewrite !list_ascii_of_string_of_list_ascii. split_and!; try done.
    etrans; [symmetry; apply string_of_list_ascii_of_string|].
    etrans; [|apply string_of_list_ascii_of_string]. f_equal.
    by rewrite !list_ascii_of_string_app, !list_ascii_of_string_of_list_ascii.
  - intros (pre & post & -> & Hpre & Hpost & Hs & He).
    rewrite !list_ascii_of_string_app, trim_unique by done.
    apply string_of_list_ascii_of_string.
Qed.

(** A text between two white bytes, itself solid at both ends, is what
    trimming leaves. *)
Lemma TrimSpace_wrapped a s b :
  is_space a = true → is_space b = true →
  starts_solid s → ends_solid s →
  TrimSpace (String a (s +:+ String b EmptyString)) = s.
Proof.
  intros Ha Hb Hs He. apply TrimSpace_spec.
  exists (String a EmptyString), (String b EmptyString).
  by split_and!; [|apply blank_one|apply blank_one|..].
Qed.
End trim.
