(* ===== verification/Header.v ===== *)
(** * Header: the request header of [net/http]

    [RequestEntry] reads three fields of the request with
    [c.Request.Header.Get].  A [Header] maps the canonical form of a field
    name to the values sent under it; the server stores every field it
    reads under the canonical form of its name, and [Get], [Add], [Set]
    and [Del] canonicalise the name they are given, so that names are
    compared without regard to the case of their letters.

    This file follows the documentation of the package: a name made of
    token bytes has its first letter and every letter after a hyphen in
    upper case and its other letters in lower case; any other name is left
    as it is. *)

From Stdlib Require Import Ascii.
From stdpp Require Import prelude strings gmap.
From S2P Require Import Prelude.

(** ** Bytes *)

Definition is_lower (a : ascii) : bool :=
  let n := nat_of_ascii a in (97 <=? n)%nat && (n <=? 122)%nat.

Definition is_upper (a : ascii) : bool :=
  let n := nat_of_ascii a in (65 <=? n)%nat && (n <=? 90)%nat.

Definition is_digit (a : ascii) : bool :=
  let n := nat_of_ascii a in (48 <=? n)%nat && (n <=? 57)%nat.

Definition to_upper (a : ascii) : ascii :=
  if is_lower a then ascii_of_nat (nat_of_ascii a - 32) else a.

Definition to_lower (a : ascii) : ascii :=
  if is_upper a then ascii_of_nat (nat_of_ascii a + 32) else a.

(** The bytes of a token that are neither letters nor digits. *)
Definition token_marks : list ascii :=
  ["!"; "#"; "$"; "%"; "&"; "'"; "*"; "+"; "-"; "."; "^"; "_"; "`"; "|";
   "~"]%char.

(** [validHeaderFieldByte]: the bytes a field name may hold. *)
Definition validHeaderFieldByte (c : ascii) : bool :=
  is_lower c || is_upper c || is_digit c || bool_decide (c ∈ token_marks).

Fixpoint valid_name (s : string) : bool :=
  match s with
  | EmptyString => true
  | String c s' => validHeaderFieldByte c && valid_name s'
  end.

(** ** Canonical names *)

(** The canonical form of the rest of a name; [upper] says that the next
    byte starts a word. *)
Fixpoint canonical_from (upper : bool) (s : string) : string :=
  match s with
  | EmptyString => EmptyString
  | String c s' =>
    let c := if upper then to_upper c else to_lower c in
    String c (canonical_from (bool_decide (c = "-"%char)) s')
  end.

(** [textproto.CanonicalMIMEHeaderKey] *)
Definition CanonicalMIMEHeaderKey (s : string) : string :=
  if valid_name s then canonical_from true s else s.

(** The name with its letters in lower case. *)
Fixpoint lower (s : string) : string :=
  match s with
  | EmptyString => EmptyString
  | String c s' => String (to_lower c) (lower s')
  end.

(** Two names that differ in the case of their letters only. *)
Definition same_name (k k' : string) : Prop := lower k = lower k'.

#[export] Instance same_name_dec k k' : Decision (same_name k k').
Proof. unfold same_name. apply _. Defined.

(** ** Headers *)

(** [type Header map[string][]string] *)
Abbreviation Header := (gmap string (list string)).

(** [Header.Values]: the values of the canonical key. *)
Definition Values (h : Header) (key : string) : list string :=
  default [] (h !! CanonicalMIMEHeaderKey key).

(** [Header.Get]: the first value of the canonical key, or the empty
    string. *)
Definition Get (h : Header) (key : string) : string :=
  match h !! CanonicalMIMEHeaderKey key with
  | Some (v :: _) => v
  | _ => EmptyString
  end.

(** [Header.Add]: one more value under the canonical key. *)
Definition Add (h : Header) (key value : string) : Header :=
  let key := CanonicalMIMEHeaderKey key in
  <[key := default [] (h !! key) ++ [value]]> h.

(** [Header.Set]: the value replaces the ones under the canonical key. *)
Definition Set_ (h : Header) (key value : string) : Header :=
  <[CanonicalMIMEHeaderKey key := [value]]> h.

(** [Header.Del] *)
Definition Del (h : Header) (key : string) : Header :=
  delete (CanonicalMIMEHeaderKey key) h.

(** The header of a request whose fields arrived in the order of the
    list: the server adds each under the canonical form of its name. *)
Definition request_header (fields : list (string * string)) : Header :=
  foldl (λ h kv, Add h kv.1 kv.2) ∅ fields.

(** The values of the fields of a request that go by the name [key]. *)
Definition field_values (key : string) (fields : list (string * string))
    : list string :=
  snd <$> filter (λ kv, CanonicalMIMEHeaderKey kv.1 = CanonicalMIMEHeaderKey key)
            fields.

(** The value of the first field of a request whose name is [key] up to
    the case of its letters; the empty string when there is none. *)
Definition first_field (key : string) (fields : list (string * string))
    : string :=
  default EmptyString
    (head (snd <$> filter (λ kv, valid_name kv.1 = true ∧ same_name kv.1 key)
                      fields)).

(** A field name and the name a lookup asks for go by the same name when
    their canonical forms are equal. *)
Definition same_field (k k' : string) : Prop :=
  CanonicalMIMEHeaderKey k = CanonicalMIMEHeaderKey k'.

#[export] Instance same_field_dec k k' : Decision (same_field k k').
Proof. unfold same_field. apply _. Defined.

#[export] Instance same_field_equiv : Equivalence same_field.
Proof.
  unfold same_field. split; [by intros ?|by intros ???|].
  intros ??? ->. done.
Qed.

#[export] Instance same_name_equiv : Equivalence same_name.
Proof.
  unfold same_name. split; [by intros ?|by intros ???|].
  intros ??? ->. done.
Qed.

(** ** Bytes *)

(** The canonical form of one byte. *)
Definition canon_byte (upper : bool) (c : ascii) : ascii :=
  if upper then to_upper c else to_lower c.

Ltac ascii_cases c := destruct c as [[] [] [] [] [] [] [] []]; try reflexivity.

Section bytes.
Implicit Types (c : ascii) (u : bool).

Lemma canon_byte_idem u c : canon_byte u (canon_byte u c) = canon_byte u c.
Proof. destruct u; ascii_cases c. Qed.

Lemma canon_byte_lower u c : canon_byte u (to_lower c) = canon_byte u c.
Proof. destruct u; ascii_cases c. Qed.

Lemma lower_canon_byte u c : to_lower (canon_byte u c) = to_lower c.
Proof. destruct u; ascii_cases c. Qed.

Lemma valid_canon_byte u c :
  validHeaderFieldByte (canon_byte u c) = validHeaderFieldByte c.
Proof. destruct u; ascii_cases c. Qed.

Lemma valid_to_lower c : validHeaderFieldByte (to_lower c) = validHeaderFieldByte c.
Proof. apply (valid_canon_byte false). Qed.

(** A change of case neither makes nor unmakes a hyphen. *)
Lemma canon_byte_hyphen u c :
  bool_decide (canon_byte u c = "-"%char) = bool_decide (c = "-"%char).
Proof. destruct u; ascii_cases c. Qed.
End bytes.

(** ** Names *)

Section names.
Implicit Types (s k : string) (u : bool).

Lemma canonical_from_cons u c s :
  canonical_from u (String c s) =
    String (canon_byte u c) (canonical_from (bool_decide (c = "-"%char)) s).
Proof. cbn. by rewrite <-(canon_byte_hyphen u c). Qed.

Lemma canonical_from_idem u s :
  canonical_from u (canonical_from u s) = canonical_from u s.
Proof.
  revert u. induction s as [|c s IH]; intros u; [done|].
  rewrite !canonical_from_cons, canon_byte_idem, canon_byte_hyphen. by rewrite IH.
Qed.

Lemma canonical_from_lower u s : canonical_from u (lower s) = canonical_from u s.
Proof.
  revert u. induction s as [|c s IH]; intros u; [done|]. cbn [lower].
  rewrite !canonical_from_cons, canon_byte_lower, (canon_byte_hyphen false).
  by rewrite IH.
Qed.

Lemma lower_canonical_from u s : lower (canonical_from u s) = lower s.
Proof.
  revert u. induction s as [|c s IH]; intros u; [done|].
  rewrite canonical_from_cons. cbn [lower]. by rewrite lower_canon_byte, IH.
Qed.

Lemma valid_canonical_from u s :
  valid_name (canonical_from u s) = valid_name s.
Proof.
  revert u. induction s as [|c s IH]; intros u; [done|].
  rewrite canonical_from_cons. cbn [valid_name]. by rewrite valid_canon_byte, IH.
Qed.

Lemma valid_lower s : valid_name (lower s) = valid_name s.
Proof.
  induction s as [|c s IH]; [done|]. cbn. by rewrite valid_to_lower, IH.
Qed.

Lemma valid_Canonical s :
  valid_name (CanonicalMIMEHeaderKey s) = valid_name s.
Proof.
  unfold CanonicalMIMEHeaderKey. destruct (valid_name s) eqn:E; [|done].
  by rewrite valid_canonical_from.
Qed.

Lemma Canonical_valid s :
  valid_name s = true → CanonicalMIMEHeaderKey s = canonical_from true s.
Proof. unfold CanonicalMIMEHeaderKey. by intros ->. Qed.

Lemma Canonical_invalid s :
  valid_name s = false → CanonicalMIMEHeaderKey s = s.
Proof. unfold CanonicalMIMEHeaderKey. by intros ->. Qed.

Lemma Canonical_idem s :
  CanonicalMIMEHeaderKey (CanonicalMIMEHeaderKey s) = CanonicalMIMEHeaderKey s.
Proof.
  destruct (valid_name s) eqn:E.
  - rewrite (Canonical_valid s E), Canonical_valid, canonical_from_idem; [done|].
    by rewrite valid_canonical_from.
  - by rewrite !(Canonical_invalid s E).
Qed.

(** On names made of token bytes, going by the same name is equality up
    to the case of the letters. *)
Lemma same_field_valid k k' :
  valid_name k = true → valid_name k' = true →
  same_field k k' ↔ same_name k k'.
Proof.
  intros Hk Hk'. unfold same_field, same_name.
  rewrite (Canonical_valid k Hk), (Canonical_valid k' Hk'). split; intros E.
  - by rewrite <-(lower_canonical_from true k), E, lower_canonical_from.
  - by rewrite <-(canonical_from_lower true k), E, canonical_from_lower.
Qed.

(** A name with a byte that is no token byte goes by its own name only. *)
Lemma same_field_invalid k k' :
  valid_name k = false → same_field k k' ↔ k = k'.
Proof.
  intros Hk. unfold same_field. rewrite (Canonical_invalid k Hk). split.
  - intros E. destruct (valid_name k') eqn:Hk'.
    + rewrite E, valid_Canonical in Hk. congruence.
    + by rewrite (Canonical_invalid k' Hk') in E.
  - intros <-. by rewrite Canonical_invalid.
Qed.
End names.

(** ** Lookups *)

Section headers.
Implicit Types (h : Header) (k key v : string).
Implicit Types (fields : list (string * string)).

Lemma Get_Values h key : Get h key = default EmptyString (head (Values h key)).
Proof. unfold Get, Values. by destruct (h !! _) as [[|??]|]. Qed.

(** The operations see a name through its canonical form only. *)
#[export] Instance Values_proper h : Proper (same_field ==> (=)) (Values h).
Proof. intros k k' E. unfold Values. by rewrite E. Qed.

#[export] Instance Get_proper h : Proper (same_field ==> (=)) (Get h).
Proof. intros k k' E. unfold Get. by rewrite E. Qed.

#[export] Instance Add_proper h : Proper (same_field ==> (=) ==> (=)) (Add h).
Proof. intros k k' E v ? <-. unfold Add. by rewrite E. Qed.

#[export] Instance Set_proper h : Proper (same_field ==> (=) ==> (=)) (Set_ h).
Proof. intros k k' E v ? <-. unfold Set_. by rewrite E. Qed.

#[export] Instance Del_proper h : Proper (same_field ==> (=)) (Del h).
Proof. intros k k' E. unfold Del. by rewrite E. Qed.

Lemma Values_empty key : Values ∅ key = [].
Proof. unfold Values. by rewrite lookup_empty. Qed.

Lemma Values_Add h k v key :
  Values (Add h k v) key =
    if decide (same_field k key) then Values h key ++ [v] else Values h key.
Proof.
  unfold Values, Add, same_field. cbn zeta. case_goal_decide as [E|E].
  - by rewrite <-E, lookup_insert_eq.
  - by rewrite lookup_insert_ne.
Qed.

Lemma Values_Set h k v key :
  Values (Set_ h k v) key = if decide (same_field k key) then [v] else Values h key.
Proof.
  unfold Values, Set_, same_field. case_goal_decide as [E|E].
  - by rewrite <-E, lookup_insert_eq.
  - by rewrite lookup_insert_ne.
Qed.

Lemma Values_Del h k key :
  Values (Del h k) key = if decide (same_field k key) then [] else Values h key.
Proof.
  unfold Values, Del, same_field. case_goal_decide as [E|E].
  - by rewrite <-E, lookup_delete_eq.
  - by rewrite lookup_delete_ne.
Qed.

Lemma field_values_cons k v fields key :
  field_values key ((k, v) :: fields) =
    if decide (same_field k key) then v :: field_values key fields
    else field_values key fields.
Proof.
  unfold field_values, same_field. rewrite filter_cons. cbn.
  by destruct (decide _).
Qed.

(** The fields of a request are found under their names, in the order of
    their arrival. *)
Lemma Values_fields h fields key :
  Values (foldl (λ h kv, Add h kv.1 kv.2) h fields) key =
    Values h key ++ field_values key fields.
Proof.
  revert h. induction fields as [|[k v] fields IH]; intros h.
  - by rewrite app_nil_r.
  - cbn [foldl]. rewrite IH, Values_Add, field_values_cons. cbn.
    case_goal_decide; [by rewrite <-app_assoc|done].
Qed.

Lemma Values_request_header fields key :
  Values (request_header fields) key = field_values key fields.
Proof. unfold request_header. by rewrite Values_fields, Values_empty. Qed.

(** For a name made of token bytes, the fields that go by it are the ones
    with a token name equal to it up to the case of the letters. *)
Lemma field_values_same_name fields key :
  valid_name key = true →
  field_values key fields =
    snd <$> filter (λ kv, valid_name kv.1 = true ∧ same_name kv.1 key) fields.
Proof.
  intros Hkey. unfold field_values. f_equal. apply list_filter_iff.
  intros [k v]. cbn. fold (same_field k key).
  destruct (valid_name k) eqn:Hk.
  - rewrite same_field_valid by done. tauto.
  - rewrite same_field_invalid by done. split; [intros ->; congruence|].
    by intros [? _].
Qed.

Lemma Get_request_header fields key :
  valid_name key = true → Get (request_header fields) key = first_field key fields.
Proof.
  intros Hkey. unfold first_field.
  by rewrite Get_Values, Values_request_header, field_values_same_name.
Qed.
End headers.

(** ** Properties *)

Section properties.
Implicit Types (h : Header) (k key v : string).
Implicit Types (fields : list (string * string)).

(** The canonical form is a normal form of names up to the case of their
    letters: canonicalising twice is canonicalising once; two names made
    of token bytes have the same canonical form exactly when they are
    equal up to case; a name with any other byte is its own canonical
    form. *)
Theorem CanonicalMIMEHeaderKey_normal_form k k' :
  CanonicalMIMEHeaderKey (CanonicalMIMEHeaderKey k) = CanonicalMIMEHeaderKey k ∧
  (valid_name k = true → valid_name k' = true →
   CanonicalMIMEHeaderKey k = CanonicalMIMEHeaderKey k' ↔ lower k = lower k') ∧
  (valid_name k = false → CanonicalMIMEHeaderKey k = k) ∧
  valid_name (CanonicalMIMEHeaderKey k) = valid_name k.
Proof.
  split_and!.
  - apply Canonical_idem.
  - apply same_field_valid.
  - apply Canonical_invalid.
  - apply valid_Canonical.
Qed.

(** What is stored is what is found: [Get] on the header of a request
    gives the value of the first field whose name is the key up to the
    case of its letters, and the empty string when there is none; [Set]
    then [Get] gives the value set, under any spelling of the name;
    [Add] appends; [Del] removes. *)
Theorem header_lookup_round_trip h fields k key v :
  valid_name key = true →
  Get (request_header fields) key = first_field key fields ∧
  (same_field k key → Get (Set_ h k v) key = v) ∧
  (same_field k key → Values (Add h k v) key = Values h key ++ [v]) ∧
  (same_field k key → Get (Del h k) key = EmptyString) ∧
  (¬ same_field k key →
   Get (Set_ h k v) key = Get h key ∧ Get (Add h k v) key = Get h key ∧
   Get (Del h k) key = Get h key).
Proof.
  intros Hkey. split_and!.
  - by apply Get_request_header.
  - intros E. by rewrite Get_Values, Values_Set, decide_True.
  - intros E. by rewrite Values_Add, decide_True.
  - intros E. by rewrite Get_Values, Values_Del, decide_True.
  - intros E. rewrite !Get_Values, Values_Set, Values_Add, Values_Del.
    by rewrite !decide_False.
Qed.
End properties.

(** ** Evaluation *)

Example canonical_names :
  CanonicalMIMEHeaderKey "requestId" = "Requestid" ∧
  CanonicalMIMEHeaderKey "X-Request-Id" = "X-Request-Id" ∧
  CanonicalMIMEHeaderKey "accept-language" = "Accept-Language" ∧
  CanonicalMIMEHeaderKey "x-REQUEST-id" = "X-Request-Id" ∧
  CanonicalMIMEHeaderKey "request id" = "request id".
Proof. by vm_compute. Qed.

(** A request with the same field under two spellings. *)
Definition demo_fields : list (string * string) :=
  [("ACCEPT-LANGUAGE", "zh-CN"); ("accept-language", "en")].

Example Get_demo_fields :
  Get (request_header demo_fields) "Accept-Language" = "zh-CN" ∧
  Values (request_header demo_fields) "accept-language" = ["zh-CN"; "en"].
Proof. by vm_compute. Qed.

Lemma header_lookup_round_trip_witness :
  Get (request_header demo_fields) "accept-language"
    = first_field "accept-language" demo_fields.
Proof.
  assert (valid_name "accept-language" = true) as Hkey by (by vm_compute).
  exact (proj1 (header_lookup_round_trip ∅ demo_fields "k" "accept-language" "v"
                  Hkey)).
Defined.
