(* ===== verification/RequestEntry.v ===== *)
(** * RequestEntry: [src/http/middleware/requestentry.go]

    The handler [RequestEntry] runs first on every request.  It chooses
    the request id (the header [requestId], else the header
    [X-Request-Id], else a new UUID) and the span id, records the entry
    time and a logger that carries both ids, takes the client's language
    from the first entry of [Accept-Language], stores the five of them in
    the context under fixed keys, and passes on to the rest of the chain.

    The handler is a procedure over [World]: the gin context (the
    request's header and the key/value store of [c.Set]), the UUID
    generator and the clock.  [c.Next()] is the continuation the handler
    is given.  A procedure may panic: [uuid.New] panics when the source
    of random bytes fails, and so may the rest of the chain; the handler
    recovers from neither.  [http.Header.Get] and [uuid.New] are
    libraries: the first is in [Header], the second is the class
    [UuidSource]; [strings.Split] is in [GoStrings]. *)

From Stdlib Require Import ZArith Lia Ascii.
From stdpp Require Import prelude strings gmap.
From S2P Require Import Prelude.
From S2P Require Import GoStrings.
From S2P Require Import Header.

(** ** The libraries *)

(** *** [uuid.New().String()]: the [n]-th identifier the generator hands
    out, a text of 36 bytes, or the panic of [uuid.New] when the random
    bytes cannot be read. *)
Class UuidSource : Type := {
  uuid_string : nat → result string;
  uuid_length : ∀ n u, uuid_string n = Ok u → String.length u = 36%nat;
}.

(** A generator for evaluation: the counter's last two decimal digits in a
    fixed identifier. *)
Definition digit (n : nat) : ascii := ascii_of_nat (48 + n mod 10).

Definition counter_uuid (n : nat) : string :=
  "00000000-0000-4000-8000-0000000000"
    +:+ String (digit (n / 10)) (String (digit n) EmptyString).

#[export, refine] Instance CounterUuid : UuidSource :=
  {| uuid_string n := Ok (counter_uuid n) |}.
Proof. by intros n u [= <-]. Defined.

(** A generator whose source of random bytes fails after [k] draws. *)
#[refine] Definition FailingUuid (k : nat) : UuidSource :=
  {| uuid_string n :=
       if decide (n < k)%nat then Ok (counter_uuid n)
       else Panic "unexpected EOF" |}.
Proof. intros n u. case_decide; [by intros [= <-]|done]. Defined.

(** ** The context *)

(** A value stored with [c.Set]. *)
Inductive Any : Type :=
  | AString (s : string)
  | AInt64 (z : Z)
  | ALogger (fields : list (string * string)).

#[export] Instance Any_eq_dec : EqDecision Any.
Proof. solve_decision. Defined.

(** [gin.Context]: the header of the request and the keys of [c.Set]. *)
Record Context : Type := mkContext {
  RequestHeader : Header;
  Keys : gmap string Any;
}.

(** What the handler runs in: the context, the number of UUIDs handed out
    and the reading of [time.Now().UnixNano()]. *)
Record World : Type := mkWorld {
  ctx : Context;
  uuids : nat;
  unix_nano : Z;
}.

(** [c.Set(key, value)] *)
Definition ctx_Set (key : string) (value : Any) : Proc World unit :=
  lift (modify (λ w,
    mkWorld (mkContext (RequestHeader (ctx w)) (<[key := value]> (Keys (ctx w))))
      (uuids w) (unix_nano w))).

(** [c.Request.Header.Get(key)] *)
Definition Header_Get (key : string) : Proc World string :=
  lift (gets (λ w, Get (RequestHeader (ctx w)) key)).

(** [uuid.New().String()] *)
Definition uuid_New `{!UuidSource} : Proc World string :=
  u ← call (λ w, uuid_string (uuids w));
  lift (modify (λ w, mkWorld (ctx w) (S (uuids w)) (unix_nano w)));;
  mret u.

(** [time.Now().UnixNano()] *)
Definition UnixNano : Proc World Z := lift (gets unix_nano).

(** [logger.GetLogger().With(zap.String("requestId", requestId),
    zap.String("spanId", spanId))] *)
Definition logger_With (requestId spanId : string) : Any :=
  ALogger [("requestId", requestId); ("spanId", spanId)].

(** ** The handler *)

Definition RequestEntry `{!UuidSource} (Next : Proc World unit)
    : Proc World unit :=
  requestIdInHeader ← Header_Get "requestId";
  requestIdInHeader ←
    (if decide (String.length requestIdInHeader = 0)%nat
     then Header_Get "X-Request-Id"
     else mret requestIdInHeader);
  ids ←
    (if decide (0 < String.length requestIdInHeader)%nat
     then spanId ← uuid_New; mret (requestIdInHeader, spanId)
     else requestId ← uuid_New; mret (requestId, requestId));
  let '(requestId, spanId) := ids in
  ctx_Set "requestId" (AString requestId);;
  ctx_Set "spanId" (AString spanId);;
  entryAt ← UnixNano;
  ctx_Set "entryAt" (AInt64 entryAt);;
  ctx_Set "logger" (logger_With requestId spanId);;
  al ← Header_Get "accept-language";
  let language : string :=
    if decide (0 < String.length al)%nat then
      let als := Split al "," in
      if decide (0 < length als)%nat then default EmptyString (als !! 0%nat)
      else "en"
    else "en" in
  ctx_Set "language" (AString language);;
  Next.

(** ** What the handler computes *)

(** The request id the client sent: the header [requestId], and when that
    is empty the header [X-Request-Id]. *)
Definition client_id (h : Header) : string :=
  let id := Get h "requestId" in
  if decide (id = EmptyString) then Get h "X-Request-Id" else id.

Definition client_language (h : Header) : string :=
  let al := Get h "accept-language" in
  if decide (al = EmptyString) then "en" else before "," al.

(** The ids the handler settles on when the generator hands out [uuid]. *)
Definition chosen_ids (uuid : string) (w : World) : string * string :=
  let id := client_id (RequestHeader (ctx w)) in
  if decide (id = EmptyString) then (uuid, uuid) else (id, uuid).

(** The world the rest of the chain runs in. *)
Definition entered (uuid : string) (w : World) : World :=
  let '(requestId, spanId) := chosen_ids uuid w in
  mkWorld
    (mkContext (RequestHeader (ctx w))
       (<["language" := AString (client_language (RequestHeader (ctx w)))]>
        (<["logger" := logger_With requestId spanId]>
         (<["entryAt" := AInt64 (unix_nano w)]>
          (<["spanId" := AString spanId]>
           (<["requestId" := AString requestId]> (Keys (ctx w))))))))
    (S (uuids w)) (unix_nano w).

(** The keys the handler sets. *)
Definition entry_keys : list string :=
  ["requestId"; "spanId"; "entryAt"; "logger"; "language"].

(** ** The handler, run *)

(** Reduce the accessors of the world after a step. *)
Ltac state_cbn :=
  cbn [ctx RequestHeader uuids unix_nano Keys eval exec gets modify fst snd].

Section handler.
Context `{!UuidSource}.
Implicit Types (w : World) (h : Header) (Next : Proc World unit).
Implicit Types (uuid : string).

(** The dead branch: [strings.Split] never returns an empty slice, so the
    language is the first piece whenever the header is not empty. *)
Lemma language_first (al : string) :
  (if decide (0 < String.length al)%nat then
     if decide (0 < length (Split al ","))%nat
     then default EmptyString (Split al "," !! 0%nat)
     else "en"
   else "en") = (if decide (al = EmptyString) then "en" else before "," al).
Proof.
  destruct al as [|a al]; [done|]. rewrite decide_True by (cbn; lia).
  rewrite decide_True by apply Split_nonempty. by rewrite Split_head.
Qed.

Lemma bind_uuid_New {B} (k : string → Proc World B) w :
  (uuid_New ≫= k) w =
    match uuid_string (uuids w) with
    | Ok uuid => k uuid (mkWorld (ctx w) (S (uuids w)) (unix_nano w))
    | Panic msg => (Panic msg, w)
    end.
Proof.
  unfold uuid_New. rewrite proc_bind_assoc, bind_call.
  destruct (uuid_string (uuids w)); [by proc_run|done].
Qed.

(** The handler is [entered] followed by the rest of the chain, or the
    panic of the generator. *)
Lemma RequestEntry_run Next w :
  RequestEntry Next w =
    match uuid_string (uuids w) with
    | Ok uuid => Next (entered uuid w)
    | Panic msg => (Panic msg, w)
    end.
Proof.
  destruct w as [[h keys] n t].
  unfold RequestEntry, entered, chosen_ids, client_id, client_language.
  unfold Header_Get, ctx_Set, UnixNano. proc_run. state_cbn.
  destruct (Get h "requestId") as [|a id] eqn:Hid.
  - rewrite decide_True by done. proc_run. state_cbn.
    destruct (Get h "X-Request-Id") as [|a id] eqn:Hx.
    + rewrite decide_False by (cbn; lia).
      proc_run. rewrite bind_uuid_New. state_cbn.
      destruct (uuid_string n); [|done]. proc_run. cbn.
      by rewrite language_first.
    + rewrite decide_True by (cbn; lia).
      proc_run. rewrite bind_uuid_New. state_cbn.
      destruct (uuid_string n); [|done]. proc_run. cbn.
      by rewrite language_first.
  - rewrite decide_False by done. proc_run.
    rewrite decide_True by (cbn; lia).
    proc_run. rewrite bind_uuid_New. state_cbn.
    destruct (uuid_string n); [|done]. proc_run. cbn.
    by rewrite language_first.
Qed.

Lemma RequestEntry_Ok Next w uuid :
  uuid_string (uuids w) = Ok uuid → RequestEntry Next w = Next (entered uuid w).
Proof. intros Hu. by rewrite RequestEntry_run, Hu. Qed.

Lemma RequestEntry_Panic Next w msg :
  uuid_string (uuids w) = Panic msg → RequestEntry Next w = (Panic msg, w).
Proof. intros Hu. by rewrite RequestEntry_run, Hu. Qed.
End handler.

(** ** What the rest of the chain sees *)

Section entered.
Implicit Types (w : World) (h : Header) (uuid : string).

Lemma entered_eq uuid w :
  entered uuid w =
    mkWorld
      (mkContext (RequestHeader (ctx w))
         (<["language" := AString (client_language (RequestHeader (ctx w)))]>
          (<["logger" := logger_With (chosen_ids uuid w).1 (chosen_ids uuid w).2]>
           (<["entryAt" := AInt64 (unix_nano w)]>
            (<["spanId" := AString (chosen_ids uuid w).2]>
             (<["requestId" := AString (chosen_ids uuid w).1]>
                (Keys (ctx w))))))))
      (S (uuids w)) (unix_nano w).
Proof. unfold entered. by destruct (chosen_ids uuid w). Qed.

(** The five keys, and the others. *)
Lemma entered_lookup uuid w :
  let ks := Keys (ctx (entered uuid w)) in
  ks !! "requestId" = Some (AString (chosen_ids uuid w).1) ∧
  ks !! "spanId" = Some (AString (chosen_ids uuid w).2) ∧
  ks !! "entryAt" = Some (AInt64 (unix_nano w)) ∧
  ks !! "logger"
    = Some (logger_With (chosen_ids uuid w).1 (chosen_ids uuid w).2) ∧
  ks !! "language" = Some (AString (client_language (RequestHeader (ctx w)))).
Proof.
  rewrite entered_eq. cbn [ctx Keys].
  split_and!; by repeat (rewrite lookup_insert_ne by done); rewrite lookup_insert_eq.
Qed.

Lemma entered_lookup_other uuid w k :
  k ∉ entry_keys → Keys (ctx (entered uuid w)) !! k = Keys (ctx w) !! k.
Proof.
  unfold entry_keys. rewrite !not_elem_of_cons. intros (? & ? & ? & ? & ? & _).
  rewrite entered_eq. cbn [ctx Keys]. by rewrite !lookup_insert_ne.
Qed.

Lemma chosen_ids_span uuid w : (chosen_ids uuid w).2 = uuid.
Proof. unfold chosen_ids. by case_goal_decide. Qed.

Lemma chosen_ids_request uuid w :
  (chosen_ids uuid w).1 =
    if decide (client_id (RequestHeader (ctx w)) = EmptyString)
    then uuid else client_id (RequestHeader (ctx w)).
Proof. unfold chosen_ids. by case_goal_decide. Qed.

Lemma uuid_nonempty `{!UuidSource} n uuid :
  uuid_string n = Ok uuid → uuid ≠ EmptyString.
Proof. by intros Hlen%uuid_length ->. Qed.

Lemma chosen_ids_nonempty uuid w :
  uuid ≠ EmptyString → (chosen_ids uuid w).1 ≠ EmptyString.
Proof. intros Hu. rewrite chosen_ids_request. by case_goal_decide. Qed.

(** What the handler reads of the language. *)
Lemma client_language_spec h :
  let al := Get h "accept-language" in
  let language := client_language h in
  (al = EmptyString → language = "en") ∧
  (al ≠ EmptyString →
   language = before "," al ∧
   (∀ i a, String.get i language = Some a → a ≠ ","%char) ∧
   (al = language ∨ ∃ rest, al = language +:+ String "," rest)) ∧
  (∀ rest, al = String "," rest → language = EmptyString).
Proof.
  cbn zeta. unfold client_language. split_and!.
  - intros Hal. by rewrite decide_True.
  - intros Hal. rewrite decide_False by done.
    split_and!; [done|apply before_no_sep|apply before_prefix].
  - by intros rest ->.
Qed.
End entered.

(** ** Properties of the handler *)

Section properties.
Context `{!UuidSource}.
Implicit Types (w : World) (h : Header) (Next : Proc World unit).
Implicit Types (uuid : string).

(** C10. The ids of a request.  The handler draws one UUID.  When the
    generator hands one out, the request id stored in the context is the
    header [requestId] when it is not empty, else the header
    [X-Request-Id] when that is not empty, else the new UUID; it is never
    empty.  The span id is the new UUID, the same as the request id
    exactly when the client sent none, and the logger stored in the
    context carries the two ids of the context.  When the generator
    panics the handler panics with it and has stored nothing. *)
Theorem RequestEntry_ids w :
  let id := client_id (RequestHeader (ctx w)) in
  match uuid_string (uuids w) with
  | Ok uuid =>
    ∃ w' requestId spanId,
      RequestEntry (mret ()) w = (Ok (), w') ∧
      Keys (ctx w') !! "requestId" = Some (AString requestId) ∧
      Keys (ctx w') !! "spanId" = Some (AString spanId) ∧
      Keys (ctx w') !! "logger" = Some (logger_With requestId spanId) ∧
      spanId = uuid ∧ uuids w' = S (uuids w) ∧
      requestId = (if decide (id = EmptyString) then spanId else id) ∧
      requestId ≠ EmptyString
  | Panic msg => RequestEntry (mret ()) w = (Panic msg, w)
  end.
Proof.
  cbn zeta. destruct (uuid_string (uuids w)) as [uuid|msg] eqn:Hu;
    [|by apply RequestEntry_Panic].
  destruct (entered_lookup uuid w) as (Hr & Hs & _ & Hl & _).
  exists (entered uuid w), (chosen_ids uuid w).1, (chosen_ids uuid w).2.
  split_and!; try done.
  - by apply RequestEntry_Ok.
  - apply chosen_ids_span.
  - by rewrite entered_eq.
  - by rewrite chosen_ids_request, chosen_ids_span.
  - by eapply chosen_ids_nonempty, uuid_nonempty.
Qed.

(** C31. The language of a request is [en] when the header
    [Accept-Language] is absent or empty, and otherwise the text of the
    header before its first comma: it holds no comma and the header starts
    with it.  It can be empty: when the header starts with a comma the
    handler stores the empty string, not the default. *)
Theorem RequestEntry_language w uuid :
  uuid_string (uuids w) = Ok uuid →
  let al := Get (RequestHeader (ctx w)) "accept-language" in
  ∃ w' language,
    RequestEntry (mret ()) w = (Ok (), w') ∧
    Keys (ctx w') !! "language" = Some (AString language) ∧
    (al = EmptyString → language = "en") ∧
    (al ≠ EmptyString →
     language = before "," al ∧
     (∀ i a, String.get i language = Some a → a ≠ ","%char) ∧
     (al = language ∨ ∃ rest, al = language +:+ String "," rest)) ∧
    (∀ rest, al = String "," rest → language = EmptyString).
Proof.
  intros Hu. cbn zeta.
  destruct (entered_lookup uuid w) as (_ & _ & _ & _ & Hl).
  exists (entered uuid w), (client_language (RequestHeader (ctx w))).
  split_and!; [by apply RequestEntry_Ok|done|apply client_language_spec..].
Qed.

(** C33. The handler runs the rest of the chain once, last, in the
    context it has prepared: running it with a continuation is running it
    alone and then the continuation, so a panic of the chain is a panic
    of the handler.  Of the world it changes the five keys and the UUID
    counter and nothing else: the header, the clock and every other key
    are as before, and the entry time is the clock reading.  When the
    generator panics the chain does not run and the world is as it
    was. *)
Theorem RequestEntry_then_Next Next w :
  match uuid_string (uuids w) with
  | Ok uuid =>
    ∃ w',
      RequestEntry (mret ()) w = (Ok (), w') ∧
      RequestEntry Next w = Next w' ∧
      RequestHeader (ctx w') = RequestHeader (ctx w) ∧
      unix_nano w' = unix_nano w ∧
      Keys (ctx w') !! "entryAt" = Some (AInt64 (unix_nano w)) ∧
      ∀ k, k ∉ entry_keys → Keys (ctx w') !! k = Keys (ctx w) !! k
  | Panic msg => RequestEntry Next w = (Panic msg, w)
  end.
Proof.
  destruct (uuid_string (uuids w)) as [uuid|msg] eqn:Hu;
    [|by apply RequestEntry_Panic].
  exists (entered uuid w). split_and!.
  - by apply RequestEntry_Ok.
  - by apply RequestEntry_Ok.
  - by rewrite entered_eq.
  - by rewrite entered_eq.
  - apply entered_lookup.
  - apply entered_lookup_other.
Qed.

(** What the server stored is what the handler finds:
    [c.Request.Header.Get(key)] on a request gives the value of the first
    field the client sent whose name is [key] up to the case of its
    letters, and the empty string when there is none; it leaves the
    context as it is. *)
Theorem Header_Get_round_trip fields keys n t key :
  valid_name key = true →
  let w := mkWorld (mkContext (request_header fields) keys) n t in
  Header_Get key w = (Ok (first_field key fields), w) ∧
  ∀ k v, valid_name k = true → same_name k key →
         first_field key ((k, v) :: fields) = v.
Proof.
  intros Hkey. cbn zeta. split.
  - unfold Header_Get, lift, gets. cbn. by rewrite Get_request_header.
  - intros k v Hk Hsame. unfold first_field. rewrite filter_cons.
    by rewrite decide_True.
Qed.

(** C32. The handler on the fields a client sent.  The server stores each
    field under the canonical form of its name, so the handler finds the
    request id and the language under any capitalisation of [requestId],
    [X-Request-Id] and [Accept-Language], and of several fields of one
    name it reads the first: the request id is the first [requestId]
    field, else the first [X-Request-Id] field, else a new UUID; the
    language is the first [Accept-Language] field up to its first comma,
    or [en]. *)
Theorem RequestEntry_on_wire fields keys n t uuid :
  uuid_string n = Ok uuid →
  let id := if decide (first_field "requestId" fields = EmptyString)
            then first_field "X-Request-Id" fields
            else first_field "requestId" fields in
  let al := first_field "accept-language" fields in
  ∃ w',
    RequestEntry (mret ())
      (mkWorld (mkContext (request_header fields) keys) n t) = (Ok (), w') ∧
    Keys (ctx w') !! "requestId"
      = Some (AString (if decide (id = EmptyString) then uuid else id)) ∧
    Keys (ctx w') !! "language"
      = Some (AString (if decide (al = EmptyString) then "en" else before "," al)).
Proof.
  intros Hu. cbn zeta.
  set (w := mkWorld (mkContext (request_header fields) keys) n t).
  exists (entered uuid w). split; [by apply RequestEntry_Ok|].
  destruct (entered_lookup uuid w) as (-> & _ & _ & _ & ->).
  rewrite chosen_ids_request. unfold client_id, client_language.
  cbn [ctx RequestHeader w]. by rewrite !Get_request_header.
Qed.
End properties.

(** ** Evaluation *)

(** The keys of the context after the handler, when it returns. *)
Definition keys_after `{!UuidSource} (w : World) : option (gmap string Any) :=
  match RequestEntry (mret ()) w with
  | (Ok _, w') => Some (Keys (ctx w'))
  | (Panic _, _) => None
  end.

Definition request : World :=
  mkWorld
    (mkContext
       {[ "X-Request-Id" := ["abc"];
          "Accept-Language" := ["zh-CN,zh;q=0.9,en;q=0.8"] ]}
       {[ "user" := AString "u1" ]})
    7 1700000000000000000.

Definition request_comma : World :=
  mkWorld (mkContext {[ "Accept-Language" := [",en"] ]} ∅) 0 0.

Definition request_quality : World :=
  mkWorld (mkContext {[ "Accept-Language" := ["en;q=0.8 ,zh"] ]} ∅) 0 0.

Example RequestEntry_request :
  (λ ks, (λ k, ks !! k) <$>
    ["user"; "requestId"; "spanId"; "entryAt"; "logger"; "language"])
    <$> keys_after request =
  Some [ Some (AString "u1"); Some (AString "abc");
         Some (AString "00000000-0000-4000-8000-000000000007");
         Some (AInt64 1700000000000000000);
         Some (logger_With "abc" "00000000-0000-4000-8000-000000000007");
         Some (AString "zh-CN") ].
Proof. by vm_compute. Qed.

Example Split_accept_language :
  Split "zh-CN,zh;q=0.9,en;q=0.8" "," = ["zh-CN"; "zh;q=0.9"; "en;q=0.8"] ∧
  Split "" "," = [""] ∧ Split ",en" "," = [""; "en"].
Proof. by vm_compute. Qed.

(** A client that writes its header names in capitals. *)
Example RequestEntry_capitals :
  let w := mkWorld (mkContext
             (request_header [("REQUESTID", ""); ("X-REQUEST-ID", "abc");
                              ("X-Request-Id", "def"); ("ACCEPT-LANGUAGE", "ja,en")])
             ∅) 7 0 in
  (λ ks, (ks !! "requestId", ks !! "language")) <$> keys_after w
    = Some (Some (AString "abc"), Some (AString "ja")).
Proof. by vm_compute. Qed.

(** [Accept-Language: ,en] gives the empty language. *)
Example language_comma :
  (λ ks, ks !! "language") <$> keys_after request_comma
    = Some (Some (AString EmptyString)).
Proof. by vm_compute. Qed.

(** The first entry is taken as it is, with its weight and the space
    before the comma. *)
Example language_quality :
  (λ ks, ks !! "language") <$> keys_after request_quality
    = Some (Some (AString "en;q=0.8 ")).
Proof. by vm_compute. Qed.

(** A generator that fails: the handler panics before it stores a key,
    and the rest of the chain does not run. *)
Example RequestEntry_generator_fails :
  RequestEntry (H := FailingUuid 7) (λ w, (Panic "next ran", w)) request
    = (Panic "unexpected EOF", request).
Proof. by vm_compute. Qed.

Lemma RequestEntry_language_witness :
  ∃ w', RequestEntry (mret ()) request = (Ok (), w') ∧
        Keys (ctx w') !! "language" = Some (AString "zh-CN").
Proof.
  destruct (RequestEntry_language (H := CounterUuid) request (counter_uuid 7)
              eq_refl)
    as (w' & language & Hrun & Hl & _ & Hal & _).
  exists w'. split; [exact Hrun|]. rewrite Hl.
  by destruct Hal as [-> _]; [|vm_compute].
Defined.

Lemma RequestEntry_on_wire_witness :
  ∃ w', RequestEntry (mret ())
          (mkWorld (mkContext (request_header demo_fields) ∅) 7 0) = (Ok (), w') ∧
        is_Some (Keys (ctx w') !! "requestId").
Proof.
  destruct (RequestEntry_on_wire (H := CounterUuid) demo_fields ∅ 7 0
              (counter_uuid 7) eq_refl)
    as (w' & Hrun & Hid & _).
  exists w'. split; [exact Hrun|]. by rewrite Hid.
Defined.

Lemma Header_Get_round_trip_witness :
  let w := mkWorld (mkContext (request_header demo_fields) ∅) 0 0 in
  Header_Get "accept-language" w
    = (Ok (first_field "accept-language" demo_fields), w) ∧
  ∀ k v, valid_name k = true → same_name k "accept-language" →
         first_field "accept-language" ((k, v) :: demo_fields) = v.
Proof.
  assert (valid_name "accept-language" = true) as Hkey by (by vm_compute).
  exact (Header_Get_round_trip demo_fields ∅ 0 0 "accept-language" Hkey).
Defined.
