(* ===== verification/Version.v ===== *)
(** * Version: [src/utils/version.go]

    [PrintVersion] fills a text template with the six fields of the build
    and prints the result, trimmed.  The template is the constant of the
    source, byte for byte.  [text/template] is a library: [Parse] and
    [Execute] are written out for the templates the source uses, literal
    text and actions of the form [{{.name}}] on a map of strings.  The
    function prints to the standard output; here it returns the line it
    prints, or the panic.  Trimming is the one of [GoStrings]: the white
    space of Unicode, so a field that starts or ends with a no-break space
    loses it when it is first or last in the banner. *)

From Stdlib Require Import Ascii.
From stdpp Require Import prelude strings gmap.
From S2P Require Import Prelude.
From S2P Require Import GoStrings.

(** ** [text/template], for literal text and field actions *)

Inductive Node : Type :=
  | Text (s : string)
  | Action (field : string).

Inductive Mode : Type :=
  | InText (text : string)
  | InAction (field : string).

Definition snoc_char (s : string) (a : ascii) : string :=
  s +:+ String a EmptyString.

(** The scanner: text up to an opening [{{.], a field name up to the
    closing [}}].  An action left open is an error. *)
Fixpoint scan (m : Mode) (s : string) : option (list Node) :=
  match s with
  | EmptyString =>
    match m with
    | InText text => Some [Text text]
    | InAction _ => None
    end
  | String a s' =>
    match m with
    | InText text =>
      match a, s' with
      | "{"%char, String "{"%char (String "."%char s'') =>
        cons (Text text) <$> scan (InAction EmptyString) s''
      | _, _ => scan (InText (snoc_char text a)) s'
      end
    | InAction field =>
      match a, s' with
      | "}"%char, String "}"%char s'' =>
        cons (Action field) <$> scan (InText EmptyString) s''
      | _, _ => scan (InAction (snoc_char field a)) s'
      end
    end
  end.

(** [template.New(name).Parse(text)] *)
Definition Parse (text : string) : option (list Node) :=
  scan (InText EmptyString) text.

(** [tmpl.Execute(&buf, m)] on a map of strings: the text written to the
    buffer.  A field the map lacks prints as [<no value>]. *)
Fixpoint Execute (tmpl : list Node) (m : gmap string string) : string :=
  match tmpl with
  | [] => EmptyString
  | Text s :: tmpl' => s +:+ Execute tmpl' m
  | Action field :: tmpl' =>
    default "<no value>" (m !! field) +:+ Execute tmpl' m
  end.

(** ** The source *)

(** [type VersionInfoFields struct] *)
Record VersionInfoFields : Type := mkVersionInfoFields {
  AppName : string;
  Branch : string;
  Version : string;
  Revision : string;
  BuildDate : string;
  GoVersion : string;
}.

Definition nl : string := String (ascii_of_nat 10) EmptyString.

(** [const versionInfoTmpl]: a raw string that starts and ends with a line
    feed; its first line ends with a space. *)
Definition versionInfoTmpl : string :=
  nl +:+ "{{.program}}, version: {{.version}} " +:+ nl
     +:+ "(branch: {{.branch}}; revision: {{.revision}})" +:+ nl
     +:+ "  build date:   {{.buildDate}}" +:+ nl
     +:+ "  go version:   {{.goVersion}}" +:+ nl.

(** [fmt.Println(s)] writes [s] and a line feed. *)
Definition Println (s : string) : string := s +:+ nl.

Definition PrintVersion (fields : VersionInfoFields) : result string :=
  let m : gmap string string :=
    {[ "program" := AppName fields;
       "version" := Version fields;
       "branch" := Branch fields;
       "revision" := Revision fields;
       "buildDate" := BuildDate fields;
       "goVersion" := GoVersion fields ]} in
  match Parse versionInfoTmpl with
  | None => Panic "template: version: unclosed action"
  | Some tmpl =>
    let buf := Execute tmpl m in
    Ok (Println (TrimSpace buf))
  end.

(** ** What is printed *)

(** The banner before trimming and the line feed of [Println]. *)
Definition banner (fields : VersionInfoFields) : string :=
  AppName fields +:+ ", version: " +:+ Version fields +:+ " " +:+ nl
    +:+ "(branch: " +:+ Branch fields +:+ "; revision: " +:+ Revision fields
    +:+ ")" +:+ nl
    +:+ "  build date:   " +:+ BuildDate fields +:+ nl
    +:+ "  go version:   " +:+ GoVersion fields.

(** ** The template *)

Lemma Parse_versionInfoTmpl :
  Parse versionInfoTmpl =
    Some [ Text nl; Action "program"; Text ", version: "; Action "version";
           Text (" " +:+ nl +:+ "(branch: "); Action "branch";
           Text "; revision: "; Action "revision";
           Text (")" +:+ nl +:+ "  build date:   "); Action "buildDate";
           Text (nl +:+ "  go version:   "); Action "goVersion"; Text nl ].
Proof. by vm_compute. Qed.

Lemma PrintVersion_eq fields :
  PrintVersion fields =
    Ok (Println (TrimSpace (nl +:+ banner fields +:+ nl))).
Proof.
  unfold PrintVersion. rewrite Parse_versionInfoTmpl. cbn [Execute].
  repeat (rewrite lookup_insert_ne by done || rewrite lookup_insert_eq).
  cbn [default]. unfold banner. by autorewrite with go.
Qed.

Lemma banner_starts_solid fields :
  starts_solid (AppName fields) → starts_solid (banner fields).
Proof. intros Ha. by apply (starts_solid_app _ ","%char). Qed.

(** The banner ends with the last label, its last space and the Go
    version. *)
Lemma banner_last fields :
  banner fields =
    (AppName fields +:+ ", version: " +:+ Version fields +:+ " " +:+ nl
       +:+ "(branch: " +:+ Branch fields +:+ "; revision: " +:+ Revision fields
       +:+ ")" +:+ nl
       +:+ "  build date:   " +:+ BuildDate fields +:+ nl
       +:+ "  go version:  ") +:+ String " "%char (GoVersion fields).
Proof. unfold banner. by autorewrite with go. Qed.

Lemma banner_ends_solid fields :
  GoVersion fields ≠ EmptyString → ends_solid (GoVersion fields) →
  ends_solid (banner fields).
Proof. intros Hne Hg. rewrite banner_last. by apply ends_solid_app. Qed.

(** ** Properties *)

(** C37. [PrintVersion] never panics: the template of the source parses
    and every field it names is in the map.  It prints one line and a
    line feed, and the line is the banner between two line feeds,
    trimmed: the banner is the line between white characters (of
    Unicode, in UTF-8), and the line starts and ends with none.  When the
    application name does not start with a white character and the Go
    version is not empty and does not end with one, the line printed is
    the banner itself: the name first, the Go version last, the first
    line with a space at its end. *)
Theorem PrintVersion_output fields :
  ∃ line,
    PrintVersion fields = Ok (Println line) ∧
    trims (nl +:+ banner fields +:+ nl) line ∧
    (starts_solid (AppName fields) → GoVersion fields ≠ EmptyString →
     ends_solid (GoVersion fields) → line = banner fields).
Proof.
  exists (TrimSpace (nl +:+ banner fields +:+ nl)).
  split_and!; [apply PrintVersion_eq|by apply TrimSpace_spec|].
  intros Ha Hne Hg. apply (TrimSpace_wrapped (ascii_of_nat 10)); [done..| |].
  - by apply banner_starts_solid.
  - by apply banner_ends_solid.
Qed.

(** Without a Go version the last label loses its trailing spaces. *)
Example PrintVersion_no_go_version :
  PrintVersion (mkVersionInfoFields "sail" "main" "v3" "abc" "today" "") =
    Ok ("sail, version: v3 " +:+ nl +:+ "(branch: main; revision: abc)" +:+ nl
        +:+ "  build date:   today" +:+ nl +:+ "  go version:" +:+ nl).
Proof. by vm_compute. Qed.

Example PrintVersion_sail :
  PrintVersion (mkVersionInfoFields "sail" "main" "v3" "abc" "today" "go1.19") =
    Ok ("sail, version: v3 " +:+ nl +:+ "(branch: main; revision: abc)" +:+ nl
        +:+ "  build date:   today" +:+ nl +:+ "  go version:   go1.19" +:+ nl).
Proof. by vm_compute. Qed.

(** A no-break space (U+00A0, two bytes) before the name and a line
    separator (U+2028, three bytes) after the Go version are trimmed
    too; the byte C2 alone is no character and stays. *)
Definition nbsp : string :=
  String (ascii_of_N 194) (String (ascii_of_N 160) EmptyString).

Definition line_separator : string :=
  String (ascii_of_N 226) (String (ascii_of_N 128)
    (String (ascii_of_N 168) EmptyString)).

Example PrintVersion_unicode_space :
  PrintVersion (mkVersionInfoFields (nbsp +:+ "sail") "main" "v3" "abc" "today"
                  ("go1.19" +:+ line_separator)) =
  PrintVersion (mkVersionInfoFields "sail" "main" "v3" "abc" "today" "go1.19").
Proof. by vm_compute. Qed.

Example PrintVersion_invalid_byte :
  PrintVersion (mkVersionInfoFields (String (ascii_of_N 194) "sail") "main" "v3"
                  "abc" "today" "go1.19") =
    Ok (String (ascii_of_N 194) "sail, version: v3 " +:+ nl
        +:+ "(branch: main; revision: abc)" +:+ nl
        +:+ "  build date:   today" +:+ nl +:+ "  go version:   go1.19" +:+ nl).
Proof. by vm_compute. Qed.
