(* ===== verification/StrBytes.v ===== *)
(** * StrBytes: [src/utils/string_go1.19.go]

    [StrToBytes] and [BytesToStr] convert between a string and a byte
    slice without copying: they build the header of the one from the
    header of the other, through [unsafe.Pointer].  A Go string is a header
    (address, length) and a slice a header (address, length, capacity)
    over the same memory; the model keeps the headers and the memory
    apart, so that sharing is visible: the memory maps addresses to bytes,
    [string_bytes] and [slice_bytes] read what a header denotes, and
    [slice_store] is the assignment [b[i] = x], which panics out of range
    and is a fatal fault on read-only memory, where the bytes of string
    literals are.

    Both functions build the new header as a plain struct whose [Data]
    field is a [uintptr] and convert it afterwards.  Package [unsafe]
    documents that such a field keeps nothing alive.  [StrToBytes_run] and
    [BytesToStr_run] are the functions statement by statement, with a
    collection that may run between the two statements; [collect] frees
    what the roots given to it do not reach. *)

From Stdlib Require Import NArith Lia.
From stdpp Require Import prelude gmap.
From S2P Require Import Prelude.

(** ** Headers and memory *)

(** [reflect.StringHeader] *)
Record StringHeader : Type := mkStringHeader {
  str_Data : N;
  str_Len : nat;
}.

(** [reflect.SliceHeader] *)
Record SliceHeader : Type := mkSliceHeader {
  Data : N;
  Len : nat;
  Cap : nat;
}.

#[export] Instance StringHeader_eq_dec : EqDecision StringHeader.
Proof. solve_decision. Defined.

#[export] Instance SliceHeader_eq_dec : EqDecision SliceHeader.
Proof. solve_decision. Defined.

(** The [n] bytes at address [p], when all of them are allocated. *)
Fixpoint load (m : gmap N Byte.byte) (p : N) (n : nat) : option (list Byte.byte) :=
  match n with
  | O => Some []
  | S n' => b ← m !! p; bs ← load m (N.succ p) n'; Some (b :: bs)
  end.

Definition string_bytes (m : gmap N Byte.byte) (s : StringHeader)
    : option (list Byte.byte) :=
  load m (str_Data s) (str_Len s).

Definition slice_bytes (m : gmap N Byte.byte) (b : SliceHeader)
    : option (list Byte.byte) :=
  load m (Data b) (Len b).

(** What an assignment to an element does: it writes, or it panics with
    an index out of range, or it faults. *)
Inductive Stored : Type :=
  | Written (m : gmap N Byte.byte)
  | OutOfRange
  | Fault.

(** [b[i] = x] in a memory whose addresses [ro] are read-only. *)
Definition slice_store (ro : gset N) (m : gmap N Byte.byte) (b : SliceHeader)
    (i : nat) (x : Byte.byte) : Stored :=
  if decide (i < Len b)%nat then
    if decide ((Data b + N.of_nat i)%N ∈ ro) then Fault
    else Written (<[(Data b + N.of_nat i)%N := x]> m)
  else OutOfRange.

(** ** The conversions *)

Definition StrToBytes (s : StringHeader) : SliceHeader :=
  let sh := s in
  let bh := mkSliceHeader (str_Data sh) (str_Len sh) (str_Len sh) in
  bh.

Definition BytesToStr (b : SliceHeader) : StringHeader :=
  let bh := b in
  let sh := mkStringHeader (Data bh) (Len bh) in
  sh.

(** Two headers overlap when a byte belongs to both. *)
Definition overlap (p : N) (n : nat) (q : N) (k : nat) : Prop :=
  (p < q + N.of_nat k ∧ q < p + N.of_nat n)%N.

(** ** The collector *)

(** What keeps memory alive: a string or a slice the program can still
    use.  A number that happens to be an address keeps nothing alive. *)
Inductive Root : Type :=
  | RootString (s : StringHeader)
  | RootSlice (b : SliceHeader).

Definition covers (r : Root) (a : N) : Prop :=
  match r with
  | RootString s => (str_Data s ≤ a < str_Data s + N.of_nat (str_Len s))%N
  | RootSlice b => (Data b ≤ a < Data b + N.of_nat (Cap b))%N
  end.

#[export] Instance covers_dec r a : Decision (covers r a).
Proof. destruct r; apply _. Defined.

Definition reachable (live : list Root) (a : N) : Prop :=
  Exists (λ r, covers r a) live.

(** A collection: the bytes no root reaches are freed. *)
Definition collect (live : list Root) (m : gmap N Byte.byte)
    : gmap N Byte.byte :=
  filter (λ kv, reachable live kv.1) m.

(** ** The conversions, statement by statement *)

(** [live] is what the caller can still use when the function runs;
    [collection] says whether a collection runs between the statement that
    builds the header and the statement that converts it.  At that point
    the parameter is not used any more and the header is a struct of
    numbers: only [live] is reachable. *)
Definition StrToBytes_run (collection : bool) (live : list Root)
    (s : StringHeader) (m : gmap N Byte.byte)
    : SliceHeader * gmap N Byte.byte :=
  let sh := s in
  let bh := mkSliceHeader (str_Data sh) (str_Len sh) (str_Len sh) in
  let m := if collection then collect live m else m in
  (bh, m).


(** ** Memory *)

Section memory.
Implicit Types (m : gmap N Byte.byte) (p q : N) (n i : nat) (x : Byte.byte).
Implicit Types (bs : list Byte.byte).

Lemma load_length m p n bs : load m p n = Some bs → length bs = n.
Proof.
  revert p bs. induction n as [|n IH]; intros p bs; cbn.
  - by intros [= <-].
  - intros (b & _ & (bs' & Hbs & [= <-])%bind_Some)%bind_Some.
    cbn. f_equal. by eapply IH.
Qed.

(** A store outside a region does not change what the region holds. *)
Lemma load_insert_outside m p n q x :
  (q < p ∨ p + N.of_nat n ≤ q)%N → load (<[q := x]> m) p n = load m p n.
Proof.
  revert p. induction n as [|n IH]; intros p Hq; [done|]. cbn.
  rewrite lookup_insert_ne by lia. by rewrite IH by lia.
Qed.

(** A store inside a region updates the byte at its offset. *)
Lemma load_insert_inside m p n i x bs :
  load m p n = Some bs → (i < n)%nat →
  load (<[(p + N.of_nat i)%N := x]> m) p n = Some (<[i := x]> bs).
Proof.
  revert p i bs. induction n as [|n IH]; intros p i bs Hbs Hi; [lia|].
  cbn in Hbs. apply bind_Some in Hbs as (b & Hb & Hbs).
  apply bind_Some in Hbs as (bs' & Hbs & [= <-]). cbn.
  destruct i as [|i].
  - rewrite N.add_0_r, lookup_insert_eq. cbn.
    by rewrite load_insert_outside, Hbs by lia.
  - rewrite lookup_insert_ne, Hb by lia. cbn.
    replace (p + N.of_nat (S i))%N with (N.succ p + N.of_nat i)%N by lia.
    by rewrite (IH _ _ bs') by (done || lia).
Qed.

End memory.

#[export] Hint Rewrite load_insert_outside using lia : go.

(** ** Properties of the conversions *)

Section properties.
Implicit Types (m : gmap N Byte.byte) (s : StringHeader) (b : SliceHeader).
Implicit Types (x : Byte.byte) (bs : list Byte.byte).

(** The conversions are views: same address, same length, same bytes. *)
Lemma StrToBytes_view m s :
  Data (StrToBytes s) = str_Data s ∧ Len (StrToBytes s) = str_Len s ∧
  slice_bytes m (StrToBytes s) = string_bytes m s.
Proof. done. Qed.

Lemma BytesToStr_view m b :
  str_Data (BytesToStr b) = Data b ∧ str_Len (BytesToStr b) = Len b ∧
  string_bytes m (BytesToStr b) = slice_bytes m b.
Proof. done. Qed.

(** The conversions are inverse to each other up to the capacity.
    From a string and back gives the string; from a slice and back gives
    the slice with its capacity cut to its length; the result of
    [StrToBytes] has no spare capacity, so appending to it never writes
    behind the string; and in every memory the two values denote the same
    bytes. *)
Theorem conversions_round_trip m s b :
  BytesToStr (StrToBytes s) = s ∧
  StrToBytes (BytesToStr b) = mkSliceHeader (Data b) (Len b) (Len b) ∧
  Cap (StrToBytes s) = Len (StrToBytes s) ∧
  slice_bytes m (StrToBytes s) = string_bytes m s ∧
  string_bytes m (BytesToStr b) = slice_bytes m b.
Proof. by destruct s. Qed.

(** C34. The conversions share memory.  An assignment to an element of the
    slice [StrToBytes s] changes the string [s], which Go takes to be
    immutable, when its bytes are writable, and is a fatal fault when
    they are read-only, as the bytes of a string literal are; an
    assignment to an element of [b] changes the string [BytesToStr b] at
    the same index; an assignment through a slice that does not overlap
    the string leaves it as it was. *)
Theorem conversions_alias ro m s b (i : nat) x bs :
  (string_bytes m s = Some bs → (i < str_Len s)%nat →
   ((str_Data s + N.of_nat i)%N ∈ ro →
    slice_store ro m (StrToBytes s) i x = Fault) ∧
   ((str_Data s + N.of_nat i)%N ∉ ro →
    ∃ m', slice_store ro m (StrToBytes s) i x = Written m' ∧
          string_bytes m' s = Some (<[i := x]> bs))) ∧
  (slice_bytes m b = Some bs → (i < Len b)%nat →
   (Data b + N.of_nat i)%N ∉ ro →
   ∃ m', slice_store ro m b i x = Written m' ∧
         string_bytes m' (BytesToStr b) = Some (<[i := x]> bs)) ∧
  (¬ overlap (str_Data s) (str_Len s) (Data b) (Len b) →
   ∀ m', slice_store ro m b i x = Written m' →
         string_bytes m' s = string_bytes m s).
Proof.
  unfold slice_store, string_bytes, slice_bytes, overlap. cbn. split_and!.
  - intros Hbs Hi. rewrite decide_True by done.
    split; intros Hro; [by rewrite decide_True|rewrite decide_False by done].
    eexists. split; [done|]. by apply load_insert_inside.
  - intros Hbs Hi Hro. rewrite decide_True, decide_False by done.
    eexists. split; [done|]. by apply load_insert_inside.
  - intros Hno m'. repeat case_goal_decide; try done. intros [= <-].
    apply load_insert_outside. lia.
Qed.

End properties.

(** ** Evaluation *)

(** The bytes of ["sail"] at address 16. *)
Definition sail_mem : gmap N Byte.byte :=
  {[ 16%N := Byte.x73; 17%N := Byte.x61; 18%N := Byte.x69; 19%N := Byte.x6c ]}.

Definition sail : StringHeader := mkStringHeader 16 4.

Example StrToBytes_sail :
  StrToBytes sail = mkSliceHeader 16 4 4 ∧
  slice_bytes sail_mem (StrToBytes sail)
    = Some [Byte.x73; Byte.x61; Byte.x69; Byte.x6c].
Proof. by vm_compute. Qed.

(** Writing [S] at index 0 of the slice makes the string ["Sail"]; when
    the string is a literal the write is a fault. *)
Example string_changed_through_slice :
  (∃ m', slice_store ∅ sail_mem (StrToBytes sail) 0 Byte.x53 = Written m' ∧
         string_bytes m' sail = Some [Byte.x53; Byte.x61; Byte.x69; Byte.x6c]) ∧
  slice_store {[16%N; 17%N; 18%N; 19%N]} sail_mem (StrToBytes sail) 0 Byte.x53
    = Fault.
Proof. split; [eexists; split|]; by vm_compute. Qed.

(** [StrToBytes] of a string its caller drops: after a collection the
    slice denotes nothing; of a string its caller keeps, the bytes. *)
Example StrToBytes_dangles :
  (let '(b, m) := StrToBytes_run true [] sail sail_mem in slice_bytes m b)
    = None ∧
  (let '(b, m) := StrToBytes_run true [RootString sail] sail sail_mem in
   slice_bytes m b) = Some [Byte.x73; Byte.x61; Byte.x69; Byte.x6c].
Proof. by vm_compute. Qed.
