(* ===== verification/Nats.v ===== *)
(** * Nats: [src/lib/nats/nats.go]

    The package keeps one connection in a package-level variable.  [Init]
    connects and stores the connection, [GetInstance] returns what is
    stored, [New] connects without storing.  [initNats] passes the user
    name and the password to the client library only when both are given,
    joins the endpoints with commas and panics when the library returns an
    error.

    The client library is the class [NatsLib]; the package-level variable
    is the state of the procedures [Init] and [GetInstance].  A panic of
    [Init] comes before the assignment: the variable keeps the connection
    it held. *)

From Stdlib Require Import Ascii.
From stdpp Require Import prelude strings.
From S2P Require Import Prelude.
From S2P Require Import GoStrings.

(** ** The library and the configuration *)

(** [natsLib.Conn], [natsLib.Option], [natsLib.UserInfo] and
    [natsLib.Connect], which returns a connection or an error. *)
Class NatsLib : Type := {
  Conn : Type;
  ConnectOption : Type;
  UserInfo : string → string → ConnectOption;
  Connect : string → option ConnectOption → Conn + string;
}.

(** The fields of [Conf] the file reads. *)
Record Conf : Type := mkConf {
  Endpoints : list string;
  Username : string;
  Password : string;
}.

(** ** The operations *)

Section nats.
Context `{NatsLib}.
Implicit Types (conf : Conf) (natsInstance : option Conn).

Definition initNats conf : result Conn :=
  let opts :=
    if decide (String.length (Username conf) ≠ 0 ∧
               String.length (Password conf) ≠ 0)%nat
    then Some (UserInfo (Username conf) (Password conf))
    else None in
  match Connect (Join (Endpoints conf) ","%char) opts with
  | inl conn => Ok conn
  | inr err => Panic err
  end.

(** [Init]: the connection is stored when [initNats] has returned. *)
Definition Init conf : Proc (option Conn) unit :=
  conn ← call (λ _, initNats conf);
  lift (modify (λ _, Some conn)).

Definition GetInstance : Proc (option Conn) (option Conn) := lift (gets id).

Definition New conf : Proc (option Conn) Conn := call (λ _, initNats conf).

(** What [initNats] hands to the library: the credentials when both are
    given. *)
Definition credentials conf : option ConnectOption :=
  if decide (Username conf = EmptyString ∨ Password conf = EmptyString)
  then None
  else Some (UserInfo (Username conf) (Password conf)).

Definition server_url conf : string := Join (Endpoints conf) ","%char.

(** ** Lemmas *)

Lemma initNats_eq conf :
  initNats conf =
    match Connect (server_url conf) (credentials conf) with
    | inl conn => Ok conn
    | inr err => Panic err
    end.
Proof.
  unfold initNats, credentials, server_url.
  destruct (Username conf) as [|a u], (Password conf) as [|b p]; cbn;
    repeat case_goal_decide; try done; exfalso; intuition (lia || done).
Qed.

Lemma credentials_partial conf :
  Username conf = EmptyString ∨ Password conf = EmptyString →
  credentials conf = None.
Proof. intros Hp. unfold credentials. by rewrite decide_True. Qed.

Lemma Init_run conf natsInstance :
  Init conf natsInstance =
    match Connect (server_url conf) (credentials conf) with
    | inl conn => (Ok (), Some conn)
    | inr err => (Panic err, natsInstance)
    end.
Proof.
  unfold Init. rewrite bind_call, initNats_eq.
  by destruct (Connect _ _) as [conn|err].
Qed.

Lemma New_run conf natsInstance :
  New conf natsInstance =
    match Connect (server_url conf) (credentials conf) with
    | inl conn => (Ok conn, natsInstance)
    | inr err => (Panic err, natsInstance)
    end.
Proof. unfold New, call. rewrite initNats_eq. by destruct (Connect _ _). Qed.

(** ** Properties *)

(** [Init] stores what [Connect] returns for the endpoints joined by
    commas, with the credentials when both are given: on success
    [GetInstance] returns that connection, whatever the variable held
    before, and [New] returns an equal connection without touching the
    variable.  On an error both panic with the error of the library and
    the variable keeps what it held: after a failed [Init], [GetInstance]
    returns the connection of the last [Init] that succeeded, or nil. *)
Theorem Init_GetInstance conf natsInstance :
  match Connect (server_url conf) (credentials conf) with
  | inl conn =>
    (Init conf ≫= λ _, GetInstance) natsInstance = (Ok (Some conn), Some conn) ∧
    New conf natsInstance = (Ok conn, natsInstance)
  | inr err =>
    Init conf natsInstance = (Panic err, natsInstance) ∧
    New conf natsInstance = (Panic err, natsInstance) ∧
    GetInstance natsInstance = (Ok natsInstance, natsInstance)
  end.
Proof.
  unfold mbind, Proc_bind. rewrite Init_run, New_run.
  by destruct (Connect _ _) as [conn|err].
Qed.

(** C38. Half a credential is none: when the user name or the password is
    empty the other is not passed to the library, and the connection is
    the one of a configuration without credentials. *)
Theorem partial_credentials_are_dropped conf natsInstance :
  Username conf = EmptyString ∨ Password conf = EmptyString →
  Init conf natsInstance
    = Init (mkConf (Endpoints conf) EmptyString EmptyString) natsInstance.
Proof.
  intros Hp. rewrite !Init_run.
  by rewrite (credentials_partial conf), (credentials_partial (mkConf _ _ _))
    by (done || by left).
Qed.
End nats.

(** ** Evaluation *)

(** A library that connects to any non-empty URL; a connection records
    the URL and whether credentials were given. *)
#[export] Instance TestNats : NatsLib := {|
  Conn := string * bool;
  ConnectOption := string * string;
  UserInfo u p := (u, p);
  Connect url opts :=
    if decide (url = EmptyString) then inr "nats: no servers available for connection"
    else inl (url, bool_decide (is_Some opts));
|}.

Example Init_two_endpoints :
  (Init (mkConf ["nats://a:4222"; "nats://b:4222"] "sail" "secret")
     ≫= λ _, GetInstance) None
    = (Ok (Some ("nats://a:4222,nats://b:4222", true)),
       Some ("nats://a:4222,nats://b:4222", true)).
Proof. by vm_compute. Qed.

Example Init_no_endpoint :
  Init (mkConf [] "sail" "secret") None
    = (Panic "nats: no servers available for connection", None).
Proof. by vm_compute. Qed.

(** A second [Init] that fails: the first connection stays. *)
Example Init_fails_after_Init :
  (Init (mkConf ["nats://a:4222"] "" "") ≫= λ _,
   Init (mkConf [] "" "")) None
    = (Panic "nats: no servers available for connection",
       Some ("nats://a:4222", false)).
Proof. by vm_compute. Qed.

Lemma partial_credentials_are_dropped_witness :
  Init (mkConf ["nats://a:4222"] "sail" EmptyString) None
    = Init (mkConf ["nats://a:4222"] EmptyString EmptyString) None.
Proof.
  apply (partial_credentials_are_dropped
           (mkConf ["nats://a:4222"] "sail" EmptyString) None).
  by right.
Defined.
