(* ===== verification/Interleave.v ===== *)
(** * Interleave: invocations of the work callable that take time

    [RunLoop] treats one invocation of the work callable as one step.  Here
    an invocation is two events, its beginning and its end, and the calls of
    the public methods, the invocations of capabilities and the passing of
    time may come between them: a capability invoked while the work runs
    (also by the work itself), a method called while the work runs.

    The state is the job and the invocations in flight.  A loop begins an
    invocation when its tick is due, it is not stopped and it is not
    already inside one: the loop calls the work synchronously.  An
    invocation in flight ends whatever happened to its loop meanwhile. *)

From Stdlib Require Import ZArith Lia.
From stdpp Require Import prelude strings.
From S2P Require Import Prelude GoTime Schedule RunLoop.

#[local] Open Scope Z_scope.

(** ** State and events *)

(** An invocation of the work callable that has not returned. *)
Record Flight : Type := mkFlight {
  flight_loop : LoopId;
  flight_start : Z;
}.

Record System : Type := mkSystem {
  job : taskJob;
  inflight : list Flight;
}.

#[export] Instance Flight_eq_dec : EqDecision Flight.
Proof. solve_decision. Defined.
#[export] Instance System_eq_dec : EqDecision System.
Proof. solve_decision. Defined.

Inductive Event : Type :=
  | ECall (m : Method)
  | ECancel (cf : CancelFunc)
  | EBegin (i : LoopId)
  | EEnd (i : LoopId) (o : Outcome)
  | EWait (dt : Z).

#[export] Instance Event_eq_dec : EqDecision Event.
Proof. solve_decision. Defined.

(** The loops that are inside an invocation. *)
Definition busy (s : System) : list LoopId := flight_loop <$> inflight s.

(** The job with its run loops not yet started. *)
Definition start (now : Z) : System := mkSystem (NewTaskJob now) [].

(** The invocation of loop [i] in flight. *)
Fixpoint flight_of (i : LoopId) (fs : list Flight) : option Flight :=
  match fs with
  | [] => None
  | f :: fs' => if decide (flight_loop f = i) then Some f else flight_of i fs'
  end.

(** Loop [i] takes its tick and calls the work. *)
Definition begin (i : LoopId) (s : System) : option System :=
  l ← loops (job s) !! i;
  if decide (loop_stop l = false ∧ loop_due l ≤ clock (job s) ∧ i ∉ busy s) then
    Some (mkSystem
            (with_loops (<[i := fire l (clock (job s))]> (loops (job s))) (job s))
            (mkFlight i (clock (job s)) :: inflight s))
  else None.

(** The invocation of loop [i] returns with outcome [o]: it enters the
    history with the time it took, and a failure is reported. *)
Definition finish (i : LoopId) (o : Outcome) (s : System) : option System :=
  f ← flight_of i (inflight s);
  let j := job s in
  Some (mkSystem
          (mkTaskJob (interval j) (cancelFunc j) (loops j) (clock j)
             (mkCall i (flight_start f) (clock j - flight_start f) o :: calls j)
             (report i o (log j)))
          (filter (λ f, flight_loop f ≠ i) (inflight s))).

Definition on_job (f : taskJob → taskJob) (s : System) : System :=
  mkSystem (f (job s)) (inflight s).

Definition event_step (e : Event) (s : System) : option System :=
  match e with
  | ECall m =>
    if decide (method_ok m) then Some (on_job (exec (method_run m)) s) else None
  | ECancel cf => Some (on_job (exec (call_cancel cf)) s)
  | EBegin i => begin i s
  | EEnd i o => finish i o s
  | EWait dt => j' ← wait dt (job s); Some (mkSystem j' (inflight s))
  end.

Fixpoint run_events (es : list Event) (s : System) : option System :=
  match es with
  | [] => Some s
  | e :: es' => s' ← event_step e s; run_events es' s'
  end.

(** The events of one atomic step of [RunLoop]. *)
Definition expand (lab : Label) : list Event :=
  match lab with
  | LCall m => [ECall m]
  | LCancel cf => [ECancel cf]
  | LTick i dur o => [EBegin i; EWait dur; EEnd i o]
  | LWait dt => [EWait dt]
  end.

(** The loop is stopped: its stop signal is raised. *)
Definition stopped (i : LoopId) (s : System) : Prop :=
  loop_stop <$> loops (job s) !! i = Some true.

#[export] Instance stopped_dec i s : Decision (stopped i s).
Proof. unfold stopped. apply _. Defined.

(** The loop is running: it exists and its stop signal is not raised. *)
Definition active (i : LoopId) (s : System) : Prop :=
  loop_stop <$> loops (job s) !! i = Some false.

#[export] Instance active_dec i s : Decision (active i s).
Proof. unfold active. apply _. Defined.

(** The invocations in flight whose loop is not stopped. *)
Definition live_flights (s : System) : list Flight :=
  filter (λ f, ¬ stopped (flight_loop f) s) (inflight s).

(** The time up to which loop [i] has been free: the start of its
    invocation in flight, or now. *)
Definition free_until (i : LoopId) (s : System) : Z :=
  default (clock (job s)) (flight_start <$> flight_of i (inflight s)).

(** ** The invariant *)

(** A loop is inside one invocation at most; an invocation in flight
    belongs to a loop of the job and began in the past; the invocations a
    loop has made do not overlap and ended before the one in flight began;
    the job is well-formed. *)
Record sys_wf (s : System) : Prop := mk_sys_wf {
  wf_job : sched_wf (job s);
  wf_busy : NoDup (busy s);
  wf_flights :
    Forall (λ f, (flight_loop f < length (loops (job s)))%nat ∧
                 flight_start f ≤ clock (job s)) (inflight s);
  wf_history : ∀ i, calls_ok (free_until i s) (calls_of i (calls (job s)));
}.

(** ** Invocations in flight *)

Section flights.
Implicit Types (i : LoopId) (f : Flight) (fs : list Flight) (s : System).

Lemma flight_of_None i fs : flight_of i fs = None ↔ i ∉ flight_loop <$> fs.
Proof.
  induction fs as [|f fs IH]; cbn; [by split; [intros _ ?%elem_of_nil|]|].
  rewrite not_elem_of_cons, <-IH. case_goal_decide; intuition congruence.
Qed.

Lemma flight_of_Some i fs f :
  flight_of i fs = Some f → f ∈ fs ∧ flight_loop f = i.
Proof.
  induction fs as [|f' fs IH]; cbn; [done|]. case_goal_decide.
  - intros [= ->]. by rewrite elem_of_cons; auto.
  - intros [??]%IH. by rewrite elem_of_cons; auto.
Qed.

Lemma flight_of_is_Some i fs : i ∈ flight_loop <$> fs → is_Some (flight_of i fs).
Proof.
  intros Hi. destruct (flight_of i fs) eqn:E; [done|].
  by apply flight_of_None in E.
Qed.

(** Removing the invocation of one loop leaves the others in flight. *)
Lemma flight_of_filter i i' fs :
  flight_of i (filter (λ f, flight_loop f ≠ i') fs) =
    if decide (i = i') then None else flight_of i fs.
Proof.
  induction fs as [|f fs IH]; [by case_goal_decide|].
  rewrite filter_cons. cbn. repeat (case_goal_decide; cbn); by simplify_eq.
Qed.

Lemma Forall_filter (P : Flight → Prop) i fs :
  Forall P fs → Forall P (filter (λ f, flight_loop f ≠ i) fs).
Proof.
  rewrite !Forall_forall. intros HP f [_ ?]%list_elem_of_filter. auto.
Qed.

(** Distinct values that are all the same value are one value at most. *)
Lemma NoDup_all_eq {A} (x : A) (l : list A) :
  NoDup l → Forall (eq x) l → (length l ≤ 1)%nat.
Proof.
  destruct l as [|a [|b l]]; cbn; [lia..|].
  intros [Ha _]%NoDup_cons Hall.
  apply Forall_cons in Hall as [<- [<- _]%Forall_cons].
  destruct Ha. apply elem_of_cons; auto.
Qed.

Lemma busy_filter i s :
  flight_loop <$> filter (λ f, flight_loop f ≠ i) (inflight s) `sublist_of` busy s.
Proof. apply fmap_sublist, sublist_filter. Qed.
End flights.

(** ** The steps *)

Section steps.
Implicit Types (i : LoopId) (s : System) (e : Event) (es : list Event).
Implicit Types (j : taskJob) (o : Outcome).

Lemma begin_Some i s s' :
  begin i s = Some s' ↔
  ∃ l, loops (job s) !! i = Some l ∧ loop_stop l = false ∧
       loop_due l ≤ clock (job s) ∧ (i ∉ busy s) ∧
       s' = mkSystem
              (with_loops (<[i := fire l (clock (job s))]> (loops (job s))) (job s))
              (mkFlight i (clock (job s)) :: inflight s).
Proof.
  unfold begin. destruct (loops (job s) !! i) as [l|]; cbn;
    [|split; [done|by intros (? & ? & _)]].
  case_goal_decide as [(? & ? & ?)|Hno]; split; try done.
  - intros [= <-]. by exists l.
  - by intros (? & [= <-] & _ & _ & _ & ->).
  - intros (? & [= <-] & ? & ? & ? & _). by destruct Hno.
Qed.

Lemma finish_Some i o s s' :
  finish i o s = Some s' ↔
  ∃ f, flight_of i (inflight s) = Some f ∧
       s' = mkSystem
              (mkTaskJob (interval (job s)) (cancelFunc (job s)) (loops (job s))
                 (clock (job s))
                 (mkCall i (flight_start f) (clock (job s) - flight_start f) o
                    :: calls (job s))
                 (report i o (log (job s))))
              (filter (λ f, flight_loop f ≠ i) (inflight s)).
Proof.
  unfold finish. destruct (flight_of i (inflight s)) as [f|]; cbn.
  - split; [intros [= <-]; by exists f|]. by intros (? & [= <-] & ->).
  - split; [done|]. by intros (? & ? & _).
Qed.

(** An invocation in flight can always return. *)
Lemma finish_is_Some i o s : i ∈ busy s → is_Some (finish i o s).
Proof.
  intros [f Hf]%flight_of_is_Some. unfold finish. by rewrite Hf.
Qed.

Lemma run_events_app es1 es2 s :
  run_events (es1 ++ es2) s = s' ← run_events es1 s; run_events es2 s'.
Proof.
  revert s. induction es1 as [|e es1 IH]; intros s; cbn; [done|].
  destruct (event_step e s); cbn; [apply IH|done].
Qed.

Lemma run_events_cons e es s s' :
  run_events (e :: es) s = Some s' ↔
  ∃ s1, event_step e s = Some s1 ∧ run_events es s1 = Some s'.
Proof. cbn. by rewrite bind_Some. Qed.
End steps.

(** ** The invariant is kept *)

Section invariant.
Implicit Types (i : LoopId) (s : System) (e : Event) (es : list Event).
Implicit Types (j : taskJob) (o : Outcome).

(** An invocation in flight belongs to a loop the job has started. *)
Lemma flight_known s f :
  sys_wf s → f ∈ inflight s →
  (flight_loop f < length (loops (job s)))%nat ∧ flight_start f ≤ clock (job s).
Proof. intros Hs. apply (proj1 (Forall_forall _ _) (wf_flights s Hs)). Qed.

Lemma busy_known s i : sys_wf s → i ∈ busy s → (i < length (loops (job s)))%nat.
Proof.
  intros Hs (f & -> & Hf)%list_elem_of_fmap. by apply flight_known.
Qed.

Lemma sys_wf_start now : sys_wf (start now).
Proof. constructor; cbn; [apply sched_wf_New|constructor|done|done]. Qed.

(** A step that leaves the history and the invocations in flight alone,
    and takes neither loops nor time away. *)
Lemma sys_wf_on_job j' s :
  sys_wf s → sched_wf j' →
  (length (loops (job s)) ≤ length (loops j'))%nat →
  clock (job s) ≤ clock j' → calls j' = calls (job s) →
  sys_wf (mkSystem j' (inflight s)).
Proof.
  intros [Hj Hb Hf Hh] Hj' Hlen Hclk Hcalls. constructor; cbn; [done..| |].
  - eapply Forall_impl; [done|]. cbn. intros f [??]. split; lia.
  - intros i. rewrite Hcalls. eapply calls_ok_mono; [|apply Hh].
    unfold free_until; cbn. destruct flight_of; cbn; lia.
Qed.

Lemma sys_wf_call m s :
  method_ok m → sys_wf s → sys_wf (on_job (exec (method_run m)) s).
Proof.
  intros Hm Hs. apply sys_wf_on_job; rewrite ?exec_method; try done.
  - apply sched_wf_arm; [by apply method_interval_range|apply Hs].
  - rewrite arm_loops, length_app, length_fmap. lia.
Qed.

Lemma sys_wf_cancel cf s : sys_wf s → sys_wf (on_job (exec (call_cancel cf)) s).
Proof.
  intros Hs. apply sys_wf_on_job; try done.
  - apply sched_wf_call_cancel, Hs.
  - by rewrite call_cancel_loops, length_alter.
Qed.

Lemma sys_wf_wait dt j' s :
  sys_wf s → wait dt (job s) = Some j' → sys_wf (mkSystem j' (inflight s)).
Proof.
  intros Hs [Hdt ->]%wait_Some. apply sys_wf_on_job; cbn; try done; [|lia].
  apply sched_wf_with_clock, Hs.
Qed.

Lemma sys_wf_begin i s s' : sys_wf s → begin i s = Some s' → sys_wf s'.
Proof.
  intros [Hj Hb Hf Hh] (l & Hl & Hstop & Hdue & Hi & ->)%begin_Some.
  constructor; cbn; rewrite ?length_insert.
  - by apply sched_wf_fire.
  - by apply NoDup_cons.
  - constructor; [|done]. cbn. split; [by eapply lookup_lt_Some|lia].
  - intros i'. specialize (Hh i'). revert Hh. unfold free_until; cbn.
    case_goal_decide as [<-|]; [|done].
    by apply flight_of_None in Hi as ->.
Qed.

Lemma sys_wf_finish i o s s' : sys_wf s → finish i o s = Some s' → sys_wf s'.
Proof.
  intros [Hj Hb Hf Hh] (f & Hfl & ->)%finish_Some.
  constructor; [cbn..|].
  - by apply (sched_wf_ext (job s)).
  - eapply sublist_NoDup; [done|apply busy_filter].
  - by apply Forall_filter.
  - intros i'. specialize (Hh i'). revert Hh.
    unfold free_until; cbn [job inflight calls].
    rewrite flight_of_filter, calls_of_cons; cbn [call_loop].
    destruct (decide (i' = i)) as [->|Hne]; [|by rewrite decide_False].
    rewrite decide_True, Hfl by done. cbn. intros Hh.
    apply flight_of_Some in Hfl as [Hin _].
    pose proof (proj1 (Forall_forall _ _) Hf f Hin) as [_ ?].
    split_and!; [lia..|done].
Qed.

Lemma sys_wf_step e s s' : sys_wf s → event_step e s = Some s' → sys_wf s'.
Proof.
  intros Hs. destruct e as [m|cf|i|i o|dt]; cbn.
  - case_goal_decide; [|done]. intros [= <-]. by apply sys_wf_call.
  - intros [= <-]. by apply sys_wf_cancel.
  - by apply sys_wf_begin.
  - by apply sys_wf_finish.
  - intros (j' & Hw & [= <-])%bind_Some. by eapply sys_wf_wait.
Qed.

Lemma sys_wf_run es s s' : sys_wf s → run_events es s = Some s' → sys_wf s'.
Proof.
  revert s. induction es as [|e es IH]; intros s Hs; [by intros [= <-]|].
  intros (s1 & He & Hes)%run_events_cons. eauto using sys_wf_step.
Qed.
End invariant.

(** ** Stopped loops *)

Section stopped.
Implicit Types (i : LoopId) (s : System) (e : Event) (es : list Event).

Lemma stopped_lookup i s :
  stopped i s ↔ ∃ l, loops (job s) !! i = Some l ∧ loop_stop l = true.
Proof.
  unfold stopped. rewrite fmap_Some. by split; intros (l & ? & ?); exists l.
Qed.

Lemma stopped_call m i s :
  is_Some (loops (job s) !! i) → stopped i (on_job (exec (method_run m)) s).
Proof.
  intros [l Hl]. apply stopped_lookup. exists (stop_loop l).
  split; [|done]. unfold on_job; cbn [job]. rewrite exec_method.
  by apply arm_lookup_old.
Qed.

Lemma stopped_cancel cf i s :
  stopped i s ∨ (cancel_loop cf = i ∧ is_Some (loops (job s) !! i)) →
  stopped i (on_job (exec (call_cancel cf)) s).
Proof.
  rewrite !stopped_lookup. unfold on_job; cbn [job]. rewrite call_cancel_lookup.
  intros [(l & Hl & Hs)|[-> [l Hl]]]; rewrite Hl.
  - case_goal_decide; [by exists (stop_loop l)|by exists l].
  - rewrite decide_True by done. by exists (stop_loop l).
Qed.

(** A stopped loop takes no tick, and nothing starts it again. *)
Lemma stopped_step e i s s' :
  stopped i s → event_step e s = Some s' → stopped i s' ∧ e ≠ EBegin i.
Proof.
  intros Hi. pose proof Hi as (l & Hl & Hs)%stopped_lookup.
  destruct e as [m|cf|i'|i' o|dt]; cbn.
  - case_goal_decide; [|done]. intros [= <-]. split; [|done].
    by apply stopped_call.
  - intros [= <-]. split; [|done]. apply stopped_cancel; auto.
  - intros (l' & Hl' & Hs' & _ & _ & ->)%begin_Some.
    destruct (decide (i' = i)) as [->|Hne]; [congruence|].
    split; [|congruence]. apply stopped_lookup. exists l. cbn.
    by rewrite list_lookup_insert_ne.
  - by intros (f & _ & ->)%finish_Some.
  - by intros (j' & [_ ->]%wait_Some & [= <-])%bind_Some.
Qed.

Lemma stopped_forever i es s s' :
  stopped i s → run_events es s = Some s' → stopped i s' ∧ EBegin i ∉ es.
Proof.
  revert s. induction es as [|e es IH]; intros s Hi.
  - intros [= <-]. split; [done|apply not_elem_of_nil].
  - intros (s1 & He & Hes)%run_events_cons.
    destruct (stopped_step e i s s1 Hi He) as [Hi1 Hne].
    destruct (IH s1 Hi1 Hes) as [? ?]. split; [done|].
    rewrite not_elem_of_cons. by split.
Qed.

Lemma active_lookup i s :
  active i s ↔ ∃ l, loops (job s) !! i = Some l ∧ loop_stop l = false.
Proof.
  unfold active. rewrite fmap_Some. by split; intros (l & ? & ?); exists l.
Qed.

(** Nothing stops a loop but a method called on its job and its own
    capability. *)
Lemma active_step e i s s' :
  active i s → event_step e s = Some s' →
  (∀ m, e ≠ ECall m) → (∀ cf, e = ECancel cf → cancel_loop cf ≠ i) →
  active i s'.
Proof.
  intros (l & Hl & Hs)%active_lookup Hstep Hcall Hcancel.
  apply active_lookup. destruct e as [m|cf|i'|i' o|dt]; cbn in Hstep.
  - by destruct (Hcall m).
  - injection Hstep as <-. exists l. split; [|done]. unfold on_job; cbn [job].
    rewrite call_cancel_lookup, Hl, decide_False; [done|].
    by apply Hcancel.
  - apply begin_Some in Hstep as (l' & Hl' & _ & _ & _ & ->). cbn.
    destruct (decide (i' = i)) as [->|Hne].
    + simplify_eq. exists (fire l (clock (job s))).
      by rewrite list_lookup_insert_eq by by eapply lookup_lt_Some.
    + exists l. by rewrite list_lookup_insert_ne.
  - apply finish_Some in Hstep as (f & _ & ->). by exists l.
  - apply bind_Some in Hstep as (j' & [_ ->]%wait_Some & [= <-]). by exists l.
Qed.

Lemma active_run es i s s' :
  active i s → run_events es s = Some s' →
  (∀ m, ECall m ∉ es) → (∀ cf, ECancel cf ∈ es → cancel_loop cf ≠ i) →
  active i s'.
Proof.
  revert s. induction es as [|e es IH]; intros s Hi; [by intros [= <-]|].
  intros (s1 & He & Hes)%run_events_cons Hcall Hcancel.
  apply (IH s1); [|done|..].
  - apply (active_step e i s); [done..| |].
    + intros m ->. apply (Hcall m), elem_of_cons; auto.
    + intros cf ->. apply Hcancel, elem_of_cons; auto.
  - intros m Hm. apply (Hcall m), elem_of_cons; auto.
  - intros cf Hcf. apply Hcancel, elem_of_cons; auto.
Qed.

(** An invocation in flight whose loop is not stopped is an invocation of
    the newest loop. *)
Lemma live_is_newest s f :
  sys_wf s → f ∈ live_flights s →
  flight_loop f = pred (length (loops (job s))).
Proof.
  intros Hs [Hlive Hin]%list_elem_of_filter.
  pose proof (flight_known s f Hs Hin) as [Hlt _].
  apply lookup_lt_is_Some in Hlt as [l Hl].
  eapply active_is_newest; [apply Hs|done|].
  destruct (loop_stop l) eqn:E; [|done].
  destruct Hlive. apply stopped_lookup. eauto.
Qed.

Lemma live_flights_le_1 s : sys_wf s → (length (live_flights s) ≤ 1)%nat.
Proof.
  intros Hs. rewrite <-(length_fmap flight_loop).
  apply (NoDup_all_eq (pred (length (loops (job s))))).
  - eapply sublist_NoDup; [apply Hs|]. apply fmap_sublist, sublist_filter.
  - apply Forall_fmap, Forall_forall. intros f Hf. symmetry.
    by apply live_is_newest.
Qed.
End stopped.

(** ** Atomic steps as interleavings *)

Section embedding.
Implicit Types (i : LoopId) (j : taskJob) (o : Outcome) (lab : Label).

(** The atomic tick is an invocation during which only time passes. *)
Lemma tick_expand i dur o j j' :
  tick i dur o j = Some j' →
  run_events (expand (LTick i dur o)) (mkSystem j []) = Some (mkSystem j' []).
Proof.
  intros (l & Hl & Hs & Hdue & Hdur & ->)%tick_Some. cbn.
  unfold begin; cbn. rewrite Hl; cbn.
  rewrite decide_True by (split_and!; [done..|apply not_elem_of_nil]). cbn.
  unfold wait. rewrite decide_True by done. cbn.
  unfold finish; cbn. repeat case_goal_decide; try done. cbn.
  by replace (clock j + dur - clock j) with dur by lia.
Qed.

Lemma step_expand lab j j' :
  step_fun lab j = Some j' →
  run_events (expand lab) (mkSystem j []) = Some (mkSystem j' []).
Proof.
  destruct lab as [m|cf|i dur o|dt]; cbn [step_fun].
  - case_goal_decide as [Hm|]; [|done]. intros [= <-]. cbn.
    by rewrite decide_True.
  - by intros [= <-].
  - apply tick_expand.
  - intros Hw. cbn. by rewrite Hw.
Qed.
End embedding.

(** ** Properties *)

Section properties.
Implicit Types (i : LoopId) (s : System) (e : Event) (es : list Event).
Implicit Types (j : taskJob) (o : Outcome) (now : Z).

(** C12. Whatever the public methods, the capabilities, the loops and the
    work callable do and in whatever order, the state of the job stays
    well-formed: the job satisfies the invariant of the scheduler, no loop
    is inside two invocations of the work at once, and every invocation in
    flight belongs to a loop the job started and began no later than
    now. *)
Theorem interleaving_keeps_invariant now es s :
  run_events es (start now) = Some s → sys_wf s.
Proof. apply sys_wf_run, sys_wf_start. Qed.

(** C13. The invocations one loop makes never overlap, also when calls of
    the public methods and of capabilities come while the work runs: of
    two invocations of the same loop in the history, the earlier had
    returned when the later began, and no invocation takes negative
    time. *)
Theorem loop_invocations_are_sequential now es s i (a b : nat) c1 c2 :
  run_events es (start now) = Some s → (a < b)%nat →
  calls_of i (calls (job s)) !! a = Some c2 →
  calls_of i (calls (job s)) !! b = Some c1 →
  0 ≤ call_dur c1 ∧ call_start c1 + call_dur c1 ≤ call_start c2.
Proof.
  intros Hs%sys_wf_run Hab Ha Hb; [|apply sys_wf_start].
  pose proof (wf_history s Hs i) as Hok. split.
  - apply calls_ok_ended in Hok.
    by pose proof (Forall_lookup_1 _ _ _ _ Hok Hb) as [? _].
  - by eapply calls_ok_lookup.
Qed.

(** At most one invocation in flight belongs to a loop that is not
    stopped, and it is an invocation of the loop the capability of the job
    names: as long as no loop is superseded or cancelled while the work
    runs, the work is never executed twice at the same time. *)
Theorem at_most_one_live_invocation now es s :
  run_events es (start now) = Some s →
  (length (live_flights s) ≤ 1)%nat ∧
  ∀ f, f ∈ live_flights s → cancelFunc (job s) = Some (mkCancel (flight_loop f)).
Proof.
  intros Hs%sys_wf_run; [|apply sys_wf_start].
  split; [by apply live_flights_le_1|]. intros f Hf.
  pose proof (live_is_newest s f Hs Hf) as Hnew.
  rewrite (wf_cancelFunc (job s) (wf_job s Hs)), Hnew.
  case_goal_decide as [Hnil|]; [|done].
  apply list_elem_of_filter in Hf as [_ Hin].
  pose proof (flight_known s f Hs Hin) as [Hlt _].
  rewrite Hnil in Hlt. cbn in Hlt. lia.
Qed.

(** C15. A public method called while the work runs starts a loop that does
    not wait for the work to return: one interval later the new loop
    begins an invocation beside every invocation still in flight, and each
    of those can still return.  With an invocation in flight before the
    call, the work is then executed twice at the same time. *)
Theorem rearm_during_invocation_overlaps m o s :
  sys_wf s → method_ok m →
  ∃ s', run_events [ECall m; EWait (method_interval m);
                    EBegin (length (loops (job s)))] s = Some s' ∧
        inflight s' = mkFlight (length (loops (job s)))
                        (clock (job s) + method_interval m) :: inflight s ∧
        ∀ f, f ∈ inflight s → is_Some (finish (flight_loop f) o s').
Proof.
  intros Hs Hm. pose proof (method_interval_range m Hm) as [Hlo _].
  assert (0 ≤ method_interval m) as Hpos by (by etrans; [|apply Hlo]).
  cbn [run_events event_step]. rewrite decide_True by done.
  cbn [mbind option_bind on_job job inflight].
  unfold wait. rewrite decide_True by done.
  cbn [mbind option_bind job inflight]. rewrite exec_method.
  eexists. split.
  { apply bind_Some. eexists. split; [|done]. apply begin_Some.
    exists (new_loop (clock (job s)) (method_interval m)).
    split_and!; cbn; [apply arm_lookup_new|done|lia| |done].
    intros Hb%(busy_known _ _ Hs). lia. }
  split; [done|]. intros f Hf. apply finish_is_Some. unfold busy; cbn.
  apply elem_of_cons. right. by apply list_elem_of_fmap_2.
Qed.

(** C14. A capability invoked while the work of its loop runs returns at
    once and does not touch the invocation: the invocation in flight can
    still return, and from then on the loop is stopped for good.  Whatever
    happens next, calls of the public methods included, no event is the
    beginning of another invocation by that loop. *)
Theorem cancel_during_invocation cf o s :
  sys_wf s → cancel_loop cf ∈ busy s →
  ∃ s', event_step (ECancel cf) s = Some s' ∧
        inflight s' = inflight s ∧
        is_Some (finish (cancel_loop cf) o s') ∧
        ∀ es s'', run_events es s' = Some s'' →
                  stopped (cancel_loop cf) s'' ∧ EBegin (cancel_loop cf) ∉ es.
Proof.
  intros Hs Hbusy. eexists. split; [done|]. split; [done|].
  split; [by apply finish_is_Some|]. intros es s''.
  apply stopped_forever, stopped_cancel. right. split; [done|].
  by apply lookup_lt_is_Some, busy_known.
Qed.

(** A loop that is not stopped is never stuck.  Inside an invocation it
    can return, whatever was called meanwhile; outside one it begins its
    next invocation as soon as its tick is due, after waiting for the time
    that is left and no longer. *)
Theorem loop_is_never_stuck s i l o :
  sys_wf s → loops (job s) !! i = Some l → loop_stop l = false →
  (i ∈ busy s → is_Some (finish i o s)) ∧
  (i ∉ busy s →
   ∃ s', run_events [EWait (Z.max 0 (loop_due l - clock (job s))); EBegin i] s
           = Some s' ∧
         i ∈ busy s' ∧
         clock (job s') = Z.max (clock (job s)) (loop_due l)).
Proof.
  intros Hs Hl Hrun. split; [apply finish_is_Some|]. intros Hfree.
  cbn [run_events event_step]. unfold wait. rewrite decide_True by lia.
  cbn [mbind option_bind job inflight].
  eexists. split.
  { apply bind_Some. eexists. split; [|done]. apply begin_Some.
    exists l. cbn. split_and!; [done|done|lia|done|done]. }
  split; [apply elem_of_cons; by left|cbn; lia].
Qed.

(** Every run of the atomic transition system is a run of the
    interleaved one in which nothing happens while the work runs: each
    tick becomes the beginning of an invocation, the time the work takes,
    and its return, and the job at the end is the same, with no invocation
    left in flight. *)
Theorem atomic_runs_are_interleavings labs j j' :
  run_labels labs j = Some j' →
  run_events (labs ≫= expand) (mkSystem j []) = Some (mkSystem j' []).
Proof.
  revert j. induction labs as [|lab labs IH]; intros j; cbn [run_labels].
  - by intros [= <-].
  - intros (j1 & Hlab & Hlabs)%bind_Some.
    change ((lab :: labs) ≫= expand) with (expand lab ++ (labs ≫= expand)).
    rewrite run_events_app, (step_expand _ _ _ Hlab). cbn. by apply IH.
Qed.
End properties.

(** ** Evaluation *)

(** The work of a job that runs every second takes three seconds and
    invokes the capability of its loop in the middle. *)
Definition self_cancel_events : list Event :=
  [ECall (MNamed CEverySecond); EWait Second; EBegin 0; EWait Second;
   ECancel (mkCancel 0); EWait (2 * Second); EEnd 0 Done].

Definition self_cancel_system : System :=
  default (start 0) (run_events self_cancel_events (start 0)).

(** The job is armed again while its work runs; both invocations return
    later. *)
Definition rearm_events : list Event :=
  [ECall (MNamed CEverySecond); EWait Second; EBegin 0;
   ECall (MNamed CEverySecond); EWait Second; EBegin 1].

Definition rearm_system : System :=
  default (start 0) (run_events rearm_events (start 0)).

Definition rearm_done_system : System :=
  default (start 0)
    (run_events [EWait Second; EEnd 0 Done; EEnd 1 (Failed "boom")] rearm_system).

(** After the work cancelled its loop the job is armed again; the new
    loop makes two invocations, the second as soon as the first returned. *)
Definition again_events : list Event :=
  [ECall (MNamed CEverySecond); EWait Second; EBegin 1;
   EWait Second; EEnd 1 Done; EBegin 1; EEnd 1 Done].

Definition again_system : System :=
  default (start 0) (run_events again_events self_cancel_system).

Lemma self_cancel_run :
  run_events self_cancel_events (start 0) = Some self_cancel_system.
Proof. by vm_compute. Qed.

Lemma rearm_run : run_events rearm_events (start 0) = Some rearm_system.
Proof. by vm_compute. Qed.

Lemma again_run :
  run_events (self_cancel_events ++ again_events) (start 0) = Some again_system.
Proof. by vm_compute. Qed.

Lemma rearm_done_run :
  run_events (rearm_events ++ [EWait Second; EEnd 0 Done; EEnd 1 (Failed "boom")])
    (start 0) = Some rearm_done_system.
Proof. by vm_compute. Qed.

(** The invocation that cancelled its own loop returned, three seconds
    after it began, and the loop cannot begin another one. *)
Example self_cancel_returns :
  calls (job self_cancel_system) = [mkCall 0 Second (3 * Second) Done] ∧
  inflight self_cancel_system = [] ∧
  run_events [EWait Second; EBegin 0] self_cancel_system = None.
Proof. by vm_compute. Qed.

(** After the job is armed again during an invocation, two invocations
    are in flight, and in the history the second began before the first
    returned. *)
Example rearm_overlap :
  busy rearm_system = [1; 0]%nat ∧
  calls (job rearm_done_system) =
    [mkCall 1 (2 * Second) Second (Failed "boom");
     mkCall 0 Second (2 * Second) Done] ∧
  ¬ calls_ok (clock (job rearm_done_system)) (calls (job rearm_done_system)).
Proof.
  split_and!; [by vm_compute..|]. apply (bool_decide_eq_false_1 _). by vm_compute.
Qed.

Lemma interleaving_keeps_invariant_witness : sys_wf rearm_done_system.
Proof.
  apply (interleaving_keeps_invariant 0
    (rearm_events ++ [EWait Second; EEnd 0 Done; EEnd 1 (Failed "boom")])).
  apply rearm_done_run.
Defined.

Lemma loop_invocations_are_sequential_witness :
  0 ≤ Second ∧ 5 * Second + Second ≤ 6 * Second.
Proof.
  apply (loop_invocations_are_sequential 0 (self_cancel_events ++ again_events)
    again_system 1 0 1
    (mkCall 1 (5 * Second) Second Done) (mkCall 1 (6 * Second) 0 Done));
    [apply again_run|lia|reflexivity..].
Defined.

Lemma at_most_one_live_invocation_witness :
  (length (live_flights rearm_system) ≤ 1)%nat ∧
  ∀ f, f ∈ live_flights rearm_system →
       cancelFunc (job rearm_system) = Some (mkCancel (flight_loop f)).
Proof. apply (at_most_one_live_invocation 0 rearm_events), rearm_run. Defined.

Lemma rearm_during_invocation_overlaps_witness :
  ∃ s', run_events [ECall (MEvery 5); EWait (method_interval (MEvery 5));
                    EBegin (length (loops (job rearm_system)))] rearm_system
          = Some s' ∧
        inflight s' = mkFlight (length (loops (job rearm_system)))
                        (clock (job rearm_system) + method_interval (MEvery 5))
                        :: inflight rearm_system ∧
        ∀ f, f ∈ inflight rearm_system → is_Some (finish (flight_loop f) Done s').
Proof.
  apply (rearm_during_invocation_overlaps (MEvery 5) Done rearm_system).
  - apply (sys_wf_run rearm_events (start 0)); [apply sys_wf_start|apply rearm_run].
  - done.
Defined.

Lemma cancel_during_invocation_witness :
  ∃ s', event_step (ECancel (mkCancel 1)) rearm_system = Some s' ∧
        inflight s' = inflight rearm_system ∧
        is_Some (finish 1 Done s') ∧
        ∀ es s'', run_events es s' = Some s'' → stopped 1 s'' ∧ EBegin 1 ∉ es.
Proof.
  apply (cancel_during_invocation (mkCancel 1) Done rearm_system).
  - apply (sys_wf_run rearm_events (start 0)); [apply sys_wf_start|apply rearm_run].
  - vm_compute. apply elem_of_cons; auto.
Defined.

Lemma loop_is_never_stuck_witness :
  (1%nat ∈ busy rearm_system → is_Some (finish 1 Done rearm_system)) ∧
  (1%nat ∉ busy rearm_system →
   ∃ s', run_events [EWait (Z.max 0 (3 * Second - clock (job rearm_system)));
                     EBegin 1] rearm_system = Some s' ∧
         1%nat ∈ busy s' ∧
         clock (job s') = Z.max (clock (job rearm_system)) (3 * Second)).
Proof.
  apply (loop_is_never_stuck rearm_system 1 (mkLoop Second Second (3 * Second) false)).
  - apply (sys_wf_run rearm_events (start 0)); [apply sys_wf_start|apply rearm_run].
  - by vm_compute.
  - done.
Defined.

Lemma atomic_runs_are_interleavings_witness :
  run_events (demo_labels ≫= expand) (mkSystem (NewTaskJob 0) [])
    = Some (mkSystem demo_job []).
Proof.
  apply (atomic_runs_are_interleavings demo_labels (NewTaskJob 0) demo_job).
  by vm_compute.
Defined.
