(* ===== verification/Jobs.v ===== *)
(** * Jobs: the jobs of one program

    The methods of [src/schedule/interval.go] have a pointer receiver,
    [(j *taskJob)]: a program holds pointers to jobs, a method changes the
    job its receiver points to, and two variables that hold the same
    pointer name the same job.  The specification (section 5) promises
    that jobs are independent of each other: there is no registry and no
    state shared between two jobs.

    A [Program] is the heap of the jobs of a program, each with its
    invocations in flight ([System] of [Interleave]), and the reading of
    the monotonic clock.  An event of the program is the construction of a
    job at a fresh pointer, an event of [Interleave] at the job a pointer
    names, or the passing of time, which every job sees.

    - [job_sees_its_own_events]: what a job has become at the end of a run
      of the program is the run of the events at its pointer and of the
      waits, from its construction; nothing else of the program counts.
    - [distinct_jobs_commute]: events at two different pointers commute.
    - [program_keeps_invariant]: every job of a reachable program satisfies
      the invariant of [Interleave] and reads the clock of the program.
    - [only_its_capability_stops_a_loop]: a loop stays active until a
      method is called on its job or its own capability is invoked. *)

From Stdlib Require Import ZArith Lia.
From stdpp Require Import prelude strings gmap.
From S2P Require Import Prelude GoTime Schedule RunLoop Interleave.

#[local] Open Scope Z_scope.

(** ** The heap of jobs *)

(** A value of type [*taskJob]. *)
Abbreviation Ptr := positive.

Record Program : Type := mkProgram {
  now : Z;
  jobs : gmap Ptr System;
}.

Inductive PEvent : Type :=
  | PNew (p : Ptr)
  | POn (p : Ptr) (e : Event)
  | PWait (dt : Z).

#[export] Instance PEvent_eq_dec : EqDecision PEvent.
Proof. solve_decision. Defined.

Definition is_wait (e : Event) : bool :=
  match e with EWait _ => true | _ => false end.

(** [p.m(...)]: the event happens to the job [p] points to; a pointer to
    nothing is a nil dereference. *)
Definition on_ptr (p : Ptr) (e : Event) (w : Program) : option Program :=
  s ← jobs w !! p;
  s' ← event_step e s;
  Some (mkProgram (now w) (<[p := s']> (jobs w))).

(** The clock of one job after [dt]. *)
Definition pass (dt : Z) (s : System) : System :=
  on_job (λ j, with_clock (clock j + dt) j) s.

(** One event of the program.  A new job gets a pointer that names no job
    yet; time passes for every job at once, and for no job alone. *)
Definition program_step (ev : PEvent) (w : Program) : option Program :=
  match ev with
  | PNew p =>
    if decide (jobs w !! p = None)
    then Some (mkProgram (now w) (<[p := start (now w)]> (jobs w)))
    else None
  | POn p e => if is_wait e then None else on_ptr p e w
  | PWait dt =>
    if decide (0 ≤ dt) then Some (mkProgram (now w + dt) (pass dt <$> jobs w))
    else None
  end.

Fixpoint run_program (evs : list PEvent) (w : Program) : option Program :=
  match evs with
  | [] => Some w
  | ev :: evs' => w' ← program_step ev w; run_program evs' w'
  end.

(** The program before it has constructed a job. *)
Definition empty_program (t : Z) : Program := mkProgram t ∅.

(** What the job at [p] sees of an event of the program. *)
Definition events_of (p : Ptr) (ev : PEvent) : list Event :=
  match ev with
  | PNew _ => []
  | POn q e => if decide (q = p) then [e] else []
  | PWait dt => [EWait dt]
  end.

Definition project (p : Ptr) (evs : list PEvent) : list Event :=
  evs ≫= events_of p.

(** Every job is well-formed and reads the clock of the program. *)
Definition program_wf (w : Program) : Prop :=
  map_Forall (λ _ s, sys_wf s ∧ clock (job s) = now w) (jobs w).

(** Loop [i] of the job at [p] is active. *)
Definition running (p : Ptr) (i : LoopId) (w : Program) : Prop :=
  ∃ s, jobs w !! p = Some s ∧ active i s.

(** The events that can stop loop [i] of the job at [p]. *)
Definition stops (p : Ptr) (i : LoopId) (ev : PEvent) : Prop :=
  match ev with
  | POn q (ECall _) => q = p
  | POn q (ECancel cf) => q = p ∧ cancel_loop cf = i
  | _ => False
  end.

#[export] Instance stops_dec p i ev : Decision (stops p i ev).
Proof. destruct ev as [|? []|]; cbn; apply _. Defined.

(** ** One event *)

Section steps.
Implicit Types (p q : Ptr) (e : Event) (ev : PEvent) (evs : list PEvent).
Implicit Types (s : System) (w : Program) (dt : Z).

Lemma on_ptr_Some p e w w' :
  on_ptr p e w = Some w' ↔
  ∃ s s', jobs w !! p = Some s ∧ event_step e s = Some s' ∧
          w' = mkProgram (now w) (<[p := s']> (jobs w)).
Proof.
  unfold on_ptr. rewrite bind_Some. setoid_rewrite bind_Some.
  split; [intros (s & ? & s' & ? & [= <-])|intros (s & s' & ? & ? & ->)];
    eauto 6.
Qed.

Lemma pass_wait dt s : 0 ≤ dt → event_step (EWait dt) s = Some (pass dt s).
Proof. intros Hdt. cbn. unfold wait. by rewrite decide_True. Qed.

Lemma run_program_cons ev evs w w' :
  run_program (ev :: evs) w = Some w' ↔
  ∃ w1, program_step ev w = Some w1 ∧ run_program evs w1 = Some w'.
Proof. cbn. by rewrite bind_Some. Qed.

Lemma run_program_app evs1 evs2 w :
  run_program (evs1 ++ evs2) w = w' ← run_program evs1 w; run_program evs2 w'.
Proof.
  revert w. induction evs1 as [|ev evs1 IH]; intros w; cbn; [done|].
  destruct (program_step ev w); cbn; [apply IH|done].
Qed.

(** An event that is not a wait leaves the clock of its job. *)
Lemma event_step_clock e s s' :
  is_wait e = false → event_step e s = Some s' →
  clock (job s') = clock (job s).
Proof.
  destruct e as [m|cf|i|i o|dt]; cbn; try done; intros _.
  - case_goal_decide; [|done]. intros [= <-]. unfold on_job; cbn [job].
    by rewrite exec_method, arm_clock.
  - by intros [= <-].
  - by intros (? & _ & _ & _ & _ & ->)%begin_Some.
  - by intros (? & _ & ->)%finish_Some.
Qed.

(** What one event of the program is to the job at [p]: the events it sees
    of it. *)
Lemma program_step_project ev w w' p s :
  program_step ev w = Some w' → jobs w !! p = Some s →
  ∃ s', jobs w' !! p = Some s' ∧ run_events (events_of p ev) s = Some s'.
Proof.
  destruct ev as [q|q e|dt]; cbn.
  - case_goal_decide as [Hq|]; [|done]. intros [= <-] Hp. exists s. cbn.
    by rewrite lookup_insert_ne by congruence.
  - destruct (is_wait e); [done|].
    intros (sq & sq' & Hq & He & ->)%on_ptr_Some Hp. cbn.
    case_goal_decide as [->|Hne].
    + exists sq'. rewrite lookup_insert_eq. simplify_eq. cbn. by rewrite He.
    + exists s. by rewrite lookup_insert_ne.
  - case_goal_decide; [|done]. intros [= <-] Hp. exists (pass dt s). cbn.
    rewrite lookup_fmap, Hp. unfold wait. by rewrite decide_True.
Qed.

(** A job that does not exist appears only by its construction. *)
Lemma program_step_None ev w w' p :
  program_step ev w = Some w' → jobs w !! p = None → ev ≠ PNew p →
  jobs w' !! p = None.
Proof.
  destruct ev as [q|q e|dt]; cbn.
  - case_goal_decide; [|done]. intros [= <-] Hp Hne. cbn.
    rewrite lookup_insert_ne; [done|congruence].
  - destruct (is_wait e); [done|].
    intros (sq & sq' & Hq & He & ->)%on_ptr_Some Hp _. cbn.
    rewrite lookup_insert_ne; [done|congruence].
  - case_goal_decide; [|done]. intros [= <-] Hp _. cbn.
    by rewrite lookup_fmap, Hp.
Qed.
End steps.

(** ** Runs *)

Section runs.
Implicit Types (p q : Ptr) (e : Event) (ev : PEvent) (evs : list PEvent).
Implicit Types (s : System) (w : Program) (i : LoopId).

Lemma project_cons p ev evs :
  project p (ev :: evs) = events_of p ev ++ project p evs.
Proof. reflexivity. Qed.

Lemma elem_of_events_of p e ev :
  e ∈ events_of p ev ↔ ev = POn p e ∨ ∃ dt, ev = PWait dt ∧ e = EWait dt.
Proof.
  destruct ev as [q|q e'|dt]; cbn; [|case_goal_decide as [->|]|];
    rewrite ?list_elem_of_singleton, ?elem_of_nil; naive_solver.
Qed.

(** The job at [p] sees the events at [p] and the waits. *)
Lemma elem_of_project p e evs :
  e ∈ project p evs ↔
  POn p e ∈ evs ∨ ∃ dt, PWait dt ∈ evs ∧ e = EWait dt.
Proof.
  unfold project. rewrite list_elem_of_bind.
  setoid_rewrite elem_of_events_of. naive_solver.
Qed.

(** The job at [p] goes through the events it sees. *)
Lemma run_program_project evs w w' p s :
  run_program evs w = Some w' → jobs w !! p = Some s →
  ∃ s', jobs w' !! p = Some s' ∧ run_events (project p evs) s = Some s'.
Proof.
  revert w s. induction evs as [|ev evs IH]; intros w s.
  - intros [= <-] Hp. by exists s.
  - intros (w1 & Hev & Hevs)%run_program_cons Hp.
    destruct (program_step_project ev w w1 p s Hev Hp) as (s1 & Hp1 & Hs1).
    destruct (IH w1 s1 Hevs Hp1) as (s' & Hp' & Hs').
    exists s'. split; [done|].
    by rewrite project_cons, run_events_app, Hs1.
Qed.

(** *** The invariant *)

Lemma program_wf_empty t : program_wf (empty_program t).
Proof. apply map_Forall_empty. Qed.

Lemma program_wf_step ev w w' :
  program_wf w → program_step ev w = Some w' → program_wf w'.
Proof.
  unfold program_wf. intros Hw. destruct ev as [q|q e|dt]; cbn.
  - case_goal_decide; [|done]. intros [= <-]. cbn.
    apply map_Forall_insert_2; [|done]. split; [apply sys_wf_start|done].
  - destruct (is_wait e) eqn:Ee; [done|].
    intros (sq & sq' & Hq & He & ->)%on_ptr_Some. cbn.
    destruct (Hw q sq Hq) as [Hwf Hclock].
    apply map_Forall_insert_2; [|done]. split; [by eapply sys_wf_step|].
    by rewrite (event_step_clock e sq sq').
  - case_goal_decide; [|done]. intros [= <-]. cbn.
    apply map_Forall_fmap. intros q s Hq. destruct (Hw q s Hq) as [Hwf Hclock].
    split; [|by cbn; rewrite Hclock].
    apply (sys_wf_step (EWait dt) s); [done|by apply pass_wait].
Qed.

Lemma program_wf_run evs w w' :
  program_wf w → run_program evs w = Some w' → program_wf w'.
Proof.
  revert w. induction evs as [|ev evs IH]; intros w Hw; [by intros [= <-]|].
  intros (w1 & Hev & Hevs)%run_program_cons. eauto using program_wf_step.
Qed.

(** *** Events at different pointers *)

Lemma run_program_two ev1 ev2 w :
  run_program [ev1; ev2] w = w' ← program_step ev1 w; program_step ev2 w'.
Proof.
  cbn. destruct (program_step ev1 w) as [w1|]; cbn; [|done].
  by destruct (program_step ev2 w1).
Qed.

Lemma on_ptr_commute p q e e' w :
  p ≠ q →
  (w' ← on_ptr p e w; on_ptr q e' w') = (w' ← on_ptr q e' w; on_ptr p e w').
Proof.
  intros Hne. unfold on_ptr.
  destruct (jobs w !! p) as [sp|] eqn:Hp; destruct (jobs w !! q) as [sq|] eqn:Hq;
    cbn; rewrite ?Hp, ?Hq; cbn.
  - destruct (event_step e sp) as [sp'|] eqn:Ep,
      (event_step e' sq) as [sq'|] eqn:Eq; cbn;
      rewrite ?lookup_insert_ne, ?Hp, ?Hq by done; cbn; rewrite ?Ep, ?Eq; cbn;
      [|done..].
    by rewrite insert_insert_ne.
  - destruct (event_step e sp); cbn; [|done].
    by rewrite lookup_insert_ne, Hq by done.
  - destruct (event_step e' sq); cbn; [|done].
    by rewrite lookup_insert_ne, Hp by done.
  - done.
Qed.
End runs.

(** ** Properties *)

Section properties.
Implicit Types (p q : Ptr) (e : Event) (ev : PEvent) (evs : list PEvent).
Implicit Types (s : System) (w : Program) (i : LoopId).


(** Jobs do not interfere: two runs of the program that give the job at [p]
    the same events leave it the same, whatever they do to other jobs and
    whatever jobs they construct. *)
Theorem jobs_do_not_interfere evs1 evs2 w1 w2 w1' w2' p s :
  jobs w1 !! p = Some s → jobs w2 !! p = Some s →
  project p evs1 = project p evs2 →
  run_program evs1 w1 = Some w1' → run_program evs2 w2 = Some w2' →
  jobs w1' !! p = jobs w2' !! p.
Proof.
  intros H1 H2 Hevs Hrun1 Hrun2.
  destruct (run_program_project evs1 w1 w1' p s Hrun1 H1) as (s1 & -> & Hs1).
  destruct (run_program_project evs2 w2 w2' p s Hrun2 H2) as (s2 & -> & Hs2).
  congruence.
Qed.

(** Events at two different pointers commute: either order gives the same
    program, and refuses the same events. *)
Theorem distinct_jobs_commute p q e e' w :
  p ≠ q →
  run_program [POn p e; POn q e'] w = run_program [POn q e'; POn p e] w.
Proof.
  intros Hne. rewrite !run_program_two. cbn.
  destruct (is_wait e) eqn:Ee, (is_wait e') eqn:Ee'; cbn.
  - done.
  - by destruct (on_ptr q e' w).
  - by destruct (on_ptr p e w).
  - by apply on_ptr_commute.
Qed.

(** Every job of a state the program can reach satisfies the invariant
    of its loops, has one active loop at most, and reads the clock of the
    program. *)
Theorem program_keeps_invariant evs t w p s :
  run_program evs (empty_program t) = Some w → jobs w !! p = Some s →
  sys_wf s ∧ (length (active_loops (job s)) ≤ 1)%nat ∧ clock (job s) = now w.
Proof.
  intros Hrun Hp.
  destruct (program_wf_run evs _ w (program_wf_empty t) Hrun p s Hp) as [Hwf Hc].
  split_and!; [done| |done]. apply wf_active_le_1, Hwf.
Qed.

(** A loop runs until it is stopped through its own job: when no method
    is called on the job at [p] and the capability of its loop [i] is not
    invoked, the loop is still active at the end of the run, whatever
    happens to other jobs and however long the run is. *)
Theorem only_its_capability_stops_a_loop evs w w' p i :
  running p i w → run_program evs w = Some w' →
  Forall (λ ev, ¬ stops p i ev) evs →
  running p i w'.
Proof.
  intros (s & Hp & Hi) Hrun Hevs.
  destruct (run_program_project evs w w' p s Hrun Hp) as (s' & Hp' & Hs').
  exists s'. split; [done|]. rewrite Forall_forall in Hevs.
  apply (active_run (project p evs) i s); [done..| |].
  - intros m [Hev|(dt & _ & [=])]%elem_of_project. by apply (Hevs _ Hev).
  - intros cf [Hev|(dt & _ & [=])]%elem_of_project Hcf. by apply (Hevs _ Hev).
Qed.
End properties.

(** ** Evaluation *)

(** Two jobs, each armed every second. *)
Definition arm_events : list PEvent :=
  [PNew 1; PNew 2;
   POn 1 (ECall (MNamed CEverySecond)); POn 2 (ECall (MNamed CEverySecond))].

(** A second later both loops take their tick, and the work of the first
    fails while the work of the second still runs. *)
Definition tick_events : list PEvent :=
  [PWait Second; POn 1 (EBegin 0); POn 2 (EBegin 0); PWait Millisecond;
   POn 1 (EEnd 0 (Failed "boom"))].

(** The same for the first job, with the second left alone. *)
Definition tick_events_1 : list PEvent :=
  [PWait Second; POn 1 (EBegin 0); PWait Millisecond;
   POn 1 (EEnd 0 (Failed "boom"))].

Definition armed_program : Program :=
  default (empty_program 0) (run_program arm_events (empty_program 0)).

Definition first_job : System :=
  default (start 0) (jobs armed_program !! 1%positive).

Definition two_jobs : Program :=
  default (empty_program 0) (run_program tick_events armed_program).

Definition first_job_only : Program :=
  default (empty_program 0) (run_program tick_events_1 armed_program).

Lemma armed_run : run_program arm_events (empty_program 0) = Some armed_program.
Proof. by vm_compute. Qed.

Lemma two_jobs_run : run_program tick_events armed_program = Some two_jobs.
Proof. by vm_compute. Qed.

Lemma first_job_only_run :
  run_program tick_events_1 armed_program = Some first_job_only.
Proof. by vm_compute. Qed.


(** The invocations of two jobs overlap, and the failure of one is in its
    own log only. *)
Example two_jobs_overlap :
  busy <$> jobs two_jobs !! 2%positive = Some [0%nat] ∧
  (length ∘ calls ∘ job) <$> jobs two_jobs !! 1%positive = Some 1%nat ∧
  (log ∘ job) <$> jobs two_jobs !! 1%positive = Some [mkLog 0 "boom"] ∧
  (log ∘ job) <$> jobs two_jobs !! 2%positive = Some [].
Proof. by vm_compute. Qed.

(** Two variables that hold the same pointer name one job: the second
    method called through either stops the loop of the first. *)
Example alias_is_one_job :
  (λ w, (length ∘ active_loops ∘ job) <$> jobs w !! 1%positive) <$>
    run_program [PNew 1; POn 1 (ECall (MNamed CHourly));
               POn 1 (ECall (MNamed CDaily))] (empty_program 0)
    = Some (Some 1%nat).
Proof. by vm_compute. Qed.

(** A method on a pointer to nothing is refused. *)
Example nil_job :
  run_program [POn 1 (ECall (MNamed CHourly))] (empty_program 0) = None.
Proof. by vm_compute. Qed.


Lemma jobs_do_not_interfere_witness :
  jobs two_jobs !! 1%positive = jobs first_job_only !! 1%positive.
Proof.
  apply (jobs_do_not_interfere tick_events tick_events_1 armed_program
           armed_program two_jobs first_job_only 1 first_job);
    [by vm_compute..|apply two_jobs_run|apply first_job_only_run].
Defined.

Lemma distinct_jobs_commute_witness :
  run_program [POn 1 (EBegin 0); POn 2 (EBegin 0)] armed_program =
  run_program [POn 2 (EBegin 0); POn 1 (EBegin 0)] armed_program.
Proof. by apply (distinct_jobs_commute 1 2). Defined.

Lemma program_keeps_invariant_witness :
  sys_wf first_job ∧ (length (active_loops (job first_job)) ≤ 1)%nat ∧
  clock (job first_job) = now armed_program.
Proof.
  apply (program_keeps_invariant arm_events 0 armed_program 1 first_job armed_run).
  by vm_compute.
Defined.

Lemma only_its_capability_stops_a_loop_witness : running 1 0 two_jobs.
Proof.
  apply (only_its_capability_stops_a_loop tick_events armed_program).
  - exists first_job. split; by vm_compute.
  - apply two_jobs_run.
  - unfold tick_events. repeat constructor; cbn; intros H; by destruct_and?.
Defined.
