(* ===== verification/Ticker.v ===== *)
(** * Ticker: Go's [time.Ticker] under a loop

    [RunLoop] and [Interleave] keep, for each loop, the time its next tick
    is due, and move it to the next point of the grid when the loop takes
    a tick.  This file justifies that abstraction against the ticker as
    the [time] package documents it: a timer of the runtime that sends on
    a channel with room for one tick, does not block when the channel is
    full ("the ticker will adjust the time interval or drop ticks to make
    up for slow receivers"), and schedules its next tick past the current
    time.

    The state [Ticker] is the period, the time of the next send, the
    channel and whether the ticker runs.  [send] is the timer firing,
    [receive] is [<-ticker.C], [settle] lets the runtime do at a time what
    it had to do by then, and [take] is the loop taking a tick at a time.
    [loop_of] maps a ticker to the [Loop] of [Schedule]; the theorems show
    that [take] is [fire] of [RunLoop] on the image, and that one late send
    is as good as the sends on time it stands for. *)

From Stdlib Require Import ZArith Lia.
From stdpp Require Import prelude strings.
From S2P Require Import Prelude GoTime Schedule RunLoop.

#[local] Open Scope Z_scope.

(** ** The ticker *)

Record Ticker : Type := mkTicker {
  tk_period : Duration;
  (** the time of the next send *)
  tk_when : Z;
  (** the channel [C]: the tick it holds, by the time it was scheduled for *)
  tk_chan : option Z;
  tk_running : bool;
}.

#[export] Instance Ticker_eq_dec : EqDecision Ticker.
Proof. solve_decision. Defined.

(** [time.NewTicker(d)] at time [now]; it panics on a period that is not
    positive. *)
Definition NewTicker (now : Z) (d : Duration) : result Ticker :=
  if decide (d ≤ 0) then Panic "non-positive interval for NewTicker"
  else Ok (mkTicker d (now + d) None true).

(** The timer fires at time [now]: the tick goes into the channel when
    there is room and is dropped otherwise, and the next send is scheduled
    at the first multiple of the period past [now]. *)
Definition send (now : Z) (t : Ticker) : Ticker :=
  mkTicker (tk_period t)
    (tk_when t + tk_period t * (1 + (now - tk_when t) / tk_period t))
    (match tk_chan t with
     | Some g => Some g
     | None => Some (tk_when t)
     end)
    (tk_running t).

(** The timer has to fire. *)
Definition timer_due (now : Z) (t : Ticker) : Prop :=
  tk_running t = true ∧ tk_when t ≤ now.

#[export] Instance timer_due_dec now t : Decision (timer_due now t).
Proof. unfold timer_due. apply _. Defined.

(** What the runtime has done by time [now]. *)
Definition settle (now : Z) (t : Ticker) : Ticker :=
  if decide (timer_due now t) then send now t else t.

(** [<-ticker.C] when a tick is there. *)
Definition receive (t : Ticker) : option (Z * Ticker) :=
  g ← tk_chan t;
  Some (g, mkTicker (tk_period t) (tk_when t) None (tk_running t)).

(** [ticker.Stop()]: no more sends; the channel is left as it is. *)
Definition Stop (t : Ticker) : Ticker :=
  mkTicker (tk_period t) (tk_when t) (tk_chan t) false.

(** The loop takes a tick at time [now]. *)
Definition take (now : Z) (t : Ticker) : option Ticker :=
  snd <$> receive (settle now t).

(** The loop takes a tick at each time of the list. *)
Fixpoint takes (ss : list Z) (t : Ticker) : option Ticker :=
  match ss with
  | [] => Some t
  | s :: ss' => t' ← take s t; takes ss' t'
  end.

(** [n] sends, each at the time it was scheduled for. *)
Fixpoint on_time (n : nat) (t : Ticker) : Ticker :=
  match n with
  | O => t
  | S n' => on_time n' (send (tk_when t) t)
  end.

(** ** The abstraction *)

(** The time from which the loop finds a tick: the time the tick in the
    channel was scheduled for, or the time of the next send. *)
Definition due (t : Ticker) : Z := default (tk_when t) (tk_chan t).

Definition loop_of (origin : Z) (t : Ticker) : Loop :=
  mkLoop (tk_period t) origin (due t) (negb (tk_running t)).

(** The loop of [RunLoop] fires at each time of the list. *)
Fixpoint fires (ss : list Z) (l : Loop) : option Loop :=
  match ss with
  | [] => Some l
  | s :: ss' =>
    if decide (loop_stop l = false ∧ loop_due l ≤ s) then fires ss' (fire l s)
    else None
  end.

(** Times that do not go back. *)
Fixpoint ascending (now : Z) (ss : list Z) : Prop :=
  match ss with
  | [] => True
  | s :: ss' => now ≤ s ∧ ascending s ss'
  end.

#[export] Instance ascending_dec now ss : Decision (ascending now ss).
Proof. revert now. induction ss as [|s ss IH]; intros now; cbn; apply _. Defined.

(** ** The invariant *)

(** A running ticker armed at [origin], with the runtime settled at
    [now]: the next send is the first point of the grid after [now], and
    a tick in the channel was scheduled on the grid and no later than
    [now]. *)
Record tk_wf (origin now : Z) (t : Ticker) : Prop := mk_tk_wf {
  tkw_period : 0 < tk_period t;
  tkw_origin : origin ≤ now;
  tkw_grid : (tk_when t - origin) mod tk_period t = 0;
  tkw_next : now < tk_when t ≤ now + tk_period t;
  tkw_chan : ∀ g, tk_chan t = Some g →
    (g - origin) mod tk_period t = 0 ∧ origin < g ≤ now;
  tkw_running : tk_running t = true;
}.

(** ** The grid *)

Section grid.
Implicit Types (origin now s p w g : Z).

(** A point of the grid in [(s, s + p]] is the first one after [s]. *)
Lemma grid_first origin p w s :
  0 < p → (w - origin) mod p = 0 → s < w ≤ s + p →
  origin + ((s - origin) / p + 1) * p = w.
Proof.
  intros Hp [k Hk]%Z.mod_divide Hw; [|lia].
  assert ((s - origin) / p = k - 1) as ->; [|lia].
  symmetry. apply (Z.div_unique_pos _ _ _ (s - origin - (k - 1) * p)); lia.
Qed.

(** From a point of the grid at or before [s], the next send is scheduled
    at the first point after [s]. *)
Lemma grid_jump origin p w s :
  0 < p → (w - origin) mod p = 0 → w ≤ s →
  w + p * (1 + (s - w) / p) = origin + ((s - origin) / p + 1) * p.
Proof.
  intros Hp [k Hk]%Z.mod_divide Hw; [|lia].
  replace (s - origin) with (s - w + k * p) by lia.
  rewrite Z.div_add by lia. lia.
Qed.

Lemma grid_after origin p s :
  0 < p →
  (origin + ((s - origin) / p + 1) * p - origin) mod p = 0 ∧
  s < origin + ((s - origin) / p + 1) * p ≤ s + p.
Proof.
  intros Hp. split.
  - replace (_ + _ * p - _) with (((s - origin) / p + 1) * p) by lia.
    apply Z_mod_mult.
  - pose proof (Z.mul_succ_div_gt (s - origin) p Hp).
    pose proof (Z.mul_div_le (s - origin) p Hp). lia.
Qed.
End grid.

(** ** The operations keep the invariant and commute with the abstraction *)

Section refinement.
Implicit Types (origin now s : Z) (t : Ticker) (d : Duration).

Lemma NewTicker_Ok now d :
  0 < d → NewTicker now d = Ok (mkTicker d (now + d) None true).
Proof. intros. unfold NewTicker. by rewrite decide_False by lia. Qed.

Lemma tk_wf_new now d : 0 < d → tk_wf now now (mkTicker d (now + d) None true).
Proof.
  intros Hd. constructor; cbn; try done; try lia.
  replace (now + d - now) with (1 * d) by lia. apply Z_mod_mult.
Qed.

(** The runtime's work is invisible to the loop: the due time stays. *)
Lemma due_settle origin now s t :
  tk_wf origin now t → due (settle s t) = due t.
Proof.
  intros Hwf. unfold settle. case_goal_decide; [|done].
  unfold due, send. cbn. by destruct (tk_chan t).
Qed.

Lemma loop_of_settle origin now s t :
  tk_wf origin now t → loop_of origin (settle s t) = loop_of origin t.
Proof.
  intros Hwf. unfold loop_of. rewrite (due_settle origin now) by done.
  unfold settle. by case_goal_decide.
Qed.

(** After the runtime has settled at a later time the invariant holds at
    that time. *)
Lemma tk_wf_settle origin now s t :
  tk_wf origin now t → now ≤ s → tk_wf origin s (settle s t).
Proof.
  intros [Hp Ho Hg Hn Hc Hr] Hs. unfold settle, timer_due.
  case_goal_decide as [[_ Hw]|Hno].
  - constructor; cbn; try done; try lia.
    + rewrite (grid_jump origin) by done. apply grid_after, Hp.
    + rewrite (grid_jump origin) by done. apply grid_after, Hp.
    + intros g. destruct (tk_chan t) as [g'|] eqn:E.
      * intros [= <-]. destruct (Hc g' eq_refl). split; [done|lia].
      * intros [= <-]. split; [done|lia].
  - assert (s < tk_when t) by (destruct (decide (tk_when t ≤ s)); [tauto|lia]).
    constructor; try done; try lia.
    intros g Hg'. destruct (Hc g Hg'). split; [done|lia].
Qed.

(** A tick is in the channel exactly when the loop's tick is due. *)
Lemma receive_enabled origin s t :
  tk_wf origin s t → is_Some (receive t) ↔ loop_due (loop_of origin t) ≤ s.
Proof.
  intros [Hp Ho Hg Hn Hc Hr]. unfold receive, loop_of, due. cbn.
  destruct (tk_chan t) as [g|] eqn:E; cbn.
  - destruct (Hc g eq_refl). split; [lia|done].
  - split; [by intros [??]|lia].
Qed.

(** Receiving is firing. *)
Lemma receive_fire origin s t g t' :
  tk_wf origin s t → receive t = Some (g, t') →
  loop_of origin t' = fire (loop_of origin t) s ∧ tk_wf origin s t'.
Proof.
  intros [Hp Ho Hg Hn Hc Hr] (g' & E & [= <- <-])%bind_Some. split.
  - unfold loop_of, fire, next_due, due. cbn. f_equal.
    symmetry. by apply grid_first.
  - by constructor.
Qed.

Lemma loop_of_Stop origin t : loop_of origin (Stop t) = stop_loop (loop_of origin t).
Proof. reflexivity. Qed.

(** A stopped ticker sends nothing more. *)
Lemma settle_Stop s t : settle s (Stop t) = Stop t.
Proof. unfold settle, timer_due. by rewrite decide_False by (by intros [? _]). Qed.

(** [take] on a ticker is [fire] on its loop. *)
Lemma take_fire origin now s t :
  tk_wf origin now t → now ≤ s →
  match take s t with
  | Some t' =>
    loop_due (loop_of origin t) ≤ s ∧
    loop_of origin t' = fire (loop_of origin t) s ∧ tk_wf origin s t'
  | None => s < loop_due (loop_of origin t)
  end.
Proof.
  intros Hwf Hs. pose proof (tk_wf_settle origin now s t Hwf Hs) as Hwf'.
  pose proof (receive_enabled origin s _ Hwf') as Hen.
  rewrite (loop_of_settle origin now) in Hen by done.
  unfold take. destruct (receive (settle s t)) as [[g t']|] eqn:E; cbn.
  - destruct (receive_fire origin s _ g t' Hwf' E) as [Hl Hwf''].
    rewrite (loop_of_settle origin now) in Hl by done.
    split_and!; [by apply Hen|done..].
  - destruct (decide (loop_due (loop_of origin t) ≤ s)) as [Hd|Hd];
      [|cbn in *; lia].
    by apply Hen in Hd as [??].
Qed.

(** A run of takes is the run of fires. *)
Lemma takes_fires origin now ss t :
  tk_wf origin now t → ascending now ss →
  loop_of origin <$> takes ss t = fires ss (loop_of origin t).
Proof.
  revert now t. induction ss as [|s ss IH]; intros now t Hwf; [done|].
  intros [Hs Hss]. cbn [takes fires].
  pose proof (take_fire origin now s t Hwf Hs) as Ht.
  assert (loop_stop (loop_of origin t) = false) as Hrun
    by (cbn; by rewrite (tkw_running _ _ _ Hwf)).
  destruct (take s t) as [t'|]; cbn.
  - destruct Ht as (Hd & Hl & Hwf'). rewrite decide_True by done.
    rewrite <-Hl. by apply (IH s).
  - cbn in Ht. by rewrite decide_False by lia.
Qed.
End refinement.

(** ** Late sends *)

Section late.
Implicit Types (now : Z) (t : Ticker) (n : nat).

Lemma send_send now t :
  0 < tk_period t → tk_when t ≤ now - tk_period t →
  send now (send (tk_when t) t) = send now t.
Proof.
  intros Hp Hw. unfold send. cbn.
  rewrite Z.sub_diag, Z.div_0_l, Z.add_0_r, Z.mul_1_r by lia. f_equal.
  - replace (now - (tk_when t + tk_period t))
      with (now - tk_when t + (-1) * tk_period t) by lia.
    rewrite Z.div_add by lia. lia.
  - by destruct (tk_chan t).
Qed.

Lemma send_on_time n now t :
  0 < tk_period t → tk_when t ≤ now →
  (now - tk_when t) / tk_period t = Z.of_nat n →
  send now t = on_time (S n) t.
Proof.
  revert t. induction n as [|n IH]; intros t Hp Hw Hn; cbn [on_time].
  - unfold send. by rewrite Hn, Z.sub_diag, Z.div_0_l by lia.
  - assert (tk_period t ≤ now - tk_when t).
    { pose proof (Z.mul_div_le (now - tk_when t) (tk_period t) Hp). nia. }
    rewrite <-(send_send now t) by lia.
    apply IH; cbn; rewrite ?Z.sub_diag, ?Z.div_0_l by lia; [done|lia|].
    replace (now - (tk_when t + tk_period t * (1 + 0)))
      with (now - tk_when t + (-1) * tk_period t) by lia.
    rewrite Z.div_add by lia. lia.
Qed.
End late.

(** ** Properties *)

Section properties.
Implicit Types (origin now s : Z) (t : Ticker) (d : Duration) (ss : list Z).
Implicit Types (j : taskJob) (m : Method).

(** The loop of [RunLoop] is the ticker seen from the loop.  A ticker made
    at [now] is the loop armed at [now]; and whenever the loop takes ticks
    at times that do not go back, with the ticker it can take a tick
    exactly when the tick of its image is due, and the ticker it is left
    with is the image fired: ticks the loop was too slow for are dropped,
    the one in the channel is taken at once, and the next comes at the
    first point of the grid after the time of the take. *)
Theorem ticker_refines_loop now d ss :
  0 < d → ascending now ss →
  ∃ t, NewTicker now d = Ok t ∧ loop_of now t = new_loop now d ∧
       loop_of now <$> takes ss t = fires ss (new_loop now d).
Proof.
  intros Hd Hss. eexists. split; [by apply NewTicker_Ok|]. split; [done|].
  apply (takes_fires now now); [by apply tk_wf_new|done].
Qed.

(** One send that comes late is the sends on time it stands for: firing
    the timer once at [now] leaves the ticker as firing it at each
    scheduled time up to [now] would, the first of these ticks in the
    channel (when there was room) and the others dropped. *)
Theorem late_send_is_on_time_sends now t :
  0 < tk_period t → tk_when t ≤ now →
  send now t = on_time (S (Z.to_nat ((now - tk_when t) / tk_period t))) t.
Proof.
  intros Hp Hw. apply send_on_time; [done..|].
  rewrite Z2Nat.id; [done|]. apply Z.div_pos; lia.
Qed.

(** C17. The loop a public method arms is a Go ticker seen from the loop.
    The interval the method stores is positive, so [time.NewTicker] does
    not panic, also for [Every] of zero or of a negative duration; the
    loop the job records is the image of that ticker; and at whatever
    times the loop takes its ticks afterwards, taking them from the ticker
    and firing the recorded loop agree, step for step. *)
Theorem armed_loop_refined_by_ticker m j :
  method_ok m →
  let j' := exec (method_run m) j in
  ∃ t, NewTicker (clock j) (interval j') = Ok t ∧
       loops j' !! length (loops j) = Some (loop_of (clock j) t) ∧
       ∀ ss, ascending (clock j) ss →
             loop_of (clock j) <$> takes ss t = fires ss (loop_of (clock j) t).
Proof.
  intros Hm. cbn zeta. rewrite exec_method, arm_interval, arm_lookup_new.
  pose proof (method_interval_range m Hm) as [Hlo _].
  pose proof Millisecond_pos.
  eexists. split; [apply NewTicker_Ok; lia|]. split; [done|].
  intros ss Hss. apply (takes_fires _ (clock j)); [apply tk_wf_new; lia|done].
Qed.
End properties.

(** ** Evaluation *)

(** A ticker of one second made at time 0. *)
Definition second_ticker : Ticker := mkTicker Second Second None true.

(** The work runs from 1 s to 3.5 s: the tick of 2 s waits in the channel,
    the tick of 3 s is dropped, the loop takes the waiting tick at 3.5 s
    and the next at 4 s. *)
Example slow_receiver :
  loop_due <$> (loop_of 0 <$> takes [Second; 3500 * Millisecond] second_ticker)
    = Some (4 * Second) ∧
  is_Some (takes [Second; 3500 * Millisecond; 4 * Second] second_ticker) ∧
  takes [Second; 3500 * Millisecond; 3600 * Millisecond] second_ticker = None.
Proof. split_and!; [by vm_compute|by vm_compute; eexists|by vm_compute]. Qed.

Example NewTicker_panics :
  NewTicker 0 0 = Panic "non-positive interval for NewTicker".
Proof. reflexivity. Qed.

Lemma ticker_refines_loop_witness :
  ∃ t, NewTicker 0 Second = Ok t ∧ loop_of 0 t = new_loop 0 Second ∧
       loop_of 0 <$> takes [Second; 3500 * Millisecond; 4 * Second] t
         = fires [Second; 3500 * Millisecond; 4 * Second] (new_loop 0 Second).
Proof.
  apply (ticker_refines_loop 0 Second [Second; 3500 * Millisecond; 4 * Second]);
    by vm_compute.
Defined.

Lemma late_send_is_on_time_sends_witness :
  send (3500 * Millisecond) second_ticker = on_time 3 second_ticker.
Proof.
  apply (late_send_is_on_time_sends (3500 * Millisecond) second_ticker);
    by vm_compute.
Defined.

Lemma armed_loop_refined_by_ticker_witness :
  ∃ t, NewTicker 0 (interval (exec (method_run (MEvery (-5))) (NewTaskJob 0)))
         = Ok t ∧
       loops (exec (method_run (MEvery (-5))) (NewTaskJob 0)) !! 0%nat
         = Some (loop_of 0 t) ∧
       ∀ ss, ascending 0 ss →
             loop_of 0 <$> takes ss t = fires ss (loop_of 0 t).
Proof.
  apply (armed_loop_refined_by_ticker (MEvery (-5)) (NewTaskJob 0)).
  by vm_compute.
Defined.
