(* ===== verification/LoopTree.v ===== *)
(** * LoopTree: the loop of a job as a program

    The specification gives the loop of a job as an algorithm: wait for
    the ticker or for the stop signal; on a tick invoke the work callable
    and report its failure to the logging collaborator; on the stop
    signal stop the ticker and leave.  [RunLoop] describes the effect of
    that algorithm on the state of the job.  Here the algorithm itself is
    a program, an interaction tree whose events are what the loop asks of
    its environment ([LoopE]): the [select] on the two channels, the
    invocation of the work callable, the report, the stop of the ticker.

    - [run_tree] is the loop, [round] one round of it.
    - A trace of the loop is a sequence of events with the answers the
      environment gave.  [monitor] is the protocol of the loop as an
      automaton on the answered events ([Ev]); every trace of [run_tree]
      is accepted by it, for every environment, and every word it
      accepts is a trace.
    - [handle] is the environment [RunLoop] describes: the ticker of the
      loop, a work callable that takes time, a caller who invokes the
      capability at a given time or never.  Run against it the loop is
      the scheduler [advance] followed by the cancellation, and it
      diverges when the capability is never invoked. *)

From Stdlib Require Import ZArith Lia.
From stdpp Require Import prelude strings.
From ITree Require Import ITree ITreeFacts Interp.Traces Events.StateFacts
  Props.HasPost Props.Infinite Props.EuttNoRet.
From S2P Require Import Prelude GoTime Schedule RunLoop ForLoop.

#[local] Open Scope Z_scope.

(** The interpretation of a tree by a handler into a state monad. *)
#[local] Abbreviation interp_state := ITree.Events.State.interp_state.

(** ** The program *)

(** What a [select] on the channel of the ticker and on the stop signal
    returns. *)
Inductive Signal : Type := OnTick | OnStop.

#[export] Instance Signal_eq_dec : EqDecision Signal.
Proof. solve_decision. Defined.

(** The events of the loop, each with the type of its answer.  A failure
    or a panic of the work callable is recovered at the boundary of the
    loop: [Invoke] answers [Failed]. *)
Variant LoopE : Type → Type :=
  | Select : LoopE Signal
  | Invoke : LoopE Outcome
  | Report (err : string) : LoopE unit
  | StopTicker : LoopE unit.

(** What the loop does with the outcome of an invocation. *)
Definition report_outcome (o : Outcome) : itree LoopE unit :=
  match o with
  | Done => Ret tt
  | Failed err => ITree.trigger (Report err)
  end.

(** One round of the loop: [inl] to go on, [inr] to leave. *)
Definition round : itree LoopE (unit + unit) :=
  ITree.bind (ITree.trigger Select) (λ sig,
    match sig with
    | OnTick =>
      ITree.bind (ITree.trigger Invoke) (λ o,
        ITree.bind (report_outcome o) (λ _, Ret (inl tt)))
    | OnStop =>
      ITree.bind (ITree.trigger StopTicker) (λ _, Ret (inr tt))
    end).

(** [for { select { case <-ticker.C: ...; case <-stop: ...; return } }] *)
Definition run_tree : itree LoopE unit := ITree.iter (λ _, round) tt.

(** ** The protocol *)

(** An event with its answer. *)
Inductive Ev : Type :=
  | ESelect (sig : Signal)
  | EInvoke (o : Outcome)
  | EReport (err : string)
  | EStopTicker.

#[export] Instance Ev_eq_dec : EqDecision Ev.
Proof. solve_decision. Defined.

Definition answered {X : Type} (e : LoopE X) : X → Ev :=
  match e with
  | Select => ESelect
  | Invoke => EInvoke
  | Report err => λ _, EReport err
  | StopTicker => λ _, EStopTicker
  end.

(** The answered events of a trace, in order. *)
Fixpoint history (tr : @trace LoopE unit) : list Ev :=
  match tr with
  | TEventResponse e x tr' => answered e x :: history tr'
  | _ => []
  end.

(** Where the loop stands: before its [select], before the invocation,
    before the report of a failure, before the stop of the ticker, or
    gone. *)
Inductive Stage : Type :=
  | AtSelect
  | AtInvoke
  | AtReport (err : string)
  | AtStopTicker
  | Gone.

#[export] Instance Stage_eq_dec : EqDecision Stage.
Proof. solve_decision. Defined.

(** The one event the loop performs at a stage, and where it stands
    after the answer. *)
Definition monitor (st : Stage) (ev : Ev) : option Stage :=
  match st, ev with
  | AtSelect, ESelect OnTick => Some AtInvoke
  | AtSelect, ESelect OnStop => Some AtStopTicker
  | AtInvoke, EInvoke Done => Some AtSelect
  | AtInvoke, EInvoke (Failed err) => Some (AtReport err)
  | AtReport err, EReport err' => if decide (err = err') then Some AtSelect else None
  | AtStopTicker, EStopTicker => Some Gone
  | _, _ => None
  end.

Fixpoint monitor_run (st : Stage) (evs : list Ev) : option Stage :=
  match evs with
  | [] => Some st
  | ev :: evs' => st' ← monitor st ev; monitor_run st' evs'
  end.

(** The loop at a stage. *)
Definition next_round (r : unit + unit) : itree LoopE unit :=
  match r with
  | inl _ => Tau run_tree
  | inr _ => Ret tt
  end.

Definition stage_tree (st : Stage) : itree LoopE unit :=
  match st with
  | AtSelect => run_tree
  | AtInvoke =>
    Vis Invoke (λ o,
      ITree.bind (ITree.bind (report_outcome o) (λ _, Ret (inl tt))) next_round)
  | AtReport err => Vis (Report err) (λ _, Tau run_tree)
  | AtStopTicker => Vis StopTicker (λ _, Ret tt)
  | Gone => Ret tt
  end.

(** The loop at a stage, as its first event and what follows the
    answer. *)
Definition perform (st : Stage) : itree LoopE unit :=
  match st with
  | AtSelect =>
    Vis Select (λ sig,
      stage_tree (match sig with OnTick => AtInvoke | OnStop => AtStopTicker end))
  | AtInvoke =>
    Vis Invoke (λ o,
      stage_tree (match o with Done => AtSelect | Failed err => AtReport err end))
  | AtReport err => Vis (Report err) (λ _, stage_tree AtSelect)
  | AtStopTicker => Vis StopTicker (λ _, stage_tree Gone)
  | Gone => Ret tt
  end.

(** An event with its answer, without the type of the answer. *)
Definition packed (p : {T : Type & (LoopE T * T)%type}) : Ev :=
  answered (projT2 p).1 (projT2 p).2.

(** ** The environment of [RunLoop] *)

Section environment.
Context (i : LoopId) (work : Work) (cancel_at : option Z).

(** The caller has not invoked the capability by the time [t]. *)
Definition not_cancelled (t : Z) : Prop :=
  match cancel_at with
  | Some c => t ≤ c
  | None => True
  end.

#[export] Instance not_cancelled_dec t : Decision (not_cancelled t).
Proof. unfold not_cancelled. destruct cancel_at; apply _. Defined.

(** The caller invokes the capability, at the time chosen or, when the
    clock has passed it, at once. *)
Definition leave (j : taskJob) : taskJob :=
  match cancel_at with
  | Some c => exec (call_cancel (mkCancel i)) (with_clock (Z.max (clock j) c) j)
  | None => j
  end.

(** [select]: the tick of the ticker when the loop is not stopped and
    the caller has not invoked the capability by the time the tick is
    delivered, the stop signal otherwise.  The tick is delivered when it
    is due or, when the loop was busy then, as soon as the loop waits
    again; the ticker is armed for the next tick.  A tick and a stop
    signal that are ready together: the tick. *)
Definition on_select (j : taskJob) : taskJob * Signal :=
  match loops j !! i with
  | Some l =>
    let start := Z.max (clock j) (loop_due l) in
    if decide (loop_stop l = false ∧ not_cancelled start) then
      (with_loops (<[i := fire l start]> (loops j)) (with_clock start j), OnTick)
    else (leave j, OnStop)
  | None => (leave j, OnStop)
  end.

(** The invocation of the work callable: it takes the time and has the
    outcome [work] gives to the invocations made so far. *)
Definition on_invoke (j : taskJob) : taskJob * Outcome :=
  let '(dur, o) := work (length (calls j)) in
  (with_calls (mkCall i (clock j) dur o :: calls j)
     (with_clock (clock j + dur) j), o).

(** The logging collaborator. *)
Definition on_report (err : string) (j : taskJob) : taskJob * unit :=
  (with_log (mkLog i err :: log j) j, tt).

Definition handle (T : Type) (e : LoopE T)
    : Monads.stateT taskJob (itree void1) T :=
  λ j,
    match e in LoopE T return itree void1 (taskJob * T) with
    | Select => Ret (on_select j)
    | Invoke => Ret (on_invoke j)
    | Report err => Ret (on_report err j)
    | StopTicker => Ret (j, tt)
    end.

(** One round of the loop in this environment: the job at the next
    round, or the job the loop leaves behind. *)
Definition handled_round (j : taskJob) : taskJob + taskJob * unit :=
  match on_select j with
  | (j1, OnTick) =>
    let '(j2, o) := on_invoke j1 in
    inl (match o with Done => j2 | Failed err => (on_report err j2).1 end)
  | (j1, OnStop) => inr (j1, tt)
  end.
End environment.

(** ** Traces of trees *)

Section traces.
Context {E : Type → Type} {R : Type}.
Implicit Types (t : itree E R) (tr : @trace E R).

(** A tree that has returned performs no event. *)
Lemma is_trace_Ret_response {X} (r : R) (e : E X) x tr :
  ¬ is_trace (Ret r : itree E R) (TEventResponse e x tr).
Proof. intros H. red in H. cbn in H. inversion H. Qed.

(** A tree that performs an event has not returned. *)
Lemma is_trace_Vis_ret {X} (e : E X) (k : X → itree E R) r :
  ¬ is_trace (Vis e k) (TRet r).
Proof. intros H. red in H. cbn in H. inversion H. Qed.

(** The first event of a trace is the event of the tree, and the rest of
    the trace is a trace of what follows the answer. *)
Lemma is_trace_Vis_response {X Y} (e : E X) (k : X → itree E R)
    (e' : E Y) (y : Y) tr :
  is_trace (Vis e k) (TEventResponse e' y tr) →
  ∃ x, existT X (e, x) = existT Y (e', y) :> {T : Type & (E T * T)%type} ∧
       is_trace (k x) tr.
Proof.
  intros H. red in H. cbn in H. inversion H; subst.
  repeat match goal with
         | H : existT _ _ = existT _ _ |- _ =>
           apply Eqdep.EqdepTheory.inj_pair2 in H
         end; subst.
  by eexists.
Qed.

Lemma is_trace_Vis {X} (e : E X) (k : X → itree E R) x tr :
  is_trace (k x) tr → is_trace (Vis e k) (TEventResponse e x tr).
Proof. intros H. red. cbn. by constructor. Qed.

Lemma is_trace_eutt t t' tr : t ≈ t' → is_trace t tr → is_trace t' tr.
Proof. intros Ht. by apply eutt_trace_eq. Qed.
End traces.

(** ** One step of the program *)

Section steps.
Implicit Types (st : Stage) (ev : Ev) (evs : list Ev).
Implicit Types (tr : @trace LoopE unit).

Lemma run_tree_unfold :
  run_tree ≈
    Vis Select (λ sig,
      match sig with
      | OnTick => stage_tree AtInvoke
      | OnStop => stage_tree AtStopTicker
      end).
Proof.
  unfold run_tree at 1. rewrite unfold_iter. unfold round.
  rewrite bind_bind, bind_trigger. apply eqit_Vis. intros [].
  - rewrite bind_bind, bind_trigger. cbn. apply eqit_Vis. intros o.
    eapply eutt_clo_bind; [reflexivity|]. intros ? [[]|[]] ->; reflexivity.
  - rewrite bind_bind, bind_trigger. cbn. apply eqit_Vis. intros [].
    rewrite bind_ret_l. reflexivity.
Qed.

Lemma stage_tree_perform st : stage_tree st ≈ perform st.
Proof.
  destruct st; cbn [stage_tree perform]; try reflexivity.
  - rewrite run_tree_unfold. apply eqit_Vis. intros []; reflexivity.
  - apply eqit_Vis. intros [|err]; cbn.
    + rewrite !bind_ret_l. cbn. by rewrite tau_eutt.
    + rewrite bind_bind, bind_trigger. apply eqit_Vis. intros [].
      rewrite bind_ret_l. cbn. by rewrite tau_eutt.
  - apply eqit_Vis. intros []. by rewrite tau_eutt.
Qed.

(** The first event of a trace is the event of the stage, and the rest
    is a trace of the next stage. *)
Lemma stage_trace_step st {X} (e : LoopE X) x tr :
  is_trace (stage_tree st) (TEventResponse e x tr) →
  ∃ st', monitor st (answered e x) = Some st' ∧ is_trace (stage_tree st') tr.
Proof.
  intros H%(is_trace_eutt _ _ _ (stage_tree_perform st)).
  destruct st; cbn [perform] in H;
    [..|by apply is_trace_Ret_response in H];
    apply is_trace_Vis_response in H as (x0 & Heq%(f_equal packed) & H);
    unfold packed in Heq; cbn in Heq; rewrite <-Heq; eexists;
    (split; [|exact H]).
  - by destruct x0.
  - by destruct x0.
  - cbn. by rewrite decide_True.
  - done.
Qed.

Lemma stage_trace_ret st r : is_trace (stage_tree st) (TRet r) → st = Gone.
Proof.
  intros H%(is_trace_eutt _ _ _ (stage_tree_perform st)).
  destruct st; cbn [perform] in H; by try apply is_trace_Vis_ret in H.
Qed.

(** Every trace of the loop follows the protocol, and a trace that ends
    with the return of the loop has reached the last stage. *)
Lemma stage_trace_accepted st tr :
  is_trace (stage_tree st) tr →
  ∃ st', monitor_run st (history tr) = Some st' ∧
         (is_Some (trace_ret tr) → st' = Gone).
Proof.
  revert st. induction tr as [|r|X e|X e x tr IH]; intros st H; cbn.
  - exists st. split; [done|]. by intros [? [=]].
  - exists st. split; [done|]. intros _. by eapply stage_trace_ret.
  - exists st. split; [done|]. by intros [? [=]].
  - apply stage_trace_step in H as (st' & -> & H). cbn. by apply IH.
Qed.

(** Every word of the protocol is the history of a trace: the loop
    takes whatever answer the environment gives. *)
Lemma monitor_perform st ev st' :
  monitor st ev = Some st' →
  ∃ X (e : LoopE X) x k,
    perform st = Vis e k ∧ answered e x = ev ∧ k x = stage_tree st'.
Proof.
  destruct st, ev as [[]|[]| |]; cbn; try done; try intros [= <-].
  - by exists Signal, Select, OnTick; eexists.
  - by exists Signal, Select, OnStop; eexists.
  - by exists Outcome, Invoke, Done; eexists.
  - by exists Outcome, Invoke, (Failed err); eexists.
  - case_decide as Herr; [|done]. intros [= <-]. subst.
    by exists unit, (Report err0), tt; eexists.
  - by exists unit, StopTicker, tt; eexists.
Qed.

Lemma accepted_is_trace st evs st' tl :
  monitor_run st evs = Some st' → is_trace (stage_tree st') tl →
  ∃ tr, is_trace (stage_tree st) tr ∧ history tr = evs ++ history tl ∧
        trace_ret tr = trace_ret tl.
Proof.
  revert st. induction evs as [|ev evs IH]; intros st; cbn.
  - intros [= ->] Htl. by exists tl.
  - intros (st1 & Hm & Hrun)%bind_Some Htl.
    destruct (IH st1 Hrun Htl) as (tr & Htr & Hh & Hr).
    destruct (monitor_perform st ev st1 Hm) as (X & e & x & k & Hp & <- & Hk).
    exists (TEventResponse e x tr). split_and!; [|by cbn; rewrite Hh|done].
    apply (is_trace_eutt (perform st)); [symmetry; apply stage_tree_perform|].
    rewrite Hp. apply is_trace_Vis. by rewrite Hk.
Qed.
End steps.

(** ** The words of the protocol *)

Section protocol.
Implicit Types (st : Stage) (ev : Ev) (h : list Ev).

Lemma monitor_run_app st h1 h2 :
  monitor_run st (h1 ++ h2) = monitor_run st h1 ≫= λ st', monitor_run st' h2.
Proof.
  revert st. induction h1 as [|ev h1 IH]; intros st; cbn; [done|].
  destruct (monitor st ev); cbn; [apply IH|done].
Qed.

Lemma monitor_run_split st h1 ev h2 st' :
  monitor_run st (h1 ++ ev :: h2) = Some st' →
  ∃ s1 s2, monitor_run st h1 = Some s1 ∧ monitor s1 ev = Some s2 ∧
           monitor_run s2 h2 = Some st'.
Proof.
  rewrite monitor_run_app. intros (s1 & H1 & H2)%bind_Some. cbn in H2.
  apply bind_Some in H2 as (s2 & ? & ?). by exists s1, s2.
Qed.

(** The last event of a word and the stage before it. *)
Lemma monitor_run_snoc st h st' :
  monitor_run st h = Some st' →
  h = [] ∧ st' = st ∨
  ∃ h0 ev s0, h = h0 ++ [ev] ∧ monitor_run st h0 = Some s0 ∧
              monitor s0 ev = Some st'.
Proof.
  destruct h as [|ev h _] using rev_ind; [intros [= ->]; by left|].
  intros (s1 & s2 & H1 & Hm & [= ->])%monitor_run_split. right.
  by exists h, ev, s1.
Qed.

(** Nothing follows the stop signal but the stop of the ticker. *)
Lemma monitor_run_Gone h st' : monitor_run Gone h = Some st' → h = [].
Proof. by destruct h. Qed.

Lemma monitor_run_AtStopTicker h st' :
  monitor_run AtStopTicker h = Some st' → h = [] ∨ h = [EStopTicker].
Proof.
  destruct h as [|[] h]; cbn; try done; [by left|].
  intros ->%monitor_run_Gone. by right.
Qed.

(** The stage an event leads to, and the stage it comes from. *)
Lemma monitor_stop st st' : monitor st (ESelect OnStop) = Some st' → st' = AtStopTicker.
Proof. destruct st; cbn; by try intros [= <-]. Qed.

Lemma monitor_failed st err st' :
  monitor st (EInvoke (Failed err)) = Some st' → st' = AtReport err.
Proof. destruct st; cbn; by try intros [= <-]. Qed.

Lemma monitor_invoke st o st' : monitor st (EInvoke o) = Some st' → st = AtInvoke.
Proof. by destruct st. Qed.

Lemma monitor_AtReport err ev st' : monitor (AtReport err) ev = Some st' → ev = EReport err.
Proof. destruct ev; cbn; try done. by case_decide; simplify_eq. Qed.

Lemma monitor_to_AtInvoke st ev : monitor st ev = Some AtInvoke → ev = ESelect OnTick.
Proof.
  destruct st, ev as [[]|[]| |]; cbn; try done. by case_decide.
Qed.

Lemma monitor_to_Gone st ev :
  monitor st ev = Some Gone → st = AtStopTicker ∧ ev = EStopTicker.
Proof.
  destruct st, ev as [[]|[]| |]; cbn; try done. by case_decide.
Qed.

Lemma monitor_to_AtStopTicker st ev :
  monitor st ev = Some AtStopTicker → st = AtSelect ∧ ev = ESelect OnStop.
Proof.
  destruct st, ev as [[]|[]| |]; cbn; try done. by case_decide.
Qed.

(** What the protocol says of a word. *)
Lemma protocol_invoke st h1 o h2 st' :
  st ≠ AtInvoke → monitor_run st (h1 ++ EInvoke o :: h2) = Some st' →
  ∃ h0, h1 = h0 ++ [ESelect OnTick].
Proof.
  intros Hst (s1 & s2 & H1 & ->%monitor_invoke & _)%monitor_run_split.
  apply monitor_run_snoc in H1 as [[_ ?]|(h0 & ev & s0 & -> & _ & Hm)]; [done|].
  apply monitor_to_AtInvoke in Hm as ->. by exists h0.
Qed.

Lemma protocol_failed st h1 err ev h2 st' :
  monitor_run st (h1 ++ EInvoke (Failed err) :: ev :: h2) = Some st' →
  ev = EReport err.
Proof.
  intros (s1 & s2 & _ & ->%monitor_failed & H2)%monitor_run_split.
  cbn in H2. apply bind_Some in H2 as (s3 & Hm & _).
  by apply monitor_AtReport in Hm.
Qed.

Lemma protocol_stop st h1 h2 st' :
  monitor_run st (h1 ++ ESelect OnStop :: h2) = Some st' →
  h2 = [] ∨ h2 = [EStopTicker].
Proof.
  intros (s1 & s2 & _ & ->%monitor_stop & H2)%monitor_run_split.
  by eapply monitor_run_AtStopTicker.
Qed.

Lemma protocol_leave st h :
  st ≠ Gone → st ≠ AtStopTicker → monitor_run st h = Some Gone →
  ∃ h0, h = h0 ++ [ESelect OnStop; EStopTicker].
Proof.
  intros Hg Hs H.
  apply monitor_run_snoc in H as [[_ ?]|(h1 & ev & s0 & -> & H & Hm)]; [done|].
  apply monitor_to_Gone in Hm as [-> ->].
  apply monitor_run_snoc in H as [[_ ?]|(h0 & ev & s0 & -> & H & Hm)]; [done|].
  apply monitor_to_AtStopTicker in Hm as [-> ->].
  exists h0. by rewrite <-(assoc_L (++)).
Qed.
End protocol.

(** ** The loop in every environment *)

(** The loop follows its protocol whatever its environment answers:
    every trace of [run_tree] is a word of the protocol.  So an
    invocation of the work callable comes right after a tick, one
    invocation per tick; a failure is reported before anything else
    happens; once the [select] has returned the stop signal the loop
    invokes the work callable no more, it stops the ticker and nothing
    else; and the loop returns only after the stop signal. *)
Theorem loop_follows_protocol tr :
  is_trace run_tree tr →
  let h := history tr in
  is_Some (monitor_run AtSelect h) ∧
  (∀ h1 o h2, h = h1 ++ EInvoke o :: h2 → ∃ h0, h1 = h0 ++ [ESelect OnTick]) ∧
  (∀ h1 err ev h2, h = h1 ++ EInvoke (Failed err) :: ev :: h2 → ev = EReport err) ∧
  (∀ h1 h2, h = h1 ++ ESelect OnStop :: h2 → h2 = [] ∨ h2 = [EStopTicker]) ∧
  (is_Some (trace_ret tr) → ∃ h0, h = h0 ++ [ESelect OnStop; EStopTicker]).
Proof.
  intros (st' & Hrun & Hret)%(stage_trace_accepted AtSelect). cbn zeta.
  split_and!.
  - by eexists.
  - intros h1 o h2 Hh. rewrite Hh in Hrun.
    by apply (protocol_invoke AtSelect h1 o h2 st').
  - intros h1 err ev h2 Hh. rewrite Hh in Hrun. by eapply protocol_failed.
  - intros h1 h2 Hh. rewrite Hh in Hrun. by eapply protocol_stop.
  - intros ->%Hret. by apply (protocol_leave AtSelect).
Qed.

(** The protocol says no more than the loop does: every word of the
    protocol is the history of a trace of the loop, so the loop can tick
    for ever, and it can leave after every round. *)
Theorem protocol_is_complete h st :
  monitor_run AtSelect h = Some st →
  ∃ tr, is_trace run_tree tr ∧ history tr = h ∧
        (st = Gone → trace_ret tr = Some tt).
Proof.
  intros Hrun. destruct (decide (st = Gone)) as [->|Hst].
  - destruct (accepted_is_trace AtSelect h Gone (TRet tt) Hrun)
      as (tr & Htr & Hh & Hr); [by constructor|].
    exists tr. by rewrite Hh, app_nil_r.
  - destruct (accepted_is_trace AtSelect h st TEnd Hrun)
      as (tr & Htr & Hh & Hr); [by constructor|].
    exists tr. by rewrite Hh, app_nil_r.
Qed.

(** A round whose invocation fails and a round that leaves: a trace of
    the loop, which returns. *)
Example failing_round_then_stop :
  ∃ tr, is_trace run_tree tr ∧
    history tr = [ESelect OnTick; EInvoke (Failed "boom"); EReport "boom";
                  ESelect OnStop; EStopTicker] ∧
    trace_ret tr = Some tt.
Proof.
  destruct (protocol_is_complete
    [ESelect OnTick; EInvoke (Failed "boom"); EReport "boom";
     ESelect OnStop; EStopTicker] Gone eq_refl) as (tr & ? & ? & Hret).
  exists tr. by rewrite Hret.
Qed.

(** No environment makes the loop take two ticks without an invocation
    between them, invoke the work callable after the stop signal, or go
    on after a failure without the report. *)
Example no_such_history tr :
  is_trace run_tree tr →
  history tr ≠ [ESelect OnTick; ESelect OnTick] ∧
  history tr ≠ [ESelect OnStop; EStopTicker; ESelect OnTick; EInvoke Done] ∧
  history tr ≠ [ESelect OnTick; EInvoke (Failed "boom"); ESelect OnTick].
Proof.
  intros [[st Hst] _]%loop_follows_protocol.
  split_and!; intros Hh; by rewrite Hh in Hst.
Qed.

(** ** The loop in the environment of [RunLoop] *)

Section handled.
Context (i : LoopId) (work : Work) (cancel_at : option Z).
Implicit Types (j : taskJob) (l : Loop) (fuel : nat).

#[local] Abbreviation handle := (handle i work cancel_at).
#[local] Abbreviation handled_round := (handled_round i work cancel_at).

(** A round of the loop in the environment is one step of a function on
    jobs. *)
Lemma interp_round j :
  interp_state handle round j ≈
    Ret (match handled_round j with
         | inl j' => (j', inl tt)
         | inr (j', _) => (j', inr tt)
         end).
Proof.
  unfold round, LoopTree.handled_round.
  rewrite interp_state_bind, interp_state_trigger. cbn. rewrite bind_ret_l.
  destruct (on_select i cancel_at j) as [j1 [|]]; cbn.
  - rewrite interp_state_bind, interp_state_trigger. cbn. rewrite bind_ret_l.
    destruct (on_invoke i work j1) as [j2 [|err]]; cbn.
    + by rewrite interp_state_bind, interp_state_ret, bind_ret_l, interp_state_ret.
    + rewrite interp_state_bind, interp_state_trigger. cbn.
      by rewrite bind_ret_l, interp_state_ret.
  - rewrite interp_state_bind, interp_state_trigger. cbn.
    by rewrite bind_ret_l, interp_state_ret.
Qed.

(** The loop in the environment is Go's [for] over that function. *)
Lemma loop_handled j : interp_state handle run_tree j ≈ for_tree handled_round j.
Proof.
  unfold run_tree, for_tree.
  rewrite (interp_state_iter'_eutt handle (λ _, round) _ (λ _, interp_round)).
  unfold Basics.iter, MonadIter_stateT0, Basics.iter, MonadIter_itree.
  apply (eutt_iter' (λ sj j', sj = (j', tt))); [|done].
  intros [j1 []] ? [= <-]. cbn. rewrite bind_ret_l. apply eqit_Ret.
  destruct (handled_round j1) as [j2|[j2 []]]; by constructor.
Qed.

(** A result found with fuel is what the loop returns. *)
Lemma returns_handled fuel j r :
  for_fuel handled_round fuel j = Some r →
  returns (interp_state handle run_tree j) r.
Proof.
  intros Hfuel. unfold returns. rewrite loop_handled.
  by eapply for_fuel_returns.
Qed.
End handled.

Section against_scheduler.
Context (i : LoopId) (work : Work).
Implicit Types (j : taskJob) (l : Loop) (fuel : nat) (c : Z)
  (cancel_at : option Z).

(** A round in which the tick is delivered is the tick of [RunLoop]
    after the wait for it. *)
Lemma handled_round_tick cancel_at j l dur o j' :
  loops j !! i = Some l →
  not_cancelled cancel_at (Z.max (clock j) (loop_due l)) →
  work (length (calls j)) = (dur, o) →
  tick i dur o (with_clock (Z.max (clock j) (loop_due l)) j) = Some j' →
  handled_round i work cancel_at j = inl j'.
Proof.
  intros Hi Hc Hw (l' & Hi' & Hstop & _ & _ & ->)%tick_Some.
  cbn in Hi'. simplify_eq.
  unfold handled_round, on_select. rewrite Hi. cbn zeta.
  rewrite decide_True by done. unfold on_invoke. cbn. rewrite Hw.
  by destruct o.
Qed.

(** A round in which no tick can be delivered leaves the loop. *)
Lemma handled_round_stop cancel_at j :
  (∀ l, loops j !! i = Some l →
     ¬ (loop_stop l = false ∧
        not_cancelled cancel_at (Z.max (clock j) (loop_due l)))) →
  handled_round i work cancel_at j = inr (leave i cancel_at j, tt).
Proof.
  intros Hno. unfold handled_round, on_select.
  destruct (loops j !! i) as [l|]; [|done]. cbn zeta.
  by rewrite decide_False by by apply Hno.
Qed.

(** Without a caller who cancels, a round of an active loop goes on with
    an active loop. *)
Lemma handled_round_goes_on j l :
  loops j !! i = Some l → loop_stop l = false →
  ∃ j' l', handled_round i work None j = inl j' ∧
           loops j' !! i = Some l' ∧ loop_stop l' = false.
Proof.
  intros Hi Hstop. pose proof (lookup_lt_Some _ _ _ Hi) as Hlt.
  unfold handled_round, on_select. rewrite Hi. cbn zeta.
  rewrite decide_True by done. unfold on_invoke. cbn.
  destruct (work _) as [dur [|err]]; eexists _, _; (split; [done|]); cbn;
    by rewrite list_lookup_insert_eq.
Qed.

(** The rounds of the loop cancelled at [c] are the ticks of the
    scheduler with the deadline [c], and the cancellation. *)
Lemma for_fuel_advance fuel c j j' :
  cancelFunc j = Some (mkCancel i) →
  advance fuel work c j = Some j' →
  for_fuel (handled_round i work (Some c)) (S fuel) j =
    Some (exec (call_cancel (mkCancel i)) j', tt).
Proof.
  revert j. induction fuel as [|fuel IH]; intros j Hcf; [done|].
  rewrite advance_S. cbn [for_fuel].
  destruct (current_loop j) as [[i' l]|] eqn:Hcur.
  - apply current_loop_Some in Hcur as [? Hi]. assert (i' = i) as -> by congruence.
    cbn zeta. case_goal_decide as [[Hstop Hstart]|Hno].
    + destruct (work (length (calls j))) as [dur o] eqn:Hw.
      destruct (tick i dur o _) as [j1|] eqn:Htick; cbn [mbind option_bind]; [|done].
      rewrite (handled_round_tick (Some c) j l dur o j1) by done.
      apply IH. by apply tick_Some in Htick as (? & _ & _ & _ & _ & ->).
    + intros [= <-]. rewrite handled_round_stop; [done|].
      intros l' ?. by simplify_eq.
  - intros [= <-]. rewrite handled_round_stop; [done|]. intros l Hi.
    by rewrite (proj2 (current_loop_Some j i l)) in Hcur.
Qed.
End against_scheduler.

(** ** What the loop of an armed job does *)


(** C16. The loop of a job is the scheduler of [RunLoop].  A method arms the
    job and returns a capability; the caller invokes the capability at
    the time [c].  Run in the environment of [RunLoop], the loop of the
    specification returns, and the job it leaves behind is the job the
    scheduler computes for the deadline [c], with the loop of the
    capability cancelled. *)
Theorem loop_runs_the_scheduler m j work c cancel :
  method_ok m → run_wf j → work_ok work →
  eval (method_run m) j = Some cancel →
  let j1 := exec (method_run m) j in
  ∃ j', advance (advance_fuel c j1) work c j1 = Some j' ∧
    returns (interp_state (handle (cancel_loop cancel) work (Some c)) run_tree j1)
      (exec (call_cancel cancel) j', tt).
Proof.
  intros Hm Hwf Hwork. rewrite eval_method. intros [= <-]. cbn zeta.
  rewrite exec_method. set (j1 := (arm _ j).2).
  assert (run_wf j1) as Hwf1
    by (by apply run_wf_arm; [apply method_interval_range|]).
  destruct (advance_fuel_enough _ work c j1 Hwork Hwf1 (le_n _)) as [j' Hj'].
  exists j'. split; [done|]. by eapply returns_handled, for_fuel_advance.
Qed.

Lemma loop_runs_the_scheduler_witness :
  ∃ j', advance 3 quick_work (2500 * Millisecond) armed_job = Some j' ∧
    returns (interp_state (handle 0 quick_work (Some (2500 * Millisecond)))
               run_tree armed_job)
      (exec (call_cancel (mkCancel 0)) j', tt).
Proof.
  apply (loop_runs_the_scheduler (MNamed CEverySecond) (NewTaskJob 0)
    quick_work (2500 * Millisecond) (mkCancel 0));
    [done|apply run_wf_New|intros n; by vm_compute|done].
Defined.

(** C39. The only way out of the loop is the cancellation: in the environment
    of [RunLoop] with a caller who never invokes the capability, the
    loop of the job a method has armed never returns, whatever the work
    callable does. *)
Theorem loop_leaves_only_on_cancel m j work cancel :
  eval (method_run m) j = Some cancel →
  diverges (interp_state (handle (cancel_loop cancel) work None) run_tree
              (exec (method_run m) j)).
Proof.
  rewrite eval_method. intros [= <-]. unfold diverges. rewrite loop_handled.
  apply (for_never_breaks _ (λ j', ∃ l,
    loops j' !! length (loops j) = Some l ∧ loop_stop l = false)).
  - intros j1 (l & Hi & Hstop).
    destruct (handled_round_goes_on _ work j1 l Hi Hstop) as (j2 & l2 & ? & ?).
    by eauto.
  - eexists. split; [rewrite exec_method; apply arm_lookup_new|done].
Qed.

Lemma loop_leaves_only_on_cancel_witness :
  diverges (interp_state (handle 0 slow_work None) run_tree armed_job).
Proof.
  by apply (loop_leaves_only_on_cancel (MNamed CEverySecond) (NewTaskJob 0)
    slow_work (mkCancel 0)).
Defined.

(** A work callable whose first invocation fails after two and a half
    seconds; the later ones take a millisecond. *)
Definition fails_once : Work :=
  λ n, match n with
       | O => (2500 * Millisecond, Failed "boom")
       | _ => (Millisecond, Done)
       end.

(** The loop of [EverySecond], cancelled after four and a half
    seconds.  The first invocation starts at the first tick, fails and
    is reported; it ends
    after the ticks of the second and of the third second, of which the
    ticker kept one, so the second invocation starts as soon as the
    first has ended and the third at the fourth second.  The loop
    returns at the cancellation with its loop stopped. *)
Example scenario_fails_once :
  ∃ j', returns (interp_state (handle 0 fails_once (Some (4500 * Millisecond)))
                   run_tree armed_job) (j', tt) ∧
    reverse (call_start <$> calls j') =
      [Second; 3500 * Millisecond; 4 * Second] ∧
    log j' = [mkLog 0 "boom"] ∧ clock j' = 4500 * Millisecond ∧
    phase j' = Cancelled.
Proof.
  eexists. split; [eapply returns_handled with (fuel := 4%nat); by vm_compute|].
  by vm_compute.
Qed.

(** The tick that is due at the time of the cancellation is delivered;
    the next one is not. *)
Example scenario_cancel_at_a_tick :
  ∃ j', returns (interp_state (handle 0 quick_work (Some (2 * Second)))
                   run_tree armed_job) (j', tt) ∧
    reverse (call_start <$> calls j') = [Second; 2 * Second].
Proof.
  eexists. split; [eapply returns_handled with (fuel := 3%nat); by vm_compute|].
  by vm_compute.
Qed.

(** A capability invoked before the first tick: the work callable is
    never invoked. *)
Example scenario_cancel_before_first_tick :
  ∃ j', returns (interp_state (handle 0 quick_work (Some (500 * Millisecond)))
                   run_tree armed_job) (j', tt) ∧
    calls j' = [] ∧ phase j' = Cancelled.
Proof.
  eexists. split; [eapply returns_handled with (fuel := 1%nat); by vm_compute|].
  by vm_compute.
Qed.
